(* ===== verification/_CoqProject ===== *)
-Q . S2P
Prelude.v
Scalar.v
ScalarInstances.v
FloatFormats.v
Tensor.v
TensorOrder.v
NanArithmetic.v
MatrixAccess.v
Examples.v
PivotedCholesky.v
PivotedCholeskySpec.v
PivotedCholeskyProofs.v
PivotedCholeskyInvariants.v
PivotedCholeskyNan.v
PivotedCholeskyOrder.v
PivotedCholeskyEdge.v
Matrix.v
MatrixAlgebra.v
DenseSolver.v
DenseSolverProofs.v
QuadraticForms.v
GreedyDeflation.v
CholeskyTotal.v
Woodbury.v
WoodburyProofs.v
WoodburyFactorProofs.v
WoodburyShift.v
WoodburyFull.v
Batch.v
WoodburyBatch.v
PivotedCholeskyGram.v
PivotedCholeskyPositive.v
PivotedCholeskyResidual.v
PivotedCholeskyPsd.v
PivotedCholeskyRefinement.v
Pipeline.v
Preconditioner.v
LazyAccess.v
PivotedCholeskyBatch.v
PipelineBatch.v
