(* ===== verification/Prelude.v ===== *)
(** * Verification of gpytorch/utils/pivoted_cholesky.py

    The program under verification is the single module
    [src/gpytorch/utils/pivoted_cholesky.py].  It has three functions:

    - [pivoted_cholesky(matrix, max_iter, error_tol)] (lines 7-82): a greedy,
      partial, pivoted Cholesky factorisation of a batch of symmetric
      positive semi-definite matrices.  It keeps four tensors and a counter
      (the low-rank factor [L], the residual diagonal [matrix_diag], the
      [permutation], the per-batch [errors], and [m]) and updates them in
      place in a sequential [while] loop.
    - [woodbury_factor(low_rank_mat, shift)] (lines 85-120): builds the small
      matrix [M = V diag(s) V' + I/scale] and solves [M R = V] with a dense
      Cholesky factorisation.
    - [woodbury_solve(vector, low_rank_mat, woodbury_factor, shift)]
      (lines 123-145): applies the Woodbury identity to solve
      [(diag(shift) + V'V) x = b] using [R].

    The code is written against the tensor library [torch] and the
    [LazyTensor] abstraction of the surrounding package; neither is under
    [src/].  What the program needs of them is modelled here from their
    documented behaviour and is marked as such in the project map.

    ** Layout of the development

    Foundations.

    - [Prelude] (this file): the exception monad [res] in which every
      modelled operation runs (a Python exception is a value [Raise e]),
      its inversion lemmas and tactics ([res_simpl], [simplify_res]), the
      predicate [raises_only] (a computation raises one exception and no
      other), the hint databases, and the list lemmas the components
      share.
    - [Scalar]: the element type of a tensor as a type class [Scalar] of
      operations (the algorithm is generic in it, as the code is generic in
      [dtype]) and the law classes [ExactField] and [ExactSqrt] for exact
      arithmetic, with the order lemmas derived from them.
    - [ScalarInstances]: the instances: [Qc] (exact rationals, executable,
      an [ExactField]; used for witnesses and runs), IEEE binary64 [float]
      (executable, operations only) and [R] (all laws, square root
      included).
    - [FloatFormats]: the element types [torch.float16] and
      [torch.float32] as the IEEE formats [half] and [single] over the
      standard library's [SpecFloat], the conversions [.float()] and
      [.type_as] between them, and the round trip: every half-precision
      number survives the conversion to single precision and back.
    - [NanArithmetic]: what IEEE arithmetic does with NaN, as an interface
      [NanArith] over [Scalar] (operations on NaN give NaN, comparisons
      with NaN are false, the square root of a negative number is NaN),
      its instances for [half], [single] and binary64, and the reductions
      [norm1] and [max_dim] on tensors that hold a NaN; and [InfArith]
      for what a division by zero gives (the reciprocal of a zero is
      infinite, [inf / inf] is NaN), with the same three instances, which
      are instances of [NanOrder] as well; and [ZeroDivArith] for a
      divisor that is zero (the quotient is NaN or infinite, and so is
      what is computed from it), for every binary format and binary64.
    - [Tensor]: the tensor primitives the code calls, with their
      out-of-range behaviour ([index], [set_index], [gather], [scatter],
      [zeros], [arange]), their total counterparts ([gather_t],
      [scatter_t]), the batch-shape arithmetic ([numel], [ravel],
      [unravel], [batch_iters]) and the reductions ([tsum], [norm1],
      [max_dim], [sum_dim0]).
    - [TensorOrder]: what [torch.max] returns when the comparison of the
      element type is transitive and total on the numbers that are not
      NaN (the class [NanOrder]): on a tensor without NaN, an upper bound
      of the tensor at the first position that holds it; and the
      reductions over an [ExactField], where that hypothesis is void and
      [norm1] is invariant under permutation and monotone.
    - [MatrixAccess]: the interface between the factorisation and its input
      matrix as a type class (shape, diagonal, row fetch, standing for the
      [LazyTensor] methods of lines 15-17 and 59-60), its laws
      [MatrixAccessLaws], and the dense instance.
    - [LazyAccess] (listed with the files that use it): the [LazyTensor]
      branch of lines 15-17 and 59-60 as a second instance, a matrix that
      computes its entries on demand and has a diagonal function of its
      own ([_approx_diag]); the relation [access_eq] between matrices that
      answer the interface alike, for which the factorisation is
      [Proper].  The instance is a stand-in written from the methods the
      code calls: the class itself is outside [src/].
    - [Examples]: the concrete matrices of the witnesses and runs.

    [pivoted_cholesky] (lines 7-82).

    - [PivotedCholesky]: the state of the loop ([elem], [state]), one
      definition per group of lines of the loop body ([select_pivot],
      [swap_pivot], [write_pivot], [fetch_rows], [orthogonalize],
      [update_row], [deflate]), the body [step], the test [loop_test], the
      [loop] with fuel and the entry points [pivoted_cholesky_state] and
      [pivoted_cholesky].
    - [PivotedCholeskySpec]: the exception-free reading of one iteration
      ([pre_t], [post_t]), the invariant [elem_wf], and the refinement
      lemmas: on a well-formed state the two readings agree.
    - [PivotedCholeskyProofs]: the state invariant [state_wf] and its
      preservation, the total reading of the body and the loop ([step_t],
      [loop_t], [final_t]), absence of exceptions, termination, the bound
      on the number of rows and the shape of the result.
    - [PivotedCholeskyInvariants]: what every iteration maintains, for
      every element type, by induction over the iterations: rows not yet
      reached are zero, pivots stay, the factor is triangular in pivot
      order, the pivot entries are the square roots of the pivots,
      [errors] is the 1-norm of the diagonal still to be factored.
    - [PivotedCholeskyOrder]: the greedy choice: the pivot is the largest
      remaining diagonal entry, in exact arithmetic and in the IEEE
      formats on a diagonal without NaN ([NanOrder]); over an
      [ExactField], the pivots are non-increasing, and the error does not
      grow while the remaining diagonal is non-negative (and can grow
      otherwise).
    - [PivotedCholeskyGram]: functional correctness over an [ExactField]:
      the Cholesky recurrence of every row ([row_inv]) and the value of the
      deflated diagonal ([diag_inv]) are maintained, hence the rows
      computed reproduce the matrix on its pivot rows and, after [n]
      iterations, [L' L] is the matrix; the rows are linearly independent
      ([rows_independent]).  The hypothesis is that the square roots taken
      were exact and not zero, which positive pivots give over the reals
      and which holds on the rational examples.
    - [PivotedCholeskyPositive]: symmetric positive definite input, where
      that hypothesis holds by itself: every diagonal entry still to be
      factored is positive (the argument of [CholeskyTotal], in pivot
      order), so every pivot is positive, the error is positive while
      columns remain, and with a tolerance that is not positive the loop
      runs [min(max_iter, n)] times; with [max_iter >= n], [L' L] is the
      matrix.  Listed after [CholeskyTotal], whose forms it uses.
    - [PivotedCholeskyResidual]: what the stopping rule of line 42 means.
      The diagonal of [A - L' L] is the deflated diagonal where columns
      remain and zero at the pivots, so its trace is the sum of the
      remaining diagonal, which [errors] bounds: when the loop stops
      before [max_iter] iterations, the trace of the residual of every
      batch element is at most [error_tol]; for positive definite input
      [errors] is that trace.
    - [PivotedCholeskyBatch]: the trajectory of one batch element
      ([elem_run]) depends on the rest of the batch only through the
      number of iterations: the rows a batch element has after [m]
      iterations are the rows of that element factored alone, and for
      positive definite input and a tolerance that is not positive the
      whole result is.
    - [PivotedCholeskyPsd]: symmetric positive semi-definite input, the
      input the module is written for.  The residual [A - L' L] stays
      semi-definite, so for a matrix factored alone with a tolerance that
      is not negative every pivot is positive, every entry of the residual
      is at most [error_tol] when the loop stops on its tolerance, and
      with a tolerance of zero the factor is exact, also for a singular
      matrix.  Listed after [QuadraticForms].
    - [GreedyDeflation]: the abstract specification of the
      factorisation, with no tensors, rows or permutation: a state is the
      residual of the matrix and the list of pivots chosen, and a step
      ([astep], an inductive relation) picks an unchosen coordinate whose
      residual diagonal is positive and largest and subtracts the rank-one
      form of its row.  By induction on the steps: the residual stays
      symmetric and positive semi-definite, its rows at the pivots are
      zero, its trace falls, the machine makes at most [n] steps, it can
      step while an unchosen diagonal entry is positive, and a complete
      run of a semi-definite form leaves the residual zero.  Listed after
      [QuadraticForms].
    - [PivotedCholeskyRefinement]: the loop is that machine.  A batch
      element after [m] iterations stands for the abstract state whose
      residual is [A - L[:m]' L[:m]] and whose pivots are the first [m]
      entries of the permutation; one iteration that chose a positive
      pivot is one step between the states the element stands for (the
      simulation [elem_step_astep]); so the iterations of the function
      are a run of the machine from the matrix, for every element of a
      positive definite batch and for a semi-definite matrix factored
      alone, and with [max_iter >= n] and a tolerance of zero the run is
      complete.  Listed after [PivotedCholeskyPsd].
    - [PivotedCholeskyNan]: in IEEE arithmetic ([NanArith]), a negative
      pivot puts NaN in the row and in the error and ends the loop for the
      whole batch; a NaN on the diagonal ends it before the first
      iteration; a pivot of zero ([ZeroDivArith]) fills the row and the
      error with NaN or infinities.  None of them raises.
    - [PivotedCholeskyEdge]: the inputs on which the loop does not run
      (negative and zero [max_iter], an empty batch, a tolerance already
      met), and the function evaluated on concrete rational and binary64
      matrices, among them the behaviours that the specification does not
      expect (a NaN row from a negative pivot, rows that depend on the
      rest of the batch).

    [woodbury_factor] (lines 85-120) and [woodbury_solve] (lines 123-145).

    - [Matrix]: two-dimensional tensors with their shape, and the torch
      operations on them that the two functions call: [transpose],
      [matmul], [matvec], [eye], [unsqueeze] and elementwise operations
      with broadcasting ([bop]).
    - [MatrixAlgebra]: the laws of finite sums over an [ExactField] and the
      associativity of the products.
    - [DenseSolver]: the interface for [torch.cholesky] and [torch.potrs]
      as a type class, its laws [DenseSolverLaws] (what [potrs] returns for
      the factor of a symmetric [A] solves [A X = B]), and the executable
      instance [chol_solver].
    - [DenseSolverProofs]: [chol_solver] keeps the laws where the square
      root is exact: the factor is lower triangular with [C C' = A], and
      the two substitutions solve the triangular systems.
    - [QuadraticForms]: forms given by their entries ([bform]), positive
      definite and semi-definite ([pd_fun], [psd_fun], kept under a
      permutation of the coordinates); an entry and the value [z' a z] of
      a semi-definite form are bounded by its trace; the residual of a
      partial factorisation of a semi-definite form is semi-definite.
    - [CholeskyTotal]: the number under each square root of a Cholesky
      recurrence is the value of the form at a vector that is not zero
      ([schur_positive]); hence [chol] returns on every symmetric positive
      definite matrix, and conversely what it factors is positive
      definite: on a square symmetric matrix it returns exactly when the
      matrix is positive definite and raises [RuntimeError], and nothing
      else, otherwise.
    - [Woodbury]: [woodbury_factor] and [woodbury_solve] (both branches of
      line 138), and their total readings.
    - [WoodburyProofs]: over an [ExactField], the Woodbury identity entry
      by entry ([woodbury_core], in a section over its hypotheses) and its
      consequence for the code: if [R] solves [M R = V] for the matrix [M]
      that [woodbury_factor] factors, the result [x] of [woodbury_solve]
      satisfies [(diag(shift) + V'V) x = b].  Also: the matrix handed to
      [torch.cholesky], the agreement of the two branches, the
      reassociation of [V' @ R @ y], and the runs, among them a shift with
      a zero entry in binary64.
    - [WoodburyFactorProofs]: the two functions together.  Against
      [DenseSolverLaws], the matrix [woodbury_factor] returns satisfies
      [M R = V], so [woodbury_solve] with it solves the system.  With
      positive shifts [M] is positive definite, so with [chol_solver]
      neither function raises: the contract holds with no hypothesis on
      the solver's result.  For any shift, [woodbury_factor] returns
      exactly when [M] is positive definite and raises [RuntimeError]
      exactly when it is not.
    - [WoodburyFull]: the whole body of [woodbury_factor]: the test of the
      [dtype] at line 112 and the half-precision branch (the class
      [Precision], instances for [half] over [single] and for the other
      types over themselves), and the [print] of line 119 as an output
      event beside the value.  The value is the one of [Woodbury]; in
      exact arithmetic the number printed is zero; the shape is the one of
      [V] in both branches; runs in half precision.
    - [Batch]: tensors with leading batch dimensions (a batch shape and
      the elements over the flattened batch), torch's broadcasting of two
      batch shapes ([broadcast_shapes], [bsource]) and the operations on
      batches ([batch_pure], [batch_map], [batch_zip]).
    - [WoodburyBatch]: the two functions on operands with batch
      dimensions.  The scale of lines 104 and 136 is the maximum over the
      whole batch, so the factor of a batch element depends on the rest of
      the batch; the solution does not.  For positive shifts, of the batch
      shape of the matrices or without batch dimensions and shared by the
      batch, every element of the result solves its system.
    - [WoodburyShift]: what the shift alone decides.  A shift of one
      element is the shift repeated [n] times, for every element type and
      every dense solver.  A shift with a zero entry, in every IEEE
      format: [woodbury_solve] returns a vector of NaN and raises nothing,
      [woodbury_factor] raises only because [torch.cholesky] refuses the
      matrix of NaN it is handed.

    The two halves together.

    - [Pipeline]: the rows [L[..., :m, :]] of a batch element as the
      matrix [V] of the Woodbury functions ([low_rank_of]); for positive
      shifts the composition never raises, and at full rank on a symmetric
      matrix [A] with positive pivots it solves [(A + diag(shift)) x = b].
      For a symmetric positive definite [A], [max_iter >= n] and a
      tolerance that is not positive, all of that is proved with no
      hypothesis on the run.
    - [Preconditioner]: how far the system solved, [L'L + diag(shift)], is
      from the system meant, [A + diag(shift)], for a symmetric positive
      semi-definite [A] factored alone: as quadratic forms the first is
      below the second, and above it less [error_tol * I] when the loop
      stopped on its tolerance; with a tolerance of zero and
      [max_iter >= n] they are the same.
    - [PipelineBatch]: the three calls on a batch
      ([preconditioned_solve]): for symmetric positive definite matrices
      and positive shifts, the element [f] of the result solves
      [(A_f + diag(shift_f)) X = B_f].

    [build], [buildM] and [build_back] at the end of this file are the
    loops that append or prepend one entry at a time; [chol_solver] is
    written with them.

    ** Modelling conventions

    - A tensor of shape [batch_shape + (n,)] is a list over the flattened
      batch (row-major) of lists of length [n].  The state of the
      factorisation groups the slices of [L], [matrix_diag], [permutation]
      and [errors] that belong to one batch element in one record [elem];
      the batch is a list of them.  Every tensor operation of the loop body
      acts along the last dimension, independently per batch element; the
      two places where batch elements interact are modelled as such: the
      loop test [torch.max(errors) > error_tol] and the advanced indexing
      that fetches the pivot rows through [batch_iters]
      (line 58).
    - The statements of the loop body act on the whole batch; the model
      runs lines 43-56, and then lines 63-79, element by element.  Which
      element's exception would come first therefore differs from the
      order of the statements; on a well-formed state no statement raises
      (the refinement of the step).
    - In-place updates ([scatter_], [copy_], slice assignment) are explicit
      state passing.  [L_m] is a view of row [m] of [L]: every write to it
      is a write to [L].
    - An index out of range raises in torch: indexing returns
      [Raise IndexError], [gather] and [scatter] return
      [Raise RuntimeError].  That this never happens on a well-formed input
      is a theorem, not an assumption.
    - The loop is a [Fixpoint] on fuel.  Running out of fuel is the
      distinguished outcome [Raise OutOfFuel].  The test comes before the
      fuel is looked at, so fuel [max_iter - m] is enough from a state with
      counter [m] (the termination theorem); the entry point gives the
      loop [min(max_iter, n)] units, one per possible iteration.
    - Floating-point rounding is not part of the exact-arithmetic theorems:
      they are stated for any [ExactField].  The [float], [half] and
      [single] instances run the same definitions in IEEE arithmetic and
      are used for the behaviours that only exist there (NaN from the
      square root of a negative pivot, overflow in half precision); the
      theorems on NaN are proved for all three formats from [NanArith].
    - The operands of the Woodbury functions with batch dimensions are a
      batch shape and a list of matrices; an operation on two of them
      visits the positions of the broadcast shape in row-major order and
      reads each operand where torch's broadcasting does.  The matrix
      products and elementwise operations inside one batch element are
      those of [Matrix].
    - The rational instance [Qc] has no square roots of its own: runs over
      it use matrices whose pivots are squares of rationals, and the
      theorems that need square roots are stated for [ExactSqrt] and
      witnessed over the reals.
    - The half-precision numbers are finitely many: the round trip is
      proved by inspecting all of them (2047 mantissas, 30 exponents, two
      signs), the other theorems on formats by the shape of the code.
    - Output is a value: [woodbury_factor_full] returns what it printed,
      in order, beside its result.
    - The witnesses and runs use small inputs (a batch of two [3 x 3]
      matrices, [2 x 3] low-rank factors): every theorem is proved for all
      sizes, the inputs only show that its hypotheses can be met.

    ** Not modelled

    - Automatic differentiation and devices.
    - The internals of [LazyTensor]: the matrix is reached through
      [MatrixAccess] only, and the lazy instance is the least object with
      the methods the code calls, not the class of the package.  The
      diagonal (lines 15-19) is a tensor of its own here: whether [diag()]
      returns a view of the matrix, through which the in-place deflation
      of line 76 would write, is decided by code outside [src/].  For a
      lazy matrix whose [_approx_diag] differs from its entries only the
      theorems that do not use [MatrixAccessLaws] hold (termination,
      shape, the invariants of [PivotedCholeskyInvariants]).
    - Batch shapes in [woodbury_solve] other than the shape of the
      matrices for the right-hand sides, and for the shift other than that
      shape or none: [batch_zip] computes every broadcast, the theorems
      cover these two.  [torch.potrs] is taken to broadcast batch
      dimensions like the other operations; the theorems use it on
      operands of one batch shape only.
    - The text [print] writes: the event holds the two values printed, not
      their rendering as a string.
    - Positive semi-definite matrices that are not definite, in a batch
      of more than one matrix: the theorems for them are about a matrix
      factored alone, because in a batch the loop can hand a singular
      matrix a pivot of zero ([PivotedCholeskyNan] has the theorem for
      the IEEE formats, [PivotedCholeskyEdge] a run).  For a
      matrix that is not semi-definite the theorems on the values of the
      factor take the exactness of the square roots met as a hypothesis.
    - The refinement of [GreedyDeflation] is proved in exact arithmetic
      with exact square roots, for the elements whose pivots are
      positive.  In floating point the rows written are rounded, and the
      state an element stands for is not reached by exact deflations; for
      a matrix that is not semi-definite the code goes on with a pivot
      that is not positive where the machine has no step.
    - Rounding: no theorem bounds the error of the binary16, binary32 or
      binary64 runs; of the conversions only the round trip is proved.
      The standard library specifies the operations of a binary format on
      its bit patterns and does not relate them to the real numbers, so
      what is proved of the IEEE formats is what follows from the patterns:
      the order, NaN, infinity, overflow. *)

From stdpp Require Export base tactics numbers option list.

(** * The exception monad *)

(** Python exceptions the modelled code can raise.  [OutOfFuel] is not a
    Python exception: it marks a loop model that was given too little
    fuel. *)
Inductive exn : Set :=
  | IndexError      (* index out of range in an indexing *)
  | RuntimeError    (* torch errors: negative dimension, empty reduction, size mismatch,
                       a Cholesky factor that does not exist *)
  | OutOfFuel.

#[global] Instance exn_eq_dec : EqDecision exn.
Proof. solve_decision. Defined.

Inductive res (A : Type) : Type :=
  | Val (a : A)
  | Raise (e : exn).
Arguments Val {A} a.
Arguments Raise {A} e.

#[global] Instance res_eq_dec {A} `{EqDecision A} : EqDecision (res A).
Proof. solve_decision. Defined.

#[global] Instance res_ret : MRet res := @Val.
#[global] Instance res_bind : MBind res := λ A B f m,
  match m with Val a => f a | Raise e => Raise e end.
#[global] Instance res_fmap : FMap res := λ A B f m,
  match m with Val a => Val (f a) | Raise e => Raise e end.

Definition is_Val {A} (m : res A) : Prop := ∃ a, m = Val a.

#[global] Instance is_Val_dec {A} (m : res A) : Decision (is_Val m).
Proof.
  refine (match m with Val a => left _ | Raise e => right _ end).
  - by exists a.
  - by intros [??].
Defined.

(** [of_option e o]: the value of [o], or the exception [e]. *)
Definition of_option {A} (e : exn) (o : option A) : res A :=
  match o with Some a => Val a | None => Raise e end.

(** [guard_res e b]: continue when [b] holds, raise [e] otherwise. *)
Definition guard_res (e : exn) (b : bool) : res unit :=
  if b then Val () else Raise e.

(** The value of a computation known to succeed, with a default. *)
Definition res_default {A} (d : A) (m : res A) : A :=
  match m with Val a => a | Raise _ => d end.

Create HintDb res discriminated.

Section res_lemmas.
Context {A B : Type}.
Implicit Types (m : res A) (f : A → res B) (g : A → B).

Lemma is_Val_Val (a : A) : is_Val (Val a).
  Proof. by exists a. Qed.

Lemma is_Val_Raise (e : exn) : ¬ is_Val (@Raise A e).
  Proof. by intros [??]. Qed.

Lemma bind_Val m f b : m ≫= f = Val b ↔ ∃ a, m = Val a ∧ f a = Val b.
  Proof.
    destruct m as [a|e]; simpl.
    - split; [by exists a|by intros (?&[= ->]&?)].
    - split; [done|by intros (?&?&?)].
  Qed.

Lemma bind_is_Val m f :
    is_Val (m ≫= f) ↔ ∃ a, m = Val a ∧ is_Val (f a).
  Proof.
    split.
    - intros [b (a&?&?)%bind_Val]. exists a. split; [done|by exists b].
    - intros (a&->&?). done.
  Qed.

Lemma fmap_Val m g b : g <$> m = Val b ↔ ∃ a, m = Val a ∧ b = g a.
  Proof.
    destruct m as [a|e]; simpl.
    - split; [intros [= <-]; by exists a|by intros (?&[= ->]&->)].
    - split; [done|by intros (?&?&?)].
  Qed.

Lemma of_option_Val e (o : option A) a : of_option e o = Val a ↔ o = Some a.
  Proof. destruct o; simpl; split; congruence. Qed.

Lemma of_option_is_Val e (o : option A) : is_Val (of_option e o) ↔ is_Some o.
  Proof.
    destruct o; simpl; split; intros [??]; try done; by eexists.
  Qed.

Lemma res_default_Val d m a : m = Val a → res_default d m = a.
  Proof. by intros ->. Qed.
End res_lemmas.

Lemma bind_Val_l {A B} (a : A) (f : A → res B) : Val a ≫= f = f a.
Proof. done. Qed.

Lemma bind_Raise_l {A B} (e : exn) (f : A → res B) : Raise e ≫= f = Raise e.
Proof. done. Qed.

Lemma fmap_Val_l {A B} (a : A) (g : A → B) : g <$> Val a = Val (g a).
Proof. done. Qed.

(** [res_simpl] runs the binds whose first computation is a value, and
    nothing else. *)
Ltac res_simpl :=
  repeat first [rewrite bind_Val_l | rewrite fmap_Val_l | rewrite bind_Raise_l];
  cbv beta.

Lemma guard_res_Val e b : guard_res e b = Val () ↔ b = true.
Proof. destruct b; simpl; split; congruence. Qed.

#[export] Hint Resolve is_Val_Val : res.

(** [simplify_res] inverts hypotheses that say a monadic computation
    returned a value, and discards the impossible cases. *)
Ltac simplify_res_step :=
  match goal with
  | H : Raise _ = Val _ |- _ => discriminate H
  | H : Val _ = Raise _ |- _ => discriminate H
  | H : Val _ = Val _ |- _ => injection H as H; try subst
  | H : is_Val (Raise _) |- _ => destruct (is_Val_Raise _ H)
  | H : mret _ = Val _ |- _ => injection H as H; try subst
  | H : _ ≫= _ = Val _ |- _ =>
      let a := fresh "a" in let Ha := fresh "Ha" in
      apply bind_Val in H as (a & Ha & H)
  | H : _ <$> _ = Val _ |- _ =>
      let a := fresh "a" in let Ha := fresh "Ha" in
      apply fmap_Val in H as (a & Ha & H)
  | H : of_option _ _ = Val _ |- _ => apply of_option_Val in H
  | H : guard_res _ _ = Val _ |- _ => apply guard_res_Val in H
  end.
Ltac simplify_res := repeat (simplify_res_step; simpl in * ).

(** * Monadic map over a list *)

Section mapM_res.
Context {A B : Type} (f : A → res B).

Lemma mapM_res_Val (l : list A) (k : list B) :
    mapM f l = Val k ↔ Forall2 (λ x y, f x = Val y) l k.
  Proof.
    revert k. induction l as [|x l IH]; intros k; simpl.
    - split; [intros [= <-]; constructor|by inversion 1].
    - split.
      + intros (y&Hy&(k'&Hk'&[= <-])%bind_Val)%bind_Val.
        constructor; [done|by apply IH].
      + inversion 1 as [|?? y k' Hy Hk']; subst.
        rewrite Hy. simpl. apply IH in Hk'. by rewrite Hk'.
  Qed.

Lemma mapM_res_length l k : mapM f l = Val k → length k = length l.
  Proof. intros ?%mapM_res_Val. symmetry. by eapply Forall2_length. Qed.

Lemma mapM_res_lookup l k i x :
    mapM f l = Val k → l !! i = Some x → ∃ y, k !! i = Some y ∧ f x = Val y.
  Proof.
    intros Hk%mapM_res_Val Hx.
    destruct (Forall2_lookup_l _ _ _ _ _ Hk Hx) as (y&?&?). eauto.
  Qed.

Lemma mapM_res_is_Val l : Forall (λ x, is_Val (f x)) l → is_Val (mapM f l).
  Proof.
    induction 1 as [|x l [y Hy] _ [k Hk]]; simpl; [by eexists|].
    rewrite Hy. simpl. rewrite Hk. simpl. by eexists.
  Qed.

Lemma mapM_res_total (g : A → B) l :
    Forall (λ x, f x = Val (g x)) l → mapM f l = Val (g <$> l).
  Proof.
    intros H. apply mapM_res_Val. induction H; constructor; auto.
  Qed.

Lemma mapM_res_app l1 l2 k1 k2 :
    mapM f l1 = Val k1 → mapM f l2 = Val k2 → mapM f (l1 ++ l2) = Val (k1 ++ k2).
  Proof. rewrite !mapM_res_Val. apply Forall2_app. Qed.
End mapM_res.

Lemma mapM_res_fmap {A B C} (f : B → res C) (g : A → B) (l : list A) :
  mapM f (g <$> l) = mapM (f ∘ g) l.
Proof.
  induction l as [|x l IH]; [done|].
  change (mapM f (g <$> x :: l))
    with (f (g x) ≫= λ y, mapM f (g <$> l) ≫= λ k, mret (y :: k)).
  by rewrite IH.
Qed.

(** Zipping two maps of one list. *)
Lemma zip_fmap_diag {A B C} (f : A → B) (g : A → C) (l : list A) :
  zip (f <$> l) (g <$> l) = (λ x, (f x, g x)) <$> l.
Proof.
  induction l as [|x l IH]; [done|].
  change ((f x, g x) :: zip (f <$> l) (g <$> l)
          = (f x, g x) :: ((λ x, (f x, g x)) <$> l)).
  by rewrite IH.
Qed.

Lemma Forall_zip_with_l {A B C} (P : A → Prop) (Q : C → Prop)
    (g : A → B → C) (l1 : list A) (l2 : list B) :
  Forall P l1 → (∀ x y, P x → Q (g x y)) → Forall Q (zip_with g l1 l2).
Proof.
  intros Hl Hg. revert l2.
  induction Hl; intros [|y l2]; simpl; constructor; auto.
Qed.

Lemma mapM_res_ext {A B} (f g : A → res B) l :
  Forall (λ x, f x = g x) l → mapM f l = mapM g l.
Proof. induction 1 as [|x l Hx _ IH]; simpl; [done|]. by rewrite Hx, IH. Qed.

(** * Lists as arrays *)

Section list_lemmas.
Context {A : Type}.
Implicit Types (l k : list A) (i j n : nat).

Lemma lookup_seq_0 n i : i < n → seq 0 n !! i = Some i.
  Proof. intros. by rewrite lookup_seq_lt. Qed.

  (** Every entry of a permutation of [0..n-1] is below [n]. *)
Lemma perm_seq_lt (p : list nat) n i x :
    p ≡ₚ seq 0 n → p !! i = Some x → x < n.
  Proof.
    intros Hp Hx. apply list_elem_of_lookup_2 in Hx.
    rewrite Hp in Hx. apply elem_of_seq in Hx. lia.
  Qed.

Lemma perm_seq_length (p : list nat) n : p ≡ₚ seq 0 n → length p = n.
  Proof. intros ->. apply length_seq. Qed.

Lemma perm_seq_NoDup (p : list nat) n : p ≡ₚ seq 0 n → NoDup p.
  Proof. intros ->. apply NoDup_seq. Qed.

  (** Every number below [n] is at a position of the permutation. *)
Lemma perm_position (p : list nat) n c :
    p ≡ₚ seq 0 n → c < n → ∃ t, t < n ∧ p !!! t = c.
  Proof.
    intros Hp Hc. assert (c ∈ p) as [t Ht]%list_elem_of_lookup.
    { rewrite Hp. apply elem_of_seq. lia. }
    exists t. split.
    - rewrite <-(perm_seq_length _ _ Hp). by eapply lookup_lt_Some.
    - by apply list_lookup_total_correct.
  Qed.

Lemma NoDup_drop (k : nat) (l : list A) : NoDup l → NoDup (drop k l).
  Proof. rewrite <-(take_drop k l) at 1. by intros (_&_&?)%NoDup_app. Qed.

  (** Two positions of a duplicate-free list that hold the same value are
      the same position. *)
Lemma perm_seq_inj (p : list nat) n i j x :
    p ≡ₚ seq 0 n → p !! i = Some x → p !! j = Some x → i = j.
  Proof. intros Hp. eapply NoDup_lookup, perm_seq_NoDup, Hp. Qed.

Lemma lookup_lt_is_Some' l i : i < length l → is_Some (l !! i).
  Proof. apply lookup_lt_is_Some_2. Qed.

Lemma Forall_drop_lookup (P : A → Prop) l n :
    (∀ i x, n ≤ i → l !! i = Some x → P x) → Forall P (drop n l).
  Proof.
    intros H. apply Forall_lookup. intros i x Hx.
    rewrite lookup_drop in Hx. eapply H; [|done]. lia.
  Qed.

Lemma Forall_take_lookup (P : A → Prop) l n :
    (∀ i x, i < n → l !! i = Some x → P x) → Forall P (take n l).
  Proof.
    intros H. apply Forall_lookup. intros i x [Hx ?]%lookup_take_Some. eauto.
  Qed.
End list_lemmas.

#[export] Hint Resolve perm_seq_lt perm_seq_NoDup : res.

(** * Lists built entry by entry *)

(** A loop that appends, for [i = 0 .. n-1], an entry computed from the
    entries before it. *)
Definition build {A} (g : list A → nat → A) (n : nat) : list A :=
  foldl (λ acc i, acc ++ [g acc i]) [] (seq 0 n).

(** The same loop when computing an entry can raise. *)
Definition buildM {A} (g : list A → nat → res A) (n : nat) : res (list A) :=
  foldl (λ racc i, acc ← racc; x ← g acc i; Val (acc ++ [x]))
        (Val []) (seq 0 n).

(** A loop that prepends, for [i = n-1 .. 0], an entry computed from the
    entries after it. *)
Definition build_back {A} (g : nat → list A → A) (n : nat) : list A :=
  foldr (λ i xs, g i xs :: xs) [] (seq 0 n).

(** ** Which exception a computation raises *)

Section raises.
Implicit Types (ex : exn).

(** A computation that raises nothing but [ex]. *)
Definition raises_only (ex : exn) {B} (m : res B) : Prop :=
  ∀ e, m = Raise e → e = ex.

Lemma raises_only_Val ex {B} (b : B) : raises_only ex (Val b).
Proof. by intros e. Qed.

Lemma raises_only_bind ex {B C} (m : res B) (f : B → res C) :
  raises_only ex m → (∀ b, m = Val b → raises_only ex (f b)) →
  raises_only ex (m ≫= f).
Proof.
  intros Hm Hf e. destruct m as [b|e']; simpl; [by apply Hf|].
  intros [= <-]. by apply Hm.
Qed.
End raises.

Section build.
Context {A : Type} `{Inhabited A}.
Implicit Types (l : list A) (n i : nat).

Lemma build_S (g : list A → nat → A) n :
  build g (S n) = build g n ++ [g (build g n) n].
Proof. unfold build. by rewrite seq_S, foldl_app. Qed.

Lemma buildM_S (g : list A → nat → res A) n :
  buildM g (S n) = (acc ← buildM g n; x ← g acc n; Val (acc ++ [x])).
Proof. unfold buildM. by rewrite seq_S, foldl_app. Qed.

(** What a list that [buildM] returned satisfies: entry [i] was computed
    from the [i] entries before it. *)
Lemma buildM_Val (g : list A → nat → res A) n l :
  buildM g n = Val l →
  length l = n ∧ ∀ i, i < n → g (take i l) i = Val (l !!! i).
Proof.
  revert l. induction n as [|n IH]; intros l.
  - intros [= <-]. split; [done|]. intros. lia.
  - rewrite buildM_S. intros (acc&Hacc&(x&Hx&[= <-])%bind_Val)%bind_Val.
    destruct (IH acc Hacc) as [Hlen Hall]. split.
    + rewrite length_app. simpl. lia.
    + intros i Hi. destruct (decide (i = n)) as [->|Hne].
      * rewrite take_app_length' by done.
        by rewrite lookup_total_app_r, Hlen, Nat.sub_diag by lia.
      * rewrite take_app_le, lookup_total_app_l by lia. apply Hall. lia.
Qed.

(** [buildM] returns when every entry can be computed from the entries
    that were computed before it. *)
Lemma buildM_is_Val (g : list A → nat → res A) n :
  (∀ i l, i < n → buildM g i = Val l → is_Val (g l i)) →
  is_Val (buildM g n).
Proof.
  induction n as [|n IH]; intros Hg; [apply is_Val_Val|].
  destruct IH as [l Hl]; [intros i l' ?; apply Hg; lia|].
  destruct (Hg n l ltac:(lia) Hl) as [x Hx].
  rewrite buildM_S, Hl. res_simpl. rewrite Hx. res_simpl. apply is_Val_Val.
Qed.

(** Where no entry raises, [buildM] is [build]. *)
Lemma buildM_build (g' : list A → nat → res A) (g : list A → nat → A) n :
  (∀ l i, i < n → g' l i = Val (g l i)) → buildM g' n = Val (build g n).
Proof.
  induction n as [|n IH]; intros Hg; [done|].
  rewrite buildM_S, build_S, IH by (intros; apply Hg; lia). res_simpl.
  rewrite Hg by lia. by res_simpl.
Qed.

Lemma build_spec (g : list A → nat → A) n :
  length (build g n) = n
  ∧ ∀ i, i < n → build g n !!! i = g (take i (build g n)) i.
Proof.
  induction n as [|n [Hlen Hall]]; [split; [done|intros; lia]|].
  rewrite build_S. split; [rewrite length_app; simpl; lia|].
  intros i Hi. destruct (decide (i = n)) as [->|Hne].
  - rewrite take_app_length' by done.
    by rewrite lookup_total_app_r, Hlen, Nat.sub_diag by lia.
  - rewrite take_app_le, lookup_total_app_l by lia. apply Hall. lia.
Qed.

Lemma foldr_seq_spec (g : nat → list A → A) a len :
  length (foldr (λ i xs, g i xs :: xs) [] (seq a len)) = len
  ∧ ∀ u, u < len →
      foldr (λ i xs, g i xs :: xs) [] (seq a len) !!! u
      = g (a + u) (drop (S u) (foldr (λ i xs, g i xs :: xs) [] (seq a len))).
Proof.
  revert a. induction len as [|len IH]; intros a; [split; [done|intros; lia]|].
  destruct (IH (S a)) as [Hlen Hall]. simpl. split; [by rewrite Hlen|].
  intros [|u] Hu; [by rewrite Nat.add_0_r|].
  replace (a + S u) with (S a + u) by lia. apply Hall. lia.
Qed.

Lemma build_back_spec (g : nat → list A → A) n :
  length (build_back g n) = n
  ∧ ∀ i, i < n →
      build_back g n !!! i = g i (drop (S i) (build_back g n)).
Proof. apply (foldr_seq_spec g 0 n). Qed.
(** [buildM] raises only what computing an entry raises. *)
Lemma buildM_raises_only ex (g : list A → nat → res A) n :
  (∀ l i, raises_only ex (g l i)) → raises_only ex (buildM g n).
Proof.
  intros Hg. induction n as [|n IH]; [by intros e|]. rewrite buildM_S.
  apply raises_only_bind; [done|]. intros acc _.
  apply raises_only_bind; [done|]. intros x _. apply raises_only_Val.
Qed.
End build.
