(* ===== verification/Scalar.v ===== *)
(** * Scalar: the element type of tensors

    The code is generic in the [dtype] of its tensors.  The model is generic
    in a type class [Scalar] of the operations the code applies to tensor
    elements: [+], [-], [*], [/], [sqrt], [abs] and the comparisons behind
    [torch.max] and [>].  Theorems about shapes, indices and control flow
    hold for every instance.  Theorems about values are stated for an
    [ExactField]: an ordered field with decidable order, which excludes
    rounding and NaN.  [ExactSqrt] adds an exact square root. *)

From Stdlib Require Import Ring Field.
From S2P Require Import Prelude.

Class Scalar (F : Type) : Type := {
  szero : F;
  sone : F;
  sadd : F → F → F;
  ssub : F → F → F;
  smul : F → F → F;
  sdiv : F → F → F;
  ssqrt : F → F;
  sabs : F → F;
  sleb : F → F → bool;     (* x <= y *)
  sltb : F → F → bool;     (* x < y *)
  seq_dec :: EqDecision F;
}.

Declare Scope scalar_scope.
Delimit Scope scalar_scope with sc.
Notation "x ⊕ y" := (sadd x y) (at level 50, left associativity) : scalar_scope.
Notation "x ⊖ y" := (ssub x y) (at level 50, left associativity) : scalar_scope.
Notation "x ⊗ y" := (smul x y) (at level 40, left associativity) : scalar_scope.
Notation "x ⊘ y" := (sdiv x y) (at level 40, left associativity) : scalar_scope.
Notation "x ≼ y" := (sleb x y = true) (at level 70, no associativity) : scalar_scope.
Notation "x ≺ y" := (sltb x y = true) (at level 70, no associativity) : scalar_scope.
#[global] Open Scope scalar_scope.

Section derived_ops.
Context {F : Type} `{Scalar F}.

  (** [-x], as [0 - x]. *)
Definition sopp (x : F) : F := szero ⊖ x.

  (** [tensor.reciprocal()], elementwise [1 / x]. *)
Definition sinv (x : F) : F := sone ⊘ x.

  (** [x ** 2]. *)
Definition ssqr (x : F) : F := x ⊗ x.

  (** A value is NaN exactly when it is not below-or-equal itself. *)
Definition sisnan (x : F) : bool := negb (sleb x x).

  (** The larger of two values, the left one on ties. *)
Definition smaxb (x y : F) : F := if sleb y x then x else y.
End derived_ops.

(** ** Exact arithmetic *)

Class ExactField (F : Type) `{Scalar F} : Prop := {
  ef_field : field_theory szero sone sadd smul ssub sopp sdiv sinv (@eq F);
  ef_le_total (x y : F) : x ≼ y ∨ y ≼ x;
  ef_le_trans (x y z : F) : x ≼ y → y ≼ z → x ≼ z;
  ef_le_antisym (x y : F) : x ≼ y → y ≼ x → x = y;
  ef_lt_le (x y : F) : sltb x y = negb (sleb y x);
  ef_add_le (x y z : F) : x ≼ y → x ⊕ z ≼ y ⊕ z;
  ef_mul_nonneg (x y : F) : szero ≼ x → szero ≼ y → szero ≼ x ⊗ y;
  ef_abs (x : F) : sabs x = if sleb szero x then x else sopp x;
}.

Class ExactSqrt (F : Type) `{ExactField F} : Prop := {
  es_sqrt_nonneg (x : F) : szero ≼ x → szero ≼ ssqrt x;
  es_sqrt_sqr (x : F) : szero ≼ x → ssqrt x ⊗ ssqrt x = x;
}.

Create HintDb scalar discriminated.

Section exact_field.
Context {F : Type} `{ExactField F}.
Implicit Types x y z : F.

Lemma ef_ring : ring_theory szero sone sadd smul ssub sopp (@eq F).
  Proof. apply ef_field. Qed.

Add Field scalar_field : ef_field.

Lemma ef_le_refl x : x ≼ x.
  Proof. by destruct (ef_le_total x x). Qed.

Lemma ef_not_nan x : sisnan x = false.
  Proof. unfold sisnan. by rewrite ef_le_refl. Qed.

Lemma ef_le_false x y : sleb x y = false → y ≼ x.
  Proof. intros Hf. destruct (ef_le_total x y); congruence. Qed.

Lemma ef_lt_iff x y : x ≺ y ↔ sleb y x = false.
  Proof. rewrite ef_lt_le. by destruct (sleb y x). Qed.

Lemma ef_lt_le_weak x y : x ≺ y → x ≼ y.
  Proof. intros ?%ef_lt_iff. by apply ef_le_false. Qed.

Lemma ef_le_lt_trans x y z : x ≼ y → y ≺ z → x ≺ z.
  Proof.
    rewrite !ef_lt_iff. intros Hxy Hyz.
    destruct (sleb z x) eqn:Hzx; [|done].
    by rewrite (ef_le_trans z x y) in Hyz.
  Qed.

Lemma ef_lt_le_trans x y z : x ≺ y → y ≼ z → x ≺ z.
  Proof.
    rewrite !ef_lt_iff. intros Hxy Hyz.
    destruct (sleb z x) eqn:Hzx; [|done].
    by rewrite (ef_le_trans y z x) in Hxy.
  Qed.

Lemma ef_lt_irrefl x : sltb x x = false.
  Proof. by rewrite ef_lt_le, ef_le_refl. Qed.

Lemma ef_add_le_l x y z : x ≼ y → z ⊕ x ≼ z ⊕ y.
  Proof.
    intros Hxy. replace (z ⊕ x) with (x ⊕ z) by ring.
    replace (z ⊕ y) with (y ⊕ z) by ring. by apply ef_add_le.
  Qed.

Lemma ef_add_le_mono x1 y1 x2 y2 : x1 ≼ y1 → x2 ≼ y2 → x1 ⊕ x2 ≼ y1 ⊕ y2.
  Proof.
    intros H1 H2. apply ef_le_trans with (y1 ⊕ x2);
      [by apply ef_add_le|by apply ef_add_le_l].
  Qed.

Lemma ef_add_nonneg x y : szero ≼ x → szero ≼ y → szero ≼ x ⊕ y.
  Proof.
    intros Hx Hy. replace szero with (szero ⊕ szero) at 1 by ring.
    by apply ef_add_le_mono.
  Qed.

Lemma ef_sub_le x y : szero ≼ y → x ⊖ y ≼ x.
  Proof.
    intros Hy. replace x with ((x ⊖ y) ⊕ y) at 2 by ring.
    replace (x ⊖ y) with ((x ⊖ y) ⊕ szero) at 1 by ring.
    by apply ef_add_le_l.
  Qed.

Lemma ef_opp_nonneg x : x ≼ szero → szero ≼ sopp x.
  Proof.
    intros Hx. replace szero with (x ⊕ sopp x) by ring.
    replace (sopp x) with (szero ⊕ sopp x) at 2 by ring.
    by apply ef_add_le.
  Qed.

Lemma ef_sub_nonneg x y : y ≼ x → szero ≼ x ⊖ y.
  Proof.
    intros Hx. replace szero with (y ⊕ sopp y) by ring.
    replace (x ⊖ y) with (x ⊕ sopp y) by ring.
    by apply ef_add_le.
  Qed.

Lemma ef_le_of_sub_nonneg x y : szero ≼ x ⊖ y → y ≼ x.
  Proof.
    intros Hx. replace y with (szero ⊕ y) by ring.
    replace x with ((x ⊖ y) ⊕ y) by ring. by apply ef_add_le.
  Qed.

  (** Equality is decided by the order. *)
Lemma ef_eq_dec x y : {x = y} + {x ≠ y}.
  Proof.
    destruct (sleb x y) eqn:Hxy; [destruct (sleb y x) eqn:Hyx|];
      [left; by apply ef_le_antisym|right; intros ->..];
      by rewrite ef_le_refl in *.
  Qed.

  (** A square is never negative. *)
Lemma ef_sqr_nonneg x : szero ≼ ssqr x.
  Proof.
    unfold ssqr. destruct (ef_le_total szero x) as [Hx|Hx].
    - by apply ef_mul_nonneg.
    - replace (x ⊗ x) with (sopp x ⊗ sopp x) by ring.
      apply ef_mul_nonneg; by apply ef_opp_nonneg.
  Qed.

Lemma ef_abs_nonneg x : szero ≼ sabs x.
  Proof.
    rewrite ef_abs. destruct (sleb szero x) eqn:Hx; [done|].
    by apply ef_opp_nonneg, ef_le_false.
  Qed.

Lemma ef_abs_of_nonneg x : szero ≼ x → sabs x = x.
  Proof. intros Hx. by rewrite ef_abs, Hx. Qed.

Lemma ef_le_add_l x y : szero ≼ x → y ≼ x ⊕ y.
  Proof.
    intros Hx. replace y with (szero ⊕ y) at 1 by ring. by apply ef_add_le.
  Qed.

Lemma ef_le_abs x : x ≼ sabs x.
  Proof.
    destruct (ef_le_total szero x) as [Hx|Hx].
    - rewrite ef_abs_of_nonneg by done. apply ef_le_refl.
    - eapply ef_le_trans; [exact Hx|apply ef_abs_nonneg].
  Qed.

  (** A non-negative value below another has the smaller absolute value. *)
Lemma ef_abs_le_of_nonneg x y : szero ≼ x → x ≼ y → sabs x ≼ sabs y.
  Proof.
    intros Hx Hxy. rewrite (ef_abs_of_nonneg x) by done.
    eapply ef_le_trans; [exact Hxy|apply ef_le_abs].
  Qed.

Lemma ef_abs_zero : sabs szero = (szero : F).
  Proof. apply ef_abs_of_nonneg, ef_le_refl. Qed.

Lemma ef_abs_eq_zero x : sabs x = szero → x = szero.
  Proof.
    rewrite ef_abs. destruct (sleb szero x); [done|].
    intros Hx. replace x with (sopp (sopp x)) by ring. rewrite Hx. ring.
  Qed.

Lemma ef_abs_le_zero x : sabs x ≼ szero → x = szero.
  Proof.
    intros Hx. apply ef_abs_eq_zero, ef_le_antisym; [done|apply ef_abs_nonneg].
  Qed.

Lemma ef_one_nonneg : (szero : F) ≼ sone.
  Proof.
    replace sone with (@ssqr F _ sone) by (unfold ssqr; ring).
    apply ef_sqr_nonneg.
  Qed.

Lemma ef_one_neq_zero : (sone : F) ≠ szero.
  Proof. apply ef_field. Qed.

Lemma ef_inv_l x : x ≠ szero → sinv x ⊗ x = sone.
  Proof. apply ef_field. Qed.

Lemma ef_div_mul x y : y ≠ szero → (x ⊘ y) ⊗ y = x.
  Proof. intros. by field. Qed.

  (** [smaxb] is the least upper bound of its arguments. *)
Lemma smaxb_ge_l x y : x ≼ smaxb x y.
  Proof.
    unfold smaxb. destruct (sleb y x) eqn:E; [apply ef_le_refl|].
    by apply ef_le_false.
  Qed.

Lemma smaxb_ge_r x y : y ≼ smaxb x y.
  Proof. unfold smaxb. destruct (sleb y x) eqn:E; [done|apply ef_le_refl]. Qed.

Lemma smaxb_cases x y : smaxb x y = x ∨ smaxb x y = y.
  Proof. unfold smaxb. destruct (sleb y x); auto. Qed.

  (** The strict order. *)
Lemma ef_lt_of_le_neq x y : x ≼ y → x ≠ y → x ≺ y.
  Proof.
    intros Hle Hne. apply ef_lt_iff. destruct (sleb y x) eqn:E; [|done].
    destruct Hne. by apply ef_le_antisym.
  Qed.

Lemma ef_lt_neq x y : x ≺ y → x ≠ y.
  Proof. intros Hlt ->. by rewrite ef_lt_irrefl in Hlt. Qed.

Lemma ef_pos_neq_zero x : szero ≺ x → x ≠ szero.
  Proof. intros Hx%ef_lt_neq. by apply not_eq_sym. Qed.

Lemma ef_sub_lt x y : szero ≺ y → x ⊖ y ≺ x.
Proof.
  intros Hy. apply ef_lt_of_le_neq; [by apply ef_sub_le, ef_lt_le_weak|].
  intros Hxy. apply (ef_pos_neq_zero y Hy).
  replace y with (x ⊖ (x ⊖ y)) by ring. rewrite Hxy. ring.
Qed.

Lemma ef_inv_neq_zero x : x ≠ szero → sinv x ≠ szero.
  Proof.
    intros Hx Hi. apply ef_one_neq_zero.
    rewrite <-(ef_inv_l x Hx), Hi. ring.
  Qed.

Lemma ef_mul_neq_zero x y : x ≠ szero → y ≠ szero → x ⊗ y ≠ szero.
  Proof.
    intros Hx Hy Hxy. apply Hy.
    replace y with (sinv x ⊗ (x ⊗ y)) by (by field). rewrite Hxy. ring.
  Qed.

Lemma ef_mul_pos x y : szero ≺ x → szero ≺ y → szero ≺ x ⊗ y.
  Proof.
    intros Hx Hy. apply ef_lt_of_le_neq.
    - apply ef_mul_nonneg; by apply ef_lt_le_weak.
    - apply not_eq_sym, ef_mul_neq_zero; by apply ef_pos_neq_zero.
  Qed.

Lemma ef_inv_pos x : szero ≺ x → szero ≺ sinv x.
  Proof.
    intros Hx. pose proof (ef_pos_neq_zero x Hx) as Hnz.
    apply ef_lt_of_le_neq; [|by apply not_eq_sym, ef_inv_neq_zero].
    destruct (ef_le_total szero (sinv x)) as [|Hneg]; [done|]. exfalso.
    pose proof (ef_mul_nonneg x (sopp (sinv x)) (ef_lt_le_weak _ _ Hx)
                  (ef_opp_nonneg _ Hneg)) as Hm.
    replace (x ⊗ sopp (sinv x)) with (sopp sone) in Hm by (by field).
    pose proof (ef_add_le _ _ sone Hm) as H1.
    replace (szero ⊕ sone) with sone in H1 by ring.
    replace (sopp sone ⊕ sone) with szero in H1 by ring.
    apply ef_one_neq_zero, ef_le_antisym; [done|apply ef_one_nonneg].
  Qed.

Lemma ef_div_pos x y : szero ≺ x → szero ≺ y → szero ≺ x ⊘ y.
  Proof.
    intros Hx Hy. replace (x ⊘ y) with (x ⊗ sinv y)
      by (field; by apply ef_pos_neq_zero).
    by apply ef_mul_pos, ef_inv_pos.
  Qed.

Lemma ef_div_nonneg x y : szero ≼ x → szero ≺ y → szero ≼ x ⊘ y.
  Proof.
    intros Hx Hy. replace (x ⊘ y) with (x ⊗ sinv y)
      by (field; by apply ef_pos_neq_zero).
    by apply ef_mul_nonneg, ef_lt_le_weak, ef_inv_pos.
  Qed.

Lemma ef_mul_le_l z x y : szero ≼ z → x ≼ y → z ⊗ x ≼ z ⊗ y.
  Proof.
    intros Hz Hxy.
    pose proof (ef_add_le _ _ (z ⊗ x)
      (ef_mul_nonneg z (y ⊖ x) Hz (ef_sub_nonneg _ _ Hxy))) as Ha.
    replace (szero ⊕ z ⊗ x) with (z ⊗ x) in Ha by ring.
    by replace (z ⊗ (y ⊖ x) ⊕ z ⊗ x) with (z ⊗ y) in Ha by ring.
  Qed.

Lemma ef_mul_le_r z x y : szero ≼ z → x ≼ y → x ⊗ z ≼ y ⊗ z.
  Proof.
    intros Hz Hxy. replace (x ⊗ z) with (z ⊗ x) by ring.
    replace (y ⊗ z) with (z ⊗ y) by ring. by apply ef_mul_le_l.
  Qed.

Lemma ef_two_pos : (szero : F) ≺ sone ⊕ sone.
  Proof.
    apply ef_lt_of_le_neq; [apply ef_add_nonneg; apply ef_one_nonneg|].
    intros Hz. apply ef_one_neq_zero.
    apply ef_le_antisym; [|apply ef_one_nonneg].
    rewrite Hz. apply ef_le_add_l, ef_one_nonneg.
  Qed.

  (** Halving an inequality. *)
Lemma ef_le_of_double x y : x ⊕ x ≼ y ⊕ y → x ≼ y.
  Proof.
    intros Hxy. destruct (ef_le_total x y) as [|Hyx]; [done|].
    assert (x ⊕ x = y ⊕ y) as Heq.
    { apply ef_le_antisym; [done|by apply ef_add_le_mono]. }
    assert (x = y) as ->; [|apply ef_le_refl].
    pose proof (ef_pos_neq_zero _ ef_two_pos) as H2.
    replace x with ((x ⊕ x) ⊘ (sone ⊕ sone)) by (field; exact H2).
    rewrite Heq. field. exact H2.
  Qed.
End exact_field.

#[export] Hint Resolve ef_le_refl ef_sqr_nonneg ef_abs_nonneg ef_sub_le
  ef_add_nonneg ef_one_nonneg smaxb_ge_l smaxb_ge_r : scalar.

Section exact_sqrt.
Context {F : Type} `{ExactSqrt F}.

Lemma es_sqrt_zero_iff (x : F) : szero ≼ x → ssqrt x = szero → x = szero.
  Proof.
    intros Hx Hs. rewrite <-(es_sqrt_sqr x Hx), Hs.
    pose proof (@ef_ring F _ _) as R. apply (Ring_theory.ARmul_0_l (Rth_ARth (Eqsth _) (Eq_ext _ _ _) R)).
  Qed.

Lemma es_sqrt_zero : ssqrt szero = (szero : F).
  Proof.
    pose proof (es_sqrt_sqr (szero : F) (ef_le_refl _)) as Hs.
    destruct (decide (ssqrt szero = (szero : F))) as [|Hne]; [done|].
    by destruct (ef_mul_neq_zero _ _ Hne Hne).
  Qed.
End exact_sqrt.
