(* ===== verification/ScalarInstances.v ===== *)
(** * ScalarInstances: three element types

    - [Qc], the rationals in lowest terms: an [ExactField] that computes,
      so that theorems about exact arithmetic have executable witnesses.
      Its square root is exact on squares of rationals (and rounds down
      numerator and denominator elsewhere), so [Qc] is not an [ExactSqrt].
    - [float], IEEE 754 binary64 as the kernel's primitive floats: the
      arithmetic of a [torch.float64] tensor, NaN and infinities included.
      It satisfies none of the exact laws.
    - [R], the real numbers: an [ExactField] and an [ExactSqrt].  It shows
      that the laws are consistent; it does not compute.

    The formats [torch.float16] and [torch.float32] are in [FloatFormats]. *)

From Stdlib Require Import QArith Qcanon Qcabs Floats Reals Lra.
From S2P Require Import Prelude Scalar.

(** ** Rationals *)

Definition Qc_sqrt (x : Qc) : Qc :=
  Q2Qc (Z.sqrt (Qnum x) # Pos.sqrt (Qden x)).

Definition Qc_leb (x y : Qc) : bool := Qle_bool x y.
Definition Qc_ltb (x y : Qc) : bool := negb (Qle_bool y x).

#[export] Instance Qc_scalar : Scalar Qc := {|
  szero := 0%Qc;
  sone := 1%Qc;
  sadd := Qcplus;
  ssub := Qcminus;
  smul := Qcmult;
  sdiv := Qcdiv;
  ssqrt := Qc_sqrt;
  sabs := Qcabs;
  sleb := Qc_leb;
  sltb := Qc_ltb;
|}.

Lemma Qc_leb_le (x y : Qc) : Qc_leb x y = true ↔ (x <= y)%Qc.
Proof. apply Qle_bool_iff. Qed.

Lemma Qc_field_theory :
  field_theory 0%Qc 1%Qc Qcplus Qcmult Qcminus (λ x, 0 - x)%Qc
    Qcdiv (λ x, 1 / x)%Qc eq.
Proof.
  constructor; [constructor|..]; intros; try ring.
  - discriminate.
  - unfold Qcdiv. ring.
  - by field.
Qed.

#[export] Instance Qc_exact : ExactField Qc.
Proof.
  split; simpl.
  - apply Qc_field_theory.
  - intros x y. rewrite !Qc_leb_le. apply Qc_le_total.
  - intros x y z. rewrite !Qc_leb_le. apply Qcle_trans.
  - intros x y. rewrite !Qc_leb_le. apply Qcle_antisym.
  - done.
  - intros x y z. rewrite !Qc_leb_le. by apply Qcplus_le_mono_r.
  - intros x y. rewrite !Qc_leb_le. apply Qcmult_nonneg_nonneg.
  - intros x. unfold sopp; simpl. destruct (Qc_leb 0 x) eqn:E.
    + by apply Qcabs_pos, Qc_leb_le.
    + replace (0 - x)%Qc with (- x)%Qc by ring. apply Qcabs_neg.
      destruct (Qc_le_total x 0%Qc) as [|Hx]; [done|].
      apply Qc_leb_le in Hx. congruence.
Qed.

(** Build a rational from an integer numerator and a positive denominator. *)
Definition qc (n : Z) (d : positive) : Qc := Q2Qc (n # d).

(** Equality of closed terms over [Qc] is decided by computation. *)
Ltac qc_decide := apply (bool_decide_unpack _); vm_compute; exact I.

(** ** IEEE binary64 *)

#[local] Instance spec_float_eq_dec : EqDecision SpecFloat.spec_float.
Proof. solve_decision. Defined.

Definition float_eq_dec : EqDecision float.
Proof.
  intros x y.
  destruct (decide (Prim2SF x = Prim2SF y)) as [E|E].
  - left. rewrite <-(SF2Prim_Prim2SF x), <-(SF2Prim_Prim2SF y). by f_equal.
  - right. by intros ->.
Defined.

#[export] Instance float_scalar : Scalar float := {|
  szero := 0%float;
  sone := 1%float;
  sadd := PrimFloat.add;
  ssub := PrimFloat.sub;
  smul := PrimFloat.mul;
  sdiv := PrimFloat.div;
  ssqrt := PrimFloat.sqrt;
  sabs := PrimFloat.abs;
  sleb := PrimFloat.leb;
  sltb := PrimFloat.ltb;
  seq_dec := float_eq_dec;
|}.

(** ** Real numbers *)

Definition R_leb (x y : R) : bool := if Rle_dec x y then true else false.
Definition R_ltb (x y : R) : bool := negb (R_leb y x).

#[export] Instance R_scalar : Scalar R := {|
  szero := 0%R;
  sone := 1%R;
  sadd := Rplus;
  ssub := Rminus;
  smul := Rmult;
  sdiv := Rdiv;
  ssqrt := sqrt;
  sabs := Rabs;
  sleb := R_leb;
  sltb := R_ltb;
  seq_dec := Req_dec_T;
|}.

Lemma R_leb_le (x y : R) : R_leb x y = true ↔ (x <= y)%R.
Proof. unfold R_leb. destruct (Rle_dec x y); split; auto; discriminate. Qed.

Lemma R_ltb_lt (x y : R) : R_ltb x y = true ↔ (x < y)%R.
Proof.
  unfold R_ltb, R_leb. destruct (Rle_dec y x); simpl; split;
    (lra || discriminate || auto).
Qed.

Lemma R_field_theory :
  field_theory 0%R 1%R Rplus Rmult Rminus (λ x, 0 - x)%R
    Rdiv (λ x, 1 / x)%R eq.
Proof.
  constructor; [constructor|..]; intros; try ring.
  - lra.
  - unfold Rdiv. ring.
  - by field.
Qed.

#[export] Instance R_exact : ExactField R.
Proof.
  split; simpl.
  - apply R_field_theory.
  - intros x y. rewrite !R_leb_le. lra.
  - intros x y z. rewrite !R_leb_le. lra.
  - intros x y. rewrite !R_leb_le. lra.
  - done.
  - intros x y z. rewrite !R_leb_le. lra.
  - intros x y. rewrite !R_leb_le. apply Rmult_le_pos.
  - intros x. unfold sopp; simpl. destruct (R_leb 0 x) eqn:E.
    + by apply Rabs_pos_eq, R_leb_le.
    + replace (0 - x)%R with (- x)%R by ring. apply Rabs_left1.
      destruct (Rle_dec x 0) as [|Hx]; [done|].
      assert (R_leb 0 x = true) by (apply R_leb_le; lra). congruence.
Qed.

#[export] Instance R_exact_sqrt : ExactSqrt R.
Proof.
  split; simpl.
  - intros x _. apply R_leb_le, sqrt_pos.
  - intros x Hx%R_leb_le. by apply sqrt_sqrt.
Qed.
