(* ===== verification/FloatFormats.v ===== *)
(** * FloatFormats: [torch.float16] and [torch.float32]

    [woodbury_factor] tests [low_rank_mat.dtype == torch.float16] (line 112)
    and, for half precision, converts its operands to single precision
    ([.float()], lines 113-114) and the result back ([.type_as], line 115).

    The two element types are IEEE 754 binary16 and binary32.  Their
    arithmetic is the one the standard library specifies for any precision
    and exponent range ([SpecFloat], the specification the primitive
    binary64 floats are axiomatised against); a conversion between two
    formats rounds the value to the target format, to nearest, ties to
    even.

    - [fp prec emax]: the numbers of a format, with their [Scalar]
      instance; [half] and [single] are the two formats of the code.
    - [to_float], [type_as]: the conversions of lines 113-115.
    - [half_float_roundtrip]: every half-precision number survives the
      conversion to single precision and back unchanged, and its image is a
      single-precision number.  The proof inspects all of them. *)

From Stdlib Require Import ZArith Floats Lia.
From S2P Require Import Prelude Scalar.

#[local] Instance sf_eq_dec : EqDecision spec_float.
Proof. solve_decision. Defined.

(** ** A binary floating-point format *)

(** A number of the format with [prec] bits of mantissa (the implicit one
    included) and infinities at exponent [emax]. *)
Record fp (prec emax : Z) : Type := FP { fp_val : spec_float }.
Arguments FP {prec emax} _.
Arguments fp_val {prec emax} _.

Section format.
Context {prec emax : Z}.
Implicit Types (x y : fp prec emax).

#[export] Instance fp_eq_dec : EqDecision (fp prec emax).
Proof. solve_decision. Defined.

(** The number is one of the format: its mantissa has at most [prec] bits
    and its exponent is in range. *)
Definition fp_valid x : Prop := SpecFloat.valid_binary prec emax (fp_val x) = true.

(** [m * 2^e], rounded to the format. *)
Definition fp_of_Z (m e : Z) : fp prec emax :=
  FP (binary_normalize prec emax m e false).

#[export] Instance fp_scalar : Scalar (fp prec emax) := {|
  szero := FP (S754_zero false);
  sone := FP (SFone prec emax);
  sadd x y := FP (SFadd prec emax (fp_val x) (fp_val y));
  ssub x y := FP (SFsub prec emax (fp_val x) (fp_val y));
  smul x y := FP (SFmul prec emax (fp_val x) (fp_val y));
  sdiv x y := FP (SFdiv prec emax (fp_val x) (fp_val y));
  ssqrt x := FP (SFsqrt prec emax (fp_val x));
  sabs x := FP (SFabs (fp_val x));
  sleb x y := SFleb (fp_val x) (fp_val y);
  sltb x y := SFltb (fp_val x) (fp_val y);
|}.
End format.

(** ** Conversion between formats *)

(** The value of [x], rounded to the format [(prec, emax)]: zeros,
    infinities and NaN keep their kind. *)
Definition fp_round (prec emax : Z) (v : spec_float) : spec_float :=
  match v with
  | S754_finite s m e => binary_round prec emax s m e
  | _ => v
  end.

Definition fp_convert {p1 e1 : Z} (p2 e2 : Z) (x : fp p1 e1) : fp p2 e2 :=
  FP (fp_round p2 e2 (fp_val x)).

(** [torch.float16]: binary16. *)
Definition half : Type := fp 11 16.

(** [torch.float32]: binary32. *)
Definition single : Type := fp 24 128.

(** Lines 113-114: [tensor.float()] on a half-precision element. *)
Definition to_float (x : half) : single := fp_convert 24 128 x.

(** Line 115: [R.type_as(low_rank_mat)] on a single-precision element. *)
Definition type_as (x : single) : half := fp_convert 11 16 x.

(** ** The half-precision numbers

    A finite half-precision number has a mantissa below [2^11] and an
    exponent from [-24] to [5]. *)

Definition half_mantissas : list positive := Pos.of_nat <$> seq 1 2047.
Definition half_exponents : list Z := (λ i, Z.of_nat i - 24)%Z <$> seq 0 30.

(** What [half_float_roundtrip] states of one finite number. *)
Definition roundtrip_ok (s : bool) (m : positive) (e : Z) : bool :=
  implb (bounded 11 16 m e)
    (bool_decide (fp_round 11 16 (fp_round 24 128 (S754_finite s m e))
                  = S754_finite s m e)
     && SpecFloat.valid_binary 24 128 (fp_round 24 128 (S754_finite s m e))).

Lemma digits2_pos_size m : digits2_pos m = Pos.size m.
Proof. induction m as [m IH|m IH|]; simpl; by rewrite ?IH. Qed.

(** The mantissa and the exponent of a finite number of a format. *)
Lemma bounded_range prec emax m e :
  (0 < prec)%Z → bounded prec emax m e = true →
  (Z.pos m < 2 ^ prec)%Z ∧ (3 - emax - prec ≤ e ≤ emax - prec)%Z.
Proof.
  intros Hprec [Hc He%Z.leb_le]%andb_prop.
  apply Z.eqb_eq in Hc. unfold fexp, emin in Hc. rewrite digits2_pos_size in Hc.
  split; [|lia].
  assert (Z.pos (Pos.size m) ≤ prec)%Z as Hsize by lia.
  pose proof (Pos.size_gt m) as Hm.
  apply Z.lt_le_trans with (2 ^ Z.pos (Pos.size m))%Z.
  - rewrite <-Pos2Z.inj_pow. by apply Pos2Z.pos_lt_pos.
  - apply Z.pow_le_mono_r; lia.
Qed.

Lemma half_mantissas_spec (m : positive) :
  (Z.pos m < 2 ^ 11)%Z → m ∈ half_mantissas.
Proof.
  intros Hm. apply list_elem_of_fmap. exists (Pos.to_nat m).
  split; [by rewrite Pos2Nat.id|]. apply elem_of_seq.
  change (2 ^ 11)%Z with 2048%Z in Hm. lia.
Qed.

Lemma half_exponents_spec (e : Z) : (-24 ≤ e ≤ 5)%Z → e ∈ half_exponents.
Proof.
  intros He. apply list_elem_of_fmap. exists (Z.to_nat (e + 24)).
  split; [lia|]. apply elem_of_seq. lia.
Qed.

(** All finite half-precision numbers, inspected one by one. *)
Lemma roundtrip_table :
  forallb (λ m, forallb (λ e, roundtrip_ok true m e && roundtrip_ok false m e)
                        half_exponents) half_mantissas = true.
Proof. vm_compute. reflexivity. Qed.

Lemma roundtrip_ok_finite s m e :
  bounded 11 16 m e = true → roundtrip_ok s m e = true.
Proof.
  intros Hb. destruct (bounded_range 11 16 m e ltac:(lia) Hb) as [Hm He].
  pose proof roundtrip_table as Ht.
  rewrite forallb_forall in Ht.
  specialize (Ht m (proj1 (list_elem_of_In _ _) (half_mantissas_spec m Hm))).
  rewrite forallb_forall in Ht.
  specialize (Ht e (proj1 (list_elem_of_In _ _)
    (half_exponents_spec e ltac:(lia)))).
  cbv beta in Ht. apply andb_prop in Ht as [Ht Hf]. by destruct s.
Qed.

(** The widening of line 113 is exact: a half-precision number converted
    to single precision is a single-precision number, and converting it
    back gives the number itself.  A fact of the two formats; the code
    widens its inputs and narrows the result of the solver, it never
    converts one number there and back. *)
Theorem half_float_roundtrip (x : half) :
  fp_valid x → fp_valid (to_float x) ∧ type_as (to_float x) = x.
Proof.
  destruct x as [[s|s| |s m e]]; unfold fp_valid, type_as, to_float, fp_convert;
    cbn [fp_val]; intros Hv; [done..|].
  pose proof (roundtrip_ok_finite s m e Hv) as Hok. unfold roundtrip_ok in Hok.
  cbn [SpecFloat.valid_binary] in Hv. rewrite Hv in Hok.
  apply andb_prop in Hok as [Heq%bool_decide_eq_true Hval].
  split; [done|]. by rewrite Heq.
Qed.

Lemma half_float_roundtrip_witness :
  type_as (to_float (fp_of_Z 3 (-1))) = (fp_of_Z 3 (-1) : half).
Proof.
  apply (half_float_roundtrip (fp_of_Z 3 (-1))). by vm_compute.
Defined.
