(* ===== verification/Tensor.v ===== *)
(** * Tensor: the tensor primitives the program calls

    One-dimensional tensors are lists.  Each primitive is the last-dimension
    behaviour of the torch function of the same name, with the exception it
    raises when an index is out of range or a size does not fit:

    - [index], [set_index]: [x[i]] and [x[i] = v], which raise
      [IndexError] out of range;
    - [gather], [scatter]: [torch.gather(x, -1, idx)] and
      [x.scatter_(-1, idx, src)], which raise [RuntimeError];
    - [zeros], [arange], [slice_from];
    - [max_dim]: [torch.max(x, -1)], value and index of the first maximum,
      a NaN winning over every number; [tmax]: the full reduction;
    - [tsum], [norm1]: [torch.sum] and [torch.norm(x, 1, dim=-1)],
      accumulating from the left;
    - [numel], [ravel], [batch_iters]: batch-shape arithmetic. *)

From S2P Require Import Prelude Scalar.

(** ** Indexing *)

Section indexing.
Context {A : Type}.
Implicit Types (x src : list A) (idx : list nat) (i j k : nat) (v : A).

  (** The element at position [i], or the exception [ex] when [i] is out
      of range: python's indexing raises [IndexError], [torch.gather] and
      [scatter_] raise [RuntimeError]. *)
Definition get_or (ex : exn) x i : res A := of_option ex (x !! i).

  (** [x] with [v] at position [i], or the exception [ex]. *)
Definition put_or (ex : exn) x i v : res (list A) :=
    if decide (i < length x) then Val (<[i:=v]> x) else Raise ex.

  (** [x[i]] *)
Definition index x i : res A := get_or IndexError x i.

  (** [x[i] = v] *)
Definition set_index x i v : res (list A) := put_or IndexError x i v.

  (** [x[m:]] *)
Definition slice_from i x : list A := drop i x.

  (** [x[:m]] *)
Definition slice_to i x : list A := take i x.

  (** [torch.gather(x, -1, idx)]: [out[k] = x[idx[k]]]. *)
Definition gather x idx : res (list A) := mapM (get_or RuntimeError x) idx.

  (** [x.scatter_(-1, idx, src)]: [x[idx[k]] = src[k]] for every [k]. *)
Fixpoint scatter x idx src : res (list A) :=
    match idx, src with
    | [], _ => Val x
    | i :: idx', v :: src' =>
        x' ← put_or RuntimeError x i v; scatter x' idx' src'
    | _ :: _, [] => Raise RuntimeError
    end.

Lemma get_or_Val ex x i v : get_or ex x i = Val v ↔ x !! i = Some v.
  Proof. apply of_option_Val. Qed.

Lemma get_or_is_Val ex x i : i < length x → is_Val (get_or ex x i).
  Proof. intros. by apply of_option_is_Val, lookup_lt_is_Some_2. Qed.

Lemma get_or_Raise ex x i : length x ≤ i → get_or ex x i = Raise ex.
  Proof. intros. unfold get_or. by rewrite lookup_ge_None_2. Qed.

Lemma put_or_Val ex x i v y :
    put_or ex x i v = Val y ↔ i < length x ∧ y = <[i:=v]> x.
  Proof.
    unfold put_or. case_decide; split; try done.
    - by intros [= <-].
    - by intros [_ ->].
    - intros [??]. lia.
  Qed.

Lemma put_or_Raise ex x i v : length x ≤ i → put_or ex x i v = Raise ex.
  Proof. intros. unfold put_or. case_decide; [lia|done]. Qed.

Lemma index_Val x i v : index x i = Val v ↔ x !! i = Some v.
  Proof. apply get_or_Val. Qed.

Lemma index_is_Val x i : i < length x → is_Val (index x i).
  Proof. apply get_or_is_Val. Qed.

Lemma index_Raise x i : length x ≤ i → index x i = Raise IndexError.
  Proof. apply get_or_Raise. Qed.

Lemma set_index_Val x i v y :
    set_index x i v = Val y ↔ i < length x ∧ y = <[i:=v]> x.
  Proof. apply put_or_Val. Qed.

Lemma set_index_Raise x i v : length x ≤ i → set_index x i v = Raise IndexError.
  Proof. apply put_or_Raise. Qed.

Lemma gather_Val x idx l :
    gather x idx = Val l ↔ Forall2 (λ i v, x !! i = Some v) idx l.
  Proof.
    unfold gather. rewrite mapM_res_Val.
    split; intros Hf; (eapply Forall2_impl; [exact Hf|]);
      intros i v; apply get_or_Val.
  Qed.

Lemma gather_length x idx l : gather x idx = Val l → length l = length idx.
  Proof. apply mapM_res_length. Qed.

Lemma gather_lookup x idx l k i :
    gather x idx = Val l → idx !! k = Some i → l !! k = x !! i.
  Proof.
    intros Hg Hk. destruct (mapM_res_lookup _ _ _ _ _ Hg Hk) as (v&->&Hv).
    by apply get_or_Val in Hv.
  Qed.

Lemma gather_is_Val x idx :
    Forall (λ i, i < length x) idx → is_Val (gather x idx).
  Proof.
    intros Hidx. apply mapM_res_is_Val.
    eapply Forall_impl; [exact Hidx|]. intros i. apply get_or_is_Val.
  Qed.

Lemma gather_nil x : gather x [] = Val [].
  Proof. done. Qed.

Lemma gather_singleton x i l : gather x [i] = Val l ↔ ∃ v, x !! i = Some v ∧ l = [v].
  Proof.
    rewrite gather_Val. split.
    - intros (v&l'&Hv&->%Forall2_nil_inv_l&->)%Forall2_cons_inv_l. eauto.
    - intros (v&?&->). by repeat constructor.
  Qed.

Lemma scatter_length x idx src y : scatter x idx src = Val y → length y = length x.
  Proof.
    revert x src. induction idx as [|i idx IH]; intros x [|v src] Hs;
      simpl in *; simplify_res; try done.
    apply put_or_Val in Ha as [? ->].
    rewrite (IH _ _ Hs). by rewrite length_insert.
  Qed.

Lemma scatter_is_Val x idx src :
    Forall (λ i, i < length x) idx → length idx ≤ length src →
    is_Val (scatter x idx src).
  Proof.
    revert x src. induction idx as [|i idx IH]; intros x src Hidx Hlen; simpl.
    { apply is_Val_Val. }
    destruct src as [|v src]; simpl in *; [lia|].
    apply Forall_cons in Hidx as [Hi Hidx].
    unfold put_or. rewrite decide_True by done. simpl.
    apply IH; [|lia]. by rewrite length_insert.
  Qed.

  (** Positions that are not written keep their value. *)
Lemma scatter_lookup_notin x idx src y j :
    scatter x idx src = Val y → j ∉ idx → y !! j = x !! j.
  Proof.
    revert x src. induction idx as [|i idx IH]; intros x [|v src] Hs Hj;
      simpl in *; simplify_res; try done.
    apply put_or_Val in Ha as [? ->].
    apply not_elem_of_cons in Hj as [??].
    rewrite (IH _ _ Hs) by done. by rewrite list_lookup_insert_ne.
  Qed.

  (** With distinct indices, position [idx[k]] receives [src[k]]. *)
Lemma scatter_lookup_in x idx src y k j v :
    scatter x idx src = Val y → NoDup idx →
    idx !! k = Some j → src !! k = Some v → y !! j = Some v.
  Proof.
    revert x src k. induction idx as [|i idx IH]; intros x [|u src] k Hs Hnd Hj Hv;
      simpl in *; simplify_res; try done.
    apply put_or_Val in Ha as [? ->].
    apply NoDup_cons in Hnd as [Hi Hnd].
    destruct k as [|k]; simplify_eq/=.
    - rewrite (scatter_lookup_notin _ _ _ _ _ Hs Hi).
      by apply list_lookup_insert_eq.
    - by eapply IH.
  Qed.

Lemma scatter_nil x src : scatter x [] src = Val x.
  Proof. done. Qed.

Lemma scatter_singleton x i v y :
    scatter x [i] [v] = Val y ↔ i < length x ∧ y = <[i:=v]> x.
  Proof.
    simpl. rewrite bind_Val. split.
    - intros (x'&?%put_or_Val&[= ->]). done.
    - intros [? ->]. exists (<[i:=v]> x). by rewrite put_or_Val.
  Qed.
End indexing.

(** ** Total counterparts

    When every index is in range the primitives cannot raise, and their
    results are given by total functions.  The theorems about values are
    proved on these. *)

Section total.
Context {A : Type} `{Inhabited A}.
Implicit Types (x src : list A) (idx : list nat) (i j k : nat) (v : A).

Definition gather_t x idx : list A := (λ i, x !!! i) <$> idx.

Definition scatter_t x idx src : list A :=
  foldl (λ acc p, <[p.1 := p.2]> acc) x (zip idx src).

Lemma get_or_total ex x i : i < length x → get_or ex x i = Val (x !!! i).
Proof.
  intros Hi. apply get_or_Val. by apply list_lookup_lookup_total_lt.
Qed.

Lemma put_or_total ex x i v :
  i < length x → put_or ex x i v = Val (<[i:=v]> x).
Proof. intros. by apply put_or_Val. Qed.

Lemma index_total x i : i < length x → index x i = Val (x !!! i).
Proof. apply get_or_total. Qed.

Lemma set_index_total x i v : i < length x → set_index x i v = Val (<[i:=v]> x).
Proof. apply put_or_total. Qed.

Lemma gather_total x idx :
  Forall (λ i, i < length x) idx → gather x idx = Val (gather_t x idx).
Proof.
  intros Hidx. apply mapM_res_total.
  eapply Forall_impl; [exact Hidx|]. intros i. apply get_or_total.
Qed.

Lemma length_gather_t x idx : length (gather_t x idx) = length idx.
Proof. apply length_fmap. Qed.

Lemma lookup_gather_t x idx k i :
  idx !! k = Some i → gather_t x idx !! k = Some (x !!! i).
Proof. intros Hk. unfold gather_t. by rewrite list_lookup_fmap, Hk. Qed.

Lemma gather_t_singleton x i : gather_t x [i] = [x !!! i].
Proof. done. Qed.

Lemma gather_t_cons x i idx : gather_t x (i :: idx) = x !!! i :: gather_t x idx.
Proof. done. Qed.

(** Gathering at every position in order gives the tensor back. *)
Lemma gather_t_arange x : gather_t x (seq 0 (length x)) = x.
Proof.
  apply list_eq. intros i. unfold gather_t. rewrite list_lookup_fmap.
  destruct (decide (i < length x)) as [Hi|Hi].
  - rewrite lookup_seq_0 by done. simpl. symmetry.
    by apply list_lookup_lookup_total_lt.
  - rewrite lookup_seq_ge by lia. simpl. symmetry. apply lookup_ge_None. lia.
Qed.

(** Gathering at permuted positions permutes the result. *)
#[export] Instance gather_t_Permutation x : Proper ((≡ₚ) ==> (≡ₚ)) (gather_t x).
Proof. intros idx1 idx2 Hp. unfold gather_t. by rewrite Hp. Qed.

Lemma length_scatter_t x idx src : length (scatter_t x idx src) = length x.
Proof.
  unfold scatter_t. revert x. induction (zip idx src) as [|[i v] l IH];
    intros x; simpl; [done|]. by rewrite IH, length_insert.
Qed.

Lemma scatter_total x idx src :
  Forall (λ i, i < length x) idx → length idx ≤ length src →
  scatter x idx src = Val (scatter_t x idx src).
Proof.
  revert x src. induction idx as [|i idx IH]; intros x src Hidx Hlen; [done|].
  destruct src as [|v src]; simpl in *; [lia|].
  apply Forall_cons in Hidx as [Hi Hidx].
  rewrite put_or_total by done. simpl. unfold scatter_t. simpl.
  apply IH; [|lia]. by rewrite length_insert.
Qed.

Lemma scatter_t_lookup_notin x idx src j :
  j ∉ idx → scatter_t x idx src !! j = x !! j.
Proof.
  unfold scatter_t. revert x src.
  induction idx as [|i idx IH]; intros x [|v src] Hj; simpl; try done.
  apply not_elem_of_cons in Hj as [??].
  rewrite IH by done. by apply list_lookup_insert_ne.
Qed.

Lemma scatter_t_lookup_in x idx src k j v :
  NoDup idx → idx !! k = Some j → src !! k = Some v → j < length x →
  scatter_t x idx src !! j = Some v.
Proof.
  unfold scatter_t. revert x src k.
  induction idx as [|i idx IH]; intros x [|u src] k Hnd Hj Hv Hlt;
    simpl in *; try done.
  apply NoDup_cons in Hnd as [Hi Hnd].
  destruct k as [|k]; simplify_eq/=.
  - pose proof (scatter_t_lookup_notin (<[j:=v]> x) idx src j Hi) as E.
    unfold scatter_t in E. rewrite E. by apply list_lookup_insert_eq.
  - eapply IH; eauto. by rewrite length_insert.
Qed.

Lemma scatter_t_singleton x i v : scatter_t x [i] [v] = <[i:=v]> x.
Proof. done. Qed.

(** What was scattered at distinct positions is gathered back. *)
Lemma gather_scatter_t (x : list A) idx src :
  NoDup idx → Forall (λ i, i < length x) idx → length src = length idx →
  gather_t (scatter_t x idx src) idx = src.
Proof.
  intros Hnd Hb Hlen. apply list_eq. intros k.
  destruct (idx !! k) as [j|] eqn:Hj.
  - rewrite (lookup_gather_t _ _ _ _ Hj).
    destruct (lookup_lt_is_Some_2 src k) as [v Hv];
      [rewrite Hlen; by eapply lookup_lt_Some|].
    rewrite Hv. f_equal. apply list_lookup_total_correct.
    eapply scatter_t_lookup_in; [done..|].
    by eapply (Forall_lookup_1 _ _ _ _ Hb).
  - unfold gather_t. rewrite list_lookup_fmap, Hj. simpl. symmetry.
    apply lookup_ge_None. rewrite Hlen. by apply lookup_ge_None.
Qed.
End total.

(** [torch.arange(0, n)] *)
Definition arange (n : nat) : list nat := seq 0 n.

(** ** Batch shapes *)

(** [torch.Size(shape).numel()]: the number of elements of a shape. *)
Definition numel (shape : list nat) : nat := foldr Nat.mul 1 shape.

(** [x.unsqueeze(-1)]: a column. *)
Definition unsqueeze_last {A} (x : list A) : list (list A) := (λ v, [v]) <$> x.

(** [t.repeat(a, b)] on a matrix: tile it [a] times down and [b] times across. *)
Definition repeat2 {A} (a b : nat) (t : list (list A)) : list (list A) :=
  mjoin (replicate a ((λ row, mjoin (replicate b row)) <$> t)).

(** [t.view(-1)]: row-major flattening. *)
Definition view_flat {A} (t : list (list A)) : list A := mjoin t.

(** Lines 33-39: for every batch dimension [i], the [i]-th coordinate of
    every flat batch position, as one index vector. *)
Definition batch_iters (batch_shape : list nat) : list (list nat) :=
  imap (λ i size,
    view_flat (repeat2 (numel (take i batch_shape))
                       (numel (drop (S i) batch_shape))
                       (unsqueeze_last (arange size))))
    batch_shape.

(** The flat, row-major offset of a multi-index in a tensor of the given
    shape; [IndexError] when a coordinate is out of range or the number of
    coordinates is wrong. *)
Fixpoint ravel (shape idx : list nat) : res nat :=
  match shape, idx with
  | [], [] => Val 0
  | s :: shape', i :: idx' =>
      if decide (i < s) then r ← ravel shape' idx'; Val (i * numel shape' + r)
      else Raise IndexError
  | _, _ => Raise IndexError
  end.

Lemma ravel_lt shape idx f : ravel shape idx = Val f → f < numel shape.
Proof.
  revert idx f. induction shape as [|s shape IH]; intros [|i idx] f Hf;
    simpl in *; try done.
  - simplify_res. lia.
  - case_decide; [|done]. simplify_res. apply IH in Ha. nia.
Qed.

Lemma ravel_length shape idx f : ravel shape idx = Val f → length idx = length shape.
Proof.
  revert idx f. induction shape as [|s shape IH]; intros [|i idx] f Hf;
    simpl in *; try done.
  case_decide; [|done]. simplify_res. f_equal. by eapply IH.
Qed.

(** The coordinates of flat position [f]: the inverse of [ravel]. *)
Definition unravel (shape : list nat) (f : nat) : list nat :=
  imap (λ i s, (f / numel (drop (S i) shape)) `mod` s) shape.

(** The multi-index that the index vectors [iters] hold at position [f]. *)
Definition iters_at (iters : list (list nat)) (f : nat) : res (list nat) :=
  mapM (λ it, index it f) iters.

(** *** Correctness of [batch_iters] *)

Lemma numel_cons s shape : numel (s :: shape) = s * numel shape.
Proof. done. Qed.

Lemma numel_app sh1 sh2 : numel (sh1 ++ sh2) = numel sh1 * numel sh2.
Proof.
  induction sh1 as [|s sh1 IH]; simpl; [lia|]. rewrite IH. lia.
Qed.

Lemma numel_split shape i s :
  shape !! i = Some s →
  numel shape = numel (take i shape) * s * numel (drop (S i) shape).
Proof.
  intros Hs. rewrite <-(take_drop_middle _ _ _ Hs) at 1.
  rewrite numel_app, numel_cons. lia.
Qed.

Lemma numel_pos_lookup shape i s : 0 < numel shape → shape !! i = Some s → 0 < s.
Proof. intros Hpos Hs. rewrite (numel_split _ _ _ Hs) in Hpos. nia. Qed.

(** Position [j] of [a] copies of a block is position [j mod |block|] of
    the block. *)
Lemma mjoin_replicate_lookup {A} (a : nat) (blk : list A) (j : nat) :
  j < a * length blk →
  mjoin (replicate a blk) !! j = blk !! (j `mod` length blk).
Proof.
  intros Hj. set (s := length blk) in *.
  assert (0 < s) as Hs by nia.
  assert (j `mod` s < s) as Hr by (apply Nat.mod_upper_bound; lia).
  destruct (lookup_lt_is_Some_2 blk (j `mod` s)) as [x Hx]; [done|].
  rewrite Hx. rewrite (Nat.div_mod_eq j s) at 1.
  rewrite (Nat.mul_comm s).
  apply (join_lookup_Some_same_length' s); [|done|].
  - by apply Forall_replicate.
  - exists blk. split; [|done]. apply lookup_replicate_2.
    apply Nat.Div0.div_lt_upper_bound. lia.
Qed.

(** The index vector of a dimension of size [s] with [a] elements before
    and [b] after holds, at flat position [f], the coordinate
    [(f / b) mod s]. *)
Lemma mjoin_replicate_singleton {A} (b : nat) (v : A) :
  mjoin (replicate b [v]) = replicate b v.
Proof. induction b; simpl; [done|]. by f_equal. Qed.

Lemma repeat2_arange_lookup (a b s f : nat) :
  f < a * s * b →
  view_flat (repeat2 a b (unsqueeze_last (arange s))) !! f
  = Some ((f / b) `mod` s).
Proof.
  intros Hf. unfold view_flat, repeat2, unsqueeze_last, arange.
  rewrite <-list_fmap_compose.
  rewrite (list_fmap_ext _ (replicate b) (seq 0 s))
    by (intros; apply mjoin_replicate_singleton).
  set (blk := (replicate b <$> seq 0 s)).
  assert (length blk = s) as Hblk by (unfold blk; by rewrite length_fmap, length_seq).
  assert (0 < b ∧ 0 < s) as [Hb Hs] by nia.
  assert (f / b < a * s) as Hq by (apply Nat.Div0.div_lt_upper_bound; lia).
  assert (∀ j, j < a * s →
    mjoin (replicate a blk) !! j = Some (replicate b (j `mod` s))) as Hrow.
  { intros j Hj. rewrite mjoin_replicate_lookup by (rewrite Hblk; lia).
    rewrite Hblk. unfold blk. rewrite list_lookup_fmap.
    by rewrite lookup_seq_0 by (apply Nat.mod_upper_bound; lia). }
  rewrite (Nat.div_mod_eq f b) at 1. rewrite (Nat.mul_comm b).
  apply (join_lookup_Some_same_length' b).
  - apply Forall_forall. intros l [j Hl]%list_elem_of_lookup.
    assert (j < a * s) as Hj.
    { apply lookup_lt_Some in Hl. rewrite length_join in Hl.
      rewrite fmap_replicate, sum_list_replicate in Hl. lia. }
    rewrite Hrow in Hl by done. simplify_eq. apply length_replicate.
  - apply Nat.mod_upper_bound. lia.
  - exists (replicate b ((f / b) `mod` s)). split; [by apply Hrow|].
    apply lookup_replicate_2. apply Nat.mod_upper_bound. lia.
Qed.

Lemma batch_iters_length shape : length (batch_iters shape) = length shape.
Proof. apply length_imap. Qed.

(** Lines 33-39 compute the row-major coordinates of every flat batch
    position. *)
Lemma iters_at_batch_iters shape f :
  f < numel shape → iters_at (batch_iters shape) f = Val (unravel shape f).
Proof.
  intros Hf. apply mapM_res_Val. apply Forall2_same_length_lookup_2.
  { unfold batch_iters, unravel. by rewrite !length_imap. }
  intros i it c Hit Hc. unfold batch_iters, unravel in *.
  rewrite list_lookup_imap in Hit. rewrite list_lookup_imap in Hc.
  destruct (shape !! i) as [s|] eqn:Hs; simplify_eq/=.
  apply index_Val, repeat2_arange_lookup.
  by rewrite <-(numel_split _ _ _ Hs).
Qed.

Lemma ravel_unravel_mod shape f :
  0 < numel shape → ravel shape (unravel shape f) = Val (f `mod` numel shape).
Proof.
  unfold unravel. induction shape as [|s shape IH]; intros Hpos.
  { change (numel []) with 1. by rewrite Nat.mod_1_r. }
  rewrite numel_cons in Hpos. assert (0 < s ∧ 0 < numel shape) as [Hs Hn] by nia.
  rewrite imap_cons. simpl. rewrite drop_0.
  rewrite decide_True by (apply Nat.mod_upper_bound; lia).
  apply bind_Val. exists (f `mod` numel shape). split; [exact (IH Hn)|].
  f_equal. rewrite (Nat.mul_comm s), Nat.Div0.mod_mul_r. lia.
Qed.

(** [ravel] inverts [unravel]: the multi-index read off [batch_iters] at
    flat position [f] addresses batch element [f]. *)
Lemma ravel_unravel shape f :
  f < numel shape → ravel shape (unravel shape f) = Val f.
Proof.
  intros Hf. rewrite ravel_unravel_mod by lia. by rewrite Nat.mod_small.
Qed.

(** C32.  The index tensors of lines 33-39 address the batch in row-major
    order: read at a flat position [f] of the batch, they give one
    coordinate per batch dimension, and these coordinates are those of the
    batch element [f]. *)
Theorem batch_iters_address shape f :
  f < numel shape →
  ∃ idx, iters_at (batch_iters shape) f = Val idx ∧
         length idx = length shape ∧ ravel shape idx = Val f.
Proof.
  intros Hf. exists (unravel shape f). split_and!.
  - by apply iters_at_batch_iters.
  - apply length_imap.
  - by apply ravel_unravel.
Qed.

Lemma batch_iters_address_witness :
  ∃ idx, iters_at (batch_iters [2; 3; 2]) 7 = Val idx ∧
         length idx = length [2; 3; 2] ∧ ravel [2; 3; 2] idx = Val 7.
Proof. apply batch_iters_address. vm_compute. lia. Defined.

(** ** Reductions and elementwise arithmetic *)

Section reductions.
Context {F : Type} `{Scalar F}.
Implicit Types (x y : list F) (v best : F).

(** [torch.zeros(n)] *)
Definition zeros (n : nat) : list F := replicate n szero.

(** [torch.zeros(rows, cols)]; a negative dimension is refused. *)
Definition zeros2 (rows : Z) (cols : nat) : res (list (list F)) :=
  if decide (rows < 0)%Z then Raise RuntimeError
  else Val (replicate (Z.to_nat rows) (zeros cols)).

(** [torch.sum(x, dim=-1)] *)
Definition tsum x : F := foldl sadd szero x.

(** [torch.norm(x, 1, dim=-1)]: the sum of the absolute values. *)
Definition norm1 x : F := foldl (λ acc v, acc ⊕ sabs v) szero x.

(** The scan behind [torch.max]: keep the first value that nothing later
    exceeds; stop at the first NaN. *)
Fixpoint max_scan best (besti i : nat) x : F * nat :=
  match x with
  | [] => (best, besti)
  | v :: x' =>
      if sisnan best then (best, besti)
      else if sleb v best then max_scan best besti (S i) x'
      else max_scan v i (S i) x'
  end.

(** [torch.max(x, -1)]: the maximum and its index; empty input is refused. *)
Definition max_dim x : res (F * nat) :=
  match x with
  | [] => Raise RuntimeError
  | v :: x' => Val (max_scan v 0 1 x')
  end.

(** [torch.max(x)]: the maximum of all elements. *)
Definition tmax x : res F := fst <$> max_dim x.

(** The total counterpart of [max_dim]. *)
Definition argmax x : F * nat :=
  match x with
  | [] => (szero, 0)
  | v :: x' => max_scan v 0 1 x'
  end.

#[export] Instance scalar_inhabited : Inhabited F := populate szero.

(** [torch.sum(t, dim=-2)] of a matrix with rows of length [k]. *)
Definition sum_dim0 (k : nat) (t : list (list F)) : list F :=
  foldl (zip_with sadd) (zeros k) t.

(** An in-place elementwise operation [x op= y]: [y] has the size of [x],
    or one element that is broadcast. *)
Definition ewise_ (op : F → F → F) x y : res (list F) :=
  if decide (length x = length y) then Val (zip_with op x y)
  else match y with
       | [c] => Val ((λ v, op v c) <$> x)
       | _ => Raise RuntimeError
       end.

(** An elementwise operation [x op y] with broadcasting of a one-element
    operand on either side. *)
Definition ewise (op : F → F → F) x y : res (list F) :=
  if decide (length x = length y) then Val (zip_with op x y)
  else match x, y with
       | _, [c] => Val ((λ v, op v c) <$> x)
       | [c], _ => Val (op c <$> y)
       | _, _ => Raise RuntimeError
       end.

Lemma length_zeros n : length (zeros n) = n.
Proof. apply length_replicate. Qed.

Lemma lookup_zeros n i : i < n → zeros n !! i = Some szero.
Proof. intros. by apply lookup_replicate_2. Qed.

Lemma zeros2_Val rows cols l :
  zeros2 rows cols = Val l ↔
  (0 ≤ rows)%Z ∧ l = replicate (Z.to_nat rows) (zeros cols).
Proof.
  unfold zeros2. case_decide.
  - split; [done|intros [??]; lia].
  - split; [intros [= <-]; split; [lia|done]|by intros [_ ->]].
Qed.

Lemma ewise__same op x y :
  length x = length y → ewise_ op x y = Val (zip_with op x y).
Proof. intros. unfold ewise_. by rewrite decide_True. Qed.

Lemma ewise__bcast op x c : ewise_ op x [c] = Val ((λ v, op v c) <$> x).
Proof.
  unfold ewise_. case_decide as Hl; [|done]. f_equal.
  destruct x as [|v [|??]]; simplify_eq/=. done.
Qed.

Lemma ewise__length op x y z : ewise_ op x y = Val z → length z = length x.
Proof.
  unfold ewise_. case_decide as Hl.
  - intros [= <-]. rewrite length_zip_with. lia.
  - destruct y as [|c [|??]]; try done. intros [= <-]. by rewrite length_fmap.
Qed.

Lemma ewise_same op x y :
  length x = length y → ewise op x y = Val (zip_with op x y).
Proof. intros. unfold ewise. by rewrite decide_True. Qed.

(** *** [max_dim] *)

Lemma max_scan_lookup best besti i x v k :
  max_scan best besti i x = (v, k) →
  (v = best ∧ k = besti) ∨ (∃ j, x !! j = Some v ∧ k = i + j).
Proof.
  revert best besti i. induction x as [|u x IH]; intros best besti i Hm; simpl in *.
  { left. by simplify_eq. }
  destruct (sisnan best); [left; by simplify_eq|].
  destruct (sleb u best).
  - destruct (IH _ _ _ Hm) as [?|(j&?&->)]; [by left|].
    right. exists (S j). split; [done|lia].
  - destruct (IH _ _ _ Hm) as [[-> ->]|(j&?&->)]; right.
    + exists 0. split; [done|lia].
    + exists (S j). split; [done|lia].
Qed.

(** The index returned by [max_dim] holds the value returned. *)
Lemma max_dim_lookup x v k : max_dim x = Val (v, k) → x !! k = Some v.
Proof.
  destruct x as [|u x]; [done|]. simpl. intros [= Hm].
  destruct (max_scan_lookup _ _ _ _ _ _ Hm) as [[-> ->]|(j&?&->)]; done.
Qed.

Lemma max_dim_lt_length x v k : max_dim x = Val (v, k) → k < length x.
Proof. intros ?%max_dim_lookup. by eapply lookup_lt_Some. Qed.

Lemma max_dim_is_Val x : 0 < length x → is_Val (max_dim x).
Proof. destruct x; simpl; [lia|]. intros _. apply is_Val_Val. Qed.

Lemma max_dim_Raise x : max_dim x = Raise RuntimeError ↔ x = [].
Proof. by destruct x. Qed.

Lemma max_dim_total x : 0 < length x → max_dim x = Val (argmax x).
Proof. destruct x; simpl; [lia|done]. Qed.

Lemma argmax_lookup x : 0 < length x → x !! (argmax x).2 = Some (argmax x).1.
Proof.
  intros Hx. apply max_dim_lookup. rewrite max_dim_total by done.
  by destruct (argmax x).
Qed.

Lemma argmax_lt x : 0 < length x → (argmax x).2 < length x.
Proof. intros ?%argmax_lookup. by eapply lookup_lt_Some. Qed.

Lemma ewise_bcast_l op c y : ewise op [c] y = Val (op c <$> y).
Proof.
  unfold ewise. case_decide as Hl.
  - destruct y as [|v [|??]]; simplify_eq/=. done.
  - by destruct y as [|v [|??]].
Qed.

Lemma sum_dim0_length k (t : list (list F)) :
  Forall (λ r, length r = k) t → length (sum_dim0 k t) = k.
Proof.
  unfold sum_dim0. generalize (length_zeros k). generalize (zeros k).
  intros acc Hacc Ht. revert acc Hacc.
  induction Ht as [|r t Hr _ IH]; intros acc Hacc; simpl; [done|].
  apply IH. rewrite length_zip_with. lia.
Qed.

Lemma tmax_is_Val x : 0 < length x → is_Val (tmax x).
Proof. intros [[v k] Hm]%max_dim_is_Val. unfold tmax. rewrite Hm. by eexists. Qed.
End reductions.

