(* ===== verification/TensorOrder.v ===== *)
(** * TensorOrder: the reductions over an ordered element type

    The pivot of an iteration is found by [torch.max] (line 44), the error
    by [torch.norm(., 1)] (lines 26 and 79).

    What the scan behind [torch.max] returns depends on the order of the
    element type only: when the comparison is transitive and total on the
    numbers that are not NaN ([NanOrder]), the scan of a tensor without
    NaN returns an upper bound of the tensor, at the first position that
    holds it.  Exact fields are such types, with no NaN at all; the IEEE
    formats are ([NanArithmetic]), so the greedy choice of the pivot is
    proved for the arithmetic the code runs in as well.

    Over an exact ordered field ([ExactField]) the 1-norm is a sum of
    non-negative terms that does not depend on the order of the elements.
    That part does not hold of floating point numbers, whose addition is
    not associative. *)

From Stdlib Require Import Ring Field.
From S2P Require Import Prelude Scalar Tensor.

(** ** [torch.max] over an order with NaN *)

(** The order of an element type that may have a NaN. *)
Class NanOrder (F : Type) `{Scalar F} : Prop := {
  no_le_trans (x y z : F) : x ≼ y → y ≼ z → x ≼ z;
  no_le_total (x y : F) :
    sisnan x = false → sisnan y = false → x ≼ y ∨ y ≼ x;
  no_lt_le (x y : F) :
    sisnan x = false → sisnan y = false → sltb x y = negb (sleb y x);
}.

#[export] Instance exact_nan_order {F : Type} `{ExactField F} : NanOrder F.
Proof.
  split; [apply ef_le_trans|intros; apply ef_le_total|intros; apply ef_lt_le].
Qed.

Section scan.
Context {F : Type} `{NanOrder F}.
Implicit Types (x : list F) (u v best : F).

(** A tensor without NaN. *)
Definition nan_free x : Prop := Forall (λ v, sisnan v = false) x.

Lemma no_le_refl v : sisnan v = false → v ≼ v.
Proof. unfold sisnan. by intros ->%negb_false_iff. Qed.

Lemma no_le_false u v :
  sisnan u = false → sisnan v = false → sleb u v = false → v ≼ u.
Proof. intros Hu Hv Hf. destruct (no_le_total u v Hu Hv); congruence. Qed.

Lemma no_lt_iff u v :
  sisnan u = false → sisnan v = false → u ≺ v ↔ sleb v u = false.
Proof. intros Hu Hv. rewrite no_lt_le by done. apply negb_true_iff. Qed.

Lemma no_lt_le_trans u v w :
  sisnan u = false → sisnan v = false → sisnan w = false →
  u ≺ v → v ≼ w → u ≺ w.
Proof.
  intros Hu Hv Hw. rewrite !no_lt_iff by done. intros Huv Hvw.
  destruct (sleb w u) eqn:Hwu; [|done].
  by rewrite (no_le_trans v w u) in Huv.
Qed.

Lemma no_le_lt_trans u v w :
  sisnan u = false → sisnan v = false → sisnan w = false →
  u ≼ v → v ≺ w → u ≺ w.
Proof.
  intros Hu Hv Hw Huv. rewrite !no_lt_iff by done. intros Hvw.
  destruct (sleb w u) eqn:Hwu; [|done].
  by rewrite (no_le_trans w u v) in Hvw.
Qed.

(** ** The scan *)

Lemma max_scan_nan_free best besti i x :
  sisnan best = false → nan_free x →
  sisnan (max_scan best besti i x).1 = false.
Proof.
  revert best besti i. induction x as [|u x IH]; intros best besti i Hb Hx;
    simpl; [done|].
  apply Forall_cons in Hx as [Hu Hx]. rewrite Hb.
  destruct (sleb u best); by apply IH.
Qed.

(** The scan returns an upper bound of its start value and of the tensor. *)
Lemma max_scan_bounds best besti i x :
  sisnan best = false → nan_free x →
  best ≼ (max_scan best besti i x).1
  ∧ Forall (λ u, u ≼ (max_scan best besti i x).1) x.
Proof.
  revert best besti i. induction x as [|u x IH]; intros best besti i Hb Hx;
    simpl.
  { split; [by apply no_le_refl|constructor]. }
  apply Forall_cons in Hx as [Hu Hx]. rewrite Hb.
  destruct (sleb u best) eqn:Hle.
  - destruct (IH best besti (S i)) as [Hb' Hx']; [done..|]. split; [done|].
    constructor; [by eapply no_le_trans|done].
  - destruct (IH u i (S i)) as [Hb' Hx']; [done..|]. split; [|by constructor].
    eapply no_le_trans; [|exact Hb']. by apply no_le_false.
Qed.

Lemma max_scan_position best besti i x :
  (max_scan best besti i x).2 = besti ∨ i ≤ (max_scan best besti i x).2.
Proof.
  destruct (max_scan best besti i x) as [v k] eqn:Hm.
  destruct (max_scan_lookup _ _ _ _ _ _ Hm) as [[_ ->]|(j&_&->)]; simpl;
    [by left|right; lia].
Qed.

(** When the scan moves on from its start value, the value it returns is
    strictly larger. *)
Lemma max_scan_moves best besti i x :
  sisnan best = false → nan_free x →
  besti < i → i ≤ (max_scan best besti i x).2 →
  best ≺ (max_scan best besti i x).1.
Proof.
  revert best besti i. induction x as [|w x IH]; intros best besti i Hb Hx Hi;
    simpl; [lia|].
  apply Forall_cons in Hx as [Hw Hx]. rewrite Hb.
  destruct (sleb w best) eqn:Hle; intros Hk.
  - apply IH; [done|done|lia|].
    destruct (max_scan_position best besti (S i) x); lia.
  - eapply no_lt_le_trans; [done|exact Hw|by apply max_scan_nan_free| |].
    + by apply no_lt_iff.
    + by apply max_scan_bounds.
Qed.

(** Everything before the position the scan returns is strictly smaller
    than the value it returns. *)
Lemma max_scan_before best besti i x j u :
  sisnan best = false → nan_free x →
  besti < i → i + j < (max_scan best besti i x).2 → x !! j = Some u →
  u ≺ (max_scan best besti i x).1.
Proof.
  revert best besti i j.
  induction x as [|w x IH]; intros best besti i j Hb Hx Hi; simpl; [done|].
  apply Forall_cons in Hx as [Hw Hx]. rewrite Hb.
  destruct (sleb w best) eqn:Hle; (destruct j as [|j]; simpl; intros Hlt Hj;
    [simplify_eq|apply (IH _ _ (S i) j); [done|done|lia|lia|done]]).
  - eapply no_le_lt_trans; [done|exact Hb|by apply max_scan_nan_free|done|].
    apply max_scan_moves; [done|done|lia|].
    destruct (max_scan_position best besti (S i) x); lia.
  - apply max_scan_moves; (done || lia).
Qed.

(** ** [torch.max] of a tensor without NaN *)

Lemma argmax_bounds x : nan_free x → Forall (λ u, u ≼ (argmax x).1) x.
Proof.
  intros Hx. destruct x as [|v x]; [constructor|]. simpl.
  apply Forall_cons in Hx as [Hv Hx].
  destruct (max_scan_bounds v 0 1 x) as [??]; [done..|]. by constructor.
Qed.

Lemma argmax_before x j u :
  nan_free x → j < (argmax x).2 → x !! j = Some u → u ≺ (argmax x).1.
Proof.
  intros Hx. destruct x as [|v x]; simpl; [lia|].
  apply Forall_cons in Hx as [Hv Hx]. destruct j as [|j]; simpl.
  - intros Hlt [= ->]. apply max_scan_moves; (done || lia).
  - intros Hlt Hj. apply (max_scan_before v 0 1 x j); (done || lia).
Qed.
End scan.

(** ** The reductions in exact arithmetic *)

Section exact_reductions.
Context {F : Type} `{ExactField F}.
Implicit Types (x y : list F) (u v best : F).

Add Field tensor_order_field : ef_field.

(** ** [max_dim]

    An exact field has no NaN: the lemmas above hold of every tensor. *)

Lemma ef_nan_free x : nan_free x.
Proof. apply Forall_forall. intros v _. apply ef_not_nan. Qed.

Lemma max_scan_ge best besti i x :
  best ≼ (max_scan best besti i x).1
  ∧ Forall (λ u, u ≼ (max_scan best besti i x).1) x.
Proof. apply max_scan_bounds; [apply ef_not_nan|apply ef_nan_free]. Qed.

(** The maximum bounds every element. *)
Lemma argmax_ge x : Forall (λ u, u ≼ (argmax x).1) x.
Proof. apply argmax_bounds, ef_nan_free. Qed.

Lemma argmax_ge_lookup x i u : x !! i = Some u → u ≼ (argmax x).1.
Proof. intros Hi. by apply (Forall_lookup_1 _ _ _ _ (argmax_ge x) Hi). Qed.

(** The scan keeps the first position of the maximum: everything before the
    position it returns is strictly smaller. *)
Lemma max_scan_strict best besti i x :
  besti < i → i ≤ (max_scan best besti i x).2 →
  best ≺ (max_scan best besti i x).1.
Proof. apply max_scan_moves; [apply ef_not_nan|apply ef_nan_free]. Qed.

(** [torch.max] returns the first position of the maximum. *)
Lemma argmax_first x j u :
  j < (argmax x).2 → x !! j = Some u → u ≺ (argmax x).1.
Proof. apply argmax_before, ef_nan_free. Qed.

(** ** [tsum] *)

Lemma tsum_acc (a : F) x : foldl sadd a x = a ⊕ tsum x.
Proof.
  unfold tsum. revert a. induction x as [|v x IH]; intros a; simpl.
  - ring.
  - rewrite (IH (a ⊕ v)), (IH (szero ⊕ v)). ring.
Qed.

Lemma tsum_cons v x : tsum (v :: x) = v ⊕ tsum x.
Proof. unfold tsum at 1. simpl. rewrite tsum_acc. ring. Qed.

Lemma tsum_zero x : Forall (λ v, v = szero) x → tsum x = szero.
Proof.
  induction 1 as [|v x -> _ IH]; [done|]. rewrite tsum_cons, IH. ring.
Qed.

(** In exact arithmetic a sum does not depend on the order of its terms. *)
#[export] Instance tsum_Permutation : Proper ((≡ₚ) ==> (=)) (@tsum F _).
Proof.
  intros x y Hp. induction Hp as [|v x y _ IH|u v x|x y z _ IH1 _ IH2].
  - done.
  - by rewrite !tsum_cons, IH.
  - rewrite !tsum_cons. ring.
  - by rewrite IH1.
Qed.

(** ** [norm1] *)

Lemma norm1_acc (a : F) x :
  foldl (λ acc v, acc ⊕ sabs v) a x = a ⊕ norm1 x.
Proof.
  unfold norm1. revert a. induction x as [|v x IH]; intros a; simpl.
  - ring.
  - rewrite (IH (a ⊕ sabs v)), (IH (szero ⊕ sabs v)). ring.
Qed.

Lemma norm1_nil : norm1 (@nil F) = szero.
Proof. done. Qed.

Lemma norm1_cons v x : norm1 (v :: x) = sabs v ⊕ norm1 x.
Proof. unfold norm1 at 1. simpl. rewrite norm1_acc. ring. Qed.

Lemma norm1_app x y : norm1 (x ++ y) = norm1 x ⊕ norm1 y.
Proof.
  induction x as [|v x IH]; simpl.
  - rewrite norm1_nil. ring.
  - rewrite !norm1_cons, IH. ring.
Qed.

(** The 1-norm does not depend on the order of the elements. *)
#[export] Instance norm1_Permutation : Proper ((≡ₚ) ==> (=)) (@norm1 F _).
Proof.
  intros x y Hp. induction Hp as [|v x y _ IH|u v x|x y z _ IH1 _ IH2].
  - done.
  - by rewrite !norm1_cons, IH.
  - rewrite !norm1_cons. ring.
  - by rewrite IH1.
Qed.

Lemma norm1_nonneg x : szero ≼ norm1 x.
Proof.
  induction x as [|v x IH]; [apply ef_le_refl|].
  rewrite norm1_cons. apply ef_add_nonneg; [apply ef_abs_nonneg|done].
Qed.

(** The sum is at most the 1-norm, and is the 1-norm when no element is
    negative. *)
Lemma tsum_le_norm1 x : tsum x ≼ norm1 x.
Proof.
  induction x as [|v x IH]; [apply ef_le_refl|].
  rewrite tsum_cons, norm1_cons. apply ef_add_le_mono; [apply ef_le_abs|done].
Qed.

Lemma norm1_of_nonneg x : Forall (λ v, szero ≼ v) x → norm1 x = tsum x.
Proof.
  induction 1 as [|v x Hv _ IH]; [done|].
  by rewrite tsum_cons, norm1_cons, IH, ef_abs_of_nonneg.
Qed.

(** Elementwise smaller absolute values give a smaller 1-norm. *)
Lemma norm1_mono x y :
  Forall2 (λ u v, sabs u ≼ sabs v) x y → norm1 x ≼ norm1 y.
Proof.
  induction 1 as [|u v x y Huv _ IH]; [apply ef_le_refl|].
  rewrite !norm1_cons. by apply ef_add_le_mono.
Qed.

(** Dropping elements does not increase the 1-norm. *)
Lemma norm1_drop k x : norm1 (drop k x) ≼ norm1 x.
Proof.
  rewrite <-(take_drop k x) at 2. rewrite norm1_app.
  replace (norm1 (drop k x)) with (szero ⊕ norm1 (drop k x)) at 1 by ring.
  apply ef_add_le, norm1_nonneg.
Qed.

(** A vector of 1-norm zero is zero. *)
Lemma norm1_zero x : norm1 x = szero → Forall (λ v, v = szero) x.
Proof.
  induction x as [|v x IH]; [constructor|]. rewrite norm1_cons. intros Hz.
  assert (sabs v = szero ∧ norm1 x = szero) as [Hv Hx].
  { pose proof (ef_abs_nonneg v) as Hv. pose proof (norm1_nonneg x) as Hx.
    assert (sabs v ≼ szero) as Hv'.
    { rewrite <-Hz. replace (sabs v) with (sabs v ⊕ szero) at 1 by ring.
      by apply ef_add_le_l. }
    assert (sabs v = szero) as E by (by apply ef_le_antisym).
    split; [done|]. rewrite E in Hz. rewrite <-Hz. ring. }
  constructor; [|by apply IH]. by apply ef_abs_eq_zero.
Qed.

(** The largest of non-negative entries that are not all zero is
    positive. *)
Lemma argmax_pos x :
  Forall (λ v, szero ≼ v) x → szero ≺ norm1 x → szero ≺ (argmax x).1.
Proof.
  intros Hx Hn. apply ef_lt_iff.
  destruct (sleb (argmax x).1 szero) eqn:E; [|done].
  rewrite norm1_of_nonneg, tsum_zero, ef_lt_irrefl in Hn; [done| |done].
  pose proof (argmax_ge x) as Hle. apply Forall_forall. intros v Hv.
  apply ef_le_antisym; [|by apply (proj1 (Forall_forall _ _) Hx)].
  eapply ef_le_trans; [by apply (proj1 (Forall_forall _ _) Hle)|done].
Qed.
End exact_reductions.
