(* ===== verification/NanArithmetic.v ===== *)
(** * NanArithmetic: NaN in IEEE arithmetic and in the reductions

    The factorisation takes square roots and divides without testing its
    operands (lines 56 and 72), and its loop test compares the largest
    error with the tolerance (line 42).  In IEEE arithmetic a square root
    of a negative number is NaN, every operation on NaN gives NaN, and
    every comparison with NaN is false; what the loop does with them
    follows from these facts alone.

    - [NanArith] states them as an interface over [Scalar]; NaN is
      recognised by [sisnan], the only number that is not at most itself.
    - The instances are the binary formats of the standard library's
      specification ([fp prec emax], so [half] and [single]) and the
      primitive binary64 floats, through their specification axioms.
    - [norm1_nan], [argmax_nan]: [torch.norm(., 1)] and [torch.max] of a
      tensor that holds a NaN are NaN.

    The Woodbury functions divide by the shift without testing it (lines
    103 and 134).  [InfArith] states what they meet when an entry of the
    shift is zero: its reciprocal is infinite, nothing exceeds [+inf], and
    an infinite number divided by [+inf] is NaN.  The three formats are
    instances through one argument on the specification of binary formats
    ([spec_view]); [argmax_top]: the maximum of a tensor that holds [+inf]
    is [+inf] or NaN.

    The comparison of a binary format is transitive, and total on the
    numbers that are not NaN: the three formats are instances of
    [NanOrder], so [torch.max] of a tensor without NaN is its maximum.

    Line 72 divides by the pivot entry without testing it.
    [ZeroDivArith] states what follows when that entry is zero: the square
    root of a zero is a zero, a quotient by a zero is NaN or infinite
    ([non_finite]), and sums, differences, squares and absolute values of
    such numbers are such numbers; [norm1_non_finite] carries it to the
    error of line 79. *)

From Stdlib Require Import ZArith Floats Lia.
From S2P Require Import Prelude Scalar ScalarInstances FloatFormats Tensor TensorOrder.

(** ** NaN in the arithmetic of any binary format *)

Section spec_float.
Context (prec emax : Z).
Implicit Types (x y : spec_float).

Lemma SFcompare_refl x : x ≠ S754_nan → SFcompare x x = Some Eq.
Proof.
  destruct x as [s|s| |s m e]; intros Hx; try done; destruct s; simpl;
    rewrite ?Z.compare_refl, ?Pos.compare_cont_refl; done.
Qed.

Lemma SFleb_refl_nan x : SFleb x x = false → x = S754_nan.
Proof.
  intros Hx. unfold SFleb in Hx.
  destruct x as [s|s| |s m e]; try done; by rewrite SFcompare_refl in Hx.
Qed.

Lemma SFcompare_nan_r x : SFcompare x S754_nan = None.
Proof. by destruct x. Qed.

Lemma SFleb_nan_l y : SFleb S754_nan y = false.
Proof. done. Qed.
Lemma SFleb_nan_r x : SFleb x S754_nan = false.
Proof. unfold SFleb. by rewrite SFcompare_nan_r. Qed.
Lemma SFltb_nan_l y : SFltb S754_nan y = false.
Proof. done. Qed.
Lemma SFltb_nan_r x : SFltb x S754_nan = false.
Proof. unfold SFltb. by rewrite SFcompare_nan_r. Qed.

Lemma SFadd_nan_l y : SFadd prec emax S754_nan y = S754_nan.
Proof. done. Qed.
Lemma SFadd_nan_r x : SFadd prec emax x S754_nan = S754_nan.
Proof. by destruct x. Qed.
Lemma SFsub_nan_l y : SFsub prec emax S754_nan y = S754_nan.
Proof. done. Qed.
Lemma SFsub_nan_r x : SFsub prec emax x S754_nan = S754_nan.
Proof. by destruct x. Qed.
Lemma SFmul_nan_l y : SFmul prec emax S754_nan y = S754_nan.
Proof. done. Qed.
Lemma SFmul_nan_r x : SFmul prec emax x S754_nan = S754_nan.
Proof. by destruct x. Qed.
Lemma SFdiv_nan_l y : SFdiv prec emax S754_nan y = S754_nan.
Proof. done. Qed.
Lemma SFdiv_nan_r x : SFdiv prec emax x S754_nan = S754_nan.
Proof. by destruct x. Qed.

(** The square root of a negative number is NaN. *)
Lemma SFsqrt_negative x :
  SFltb x (S754_zero false) = true → SFsqrt prec emax x = S754_nan.
Proof. destruct x as [s|s| |s m e]; try done; by destruct s. Qed.
End spec_float.

(** ** Arithmetic in which NaN is absorbing *)

(** What the factorisation needs of IEEE arithmetic: an operation with a
    NaN operand gives NaN, the square root of a negative number is NaN,
    and every comparison with NaN is false. *)
Class NanArith (F : Type) `{Scalar F} : Prop := {
  nan_add_l (x y : F) : sisnan x = true → sisnan (x ⊕ y) = true;
  nan_add_r (x y : F) : sisnan y = true → sisnan (x ⊕ y) = true;
  nan_sub_l (x y : F) : sisnan x = true → sisnan (x ⊖ y) = true;
  nan_sub_r (x y : F) : sisnan y = true → sisnan (x ⊖ y) = true;
  nan_mul_l (x y : F) : sisnan x = true → sisnan (x ⊗ y) = true;
  nan_mul_r (x y : F) : sisnan y = true → sisnan (x ⊗ y) = true;
  nan_div_l (x y : F) : sisnan x = true → sisnan (x ⊘ y) = true;
  nan_div_r (x y : F) : sisnan y = true → sisnan (x ⊘ y) = true;
  nan_abs (x : F) : sisnan x = true → sisnan (sabs x) = true;
  nan_sqrt_negative (x : F) : x ≺ szero → sisnan (ssqrt x) = true;
  nan_leb_l (x y : F) : sisnan x = true → sleb x y = false;
  nan_ltb_r (x y : F) : sisnan y = true → sltb x y = false;
}.

Section fp_nan.
Context {prec emax : Z}.
Implicit Types (x y : fp prec emax).

Lemma fp_isnan x : sisnan x = true → fp_val x = S754_nan.
Proof.
  unfold sisnan. simpl. intros Hx%negb_true_iff. by apply SFleb_refl_nan.
Qed.

Lemma fp_isnan_of x : fp_val x = S754_nan → sisnan x = true.
Proof. intros Hx. unfold sisnan. simpl. by rewrite Hx. Qed.

#[export] Instance fp_nan_arith : NanArith (fp prec emax).
Proof.
  split; try (intros x y Hx%fp_isnan); try (intros x Hx%fp_isnan);
    try (apply fp_isnan_of); simpl; rewrite ?Hx;
    auto using SFadd_nan_r, SFsub_nan_r, SFmul_nan_r, SFdiv_nan_r,
               SFleb_nan_r, SFltb_nan_r.
  intros x Hneg. apply fp_isnan_of. by apply SFsqrt_negative.
Qed.
End fp_nan.

Lemma float_isnan (x : float) : sisnan x = true → Prim2SF x = S754_nan.
Proof.
  unfold sisnan. simpl. rewrite leb_spec. intros Hx%negb_true_iff.
  by apply SFleb_refl_nan.
Qed.

Lemma float_isnan_of (x : float) : Prim2SF x = S754_nan → sisnan x = true.
Proof. intros Hx. unfold sisnan. simpl. by rewrite leb_spec, Hx. Qed.

#[export] Instance float_nan_arith : NanArith float.
Proof.
  split; simpl.
  - intros x y Hx%float_isnan. apply float_isnan_of. by rewrite add_spec, Hx.
  - intros x y Hx%float_isnan. apply float_isnan_of.
    rewrite add_spec, Hx. apply SFadd_nan_r.
  - intros x y Hx%float_isnan. apply float_isnan_of. by rewrite sub_spec, Hx.
  - intros x y Hx%float_isnan. apply float_isnan_of.
    rewrite sub_spec, Hx. apply SFsub_nan_r.
  - intros x y Hx%float_isnan. apply float_isnan_of. by rewrite mul_spec, Hx.
  - intros x y Hx%float_isnan. apply float_isnan_of.
    rewrite mul_spec, Hx. apply SFmul_nan_r.
  - intros x y Hx%float_isnan. apply float_isnan_of. by rewrite div_spec, Hx.
  - intros x y Hx%float_isnan. apply float_isnan_of.
    rewrite div_spec, Hx. apply SFdiv_nan_r.
  - intros x Hx%float_isnan. apply float_isnan_of. by rewrite abs_spec, Hx.
  - intros x Hneg. apply float_isnan_of. rewrite sqrt_spec.
    apply SFsqrt_negative. rewrite ltb_spec in Hneg. exact Hneg.
  - intros x y Hx%float_isnan. by rewrite leb_spec, Hx.
  - intros x y Hx%float_isnan. rewrite ltb_spec, Hx. apply SFltb_nan_r.
Qed.

(** ** NaN in the reductions *)

Section reductions.
Context {F : Type} `{NanArith F}.
Implicit Types (x : list F) (v a : F).

Definition has_nan x : Prop := Exists (λ v, sisnan v = true) x.
Definition all_nan x : Prop := Forall (λ v, sisnan v = true) x.

Lemma all_nan_has_nan x : all_nan x → 0 < length x → has_nan x.
Proof. intros [|v x' Hv _] Hlen; [simpl in Hlen; lia|by left]. Qed.

Lemma foldl_add_nan_acc a x :
  sisnan a = true → sisnan (foldl sadd a x) = true.
Proof.
  revert a. induction x as [|v x IH]; intros a Ha; [done|]. simpl.
  by apply IH, nan_add_l.
Qed.

(** The sum of a tensor that holds a NaN is NaN. *)
Lemma tsum_nan x : has_nan x → sisnan (tsum x) = true.
Proof.
  intros Hn. unfold tsum. generalize (szero : F).
  induction Hn as [v x Hv|v x _ IH]; intros a; simpl.
  - by apply foldl_add_nan_acc, nan_add_r.
  - apply IH.
Qed.

Lemma max_scan_nan_best best besti i x :
  sisnan best = true → max_scan best besti i x = (best, besti).
Proof. intros Hb. destruct x; simpl; by rewrite ?Hb. Qed.

Lemma foldl_norm1_nan_acc a x :
  sisnan a = true → sisnan (foldl (λ acc v, acc ⊕ sabs v) a x) = true.
Proof.
  revert a. induction x as [|v x IH]; intros a Ha; [done|]. simpl.
  by apply IH, nan_add_l.
Qed.

(** The 1-norm of a tensor that holds a NaN is NaN. *)
Lemma norm1_nan x : has_nan x → sisnan (norm1 x) = true.
Proof.
  intros Hn. unfold norm1. generalize (szero : F).
  induction Hn as [v x Hv|v x _ IH]; intros a; simpl.
  - by apply foldl_norm1_nan_acc, nan_add_r, nan_abs.
  - apply IH.
Qed.

Lemma max_scan_nan best besti i x :
  sisnan best = true ∨ has_nan x → sisnan (max_scan best besti i x).1 = true.
Proof.
  revert best besti i. induction x as [|v x IH]; intros best besti i Hn;
    simpl.
  - destruct Hn as [|Hn]; [done|inversion Hn].
  - destruct (sisnan best) eqn:Hb; [done|].
    destruct Hn as [|Hn]; [done|].
    inversion Hn as [?? Hv|?? Hx]; subst.
    + rewrite nan_leb_l by done. apply IH. by left.
    + destruct (sleb v best); apply IH; by right.
Qed.

(** The maximum of a tensor that holds a NaN is NaN. *)
Lemma argmax_nan x : has_nan x → sisnan (argmax x).1 = true.
Proof.
  intros Hn. destruct x as [|v x]; [inversion Hn|]. simpl.
  apply max_scan_nan. inversion Hn; subst; [by left|by right].
Qed.
End reductions.

(** ** Infinity and division by zero *)

Section top.
Context {F : Type} `{Scalar F}.

(** A number that is not NaN and that no number exceeds: [+inf]. *)
Definition is_top (x : F) : Prop :=
  sisnan x = false ∧ ∀ v, sisnan v = false → sleb v x = true.

(** A number that compares equal to zero: [+0] or [-0]. *)
Definition is_zero (z : F) : Prop := sleb z szero = true ∧ sleb szero z = true.
End top.

(** What the Woodbury functions need of IEEE arithmetic beside [NanArith]:
    nothing but [+inf] is above [+inf], the reciprocal of a zero is
    infinite, and an infinite number divided by [+inf] is NaN. *)
Class InfArith (F : Type) `{Scalar F} : Prop := {
  top_le (x y : F) : is_top x → sleb x y = true → is_top y;
  top_recip_zero (z : F) : is_zero z → is_top (sabs (sinv z));
  top_div_top (x a : F) : is_top (sabs x) → is_top a → sisnan (x ⊘ a) = true;
}.

(** *** In the specification of binary formats *)

Section spec_float_inf.
Context (prec emax : Z).
Implicit Types (x y : spec_float).

Lemma SFleb_inf_l x :
  SFleb (S754_infinity false) x = true → x = S754_infinity false.
Proof. destruct x as [s|s| |s m e]; try done; by destruct s. Qed.

Lemma SFleb_inf_r x : x ≠ S754_nan → SFleb x (S754_infinity false) = true.
Proof. destruct x as [s|s| |s m e]; try done; by destruct s. Qed.

Lemma SFleb_zero x :
  SFleb x (S754_zero false) = true → SFleb (S754_zero false) x = true →
  ∃ s, x = S754_zero s.
Proof. destruct x as [s|s| |s m e]; try done; [by eexists|..]; by destruct s. Qed.

Lemma SFabs_inf x : SFabs x = S754_infinity false → ∃ s, x = S754_infinity s.
Proof. destruct x as [s|s| |s m e]; try done. by eexists. Qed.
End spec_float_inf.

(** *** For every element type that computes in such a format

    The element type is seen through [view]; the hypotheses say that its
    comparison, division and absolute value are those of the format. *)

Section spec_view.
Context {F : Type} `{Scalar F} (prec emax : Z) (view : F → spec_float).
Hypothesis view_leb : ∀ x y : F, sleb x y = SFleb (view x) (view y).
Hypothesis view_div :
  ∀ x y : F, view (x ⊘ y) = SFdiv prec emax (view x) (view y).
Hypothesis view_abs : ∀ x : F, view (sabs x) = SFabs (view x).
Hypothesis view_one : ∃ m e, view sone = S754_finite false m e.
Hypothesis view_zero : view szero = S754_zero false.
Hypothesis view_inf : ∃ x : F, view x = S754_infinity false.

Lemma view_isnan (x : F) : sisnan x = false ↔ view x ≠ S754_nan.
Proof using view_leb.
  unfold sisnan. rewrite view_leb, negb_false_iff. split.
  - intros Hx Hn. by rewrite Hn in Hx.
  - intros Hx. unfold SFleb. by rewrite SFcompare_refl.
Qed.

Lemma view_top (x : F) : is_top x ↔ view x = S754_infinity false.
Proof using view_leb view_inf.
  split.
  - intros [_ Hx]. destruct view_inf as [i Hi]. apply SFleb_inf_l.
    rewrite <-Hi, <-view_leb. apply Hx, view_isnan. by rewrite Hi.
  - intros Hx. split; [apply view_isnan; by rewrite Hx|]. intros v Hv.
    rewrite view_leb, Hx. by apply SFleb_inf_r, view_isnan.
Qed.

Lemma view_inf_arith : InfArith F.
Proof using All.
  split.
  - intros x y Hx%view_top Hle. apply view_top, SFleb_inf_l.
    by rewrite <-Hx, <-view_leb.
  - intros z [Hz1 Hz2]. rewrite !view_leb, view_zero in *.
    destruct (SFleb_zero _ Hz1 Hz2) as [s Hs], view_one as (m&e&H1).
    apply view_top. unfold sinv. by rewrite view_abs, view_div, H1, Hs.
  - intros x a Hx%view_top Ha%view_top. rewrite view_abs in Hx.
    destruct (SFabs_inf _ Hx) as [s Hs].
    destruct (sisnan (x ⊘ a)) eqn:Hn; [done|]. apply view_isnan in Hn.
    by rewrite view_div, Hs, Ha in Hn.
Qed.
End spec_view.

#[export] Instance half_inf_arith : InfArith half.
Proof.
  apply (view_inf_arith 11 16 fp_val); try done; [by eexists _, _|].
  by exists (FP (S754_infinity false)).
Qed.

#[export] Instance single_inf_arith : InfArith single.
Proof.
  apply (view_inf_arith 24 128 fp_val); try done; [by eexists _, _|].
  by exists (FP (S754_infinity false)).
Qed.

#[export] Instance float_inf_arith : InfArith float.
Proof.
  apply (view_inf_arith prec emax Prim2SF).
  - intros. apply leb_spec.
  - intros. apply div_spec.
  - intros. apply abs_spec.
  - by eexists _, _.
  - done.
  - by exists infinity.
Qed.

(** ** Infinity in the maximum *)

Section top_reductions.
Context {F : Type} `{NanArith F} `{!InfArith F}.
Implicit Types (x : list F) (v best : F).

Lemma max_scan_top best besti i x :
  is_top best ∨ Exists is_top x →
  sisnan (max_scan best besti i x).1 = true ∨ is_top (max_scan best besti i x).1.
Proof.
  revert best besti i. induction x as [|v x IH]; intros best besti i Hn; simpl.
  { destruct Hn as [|Hn]; [by right|inversion Hn]. }
  destruct (sisnan best) eqn:Hb; [by left|].
  destruct (sleb v best) eqn:Hle.
  - apply IH. destruct Hn as [|Hn]; [by left|].
    inversion Hn; subst; [left; by eapply top_le|by right].
  - destruct Hn as [[_ Hbest]|Hn].
    + left. destruct (sisnan v) eqn:Hv; [by rewrite max_scan_nan_best|].
      by rewrite Hbest in Hle.
    + inversion Hn; subst; apply IH; [by left|by right].
Qed.

(** The maximum of a tensor that holds [+inf] is [+inf], or NaN. *)
Lemma argmax_top x :
  Exists is_top x → sisnan (argmax x).1 = true ∨ is_top (argmax x).1.
Proof.
  intros Hn. destruct x as [|v x]; [inversion Hn|]. simpl.
  apply max_scan_top. inversion Hn; subst; [by left|by right].
Qed.
End top_reductions.

(** ** The order of a binary format *)

Lemma Pos_compare_cases (p q : positive) :
  ((p ?= q)%positive = Lt ∧ (p < q)%positive)
  ∨ ((p ?= q)%positive = Eq ∧ p = q)
  ∨ ((p ?= q)%positive = Gt ∧ (q < p)%positive).
Proof. destruct (Pos.compare_spec p q); auto. Qed.

Lemma Z_compare_cases (p q : Z) :
  ((p ?= q)%Z = Lt ∧ (p < q)%Z) ∨ ((p ?= q)%Z = Eq ∧ p = q)
  ∨ ((p ?= q)%Z = Gt ∧ (q < p)%Z).
Proof. destruct (Z.compare_spec p q); auto. Qed.

(** Case analysis on every comparison of exponents and mantissas. *)
Ltac cmp_case lem p q :=
  let E := fresh "E" in
  destruct (lem p q) as [[E ?]|[[E ?]|[E ?]]]; rewrite ?E in *; clear E;
  simpl in *.

Ltac cmp_cases :=
  repeat match goal with
  | H : context [(?p ?= ?q)%positive] |- _ => cmp_case Pos_compare_cases p q
  | H : context [(?p ?= ?q)%Z] |- _ => cmp_case Z_compare_cases p q
  | |- context [(?p ?= ?q)%positive] => cmp_case Pos_compare_cases p q
  | |- context [(?p ?= ?q)%Z] => cmp_case Z_compare_cases p q
  end.

Lemma SFleb_trans x y z :
  SFleb x y = true → SFleb y z = true → SFleb x z = true.
Proof.
  unfold SFleb.
  destruct x as [[]|[]| |[] m1 e1], y as [[]|[]| |[] m2 e2],
           z as [[]|[]| |[] m3 e3];
    simpl; try done; rewrite ?Pos.compare_cont_spec; unfold Pos.switch_Eq;
    intros H1 H2; cmp_cases; try done; try lia.
Qed.

Lemma SFleb_total x y :
  x ≠ S754_nan → y ≠ S754_nan → SFleb x y = true ∨ SFleb y x = true.
Proof.
  unfold SFleb.
  destruct x as [[]|[]| |[] m1 e1], y as [[]|[]| |[] m2 e2];
    simpl; try done; auto; rewrite ?Pos.compare_cont_spec;
    unfold Pos.switch_Eq; intros _ _; cmp_cases; auto; lia.
Qed.

Lemma SFltb_leb x y :
  x ≠ S754_nan → y ≠ S754_nan → SFltb x y = negb (SFleb y x).
Proof.
  unfold SFleb, SFltb.
  destruct x as [[]|[]| |[] m1 e1], y as [[]|[]| |[] m2 e2];
    simpl; try done; rewrite ?Pos.compare_cont_spec; unfold Pos.switch_Eq;
    intros _ _; cmp_cases; try done; lia.
Qed.

Section spec_view_order.
Context {F : Type} `{Scalar F} (view : F → spec_float).
Hypothesis view_leb : ∀ x y : F, sleb x y = SFleb (view x) (view y).
Hypothesis view_ltb : ∀ x y : F, sltb x y = SFltb (view x) (view y).

Lemma view_nan_order : NanOrder F.
Proof using All.
  split.
  - intros x y z. rewrite !view_leb. apply SFleb_trans.
  - intros x y Hx%(view_isnan view view_leb) Hy%(view_isnan view view_leb).
    rewrite !view_leb. by apply SFleb_total.
  - intros x y Hx%(view_isnan view view_leb) Hy%(view_isnan view view_leb).
    rewrite view_leb, view_ltb. by apply SFltb_leb.
Qed.
End spec_view_order.

#[export] Instance fp_nan_order {prec emax : Z} : NanOrder (fp prec emax).
Proof. by apply (view_nan_order fp_val). Qed.

#[export] Instance float_nan_order : NanOrder float.
Proof.
  apply (view_nan_order Prim2SF); intros; [apply leb_spec|apply ltb_spec].
Qed.

(** ** A divisor that is zero

    Line 72 divides the new row by the pivot entry, the square root of the
    pivot.  Nothing tests the pivot: when it is zero the quotient is NaN
    (for [0 / 0]) or infinite, and from there on every number computed from
    it is one or the other. *)

Section non_finite.
Context {F : Type} `{Scalar F}.

(** NaN, [+inf] or [-inf]. *)
Definition non_finite (x : F) : Prop := sisnan x = true ∨ is_top (sabs x).
End non_finite.

(** What the factorisation needs of IEEE arithmetic when a pivot is zero:
    the square root of a zero is a zero, a quotient by a zero is not
    finite, and sums, differences, squares and absolute values of numbers
    that are not finite are not finite. *)
Class ZeroDivArith (F : Type) `{Scalar F} : Prop := {
  zero_sqrt (z : F) : is_zero z → is_zero (ssqrt z);
  nf_div_zero (x z : F) : is_zero z → non_finite (x ⊘ z);
  nf_sqr (x : F) : non_finite x → non_finite (ssqr x);
  nf_sub_r (x y : F) : non_finite y → non_finite (x ⊖ y);
  nf_abs (x : F) : non_finite x → non_finite (sabs x);
  nf_add_l (x y : F) : non_finite x → non_finite (x ⊕ y);
  nf_add_r (x y : F) : non_finite y → non_finite (x ⊕ y);
}.

(** *** In the specification of binary formats *)

Section spec_float_zero.
Context (prec emax : Z).
Implicit Types (x y : spec_float) (s : bool).

Definition SFnf x : Prop := x = S754_nan ∨ ∃ s, x = S754_infinity s.

Lemma SFnf_nan : SFnf S754_nan.
Proof. by left. Qed.

Lemma SFnf_inf s : SFnf (S754_infinity s).
Proof. right. by eexists. Qed.

Lemma SFdiv_zero_nf x s : SFnf (SFdiv prec emax x (S754_zero s)).
Proof. destruct x; simpl; auto using SFnf_nan, SFnf_inf. Qed.

Lemma SFmul_sqr_nf x : SFnf x → SFnf (SFmul prec emax x x).
Proof. intros [->|[s ->]]; simpl; auto using SFnf_nan, SFnf_inf. Qed.

Lemma SFsub_nf_r x y : SFnf y → SFnf (SFsub prec emax x y).
Proof.
  intros [->|[s ->]]; destruct x as [[]|[]| |[] m e]; simpl;
    try destruct s; auto using SFnf_nan, SFnf_inf.
Qed.

Lemma SFadd_nf_l x y : SFnf x → SFnf (SFadd prec emax x y).
Proof.
  intros [->|[s ->]]; destruct y as [[]|[]| |[] m e]; simpl;
    try destruct s; auto using SFnf_nan, SFnf_inf.
Qed.

Lemma SFadd_nf_r x y : SFnf y → SFnf (SFadd prec emax x y).
Proof.
  intros [->|[s ->]]; destruct x as [[]|[]| |[] m e]; simpl;
    try destruct s; auto using SFnf_nan, SFnf_inf.
Qed.

Lemma SFabs_nf x : SFnf x → SFnf (SFabs x).
Proof. intros [->|[s ->]]; simpl; auto using SFnf_nan, SFnf_inf. Qed.

Lemma SFabs_nf_inv x : SFnf (SFabs x) → SFnf x.
Proof.
  destruct x; simpl; intros [?|[??]]; try done; auto using SFnf_nan, SFnf_inf.
Qed.
End spec_float_zero.

(** *** For every element type that computes in such a format *)

Section spec_view_zero.
Context {F : Type} `{Scalar F} (prec emax : Z) (view : F → spec_float).
Hypothesis view_leb : ∀ x y : F, sleb x y = SFleb (view x) (view y).
Hypothesis view_add :
  ∀ x y : F, view (x ⊕ y) = SFadd prec emax (view x) (view y).
Hypothesis view_sub :
  ∀ x y : F, view (x ⊖ y) = SFsub prec emax (view x) (view y).
Hypothesis view_mul :
  ∀ x y : F, view (x ⊗ y) = SFmul prec emax (view x) (view y).
Hypothesis view_div :
  ∀ x y : F, view (x ⊘ y) = SFdiv prec emax (view x) (view y).
Hypothesis view_sqrt : ∀ x : F, view (ssqrt x) = SFsqrt prec emax (view x).
Hypothesis view_abs : ∀ x : F, view (sabs x) = SFabs (view x).
Hypothesis view_zero : view szero = S754_zero false.
Hypothesis view_inf : ∃ x : F, view x = S754_infinity false.

Lemma view_non_finite (x : F) : non_finite x ↔ SFnf (view x).
Proof using view_leb view_abs view_inf.
  unfold non_finite. rewrite (view_top view view_leb view_inf), view_abs.
  split.
  - intros [Hn|Hi]; [left|apply SFabs_nf_inv; rewrite Hi; apply SFnf_inf].
    assert (view x ≠ S754_nan → False) as Hv
      by (intros Hv%(view_isnan view view_leb); congruence).
    destruct (view x); try done; destruct Hv; done.
  - intros [Hn|[s Hs]]; [left|right; by rewrite Hs].
    destruct (sisnan x) eqn:Hx; [done|].
    by apply (view_isnan view view_leb) in Hx.
Qed.

Lemma view_is_zero (z : F) : is_zero z → ∃ s, view z = S754_zero s.
Proof using view_leb view_zero.
  intros [Hz1 Hz2]. rewrite !view_leb, view_zero in *. by eapply SFleb_zero.
Qed.

Lemma view_zero_div_arith : ZeroDivArith F.
Proof using All.
  split; intros *; rewrite ?view_non_finite.
  - intros [s Hs]%view_is_zero. unfold is_zero.
    rewrite !view_leb, view_sqrt, view_zero, Hs. by destruct s.
  - intros [s Hs]%view_is_zero. rewrite view_div, Hs. apply SFdiv_zero_nf.
  - unfold ssqr. rewrite view_mul. apply SFmul_sqr_nf.
  - rewrite view_sub. apply SFsub_nf_r.
  - rewrite view_abs. apply SFabs_nf.
  - rewrite view_add. apply SFadd_nf_l.
  - rewrite view_add. apply SFadd_nf_r.
Qed.
End spec_view_zero.

#[export] Instance fp_zero_div_arith {prec emax : Z} :
  ZeroDivArith (fp prec emax).
Proof.
  apply (view_zero_div_arith prec emax fp_val); try done.
  by exists (FP (S754_infinity false)).
Qed.

#[export] Instance float_zero_div_arith : ZeroDivArith float.
Proof.
  apply (view_zero_div_arith prec emax Prim2SF); intros.
  - apply leb_spec.
  - apply add_spec.
  - apply sub_spec.
  - apply mul_spec.
  - apply div_spec.
  - apply sqrt_spec.
  - apply abs_spec.
  - done.
  - by exists infinity.
Qed.

(** ** Numbers that are not finite in the reductions *)

Section non_finite_reductions.
Context {F : Type} `{Scalar F} `{!ZeroDivArith F}.
Implicit Types (x : list F).

Lemma foldl_norm1_non_finite_acc (a : F) x :
  non_finite a → non_finite (foldl (λ acc v, acc ⊕ sabs v) a x).
Proof.
  revert a. induction x as [|v x IH]; intros a Ha; [done|]. simpl.
  by apply IH, nf_add_l.
Qed.

(** The 1-norm of a tensor that holds a number that is not finite is not
    finite: it is NaN or [+inf]. *)
Lemma norm1_non_finite x : Exists non_finite x → non_finite (norm1 x).
Proof.
  intros Hn. unfold norm1. generalize (szero : F).
  induction Hn as [v x Hv|v x _ IH]; intros a; simpl.
  - by apply foldl_norm1_non_finite_acc, nf_add_r, nf_abs.
  - apply IH.
Qed.
End non_finite_reductions.
