(* ===== verification/MatrixAccess.v ===== *)
(** * MatrixAccess: what the factorisation needs of its input matrix

    [pivoted_cholesky] never reads the whole matrix.  It asks for the shape
    (lines 10-11), the diagonal (lines 15-19) and, once per iteration, one
    row per batch element (lines 58-61).  The matrix is either a dense
    tensor or a [LazyTensor]; the code tells them apart with [isinstance].
    The model replaces the run-time test by a type class with one instance
    per kind:

    - [dense]: a tensor of shape [batch_shape + (rows, cols)], stored as a
      list over the flattened batch; its diagonal is what
      [NonLazyTensor(matrix).diag()] returns.
    - a [LazyTensor] (lines 15-17 and 59-60) is any other instance: its
      diagonal is [_approx_diag()] and a fetched row is [evaluate()]d.  The
      class [LazyTensor] is not part of the sources; the instance [lazy] of
      [LazyAccess] is the least object with these methods, and the
      theorems hold for every instance that obeys the laws.

    [MatrixAccessLaws] states what the factorisation relies on: a
    well-formed matrix yields a diagonal of the right shape and a row of the
    right length for every valid index.  The factorisation's theorems are
    proved against these laws. *)

From S2P Require Import Prelude Scalar Tensor.

Class MatrixAccess (F M : Type) : Type := {
  (** [matrix.shape[:-2]] *)
  ma_batch_shape : M → list nat;
  (** [matrix.shape[-2:]], as (rows, columns) *)
  ma_matrix_shape : M → nat * nat;
  (** the diagonal of every batch element (lines 15-19) *)
  ma_diag : M → res (list (list F));
  (** [matrix[i_1, ..., i_k, r, :]], evaluated: one row of one batch element *)
  ma_row : M → list nat → nat → res (list F);
  (** the entry at row [r], column [c] of flat batch element [f], when it exists *)
  ma_entry : M → nat → nat → nat → option F;
}.

(** The side length used by the factorisation: [matrix_shape[-1]]. *)
Definition ma_n {F M} `{MatrixAccess F M} (matrix : M) : nat :=
  (ma_matrix_shape matrix).2.

Class MatrixAccessLaws (F M : Type) `{MatrixAccess F M} : Type := {
  (** well-formed square matrices *)
  ma_wf : M → Prop;
  ma_wf_square matrix :
    ma_wf matrix → (ma_matrix_shape matrix).1 = (ma_matrix_shape matrix).2;
  (** the diagonal has one vector of length [n] per batch element, and holds
      the diagonal entries *)
  ma_diag_wf matrix :
    ma_wf matrix →
    ∃ d, ma_diag matrix = Val d ∧
         length d = numel (ma_batch_shape matrix) ∧
         Forall (λ v, length v = ma_n matrix) d ∧
         ∀ f v i x, d !! f = Some v → v !! i = Some x →
                    ma_entry matrix f i i = Some x;
  (** a row fetched at a valid index has length [n] and holds the entries of
      that row *)
  ma_row_wf matrix idx f r :
    ma_wf matrix →
    ravel (ma_batch_shape matrix) idx = Val f → r < ma_n matrix →
    ∃ row, ma_row matrix idx r = Val row ∧ length row = ma_n matrix ∧
           ∀ c x, row !! c = Some x → ma_entry matrix f r c = Some x;
}.

(** ** Dense tensors *)

Record dense (F : Type) : Type := Dense {
  d_batch_shape : list nat;
  d_rows : nat;
  d_cols : nat;
  d_data : list (list (list F));
}.
Arguments Dense {F} _ _ _ _.
Arguments d_batch_shape {F} _.
Arguments d_rows {F} _.
Arguments d_cols {F} _.
Arguments d_data {F} _.

Section dense.
Context {F : Type}.

(** [NonLazyTensor(matrix).diag()] on one batch element. *)
Definition dense_diag1 (k : nat) (A : list (list F)) : res (list F) :=
  mapM (λ i, row ← index A i; index row i) (seq 0 k).

Definition dense_diag (t : dense F) : res (list (list F)) :=
  mapM (dense_diag1 (d_rows t `min` d_cols t)) (d_data t).

Definition dense_row (t : dense F) (idx : list nat) (r : nat) : res (list F) :=
  f ← ravel (d_batch_shape t) idx;
  A ← index (d_data t) f;
  index A r.

Definition dense_entry (t : dense F) (f r c : nat) : option F :=
  A ← d_data t !! f; row ← A !! r; row !! c.

(** The batch element at flat position [f], as a tensor without batch
    dimensions. *)
Definition dense_select (t : dense F) (f : nat) : dense F :=
  Dense [] (d_rows t) (d_cols t) (take 1 (drop f (d_data t))).

#[export] Instance dense_access : MatrixAccess F (dense F) := {|
  ma_batch_shape := d_batch_shape;
  ma_matrix_shape t := (d_rows t, d_cols t);
  ma_diag := dense_diag;
  ma_row := dense_row;
  ma_entry := dense_entry;
|}.

(** The data of a dense tensor fills its shape, and the matrices are square. *)
Record dense_wf (t : dense F) : Prop := {
  dwf_square : d_rows t = d_cols t;
  dwf_batch : length (d_data t) = numel (d_batch_shape t);
  dwf_rows : Forall (λ A, length A = d_rows t) (d_data t);
  dwf_cols : Forall (Forall (λ row, length row = d_cols t)) (d_data t);
}.

#[export] Instance dense_wf_dec (t : dense F) : Decision (dense_wf t).
Proof.
  refine (match decide (d_rows t = d_cols t
    ∧ length (d_data t) = numel (d_batch_shape t)
    ∧ Forall (λ A, length A = d_rows t) (d_data t)
    ∧ Forall (Forall (λ row, length row = d_cols t)) (d_data t))
    with left Hd => left _ | right Hn => right _ end).
  - by destruct Hd as (?&?&?&?).
  - intros []. by apply Hn.
Defined.

Lemma dense_wf_lookup t f A r row :
  dense_wf t → d_data t !! f = Some A → A !! r = Some row →
  length A = d_rows t ∧ length row = d_cols t.
Proof.
  intros [_ _ Hr Hc] HA Hrow. split.
  - by eapply (Forall_lookup_1 _ _ _ _ Hr).
  - pose proof (Forall_lookup_1 _ _ _ _ Hc HA) as HcA.
    by apply (Forall_lookup_1 _ _ _ _ HcA Hrow).
Qed.

Lemma dense_diag1_wf t A :
  dense_wf t → A ∈ d_data t →
  ∃ v, dense_diag1 (d_rows t `min` d_cols t) A = Val v ∧
       length v = d_cols t ∧
       ∀ i x, v !! i = Some x → ∃ row, A !! i = Some row ∧ row !! i = Some x.
Proof.
  intros Hwf [f HA]%list_elem_of_lookup.
  pose proof (dwf_square _ Hwf) as Hsq. rewrite Hsq, Nat.min_id.
  assert (Hi : ∀ i, i < d_cols t →
            ∃ row x, A !! i = Some row ∧ row !! i = Some x).
  { intros i Hlt.
    destruct (lookup_lt_is_Some_2 A i) as [row Hrow].
    { destruct (A !! 0) eqn:E.
      - destruct (dense_wf_lookup _ _ _ _ _ Hwf HA E). lia.
      - apply lookup_ge_None in E.
        pose proof (Forall_lookup_1 _ _ _ _ (dwf_rows _ Hwf) HA). simpl in *. lia. }
    destruct (dense_wf_lookup _ _ _ _ _ Hwf HA Hrow) as [_ Hlen].
    destruct (lookup_lt_is_Some_2 row i) as [x Hx]; [lia|]. eauto. }
  destruct (mapM_res_is_Val (λ i, row ← index A i; index row i) (seq 0 (d_cols t)))
    as [v Hv].
  { apply Forall_forall. intros i [_ ?]%elem_of_seq.
    destruct (Hi i) as (row&x&Hrow&Hx); [lia|].
    exists x. apply bind_Val. exists row. by rewrite !index_Val. }
  exists v. split; [done|]. split.
  { apply mapM_res_length in Hv. by rewrite length_seq in Hv. }
  intros i x Hx.
  assert (i < d_cols t) as Hlt.
  { apply lookup_lt_Some in Hx. apply mapM_res_length in Hv.
    rewrite length_seq in Hv. lia. }
  destruct (mapM_res_lookup _ _ _ i i Hv) as (y&Hy&Hb); [by apply lookup_seq_0|].
  simplify_res. apply index_Val in Ha. apply index_Val in Hb.
  simplify_eq. eauto.
Qed.

#[export] Program Instance dense_laws : MatrixAccessLaws F (dense F) := {|
  ma_wf := dense_wf;
|}.
Next Obligation. intros t Hwf. apply Hwf. Qed.
Next Obligation.
  intros t Hwf. unfold ma_n. simpl.
  assert (∃ d, Forall2 (λ A v, dense_diag1 (d_rows t `min` d_cols t) A = Val v
            ∧ length v = d_cols t
            ∧ ∀ i x, v !! i = Some x → ∃ row, A !! i = Some row ∧ row !! i = Some x)
            (d_data t) d) as [d Hd].
  { assert (Forall (λ A, A ∈ d_data t) (d_data t)) as Hall
      by by apply Forall_forall.
    induction Hall as [|A l HA _ [d IH]]; [by exists []|].
    destruct (dense_diag1_wf t A Hwf HA) as (v&?&?&?).
    exists (v :: d). by constructor. }
  exists d. split; [|split; [|split]].
  - apply mapM_res_Val. eapply Forall2_impl; [exact Hd|]. by intros ?? [??].
  - rewrite <-(dwf_batch _ Hwf). symmetry. by eapply Forall2_length.
  - apply Forall_forall. intros v [f Hv]%list_elem_of_lookup.
    destruct (Forall2_lookup_r _ _ _ _ _ Hd Hv) as (A&_&_&?&_). done.
  - intros f v i x Hv Hx.
    destruct (Forall2_lookup_r _ _ _ _ _ Hd Hv) as (A&HA&_&_&Hent).
    destruct (Hent _ _ Hx) as (row&Hrow&Hx').
    unfold dense_entry. rewrite HA. simpl. rewrite Hrow. done.
Qed.
Next Obligation.
  intros t idx f r Hwf Hf Hr. unfold ma_n in *. simpl in *.
  pose proof (ravel_lt _ _ _ Hf) as Hlt.
  destruct (lookup_lt_is_Some_2 (d_data t) f) as [A HA].
  { by rewrite (dwf_batch _ Hwf). }
  destruct (lookup_lt_is_Some_2 A r) as [row Hrow].
  { rewrite (Forall_lookup_1 _ _ _ _ (dwf_rows _ Hwf) HA).
    by rewrite (dwf_square _ Hwf). }
  exists row. split; [|split].
  - unfold dense_row. apply bind_Val. exists f. split; [done|].
    apply bind_Val. exists A. by rewrite !index_Val.
  - by destruct (dense_wf_lookup _ _ _ _ _ Hwf HA Hrow).
  - intros c x Hx. unfold dense_entry. rewrite HA. simpl. rewrite Hrow. done.
Qed.
End dense.
