(* ===== verification/Examples.v ===== *)
(** * Examples: concrete matrices

    Small inputs on which the definitions are run: exact rational matrices
    whose pivots are squares of rationals (so that [Qc_sqrt] is exact on
    them), and binary64 matrices for the behaviours of IEEE arithmetic. *)

From Stdlib Require Import QArith Qcanon Floats.
From S2P Require Import Prelude Scalar ScalarInstances Tensor MatrixAccess.

(** [[4 2] [2 2]], no batch dimension: pivots 4 and 1. *)
Definition A22 : dense Qc :=
  Dense [] 2 2 [[[qc 4 1; qc 2 1]; [qc 2 1; qc 2 1]]].

(** A batch of two 3 x 3 matrices.  The first has pivots 9, 4, 1 in the
    order of the rows 2, 0, 1; the second is diagonal with pivots 4, 1 and
    1/4. *)
Definition B233 : dense Qc :=
  Dense [2] 3 3
    [ [[qc 5 1; qc 2 1; qc 3 1]; [qc 2 1; qc 5 1; qc 6 1]; [qc 3 1; qc 6 1; qc 9 1]];
      [[qc 1 4; qc 0 1; qc 0 1]; [qc 0 1; qc 4 1; qc 0 1]; [qc 0 1; qc 0 1; qc 1 1]] ].

(** A batch of shape (2, 0): no batch elements. *)
Definition E20 : dense Qc := Dense [2; 0] 2 2 [].

(** A symmetric matrix that is not positive semi-definite. *)
Definition N22 : dense Qc :=
  Dense [] 2 2 [[[qc 1 1; qc 10 1]; [qc 10 1; qc 1 1]]].

(** A binary64 matrix with a negative diagonal. *)
Definition Fneg : dense float :=
  Dense [] 2 2 [[[-1; 0]; [0; -2]]]%float.

(** A binary64 positive definite matrix. *)
Definition F33 : dense float :=
  Dense [] 3 3 [[[4; 2; 2]; [2; 5; 3]; [2; 3; 6]]]%float.

(** A binary64 batch of the matrix of ones, which is positive
    semi-definite of rank one, and the identity. *)
Definition Frank : dense float :=
  Dense [2] 3 3 [ [[1; 1; 1]; [1; 1; 1]; [1; 1; 1]];
                  [[1; 0; 0]; [0; 1; 0]; [0; 0; 1]] ]%float.

Lemma A22_wf : ma_wf A22.
Proof. by apply (bool_decide_unpack _). Qed.

Lemma B233_wf : ma_wf B233.
Proof. by apply (bool_decide_unpack _). Qed.

Lemma E20_wf : ma_wf E20.
Proof. by apply (bool_decide_unpack _). Qed.

Lemma N22_wf : ma_wf N22.
Proof. by apply (bool_decide_unpack _). Qed.
