(* ===== verification/PivotedCholesky.v ===== *)
(** * PivotedCholesky: the model of [pivoted_cholesky] (lines 7-82)

    The state of the loop is the counter [m] and, for every element of the
    flattened batch, the slices of the four tensors the loop updates in
    place: the rows of [L], the residual diagonal [matrix_diag], the
    [permutation] and the scalar [errors].

    One iteration of the loop body is [step]:

    - [step_pre] (lines 43-56), per batch element: [select_pivot] finds the
      largest remaining diagonal entry, [swap_pivot] exchanges positions
      [m] and the position found in the permutation, [write_pivot] stores
      the square root of the pivot in row [m] of [L];
    - [fetch_rows] (lines 58-61), for the whole batch: the row of the matrix
      at each element's pivot, addressed through [batch_iters];
    - [step_post] (lines 63-79), per batch element: [update_row] fills the
      rest of row [m], [deflate] subtracts its squares from the remaining
      diagonal and recomputes the error.

    [loop] is the [while] of line 42, [pivoted_cholesky] the whole function.
    Each definition names the lines it models. *)

From S2P Require Import Prelude Scalar Tensor MatrixAccess.

Section pivoted_cholesky.
Context {F : Type} `{Scalar F} {M : Type} `{MatrixAccess F M}.

(** The part of the state that belongs to one batch element. *)
Record elem : Type := Elem {
  L : list (list F);           (* [L[b]]: [max_iter] rows of length [n] *)
  matrix_diag : list F;        (* [matrix_diag[b]] *)
  permutation : list nat;      (* [permutation[b]] *)
  errors : F;                  (* [errors[b]] *)
}.

Record state : Type := State {
  st_elems : list elem;        (* one [elem] per flat batch position *)
  st_m : nat;                  (* the loop counter [m] *)
}.

(** The only element of a one-element tensor ([squeeze_(-1)]). *)
Definition item {A} (x : list A) : res A :=
  match x with
  | [v] => Val v
  | _ => Raise RuntimeError
  end.

(** Lines 43-46: the largest entry of the diagonal among the positions
    [m..n-1] of the permutation, and its position. *)
Definition select_pivot (m : nat) (e : elem) : res (F * nat) :=
  permuted_diags ← gather (matrix_diag e) (slice_from m (permutation e));
  '(max_diag_values, max_diag_indices) ← max_dim permuted_diags;
  Val (max_diag_values, max_diag_indices + m).

(** Lines 50-52: exchange the entries at positions [m] and
    [max_diag_indices] of the permutation. *)
Definition swap_pivot (m max_diag_indices : nat) (permutation : list nat)
    : res (list nat) :=
  old_pi_m ← index permutation m;
  new_pi_m ← gather permutation [max_diag_indices] ≫= item;
  permutation ← set_index permutation m new_pi_m;
  scatter permutation [max_diag_indices] [old_pi_m].

(** Lines 55-56: store the square root of the pivot at column [pi_m] of
    row [L_m]. *)
Definition write_pivot (pi_m : nat) (max_diag_values : F) (L_m : list F)
    : res (list F) :=
  scatter L_m [pi_m] [ssqrt max_diag_values].

(** Lines 43-56 for one batch element.  [L_m] is a view of row [m] of [L]:
    the write goes to [L].  Returns the new state and [pi_m]. *)
Definition step_pre (m : nat) (e : elem) : res (elem * nat) :=
  '(max_diag_values, max_diag_indices) ← select_pivot m e;
  permutation' ← swap_pivot m max_diag_indices (permutation e);
  pi_m ← index permutation' m;
  L_m ← index (L e) m;
  L_m ← write_pivot pi_m max_diag_values L_m;
  L' ← set_index (L e) m L_m;
  Val (Elem L' (matrix_diag e) permutation' (errors e), pi_m).

(** Lines 58-60: [matrix[(batch_iters..., pi_m.view(-1), :)]], then
    [evaluate()]: for every flat position, the row of the matrix at the
    multi-index the iterators hold there and at the pivot. *)
Definition fetch_rows (matrix : M) (iters : list (list nat)) (pi_m : list nat)
    : res (list (list F)) :=
  mapM (λ f, idx ← iters_at iters f; r ← index pi_m f; ma_row matrix idx r)
       (seq 0 (length pi_m)).

(** Line 61: [row.view(batch_shape..., n)]: the rows must fill that shape. *)
Definition view_rows (batch_shape : list nat) (n : nat) (rows : list (list F))
    : res (list (list F)) :=
  if decide (length rows = numel batch_shape ∧ Forall (λ r, length r = n) rows)
  then Val rows else Raise RuntimeError.

(** Lines 66-70: the entries of the pivot row at the remaining positions,
    minus the contribution of the rows already computed. *)
Definition orthogonalize (m pi_m : nat) (pi_i : list nat) (row : list F)
    (L : list (list F)) : res (list F) :=
  L_m_new ← gather row pi_i;
  if decide (0 < m) then
    L_prev ← mapM (λ L_j, gather L_j pi_i) (slice_to m L);
    update ← mapM (λ L_j, gather L_j [pi_m]) (slice_to m L);
    prods ← mapM (λ '(u, l), ewise smul u l) (zip update L_prev);
    ewise_ ssub L_m_new (sum_dim0 (length pi_i) prods)
  else Val L_m_new.

(** Lines 64-73: the rest of row [m] of [L]: returns the new row [L_m] and
    the values [L_m_new] written at the positions [pi_i]. *)
Definition update_row (m pi_m : nat) (pi_i : list nat) (row : list F)
    (L : list (list F)) : res (list F * list F) :=
  L_m ← index L m;
  L_m_new ← orthogonalize m pi_m pi_i row L;
  d ← gather L_m [pi_m];
  L_m_new ← ewise_ sdiv L_m_new d;
  L_m ← scatter L_m pi_i L_m_new;
  Val (L_m, L_m_new).

(** Lines 75-76: subtract the squares of the new entries from the diagonal
    at the remaining positions. *)
Definition deflate (pi_i : list nat) (L_m_new : list F) (matrix_diag : list F)
    : res (list F) :=
  matrix_diag_current ← gather matrix_diag pi_i;
  new_diag ← ewise ssub matrix_diag_current (ssqr <$> L_m_new);
  scatter matrix_diag pi_i new_diag.

(** Lines 63-79 for one batch element, given its pivot and pivot row. *)
Definition step_post (m n pi_m : nat) (row : list F) (e : elem) : res elem :=
  if decide (m + 1 < n) then
    let pi_i := slice_from (m + 1) (permutation e) in
    '(L_m, L_m_new) ← update_row m pi_m pi_i row (L e);
    matrix_diag' ← deflate pi_i L_m_new (matrix_diag e);
    L' ← set_index (L e) m L_m;
    remaining ← gather matrix_diag' pi_i;
    Val (Elem L' matrix_diag' (permutation e) (norm1 remaining))
  else Val e.

(** Lines 43-80: one iteration of the loop body, for the whole batch. *)
Definition step (matrix : M) (batch_shape : list nat) (n : nat)
    (iters : list (list nat)) (st : state) : res state :=
  let m := st_m st in
  pre ← mapM (step_pre m) (st_elems st);
  row ← fetch_rows matrix iters (snd <$> pre);
  row ← view_rows batch_shape n row;
  elems ← mapM (λ '((e, pi_m), r), step_post m n pi_m r e) (zip pre row);
  Val (State elems (m + 1)).

(** Line 42: [m < max_iter and torch.max(errors) > error_tol].  The second
    operand is evaluated only when the first holds. *)
Definition loop_test (max_iter : nat) (error_tol : F) (st : state) : res bool :=
  if decide (st_m st < max_iter) then
    worst ← tmax (errors <$> st_elems st);
    Val (sltb error_tol worst)
  else Val false.

(** Lines 42-80: the loop.  It raises [OutOfFuel] when the test still
    holds and no fuel is left. *)
Fixpoint loop (fuel : nat) (matrix : M) (batch_shape : list nat) (n : nat)
    (iters : list (list nat)) (max_iter : nat) (error_tol : F) (st : state)
    : res state :=
  go ← loop_test max_iter error_tol st;
  if (go : bool) then
    match fuel with
    | 0 => Raise OutOfFuel
    | S fuel' =>
        st' ← step matrix batch_shape n iters st;
        loop fuel' matrix batch_shape n iters max_iter error_tol st'
    end
  else Val st.

(** Lines 25-30: the state before the first iteration. *)
Definition init_elem (L0 : list (list F)) (n : nat) (diag : list F) : elem :=
  Elem L0 diag (arange n) (norm1 diag).

Definition init_state (batch_shape : list nat) (max_iter : Z) (n : nat)
    (matrix_diag : list (list F)) : res state :=
  L0 ← zeros2 max_iter n;
  Val (State (init_elem L0 n <$> matrix_diag) 0).

(** Line 82: [L[..., :m, :]]. *)
Definition result_of (st : state) : list (list (list F)) :=
  (λ e, slice_to (st_m st) (L e)) <$> st_elems st.

(** Lines 7-82.  The result has one [m x n] factor per flat batch position.
    The final state is returned with it; the code returns only the factor. *)
Definition pivoted_cholesky_state (matrix : M) (max_iter : Z) (error_tol : F)
    : res state :=
  let batch_shape := ma_batch_shape matrix in
  let n := ma_n matrix in
  matrix_diag ← ma_diag matrix;
  let max_iter := (max_iter `min` Z.of_nat n)%Z in
  st ← init_state batch_shape max_iter n matrix_diag;
  let iters := batch_iters batch_shape in
  loop (Z.to_nat max_iter) matrix batch_shape n iters (Z.to_nat max_iter)
       error_tol st.

Definition pivoted_cholesky (matrix : M) (max_iter : Z) (error_tol : F)
    : res (list (list (list F))) :=
  result_of <$> pivoted_cholesky_state matrix max_iter error_tol.

End pivoted_cholesky.

Arguments elem F : clear implicits.
Arguments state F : clear implicits.
