(* ===== verification/PivotedCholeskySpec.v ===== *)
(** * PivotedCholeskySpec: the iteration as total functions

    The model in [PivotedCholesky] can raise; on a well-formed state it does
    not.  This file gives the exception-free reading of one iteration for
    one batch element ([pre_t], [post_t], built from the total tensor
    functions [gather_t], [scatter_t] and [argmax]), the well-formedness
    predicate [elem_wf] on which the two readings agree, and the refinement
    lemmas [step_pre_total] and [step_post_total] that say so.  Theorems
    about the values the algorithm computes are proved on the total
    functions and transferred along the refinement. *)

From S2P Require Import Prelude Scalar Tensor MatrixAccess PivotedCholesky.

Section spec.
Context {F : Type} `{Scalar F}.
Implicit Types (e : elem F) (m n k : nat) (p pi_i : list nat) (row : list F).

(** Exchange positions [i] and [j] of a list of indices. *)
Definition swap (i j : nat) p : list nat :=
  <[j := p !!! i]> (<[i := p !!! j]> p).

(** The pivot of iteration [m]: its diagonal value and its position in the
    permutation. *)
Definition pivot_of m e : F * nat :=
  let a := argmax (gather_t (matrix_diag e) (drop m (permutation e))) in
  (a.1, a.2 + m).

Definition pre_t m e : elem F * nat :=
  let v := (pivot_of m e).1 in
  let k := (pivot_of m e).2 in
  let perm' := swap m k (permutation e) in
  let pi_m := perm' !!! m in
  let L_m := <[pi_m := ssqrt v]> (L e !!! m) in
  (Elem (<[m := L_m]> (L e)) (matrix_diag e) perm' (errors e), pi_m).

(** The products [L[j, pi_m] * L[j, pi_i]] for the rows [j < m]. *)
Definition prods_t m (pi_m : nat) pi_i (Ls : list (list F)) : list (list F) :=
  (λ L_j, smul (L_j !!! pi_m) <$> gather_t L_j pi_i) <$> take m Ls.

Definition orthogonalize_t m (pi_m : nat) pi_i row (Ls : list (list F)) : list F :=
  if decide (0 < m)
  then zip_with ssub (gather_t row pi_i) (sum_dim0 (length pi_i) (prods_t m pi_m pi_i Ls))
  else gather_t row pi_i.

(** The values written to row [m] at the positions [pi_i]. *)
Definition new_entries_t m (pi_m : nat) pi_i row (Ls : list (list F)) : list F :=
  (λ x, x ⊘ ((Ls !!! m) !!! pi_m)) <$> orthogonalize_t m pi_m pi_i row Ls.

Definition deflate_t pi_i (L_m_new : list F) (diag : list F) : list F :=
  scatter_t diag pi_i (zip_with ssub (gather_t diag pi_i) (ssqr <$> L_m_new)).

Definition post_t m n (pi_m : nat) row e : elem F :=
  if decide (m + 1 < n) then
    let pi_i := drop (m + 1) (permutation e) in
    let L_m_new := new_entries_t m pi_m pi_i row (L e) in
    let L_m := scatter_t (L e !!! m) pi_i L_m_new in
    let diag' := deflate_t pi_i L_m_new (matrix_diag e) in
    Elem (<[m := L_m]> (L e)) diag' (permutation e) (norm1 (gather_t diag' pi_i))
  else e.

(** ** Well-formed elements *)

Record elem_wf (n max_iter : nat) e : Prop := {
  wf_L_rows : length (L e) = max_iter;
  wf_L_cols : Forall (λ r, length r = n) (L e);
  wf_diag : length (matrix_diag e) = n;
  wf_perm : permutation e ≡ₚ seq 0 n;
}.

Lemma wf_perm_length n mi e : elem_wf n mi e → length (permutation e) = n.
Proof. intros Hwf. by apply perm_seq_length, Hwf. Qed.

Lemma wf_row_length n mi e j : elem_wf n mi e → j < mi → length (L e !!! j) = n.
Proof.
  intros Hwf Hj. eapply (Forall_lookup_1 _ _ _ _ (wf_L_cols _ _ _ Hwf)).
  apply list_lookup_lookup_total_lt. by rewrite (wf_L_rows _ _ _ Hwf).
Qed.

(** Every entry of a permutation of [0..n-1], and so of any slice of it,
    is a valid index into a vector of length [n]. *)
Lemma perm_bound (A : Type) (x : list A) p n :
  p ≡ₚ seq 0 n → length x = n → Forall (λ i, i < length x) p.
Proof.
  intros Hp Hx. apply Forall_forall. intros i [j Hj]%list_elem_of_lookup.
  rewrite Hx. by eapply perm_seq_lt.
Qed.

Lemma perm_drop_bound (A : Type) (x : list A) p n k :
  p ≡ₚ seq 0 n → length x = n → Forall (λ i, i < length x) (drop k p).
Proof. intros Hp Hx. apply Forall_drop. by eapply perm_bound. Qed.

Lemma perm_lookup_total_lt p n i : p ≡ₚ seq 0 n → i < n → p !!! i < n.
Proof.
  intros Hp Hi. eapply perm_seq_lt; [done|].
  apply list_lookup_lookup_total_lt. by rewrite (perm_seq_length _ _ Hp).
Qed.

(** ** The swap *)

Lemma length_swap i j p : length (swap i j p) = length p.
Proof. unfold swap. by rewrite !length_insert. Qed.

Lemma swap_Permutation i j p :
  i < length p → j < length p → swap i j p ≡ₚ p.
Proof.
  intros Hi Hj. unfold swap.
  apply Permutation_insert_swap; by apply list_lookup_lookup_total_lt.
Qed.

Lemma swap_lookup_l i j p :
  i < length p → j < length p → swap i j p !! i = Some (p !!! j).
Proof.
  intros Hi Hj. unfold swap. destruct (decide (i = j)) as [->|Hne].
  - rewrite list_lookup_insert_eq by (by rewrite length_insert). done.
  - rewrite list_lookup_insert_ne by done.
    by rewrite list_lookup_insert_eq.
Qed.

Lemma swap_lookup_r i j p :
  i < length p → j < length p → swap i j p !! j = Some (p !!! i).
Proof.
  intros Hi Hj. unfold swap.
  by rewrite list_lookup_insert_eq by (by rewrite length_insert).
Qed.

Lemma swap_lookup_ne i j p k :
  k ≠ i → k ≠ j → swap i j p !! k = p !! k.
Proof. intros. unfold swap. by rewrite !list_lookup_insert_ne. Qed.

(** Positions before both swapped positions are not touched: the pivots
    chosen so far stay where they are. *)
Lemma swap_take i j p k : k ≤ i → k ≤ j → take k (swap i j p) = take k p.
Proof. intros. unfold swap. by rewrite !take_insert_ge. Qed.

Lemma swap_pivot_total m k p :
  m < length p → k < length p → swap_pivot m k p = Val (swap m k p).
Proof.
  intros Hm Hk. unfold swap_pivot.
  rewrite index_total by done. res_simpl.
  rewrite gather_total by (by repeat constructor). res_simpl.
  rewrite gather_t_singleton. simpl item. res_simpl.
  rewrite set_index_total by done. res_simpl.
  rewrite scatter_total; [done| |done].
  repeat constructor. by rewrite length_insert.
Qed.

(** ** The pivot *)

Lemma pivot_of_bounds n mi m e :
  elem_wf n mi e → m < n → m ≤ (pivot_of m e).2 < n.
Proof.
  intros Hwf Hm. unfold pivot_of. simpl.
  set (pd := gather_t _ _).
  assert (length pd = n - m) as Hpd.
  { unfold pd. rewrite length_gather_t, length_drop.
    by rewrite (wf_perm_length _ _ _ Hwf). }
  pose proof (argmax_lt pd). lia.
Qed.

(** The pivot value is the diagonal entry at the pivot position. *)
Lemma pivot_of_value n mi m e :
  elem_wf n mi e → m < n →
  (pivot_of m e).1 = matrix_diag e !!! (permutation e !!! (pivot_of m e).2).
Proof.
  intros Hwf Hm. unfold pivot_of. cbn [fst snd].
  pose proof (wf_perm_length _ _ _ Hwf) as Hlen.
  set (idx := drop m (permutation e)).
  assert (length idx = n - m) as Hidx by (unfold idx; rewrite length_drop; lia).
  pose proof (argmax_lookup (gather_t (matrix_diag e) idx)) as Hl.
  pose proof (argmax_lt (gather_t (matrix_diag e) idx)) as Hlt.
  rewrite length_gather_t in Hl. rewrite length_gather_t in Hlt.
  specialize (Hl ltac:(lia)). specialize (Hlt ltac:(lia)).
  destruct (lookup_lt_is_Some_2 idx _ Hlt) as [i Hi].
  rewrite (lookup_gather_t _ _ _ _ Hi) in Hl. injection Hl as Hl.
  rewrite <-Hl. f_equal. unfold idx in Hi. rewrite lookup_drop in Hi.
  rewrite (Nat.add_comm _ m). symmetry. by apply list_lookup_total_correct.
Qed.

(** The swap of iteration [m] keeps the permutation a permutation. *)
Lemma swap_pivot_Permutation n mi m e :
  elem_wf n mi e → m < mi → mi ≤ n →
  swap m (pivot_of m e).2 (permutation e) ≡ₚ seq 0 n.
Proof.
  intros Hwf Hm Hmi.
  pose proof (pivot_of_bounds n mi m e Hwf ltac:(lia)) as Hk.
  pose proof (wf_perm_length _ _ _ Hwf) as Hlen.
  rewrite swap_Permutation by lia. apply Hwf.
Qed.

(** ** Refinement: lines 43-56 *)

Lemma select_pivot_total n mi m e :
  elem_wf n mi e → m < n → select_pivot m e = Val (pivot_of m e).
Proof.
  intros Hwf Hm. unfold select_pivot, slice_from.
  rewrite gather_total
    by (eapply perm_drop_bound; [apply Hwf|apply Hwf]).
  res_simpl. rewrite max_dim_total.
  - res_simpl. unfold pivot_of. by destruct (argmax _).
  - rewrite length_gather_t, length_drop, (wf_perm_length _ _ _ Hwf). lia.
Qed.

Lemma step_pre_total n mi m e :
  elem_wf n mi e → m < mi → mi ≤ n → step_pre m e = Val (pre_t m e).
Proof.
  intros Hwf Hm Hmi. unfold step_pre.
  pose proof (pivot_of_bounds n mi m e Hwf ltac:(lia)) as Hk.
  pose proof (wf_perm_length _ _ _ Hwf) as Hlen.
  rewrite (select_pivot_total n mi) by (done || lia). res_simpl.
  destruct (pivot_of m e) as [v k] eqn:Hp. simpl in Hk.
  rewrite swap_pivot_total by lia. res_simpl.
  rewrite (index_total (swap m k _) m) by (rewrite length_swap; lia). res_simpl.
  rewrite (index_total (L e) m) by (by rewrite (wf_L_rows _ _ _ Hwf)). res_simpl.
  unfold write_pivot. rewrite scatter_total; [res_simpl| |simpl; lia].
  - rewrite set_index_total by (by rewrite (wf_L_rows _ _ _ Hwf)).
    unfold pre_t. by rewrite Hp.
  - repeat constructor. rewrite (wf_row_length n mi) by done.
    apply perm_lookup_total_lt; [|lia].
    rewrite swap_Permutation by lia. apply Hwf.
Qed.

Lemma pre_t_wf n mi m e :
  elem_wf n mi e → m < mi → mi ≤ n → elem_wf n mi (pre_t m e).1.
Proof.
  intros Hwf Hm Hmi.
  split; unfold pre_t; cbn [L matrix_diag permutation fst].
  - rewrite length_insert. apply Hwf.
  - apply Forall_insert; [apply Hwf|].
    rewrite length_insert. by apply (wf_row_length n mi).
  - apply Hwf.
  - by eapply swap_pivot_Permutation.
Qed.

(** The pivot index is a valid column, and it is the entry of the new
    permutation at position [m]. *)
Lemma pre_t_pivot n mi m e :
  elem_wf n mi e → m < mi → mi ≤ n →
  (pre_t m e).2 < n ∧ permutation (pre_t m e).1 !! m = Some (pre_t m e).2.
Proof.
  intros Hwf Hm Hmi.
  pose proof (wf_perm_length _ _ _ Hwf) as Hlen.
  unfold pre_t; cbn [permutation fst snd]. split.
  - apply perm_lookup_total_lt; [|lia]. by eapply swap_pivot_Permutation.
  - apply list_lookup_lookup_total_lt. rewrite length_swap. lia.
Qed.

(** ** Refinement: lines 63-79 *)

Lemma length_prods_t m pi_m pi_i Ls :
  Forall (λ r, length r = length pi_i) (prods_t m pi_m pi_i Ls).
Proof.
  unfold prods_t. apply Forall_fmap, Forall_forall. intros L_j _. simpl.
  by rewrite length_fmap, length_gather_t.
Qed.

Lemma length_orthogonalize_t m pi_m pi_i row Ls :
  length (orthogonalize_t m pi_m pi_i row Ls) = length pi_i.
Proof.
  unfold orthogonalize_t. case_decide; [|apply length_gather_t].
  rewrite length_zip_with, length_gather_t.
  rewrite sum_dim0_length by apply length_prods_t. lia.
Qed.

Lemma length_new_entries_t m pi_m pi_i row Ls :
  length (new_entries_t m pi_m pi_i row Ls) = length pi_i.
Proof. unfold new_entries_t. by rewrite length_fmap, length_orthogonalize_t. Qed.

Lemma length_deflate_t pi_i new diag : length (deflate_t pi_i new diag) = length diag.
Proof. apply length_scatter_t. Qed.

(** The rows of [L] computed before iteration [m], gathered. *)
Lemma gather_rows_total n m idx (Ls : list (list F)) :
  Forall (λ r, length r = n) Ls → Forall (λ i, i < n) idx →
  mapM (λ L_j, gather L_j idx) (take m Ls)
  = Val ((λ L_j, gather_t L_j idx) <$> take m Ls).
Proof.
  intros HL Hidx. apply mapM_res_total. apply Forall_take.
  eapply Forall_impl; [exact HL|]. intros r Hr. simpl.
  apply gather_total. by rewrite Hr.
Qed.

Lemma orthogonalize_total n m pi_m pi_i row (Ls : list (list F)) :
  Forall (λ r, length r = n) Ls → length row = n →
  pi_m < n → Forall (λ i, i < n) pi_i →
  orthogonalize m pi_m pi_i row Ls = Val (orthogonalize_t m pi_m pi_i row Ls).
Proof.
  intros HL Hrow Hpm Hpi. unfold orthogonalize, orthogonalize_t, slice_to.
  rewrite gather_total by (by rewrite Hrow). res_simpl.
  case_decide; [|done].
  rewrite (gather_rows_total n m pi_i) by done. res_simpl.
  rewrite (gather_rows_total n m [pi_m]) by (by repeat constructor). res_simpl.
  rewrite zip_fmap_diag, mapM_res_fmap.
  rewrite (mapM_res_total _ (λ L_j, smul (L_j !!! pi_m) <$> gather_t L_j pi_i)).
  - res_simpl. apply ewise__same.
    rewrite length_gather_t. symmetry. apply sum_dim0_length, length_prods_t.
  - apply Forall_forall. intros L_j _. simpl. apply ewise_bcast_l.
Qed.

Lemma update_row_total n mi m pi_m pi_i row e :
  elem_wf n mi e → m < mi → length row = n →
  pi_m < n → Forall (λ i, i < n) pi_i →
  update_row m pi_m pi_i row (L e)
  = Val (scatter_t (L e !!! m) pi_i (new_entries_t m pi_m pi_i row (L e)),
         new_entries_t m pi_m pi_i row (L e)).
Proof.
  intros Hwf Hm Hrow Hpm Hpi. unfold update_row.
  pose proof (wf_row_length n mi e m Hwf Hm) as HLm.
  rewrite (index_total (L e) m) by (by rewrite (wf_L_rows _ _ _ Hwf)). res_simpl.
  rewrite (orthogonalize_total n) by (done || apply Hwf). res_simpl.
  rewrite (gather_total (L e !!! m) [pi_m])
    by (repeat constructor; by rewrite HLm). res_simpl.
  rewrite gather_t_singleton, ewise__bcast. res_simpl.
  fold (new_entries_t m pi_m pi_i row (L e)).
  rewrite scatter_total; [done|by rewrite HLm|].
  by rewrite length_new_entries_t.
Qed.

Lemma deflate_total n pi_i new (diag : list F) :
  length diag = n → Forall (λ i, i < n) pi_i → length new = length pi_i →
  deflate pi_i new diag = Val (deflate_t pi_i new diag).
Proof.
  intros Hd Hpi Hnew. unfold deflate, deflate_t.
  rewrite gather_total by (by rewrite Hd). res_simpl.
  rewrite ewise_same by (by rewrite length_gather_t, length_fmap). res_simpl.
  apply scatter_total; [by rewrite Hd|].
  rewrite length_zip_with, length_gather_t, length_fmap. lia.
Qed.

Lemma step_post_total n mi m pi_m row e :
  elem_wf n mi e → m < mi → length row = n → pi_m < n →
  step_post m n pi_m row e = Val (post_t m n pi_m row e).
Proof.
  intros Hwf Hm Hrow Hpm. unfold step_post, post_t, slice_from.
  case_decide; [|done]. cbv zeta.
  assert (Forall (λ i, i < n) (drop (m + 1) (permutation e))) as Hpi.
  { rewrite <-(wf_diag _ _ _ Hwf).
    eapply perm_drop_bound; apply Hwf. }
  rewrite (update_row_total n mi) by done. res_simpl.
  rewrite (deflate_total n)
    by (done || apply Hwf || apply length_new_entries_t). res_simpl.
  rewrite set_index_total by (by rewrite (wf_L_rows _ _ _ Hwf)). res_simpl.
  rewrite gather_total; [done|].
  by rewrite length_deflate_t, (wf_diag _ _ _ Hwf).
Qed.

Lemma post_t_wf n mi m pi_m row e :
  elem_wf n mi e → m < mi → elem_wf n mi (post_t m n pi_m row e).
Proof.
  intros Hwf Hm. unfold post_t. case_decide; [|done].
  split; cbn [L matrix_diag permutation].
  - rewrite length_insert. apply Hwf.
  - apply Forall_insert; [apply Hwf|].
    rewrite length_scatter_t. by apply (wf_row_length n mi).
  - rewrite length_deflate_t. apply Hwf.
  - apply Hwf.
Qed.

(** The second half of an iteration leaves the permutation alone. *)
Lemma post_t_permutation m n pi_m row e :
  permutation (post_t m n pi_m row e) = permutation e.
Proof. unfold post_t. by case_decide. Qed.
End spec.
