(* ===== verification/PivotedCholeskyProofs.v ===== *)
(** * PivotedCholeskyProofs: the loop of [pivoted_cholesky] is safe and terminates

    For a well-formed matrix (square, its data filling its shape) the state
    invariant [state_wf] holds initially and is preserved by every
    iteration; under it no tensor operation of the loop body raises
    ([step_total]), the batched row fetch through [batch_iters] reads, for
    every batch element, a row of that element ([fetch_rows_total]), and the
    loop ends within [max_iter] iterations ([loop_total]).  The theorems on
    [pivoted_cholesky] follow: it returns, the factor has at most
    [min(max_iter, n)] rows, all of length [n], one factor per batch
    element.  The inputs outside these hypotheses are in
    [PivotedCholeskyEdge]. *)

From S2P Require Import Prelude Scalar ScalarInstances Tensor MatrixAccess.
From S2P Require Import Examples PivotedCholesky PivotedCholeskySpec.

Section proofs.
Context {F : Type} `{Scalar F} {M : Type} `{MatrixAccessLaws F M}.
Implicit Types (matrix : M) (st : state F) (e : elem F) (m n mi : nat).

(** ** The total reading of one iteration for the batch *)

(** The pivot row of flat batch element [f]. *)
Definition row_t matrix (f r : nat) : list F :=
  res_default [] (ma_row matrix (unravel (ma_batch_shape matrix) f) r).

Definition rows_t matrix (pi_m : list nat) : list (list F) :=
  (λ f, row_t matrix f (pi_m !!! f)) <$> seq 0 (length pi_m).

Definition step_t matrix st : state F :=
  let m := st_m st in
  let pre := pre_t m <$> st_elems st in
  State (zip_with (λ ep row, post_t m (ma_n matrix) ep.2 row ep.1)
                  pre (rows_t matrix (snd <$> pre)))
        (m + 1).

(** ** The invariant *)

Record state_wf matrix mi st : Prop := {
  swf_elems : Forall (elem_wf (ma_n matrix) mi) (st_elems st);
  swf_batch : length (st_elems st) = numel (ma_batch_shape matrix);
  swf_m : st_m st ≤ mi;
  swf_mi : mi ≤ ma_n matrix;
}.

Lemma row_t_spec matrix f r :
  ma_wf matrix → f < numel (ma_batch_shape matrix) → r < ma_n matrix →
  ma_row matrix (unravel (ma_batch_shape matrix) f) r = Val (row_t matrix f r)
  ∧ length (row_t matrix f r) = ma_n matrix.
Proof.
  intros Hwf Hf Hr.
  destruct (ma_row_wf matrix _ f r Hwf (ravel_unravel _ _ Hf) Hr)
    as (row&Hrow&Hlen&_).
  unfold row_t. by rewrite Hrow.
Qed.

(** A monadic map over a zip of two lists whose elements satisfy the
    preconditions of the function. *)
Lemma mapM_zip_total {A B C} (P : A → Prop) (Q : B → Prop)
    (f : A * B → res C) (g : A → B → C) (l1 : list A) (l2 : list B) :
  Forall P l1 → Forall Q l2 →
  (∀ x y, P x → Q y → f (x, y) = Val (g x y)) →
  mapM f (zip l1 l2) = Val (zip_with g l1 l2).
Proof.
  intros Hl1 Hl2 Hf. apply mapM_res_Val. revert l2 Hl2.
  induction Hl1 as [|x l1 Hx _ IH]; intros l2 Hl2; [constructor|].
  destruct Hl2 as [|y l2 Hy Hl2]; simpl; constructor; auto.
Qed.

(** ** Lines 58-61: the batched row fetch *)

Lemma fetch_rows_total matrix (pi_m : list nat) :
  ma_wf matrix →
  length pi_m = numel (ma_batch_shape matrix) →
  Forall (λ r, r < ma_n matrix) pi_m →
  fetch_rows matrix (batch_iters (ma_batch_shape matrix)) pi_m
  = Val (rows_t matrix pi_m).
Proof.
  intros Hwf Hlen Hpi. unfold fetch_rows, rows_t.
  apply mapM_res_total, Forall_forall. intros f [_ Hf]%elem_of_seq. simpl in Hf.
  rewrite iters_at_batch_iters by lia. res_simpl.
  rewrite index_total by lia. res_simpl.
  apply row_t_spec; [done|lia|].
  eapply (Forall_lookup_1 _ _ _ _ Hpi).
  apply list_lookup_lookup_total_lt. lia.
Qed.

Lemma rows_t_length matrix (pi_m : list nat) :
  length (rows_t matrix pi_m) = length pi_m.
Proof. unfold rows_t. by rewrite length_fmap, length_seq. Qed.

Lemma rows_t_Forall matrix (pi_m : list nat) :
  ma_wf matrix →
  length pi_m = numel (ma_batch_shape matrix) →
  Forall (λ r, r < ma_n matrix) pi_m →
  Forall (λ row, length row = ma_n matrix) (rows_t matrix pi_m).
Proof.
  intros Hwf Hlen Hpi. unfold rows_t.
  apply Forall_fmap, Forall_forall. intros f [_ Hf]%elem_of_seq. simpl in *.
  apply row_t_spec; [done|lia|].
  eapply (Forall_lookup_1 _ _ _ _ Hpi).
  apply list_lookup_lookup_total_lt. lia.
Qed.

(** ** One iteration *)

(** What the first half of the iteration establishes for every batch
    element. *)
Lemma pre_t_Forall matrix mi st :
  state_wf matrix mi st → st_m st < mi →
  Forall (λ ep, elem_wf (ma_n matrix) mi ep.1 ∧ ep.2 < ma_n matrix)
         (pre_t (st_m st) <$> st_elems st).
Proof.
  intros Hst Hm. apply Forall_fmap.
  eapply Forall_impl; [apply Hst|]. intros e He. simpl. split.
  - apply pre_t_wf; [done|done|apply Hst].
  - eapply pre_t_pivot; [done|done|apply Hst].
Qed.

Lemma step_total matrix mi st :
  ma_wf matrix → state_wf matrix mi st → st_m st < mi →
  step matrix (ma_batch_shape matrix) (ma_n matrix)
       (batch_iters (ma_batch_shape matrix)) st
  = Val (step_t matrix st).
Proof.
  intros Hwf Hst Hm. unfold step, step_t. cbv zeta.
  pose proof (pre_t_Forall _ _ _ Hst Hm) as Hpre.
  set (pre := pre_t (st_m st) <$> st_elems st) in *.
  assert (length (snd <$> pre) = numel (ma_batch_shape matrix)) as Hlen.
  { unfold pre. rewrite !length_fmap. apply Hst. }
  assert (Forall (λ r, r < ma_n matrix) (snd <$> pre)) as Hpi.
  { apply Forall_fmap. eapply Forall_impl; [exact Hpre|]. by intros ? [??]. }
  rewrite (mapM_res_total _ (pre_t (st_m st))).
  2:{ eapply Forall_impl; [apply Hst|]. intros e He.
      eapply step_pre_total; [done|done|apply Hst]. }
  res_simpl. fold pre. rewrite fetch_rows_total by done. res_simpl.
  unfold view_rows. rewrite decide_True.
  2:{ split; [by rewrite rows_t_length|by apply rows_t_Forall]. }
  res_simpl.
  erewrite (mapM_zip_total _ _ _
    (λ ep row, post_t (st_m st) (ma_n matrix) ep.2 row ep.1));
    [done|exact Hpre|by apply rows_t_Forall|].
  intros [e pi_m] row [He Hp] Hrow. simpl in *.
  eapply step_post_total; eauto.
Qed.

Lemma step_t_wf matrix mi st :
  ma_wf matrix → state_wf matrix mi st → st_m st < mi →
  state_wf matrix mi (step_t matrix st).
Proof.
  intros Hwf Hst Hm. pose proof (pre_t_Forall _ _ _ Hst Hm) as Hpre.
  split; unfold step_t; cbn [st_elems st_m].
  - eapply Forall_zip_with_l; [exact Hpre|].
    intros [e pi_m] row [He _]. by apply post_t_wf.
  - rewrite length_zip_with, rows_t_length, !length_fmap.
    rewrite (swf_batch _ _ _ Hst). lia.
  - lia.
  - apply Hst.
Qed.

Lemma step_t_m matrix st : st_m (step_t matrix st) = st_m st + 1.
Proof. done. Qed.

Lemma step_t_length matrix st :
  length (st_elems (step_t matrix st)) = length (st_elems st).
Proof.
  unfold step_t; cbn [st_elems].
  rewrite length_zip_with, rows_t_length, !length_fmap. lia.
Qed.

(** ** The loop *)

(** The loop test of line 42, read without exceptions. *)
Definition continue_t mi (error_tol : F) st : bool :=
  bool_decide (st_m st < mi)
  && sltb error_tol (argmax (errors <$> st_elems st)).1.

(** The loop as iteration of [step_t]. *)
Fixpoint loop_t (fuel : nat) matrix mi (error_tol : F) st : state F :=
  match fuel with
  | 0 => st
  | S fuel' =>
      if continue_t mi error_tol st
      then loop_t fuel' matrix mi error_tol (step_t matrix st)
      else st
  end.

Lemma loop_test_total matrix mi error_tol st :
  state_wf matrix mi st → 0 < numel (ma_batch_shape matrix) →
  loop_test mi error_tol st = Val (continue_t mi error_tol st).
Proof.
  intros Hst Hpos. unfold loop_test, continue_t.
  case_decide as Hm; [|by rewrite bool_decide_eq_false_2].
  rewrite bool_decide_eq_true_2 by done. unfold tmax.
  rewrite max_dim_total; [done|].
  rewrite length_fmap, (swf_batch _ _ _ Hst). done.
Qed.

Lemma continue_t_lt mi error_tol st :
  continue_t mi error_tol st = true → st_m st < mi.
Proof. unfold continue_t. intros [?%bool_decide_eq_true _]%andb_true_iff. done. Qed.

Lemma loop_t_wf fuel matrix mi error_tol st :
  ma_wf matrix → state_wf matrix mi st →
  state_wf matrix mi (loop_t fuel matrix mi error_tol st).
Proof.
  intros Hwf. revert st. induction fuel as [|fuel IH]; intros st Hst; [done|].
  simpl. destruct (continue_t mi error_tol st) eqn:Hc; [|done].
  apply IH, step_t_wf; [done|done|]. by eapply continue_t_lt.
Qed.

(** The counter never decreases and never passes [max_iter]. *)
Lemma loop_t_m fuel matrix mi error_tol st :
  st_m st ≤ mi →
  st_m st ≤ st_m (loop_t fuel matrix mi error_tol st) ≤ mi.
Proof.
  revert st. induction fuel as [|fuel IH]; intros st Hm; simpl; [lia|].
  destruct (continue_t mi error_tol st) eqn:Hc; [|lia].
  apply continue_t_lt in Hc.
  specialize (IH (step_t matrix st)). rewrite step_t_m in IH. lia.
Qed.

(** With fuel for the remaining iterations the loop stops because its test
    fails, not because the fuel is spent. *)
Lemma loop_t_stops fuel matrix mi error_tol st :
  mi - st_m st ≤ fuel →
  continue_t mi error_tol (loop_t fuel matrix mi error_tol st) = false.
Proof.
  revert st. induction fuel as [|fuel IH]; intros st Hfuel; simpl.
  - unfold continue_t. rewrite bool_decide_eq_false_2 by lia. done.
  - destruct (continue_t mi error_tol st) eqn:Hc; [|done].
    apply IH. rewrite step_t_m. lia.
Qed.

(** The batch keeps its size. *)
Lemma loop_t_length fuel matrix mi error_tol st :
  length (st_elems (loop_t fuel matrix mi error_tol st)) = length (st_elems st).
Proof.
  revert st. induction fuel as [|fuel IH]; intros st; simpl; [done|].
  destruct (continue_t mi error_tol st); [|done].
  by rewrite IH, step_t_length.
Qed.

(** Rule induction on the iterations: a property that holds of the initial
    state and is preserved by every iteration the loop performs holds of
    the final state. *)
Lemma loop_t_ind (P : state F → Prop) fuel matrix mi error_tol st :
  ma_wf matrix → state_wf matrix mi st → P st →
  (∀ st', state_wf matrix mi st' → st_m st' < mi →
          continue_t mi error_tol st' = true → P st' → P (step_t matrix st')) →
  P (loop_t fuel matrix mi error_tol st).
Proof.
  intros Hwf Hst HP Hstep. revert st Hst HP.
  induction fuel as [|fuel IH]; intros st Hst HP; simpl; [done|].
  destruct (continue_t mi error_tol st) eqn:Hc; [|done].
  pose proof (continue_t_lt _ _ _ Hc) as Hm.
  apply IH; [by apply step_t_wf|by apply Hstep].
Qed.

(** Refinement and termination of the loop: given fuel for the remaining
    iterations, the model of the [while] loop returns, and returns the
    iteration of [step_t]. *)
Lemma loop_total fuel matrix mi error_tol st :
  ma_wf matrix → state_wf matrix mi st →
  0 < numel (ma_batch_shape matrix) → mi - st_m st ≤ fuel →
  loop fuel matrix (ma_batch_shape matrix) (ma_n matrix)
       (batch_iters (ma_batch_shape matrix)) mi error_tol st
  = Val (loop_t fuel matrix mi error_tol st).
Proof.
  intros Hwf Hst Hpos. revert st Hst.
  induction fuel as [|fuel IH]; intros st Hst Hfuel; simpl;
    rewrite (loop_test_total matrix) by done; res_simpl.
  - destruct (continue_t mi error_tol st) eqn:Hc; [|done].
    apply continue_t_lt in Hc. lia.
  - destruct (continue_t mi error_tol st) eqn:Hc; [|done].
    pose proof (continue_t_lt _ _ _ Hc) as Hm.
    rewrite (step_total matrix mi) by done. res_simpl.
    apply IH; [by apply step_t_wf|]. rewrite step_t_m. lia.
Qed.

(** ** The whole function *)

(** Line 22: [min(max_iter, n)], as the number of rows allocated. *)
Definition mi_of matrix (max_iter : Z) : nat :=
  Z.to_nat (max_iter `min` Z.of_nat (ma_n matrix)).

Definition diag_t matrix : list (list F) := res_default [] (ma_diag matrix).

(** The state before the first iteration. *)
Definition init_t matrix (max_iter : Z) : state F :=
  State (init_elem (replicate (mi_of matrix max_iter) (zeros (ma_n matrix)))
                   (ma_n matrix) <$> diag_t matrix) 0.

(** The state after the last iteration. *)
Definition final_t matrix (max_iter : Z) (error_tol : F) : state F :=
  loop_t (mi_of matrix max_iter) matrix (mi_of matrix max_iter) error_tol
         (init_t matrix max_iter).

Lemma mi_of_le matrix max_iter :
  mi_of matrix max_iter ≤ ma_n matrix ∧
  (Z.of_nat (mi_of matrix max_iter) ≤ max_iter `max` 0)%Z.
Proof. unfold mi_of. lia. Qed.

Lemma diag_t_spec matrix :
  ma_wf matrix →
  ma_diag matrix = Val (diag_t matrix) ∧
  length (diag_t matrix) = numel (ma_batch_shape matrix) ∧
  Forall (λ v, length v = ma_n matrix) (diag_t matrix).
Proof.
  intros Hwf. destruct (ma_diag_wf matrix Hwf) as (d&Hd&?&?&_).
  unfold diag_t. by rewrite Hd.
Qed.

Lemma init_elem_wf n mi (d : list F) :
  length d = n → elem_wf n mi (init_elem (replicate mi (zeros n)) n d).
Proof.
  intros Hd. split; simpl.
  - apply length_replicate.
  - apply Forall_replicate, length_zeros.
  - done.
  - done.
Qed.

Lemma init_t_wf matrix max_iter :
  ma_wf matrix → state_wf matrix (mi_of matrix max_iter) (init_t matrix max_iter).
Proof.
  intros Hwf. destruct (diag_t_spec matrix Hwf) as (_&Hlen&Hall).
  split; unfold init_t; cbn [st_elems st_m].
  - apply Forall_fmap. eapply Forall_impl; [exact Hall|].
    intros d Hd. by apply init_elem_wf.
  - by rewrite length_fmap.
  - lia.
  - apply mi_of_le.
Qed.

Lemma init_state_total matrix max_iter :
  ma_wf matrix → (0 ≤ max_iter)%Z →
  init_state (ma_batch_shape matrix) (max_iter `min` Z.of_nat (ma_n matrix))
             (ma_n matrix) (diag_t matrix)
  = Val (init_t matrix max_iter).
Proof.
  intros Hwf Hmax. unfold init_state, zeros2.
  rewrite decide_False by lia. done.
Qed.

Lemma final_t_wf matrix max_iter error_tol :
  ma_wf matrix →
  state_wf matrix (mi_of matrix max_iter) (final_t matrix max_iter error_tol).
Proof. intros Hwf. by apply loop_t_wf, init_t_wf. Qed.

Lemma pivoted_cholesky_state_total matrix max_iter error_tol :
  ma_wf matrix → (0 ≤ max_iter)%Z → 0 < numel (ma_batch_shape matrix) →
  pivoted_cholesky_state matrix max_iter error_tol
  = Val (final_t matrix max_iter error_tol).
Proof.
  intros Hwf Hmax Hpos. unfold pivoted_cholesky_state. cbv zeta.
  destruct (diag_t_spec matrix Hwf) as (Hd&_&_). rewrite Hd. res_simpl.
  rewrite init_state_total by done. res_simpl.
  apply (loop_total _ matrix); [done|by apply init_t_wf|done|].
  unfold mi_of. simpl. lia.
Qed.

Lemma result_of_shape matrix mi st :
  state_wf matrix mi st →
  Forall (λ Lb, length Lb = st_m st ∧ Forall (λ r, length r = ma_n matrix) Lb)
         (result_of st).
Proof.
  intros Hst. unfold result_of, slice_to. apply Forall_fmap.
  eapply Forall_impl; [apply Hst|]. intros e He. simpl. split.
  - rewrite length_take, (wf_L_rows _ _ _ He). pose proof (swf_m _ _ _ Hst). lia.
  - apply Forall_take, He.
Qed.

(** ** Theorems on [pivoted_cholesky] *)

(** C12 (safety, lines 7-82): for a well-formed square matrix, a
    non-negative [max_iter] and a batch with at least one element,
    [pivoted_cholesky] returns: no indexing, gather, scatter or reduction of
    the loop raises, the loop ends, and the value returned is the one the
    exception-free reading [final_t] computes. *)
Theorem pivoted_cholesky_returns matrix max_iter error_tol :
  ma_wf matrix → (0 ≤ max_iter)%Z → 0 < numel (ma_batch_shape matrix) →
  pivoted_cholesky matrix max_iter error_tol
  = Val (result_of (final_t matrix max_iter error_tol)).
Proof.
  intros Hwf Hmax Hpos. unfold pivoted_cholesky.
  by rewrite pivoted_cholesky_state_total.
Qed.

(** C28 (bounds, lines 22, 25 and 82): the result holds one factor per batch
    element; every factor has as many rows as the loop made iterations, the
    [m] of the final state, with [m <= max_iter] and [m <= n], and every
    row has length [n]. *)
Theorem pivoted_cholesky_shape matrix max_iter error_tol :
  ma_wf matrix → (0 ≤ max_iter)%Z → 0 < numel (ma_batch_shape matrix) →
  ∃ Ls st, pivoted_cholesky matrix max_iter error_tol = Val Ls ∧
    pivoted_cholesky_state matrix max_iter error_tol = Val st ∧
    length Ls = numel (ma_batch_shape matrix) ∧
    (Z.of_nat (st_m st) ≤ max_iter)%Z ∧ st_m st ≤ ma_n matrix ∧
    Forall (λ Lb, length Lb = st_m st
                  ∧ Forall (λ r, length r = ma_n matrix) Lb) Ls.
Proof.
  intros Hwf Hmax Hpos.
  pose proof (final_t_wf matrix max_iter error_tol Hwf) as Hst.
  exists (result_of (final_t matrix max_iter error_tol)),
         (final_t matrix max_iter error_tol).
  pose proof (swf_m _ _ _ Hst). pose proof (mi_of_le matrix max_iter).
  split; [unfold pivoted_cholesky; by rewrite pivoted_cholesky_state_total|].
  split; [by apply pivoted_cholesky_state_total|].
  split; [|split; [lia|split; [lia|by eapply result_of_shape]]].
  unfold result_of. rewrite length_fmap. apply Hst.
Qed.

(** C31 (invariant, lines 29-30 and 50-52): when the loop ends, the
    permutation of every batch element is a rearrangement of [0..n-1]: the
    swaps never lose or duplicate an index. *)
Theorem final_permutation_bijective matrix max_iter error_tol :
  ma_wf matrix → (0 ≤ max_iter)%Z → 0 < numel (ma_batch_shape matrix) →
  ∃ st, pivoted_cholesky_state matrix max_iter error_tol = Val st ∧
    Forall (λ e, permutation e ≡ₚ seq 0 (ma_n matrix)) (st_elems st).
Proof.
  intros Hwf Hmax Hpos. exists (final_t matrix max_iter error_tol).
  split; [by apply pivoted_cholesky_state_total|].
  eapply Forall_impl; [apply (final_t_wf matrix max_iter error_tol Hwf)|].
  intros e He. apply He.
Qed.

(** C29 (refinement, lines 43-80): on a state that satisfies the invariant,
    with [m < max_iter], one iteration of the loop body raises no exception,
    computes exactly the total reading [step_t], and re-establishes the
    invariant. *)
Theorem step_refines matrix mi st :
  ma_wf matrix → state_wf matrix mi st → st_m st < mi →
  step matrix (ma_batch_shape matrix) (ma_n matrix)
       (batch_iters (ma_batch_shape matrix)) st = Val (step_t matrix st)
  ∧ state_wf matrix mi (step_t matrix st).
Proof. intros. split; [by eapply step_total|by apply step_t_wf]. Qed.

(** C30 (termination, line 42): started in a state that satisfies the
    invariant, with fuel for the [max_iter - m] iterations that remain, the
    loop returns a state (it never runs out of fuel); in that state the loop
    test is false and the counter is between its initial value and
    [max_iter]. *)
Theorem loop_terminates fuel matrix mi error_tol st :
  ma_wf matrix → state_wf matrix mi st →
  0 < numel (ma_batch_shape matrix) → mi - st_m st ≤ fuel →
  ∃ st', loop fuel matrix (ma_batch_shape matrix) (ma_n matrix)
              (batch_iters (ma_batch_shape matrix)) mi error_tol st = Val st'
    ∧ state_wf matrix mi st'
    ∧ loop_test mi error_tol st' = Val false
    ∧ st_m st ≤ st_m st' ≤ mi.
Proof.
  intros Hwf Hst Hpos Hfuel. exists (loop_t fuel matrix mi error_tol st).
  pose proof (loop_t_wf fuel matrix mi error_tol st Hwf Hst) as Hst'.
  split; [by apply loop_total|]. split; [done|]. split.
  - rewrite (loop_test_total matrix) by done. f_equal. by apply loop_t_stops.
  - apply loop_t_m, Hst.
Qed.
End proofs.

(** ** Witnesses: the theorems applied to the batch [B233] *)

Lemma pivoted_cholesky_returns_witness :
  pivoted_cholesky B233 3 (qc 0 1)
  = Val (result_of (final_t B233 3 (qc 0 1))).
Proof.
  apply pivoted_cholesky_returns; [exact B233_wf|lia|vm_compute; lia].
Defined.

Lemma pivoted_cholesky_shape_witness :
  ∃ Ls st, pivoted_cholesky B233 2 (qc 0 1) = Val Ls ∧
    pivoted_cholesky_state B233 2 (qc 0 1) = Val st ∧
    length Ls = numel (ma_batch_shape B233) ∧
    (Z.of_nat (st_m st) ≤ 2)%Z ∧ st_m st ≤ ma_n B233 ∧
    Forall (λ Lb, length Lb = st_m st
                  ∧ Forall (λ r, length r = ma_n B233) Lb) Ls.
Proof.
  apply pivoted_cholesky_shape; [exact B233_wf|lia|vm_compute; lia].
Defined.

Lemma final_permutation_bijective_witness :
  ∃ st, pivoted_cholesky_state B233 3 (qc 0 1) = Val st ∧
    Forall (λ e, permutation e ≡ₚ seq 0 (ma_n B233)) (st_elems st).
Proof.
  apply final_permutation_bijective; [exact B233_wf|lia|vm_compute; lia].
Defined.

Lemma step_refines_witness :
  step B233 (ma_batch_shape B233) (ma_n B233)
       (batch_iters (ma_batch_shape B233)) (init_t B233 3)
  = Val (step_t B233 (init_t B233 3))
  ∧ state_wf B233 (mi_of B233 3) (step_t B233 (init_t B233 3)).
Proof.
  apply (step_refines B233 (mi_of B233 3) (init_t B233 3));
    [exact B233_wf|exact (init_t_wf B233 3 B233_wf)|vm_compute; lia].
Defined.

Lemma loop_terminates_witness :
  ∃ st', loop 3 B233 (ma_batch_shape B233) (ma_n B233)
              (batch_iters (ma_batch_shape B233)) (mi_of B233 3) (qc 0 1)
              (init_t B233 3) = Val st'
    ∧ state_wf B233 (mi_of B233 3) st'
    ∧ loop_test (mi_of B233 3) (qc 0 1) st' = Val false
    ∧ st_m (init_t B233 3) ≤ st_m st' ≤ mi_of B233 3.
Proof.
  apply (loop_terminates 3 B233 (mi_of B233 3) (qc 0 1) (init_t B233 3));
    [exact B233_wf|exact (init_t_wf B233 3 B233_wf)|vm_compute; lia
    |vm_compute; lia].
Defined.
