(* ===== verification/PivotedCholeskyInvariants.v ===== *)
(** * PivotedCholeskyInvariants: what the loop maintains

    Invariants of the loop of [pivoted_cholesky] that hold for every element
    type, proved on the total reading and by rule induction on the
    iterations ([loop_elem_invariant]):

    - the rows of [L] from [m] on are all zero (the remark at line 55);
    - the first [m] entries of the permutation, the pivots chosen so far,
      are never moved again;
    - row [j < m] of [L] is zero in the columns of the pivots chosen before
      [j]: in pivot order, the factor is triangular;
    - the entry of row [j < m] at its own pivot is the square root of the
      diagonal value held there;
    - while [m < n], [errors] is the 1-norm of the diagonal still to be
      factored. *)

From S2P Require Import Prelude Scalar ScalarInstances Tensor MatrixAccess.
From S2P Require Import Examples PivotedCholesky PivotedCholeskySpec.
From S2P Require Import PivotedCholeskyProofs.

Section invariants.
Context {F : Type} `{Scalar F} {M : Type} `{MatrixAccessLaws F M}.
Implicit Types (matrix : M) (st : state F) (e : elem F) (m n mi f : nat).

(** One iteration for the batch element at flat position [f]. *)
Definition elem_step matrix m f e : elem F :=
  post_t m (ma_n matrix) (pre_t m e).2 (row_t matrix f (pre_t m e).2) (pre_t m e).1.

(** The rows of [L] from [m] on are zero. *)
Definition rows_zero n m e : Prop :=
  ∀ j row, m ≤ j → L e !! j = Some row → row = zeros n.

(** In the columns of earlier pivots, row [j < m] is zero. *)
Definition pivot_triangular m e : Prop :=
  ∀ j i, j < m → i < j → (L e !!! j) !!! (permutation e !!! i) = szero.

(** The entry of row [j < m] at its pivot is the square root of the
    diagonal entry kept at that pivot. *)
Definition pivot_entries m e : Prop :=
  ∀ j, j < m →
    (L e !!! j) !!! (permutation e !!! j)
    = ssqrt (matrix_diag e !!! (permutation e !!! j)).

(** The diagonal entries still to be factored: those at the positions of
    the permutation from [m] on. *)
Definition remaining m e : list F :=
  gather_t (matrix_diag e) (drop m (permutation e)).

(** While columns remain, [errors] is the 1-norm of the remaining diagonal
    (line 26 before the loop, line 79 in it). *)
Definition errors_inv n m e : Prop := m < n → errors e = norm1 (remaining m e).

Lemma rows_t_lookup matrix (pi_m : list nat) f :
  f < length pi_m →
  rows_t matrix pi_m !! f = Some (row_t matrix f (pi_m !!! f)).
Proof.
  intros Hf. unfold rows_t. rewrite list_lookup_fmap.
  by rewrite lookup_seq_0.
Qed.

(** [step_t] applies [elem_step] at every flat position. *)
Lemma step_t_elems matrix st :
  st_elems (step_t matrix st) = imap (elem_step matrix (st_m st)) (st_elems st).
Proof.
  unfold step_t; cbn [st_elems]. apply list_eq. intros f.
  rewrite lookup_zip_with, list_lookup_imap, !list_lookup_fmap.
  destruct (st_elems st !! f) as [e|] eqn:He; [|done]. simpl.
  rewrite rows_t_lookup.
  - simpl. unfold elem_step. do 3 f_equal.
    apply list_lookup_total_correct. by rewrite !list_lookup_fmap, He.
  - rewrite !length_fmap. by eapply lookup_lt_Some.
Qed.

Lemma elem_step_wf matrix mi m f e :
  elem_wf (ma_n matrix) mi e → m < mi → mi ≤ ma_n matrix →
  elem_wf (ma_n matrix) mi (elem_step matrix m f e).
Proof. intros. unfold elem_step. apply post_t_wf; [by apply pre_t_wf|done]. Qed.

(** Rule induction on the iterations, per batch element: a property of the
    element at position [f] and of the counter that one iteration preserves
    holds when the loop ends if it holds when the loop starts. *)
Lemma loop_elem_invariant (I : nat → nat → elem F → Prop)
    fuel matrix mi error_tol st :
  ma_wf matrix → state_wf matrix mi st →
  (∀ m f e, elem_wf (ma_n matrix) mi e → m < mi → mi ≤ ma_n matrix →
            f < numel (ma_batch_shape matrix) →
            I m f e → I (m + 1) f (elem_step matrix m f e)) →
  (∀ f e, st_elems st !! f = Some e → I (st_m st) f e) →
  ∀ f e, st_elems (loop_t fuel matrix mi error_tol st) !! f = Some e →
         I (st_m (loop_t fuel matrix mi error_tol st)) f e.
Proof.
  intros Hwf Hst Hstep HI.
  apply (loop_t_ind (λ st, ∀ f e, st_elems st !! f = Some e → I (st_m st) f e));
    [done|done|done|].
  clear st Hst HI. intros st Hst Hm _ HI f e.
  rewrite step_t_elems, list_lookup_imap, step_t_m.
  destruct (st_elems st !! f) as [e0|] eqn:He0; [|done]. intros [= <-].
  apply Hstep; [|done|apply Hst| |by apply HI].
  - by eapply (Forall_lookup_1 _ _ _ _ (swf_elems _ _ _ Hst)).
  - rewrite <-(swf_batch _ _ _ Hst). by eapply lookup_lt_Some.
Qed.

(** ** The rows from [m] on are zero *)

Lemma pre_t_L_other m e j : j ≠ m → L (pre_t m e).1 !! j = L e !! j.
Proof. intros. unfold pre_t; cbn [L fst]. by rewrite list_lookup_insert_ne. Qed.

Lemma post_t_L_other m n pi_m row e j :
  j ≠ m → L (post_t m n pi_m row e) !! j = L e !! j.
Proof.
  intros. unfold post_t. case_decide; [|done].
  cbn [L]. by rewrite list_lookup_insert_ne.
Qed.

Lemma elem_step_L_other matrix m f e j :
  j ≠ m → L (elem_step matrix m f e) !! j = L e !! j.
Proof.
  intros. unfold elem_step. by rewrite post_t_L_other, pre_t_L_other.
Qed.

Lemma elem_step_rows_zero matrix m f e :
  rows_zero (ma_n matrix) m e →
  rows_zero (ma_n matrix) (m + 1) (elem_step matrix m f e).
Proof.
  intros Hz j row Hj. rewrite elem_step_L_other by lia. apply Hz. lia.
Qed.

Lemma init_elem_rows_zero n mi (d : list F) :
  rows_zero n 0 (init_elem (replicate mi (zeros n)) n d).
Proof. intros j row _ [-> _]%lookup_replicate. done. Qed.

(** ** The pivots chosen so far stay in place *)

Lemma elem_step_permutation matrix m f e :
  permutation (elem_step matrix m f e)
  = swap m (pivot_of m e).2 (permutation e).
Proof. unfold elem_step. by rewrite post_t_permutation. Qed.

Lemma elem_step_prefix matrix mi m f e k :
  elem_wf (ma_n matrix) mi e → m < mi → mi ≤ ma_n matrix → k ≤ m →
  take k (permutation (elem_step matrix m f e)) = take k (permutation e).
Proof.
  intros Hwf Hm Hmi Hk. rewrite elem_step_permutation.
  pose proof (pivot_of_bounds _ mi m e Hwf ltac:(lia)).
  apply swap_take; lia.
Qed.

Lemma elem_step_perm_lookup matrix mi m f e i :
  elem_wf (ma_n matrix) mi e → m < mi → mi ≤ ma_n matrix → i < m →
  permutation (elem_step matrix m f e) !!! i = permutation e !!! i.
Proof.
  intros Hwf Hm Hmi Hi. rewrite elem_step_permutation.
  pose proof (pivot_of_bounds _ mi m e Hwf ltac:(lia)).
  rewrite !list_lookup_total_alt, swap_lookup_ne by lia. done.
Qed.

(** ** Row [m] after the iteration *)

Lemma elem_step_L_other_total matrix m f e j :
  j ≠ m → L (elem_step matrix m f e) !!! j = L e !!! j.
Proof. intros. by rewrite !list_lookup_total_alt, elem_step_L_other. Qed.

(** The new pivot and the positions still to come are distinct columns. *)
Lemma perm_prefix_notin (p : list nat) n i k :
  p ≡ₚ seq 0 n → i < k → i < n → p !!! i ∉ drop k p.
Proof.
  intros Hp Hik Hi [j Hj]%list_elem_of_lookup. rewrite lookup_drop in Hj.
  assert (p !! i = Some (p !!! i)) as Hpi.
  { apply list_lookup_lookup_total_lt. by rewrite (perm_seq_length _ _ Hp). }
  pose proof (perm_seq_inj _ _ _ _ _ Hp Hpi Hj). lia.
Qed.

Lemma perm_lookup_total_ne (p : list nat) n i j :
  p ≡ₚ seq 0 n → i < n → j < n → i ≠ j → p !!! i ≠ p !!! j.
Proof.
  intros Hp Hi Hj Hne Heq. apply Hne.
  pose proof (perm_seq_length _ _ Hp) as Hlen.
  eapply (perm_seq_inj p n i j (p !!! i)); [done| |].
  - apply list_lookup_lookup_total_lt. lia.
  - rewrite Heq. apply list_lookup_lookup_total_lt. lia.
Qed.

(** Row [m] after the first half of the iteration (lines 55-56). *)
Lemma pre_t_row m e :
  m < length (L e) →
  L (pre_t m e).1 !!! m = <[(pre_t m e).2 := ssqrt (pivot_of m e).1]> (L e !!! m).
Proof.
  intros. unfold pre_t; cbn [L fst snd]. by rewrite list_lookup_total_insert_eq.
Qed.

(** Row [m] after the second half (lines 73 and 77). *)
Lemma post_t_row m n pi_m row e :
  m < length (L e) →
  L (post_t m n pi_m row e) !!! m
  = if decide (m + 1 < n)
    then scatter_t (L e !!! m) (drop (m + 1) (permutation e))
           (new_entries_t m pi_m (drop (m + 1) (permutation e)) row (L e))
    else L e !!! m.
Proof.
  intros. unfold post_t. case_decide; [|done].
  cbn [L]. by rewrite list_lookup_total_insert_eq.
Qed.

Lemma pre_t_L_length m e : length (L (pre_t m e).1) = length (L e).
Proof. unfold pre_t; cbn [L fst]. by rewrite length_insert. Qed.

(** Columns other than the pivot and the positions still to come keep the
    value they had in row [m]. *)
Lemma elem_step_row_untouched matrix mi m f e c :
  elem_wf (ma_n matrix) mi e → m < mi →
  c ≠ (pre_t m e).2 → c ∉ drop (m + 1) (permutation (pre_t m e).1) →
  (L (elem_step matrix m f e) !!! m) !! c = (L e !!! m) !! c.
Proof.
  intros Hwf Hm Hc Hnotin.
  assert (m < length (L e)) as HmL by (by rewrite (wf_L_rows _ _ _ Hwf)).
  unfold elem_step. rewrite post_t_row by (by rewrite pre_t_L_length).
  case_decide; [rewrite scatter_t_lookup_notin by done|];
    by rewrite pre_t_row, list_lookup_insert_ne.
Qed.

(** The pivot entry of row [m] is the square root of the pivot (line 56). *)
Lemma elem_step_row_pivot matrix mi m f e :
  elem_wf (ma_n matrix) mi e → m < mi → mi ≤ ma_n matrix →
  (L (elem_step matrix m f e) !!! m) !! (pre_t m e).2
  = Some (ssqrt (pivot_of m e).1).
Proof.
  intros Hwf Hm Hmi.
  assert (m < length (L e)) as HmL by (by rewrite (wf_L_rows _ _ _ Hwf)).
  destruct (pre_t_pivot _ _ _ _ Hwf Hm Hmi) as [Hlt Hpi].
  pose proof (pre_t_wf _ _ _ _ Hwf Hm Hmi) as Hwf'.
  assert ((pre_t m e).2 ∉ drop (m + 1) (permutation (pre_t m e).1)) as Hnotin.
  { apply list_lookup_total_correct in Hpi. rewrite <-Hpi.
    eapply perm_prefix_notin; [apply Hwf'|lia..]. }
  unfold elem_step. rewrite post_t_row by (by rewrite pre_t_L_length).
  case_decide; [rewrite scatter_t_lookup_notin by done|];
    rewrite pre_t_row by done;
    apply list_lookup_insert_eq;
    by rewrite (wf_row_length (ma_n matrix) mi e m).
Qed.

(** ** In pivot order the factor is triangular *)

Lemma elem_step_triangular matrix mi m f e :
  elem_wf (ma_n matrix) mi e → m < mi → mi ≤ ma_n matrix →
  rows_zero (ma_n matrix) m e →
  pivot_triangular m e → pivot_triangular (m + 1) (elem_step matrix m f e).
Proof.
  intros Hwf Hm Hmi Hz Htri j i Hj Hi.
  destruct (decide (j = m)) as [->|Hne].
  - pose proof (pre_t_wf _ _ _ _ Hwf Hm Hmi) as Hwf'.
    destruct (pre_t_pivot _ _ _ _ Hwf Hm Hmi) as [_ Hpi].
    apply list_lookup_total_correct in Hpi.
    assert (permutation (elem_step matrix m f e) = permutation (pre_t m e).1)
      as -> by (unfold elem_step; by rewrite post_t_permutation).
    apply list_lookup_total_correct.
    rewrite (elem_step_row_untouched _ mi) by
      (first [done | rewrite <-Hpi; eapply perm_lookup_total_ne; [apply Hwf'|lia..]
             | eapply perm_prefix_notin; [apply Hwf'|lia..]]).
    rewrite (Hz m (L e !!! m)); [|done|].
    + apply lookup_zeros, (perm_lookup_total_lt _ _ _ (wf_perm _ _ _ Hwf')). lia.
    + apply list_lookup_lookup_total_lt. by rewrite (wf_L_rows _ _ _ Hwf).
  - rewrite elem_step_L_other_total by done.
    rewrite (elem_step_perm_lookup _ mi) by (done || lia).
    apply Htri; lia.
Qed.

(** ** The diagonal at the pivots *)

(** The deflation (lines 75-76) writes the positions still to come only. *)
Lemma elem_step_diag_untouched matrix m f e c :
  c ∉ drop (m + 1) (permutation (pre_t m e).1) →
  matrix_diag (elem_step matrix m f e) !!! c = matrix_diag e !!! c.
Proof.
  intros Hc. unfold elem_step, post_t. case_decide; [|done].
  cbn [matrix_diag]. unfold deflate_t.
  by rewrite !list_lookup_total_alt, scatter_t_lookup_notin.
Qed.

Lemma elem_step_pivot_entries matrix mi m f e :
  elem_wf (ma_n matrix) mi e → m < mi → mi ≤ ma_n matrix →
  pivot_entries m e → pivot_entries (m + 1) (elem_step matrix m f e).
Proof.
  intros Hwf Hm Hmi Hpe j Hj.
  pose proof (pre_t_wf _ _ _ _ Hwf Hm Hmi) as Hwf'.
  assert (permutation (elem_step matrix m f e) = permutation (pre_t m e).1)
    as Hperm by (unfold elem_step; by rewrite post_t_permutation).
  assert (matrix_diag (elem_step matrix m f e) !!! (permutation (pre_t m e).1 !!! j)
          = matrix_diag e !!! (permutation (pre_t m e).1 !!! j)) as Hd.
  { apply elem_step_diag_untouched.
    eapply perm_prefix_notin; [apply Hwf'|lia..]. }
  rewrite Hperm, Hd. destruct (decide (j = m)) as [->|Hne].
  - destruct (pre_t_pivot _ _ _ _ Hwf Hm Hmi) as [_ Hpi].
    apply list_lookup_total_correct in Hpi. rewrite Hpi.
    rewrite (list_lookup_total_correct _ _ _ (elem_step_row_pivot _ _ _ f _ Hwf Hm Hmi)).
    f_equal. rewrite (pivot_of_value _ _ _ _ Hwf) by lia.
    rewrite <-Hpi. unfold pre_t; cbn [permutation fst]. f_equal.
    pose proof (pivot_of_bounds _ mi m e Hwf ltac:(lia)).
    pose proof (wf_perm_length _ _ _ Hwf).
    symmetry. apply list_lookup_total_correct, swap_lookup_l; lia.
  - rewrite elem_step_L_other_total by done.
    rewrite <-Hperm, (elem_step_perm_lookup _ mi) by (done || lia).
    apply Hpe. lia.
Qed.

(** ** The error is the 1-norm of what remains *)

Lemma elem_step_errors matrix m f e :
  errors_inv (ma_n matrix) (m + 1) (elem_step matrix m f e).
Proof.
  intros Hm. unfold elem_step, post_t, remaining.
  rewrite decide_True by done. done.
Qed.

Lemma init_elem_errors n L0 (d : list F) :
  length d = n → errors_inv n 0 (init_elem L0 n d).
Proof.
  intros Hd _. unfold remaining, init_elem, arange; cbn [errors matrix_diag permutation].
  by rewrite drop_0, <-Hd, gather_t_arange.
Qed.

(** ** From the iteration to the function *)

Lemma init_t_lookup matrix max_iter f e :
  ma_wf matrix → st_elems (init_t matrix max_iter) !! f = Some e →
  ∃ d, diag_t matrix !! f = Some d ∧ length d = ma_n matrix ∧
       e = init_elem (replicate (mi_of matrix max_iter) (zeros (ma_n matrix)))
                     (ma_n matrix) d.
Proof.
  intros Hwf. destruct (diag_t_spec matrix Hwf) as (_&_&Hall).
  unfold init_t; cbn [st_elems]. rewrite list_lookup_fmap.
  destruct (diag_t matrix !! f) as [d|] eqn:Hd; [|done]. intros [= <-].
  exists d. split_and!; [done| |done].
  by apply (Forall_lookup_1 _ _ _ _ Hall Hd).
Qed.

(** A property of the elements that holds before the first iteration and
    that every iteration preserves holds of the state the function ends in. *)
Lemma final_t_invariant (I : nat → nat → elem F → Prop)
    matrix max_iter error_tol :
  ma_wf matrix →
  (∀ m f e, elem_wf (ma_n matrix) (mi_of matrix max_iter) e →
            m < mi_of matrix max_iter → mi_of matrix max_iter ≤ ma_n matrix →
            f < numel (ma_batch_shape matrix) →
            I m f e → I (m + 1) f (elem_step matrix m f e)) →
  (∀ f d, diag_t matrix !! f = Some d → length d = ma_n matrix →
          I 0 f (init_elem (replicate (mi_of matrix max_iter)
                                      (zeros (ma_n matrix))) (ma_n matrix) d)) →
  ∀ f e, st_elems (final_t matrix max_iter error_tol) !! f = Some e →
         I (st_m (final_t matrix max_iter error_tol)) f e.
Proof.
  intros Hwf Hstep Hinit.
  apply loop_elem_invariant; [done|by apply init_t_wf|done|].
  intros f e (d&?&?&->)%init_t_lookup; [|done]. by apply Hinit.
Qed.

Lemma final_elem_invariant (I : nat → nat → elem F → Prop)
    matrix max_iter error_tol :
  ma_wf matrix → (0 ≤ max_iter)%Z → 0 < numel (ma_batch_shape matrix) →
  (∀ m f e, elem_wf (ma_n matrix) (mi_of matrix max_iter) e →
            m < mi_of matrix max_iter → mi_of matrix max_iter ≤ ma_n matrix →
            f < numel (ma_batch_shape matrix) →
            I m f e → I (m + 1) f (elem_step matrix m f e)) →
  (∀ f d, diag_t matrix !! f = Some d → length d = ma_n matrix →
          I 0 f (init_elem (replicate (mi_of matrix max_iter)
                                      (zeros (ma_n matrix))) (ma_n matrix) d)) →
  ∃ st, pivoted_cholesky_state matrix max_iter error_tol = Val st ∧
        ∀ f e, st_elems st !! f = Some e → I (st_m st) f e.
Proof.
  intros Hwf Hmax Hpos Hstep Hinit. eexists. split.
  { by apply pivoted_cholesky_state_total. }
  by apply final_t_invariant.
Qed.

(** The rows of [L] that the loop has not reached are all zero: when
    the function ends after [m] iterations, every row of the allocated
    [L] from [m] on is the zero row (the remark of line 55, for every
    iteration at once). *)
Theorem rows_beyond_m_zero matrix max_iter error_tol :
  ma_wf matrix → (0 ≤ max_iter)%Z → 0 < numel (ma_batch_shape matrix) →
  ∃ st, pivoted_cholesky_state matrix max_iter error_tol = Val st ∧
        ∀ f e, st_elems st !! f = Some e → rows_zero (ma_n matrix) (st_m st) e.
Proof.
  intros Hwf Hmax Hpos.
  apply (final_elem_invariant (λ m _ e, rows_zero (ma_n matrix) m e));
    [done..| |].
  - intros. by apply elem_step_rows_zero.
  - intros. apply init_elem_rows_zero.
Qed.

(** In pivot order the factor is triangular: row [j] of the result is
    zero in the columns of the pivots chosen before iteration [j]. *)
Theorem factor_triangular matrix max_iter error_tol :
  ma_wf matrix → (0 ≤ max_iter)%Z → 0 < numel (ma_batch_shape matrix) →
  ∃ st, pivoted_cholesky_state matrix max_iter error_tol = Val st ∧
        ∀ f e, st_elems st !! f = Some e → pivot_triangular (st_m st) e.
Proof.
  intros Hwf Hmax Hpos.
  destruct (final_elem_invariant
    (λ m _ e, rows_zero (ma_n matrix) m e ∧ pivot_triangular m e)
    matrix max_iter error_tol) as (st&Hst&Hall); [done..| | |].
  - intros m f e ???? [??]. split.
    + by apply elem_step_rows_zero.
    + by eapply elem_step_triangular.
  - intros. split; [apply init_elem_rows_zero|]. intros j i ?. lia.
  - exists st. split; [done|]. intros f e He. by apply (Hall f e).
Qed.

(** The entry of row [j] at its own pivot is the square root of the
    diagonal entry the function holds at that pivot (line 56), and later
    iterations change neither. *)
Theorem factor_pivot_entries matrix max_iter error_tol :
  ma_wf matrix → (0 ≤ max_iter)%Z → 0 < numel (ma_batch_shape matrix) →
  ∃ st, pivoted_cholesky_state matrix max_iter error_tol = Val st ∧
        ∀ f e, st_elems st !! f = Some e → pivot_entries (st_m st) e.
Proof.
  intros Hwf Hmax Hpos.
  apply (final_elem_invariant (λ m _ e, pivot_entries m e)); [done..| |].
  - intros. by eapply elem_step_pivot_entries.
  - intros f d _ _ j ?. lia.
Qed.

(** A pivot, once chosen, stays: the first [m] entries of the
    permutation of a state with counter [m] are the first [m] entries of
    the permutation after any number of further iterations. *)
Theorem pivots_stay fuel matrix mi error_tol st :
  ma_wf matrix → state_wf matrix mi st →
  Forall2 (λ e e', take (st_m st) (permutation e')
                   = take (st_m st) (permutation e))
          (st_elems st) (st_elems (loop_t fuel matrix mi error_tol st)).
Proof.
  intros Hwf Hst. apply Forall2_same_length_lookup_2.
  { by rewrite loop_t_length. }
  intros f e e' He He'.
  apply (loop_elem_invariant
    (λ m' f' e', st_m st ≤ m' ∧ (f' = f →
       take (st_m st) (permutation e') = take (st_m st) (permutation e)))
    fuel matrix mi error_tol st Hwf Hst) in He' as [_ Heq]; [by apply Heq| |].
  - intros m f' e0 ???? [? IH]. split; [lia|]. intros ->.
    rewrite (elem_step_prefix _ mi) by (done || lia). by apply IH.
  - intros f' e0 He0. split; [done|]. intros ->. by simplify_eq.
Qed.

(** The error the loop tests is the 1-norm of the diagonal still to
    be factored: when the function ends after [m < n] iterations, [errors]
    is the sum of the absolute values of the diagonal entries at the
    positions of the permutation from [m] on. *)
Theorem errors_is_remaining_norm matrix max_iter error_tol :
  ma_wf matrix → (0 ≤ max_iter)%Z → 0 < numel (ma_batch_shape matrix) →
  ∃ st, pivoted_cholesky_state matrix max_iter error_tol = Val st ∧
        ∀ f e, st_elems st !! f = Some e →
               errors_inv (ma_n matrix) (st_m st) e.
Proof.
  intros Hwf Hmax Hpos.
  apply (final_elem_invariant (λ m _ e, errors_inv (ma_n matrix) m e));
    [done..| |].
  - intros. apply elem_step_errors.
  - intros. by apply init_elem_errors.
Qed.
End invariants.

Lemma errors_is_remaining_norm_witness :
  ∃ st, pivoted_cholesky_state B233 2 (qc 1 1000) = Val st ∧
        ∀ f e, st_elems st !! f = Some e → errors_inv (ma_n B233) (st_m st) e.
Proof.
  apply errors_is_remaining_norm; [exact B233_wf|lia|vm_compute; lia].
Defined.

Lemma rows_beyond_m_zero_witness :
  ∃ st, pivoted_cholesky_state B233 2 (qc 1 1000) = Val st ∧
        ∀ f e, st_elems st !! f = Some e → rows_zero (ma_n B233) (st_m st) e.
Proof. apply rows_beyond_m_zero; [exact B233_wf|lia|vm_compute; lia]. Defined.

Lemma factor_triangular_witness :
  ∃ st, pivoted_cholesky_state B233 3 (qc 1 1000) = Val st ∧
        ∀ f e, st_elems st !! f = Some e → pivot_triangular (st_m st) e.
Proof. apply factor_triangular; [exact B233_wf|lia|vm_compute; lia]. Defined.

Lemma factor_pivot_entries_witness :
  ∃ st, pivoted_cholesky_state B233 3 (qc 1 1000) = Val st ∧
        ∀ f e, st_elems st !! f = Some e → pivot_entries (st_m st) e.
Proof. apply factor_pivot_entries; [exact B233_wf|lia|vm_compute; lia]. Defined.

Lemma pivots_stay_witness :
  Forall2 (λ e e', take 1 (permutation e') = take 1 (permutation e))
    (st_elems (step_t B233 (init_t B233 3)))
    (st_elems (loop_t 2 B233 3 (qc 1 1000) (step_t B233 (init_t B233 3)))).
Proof.
  apply (pivots_stay 2 B233 3 (qc 1 1000) (step_t B233 (init_t B233 3))).
  - exact B233_wf.
  - apply step_t_wf; [exact B233_wf|exact (init_t_wf B233 3 B233_wf)|].
    vm_compute. lia.
Defined.
