(* ===== verification/PivotedCholeskyNan.v ===== *)
(** * PivotedCholeskyNan: what NaN does to the factorisation

    For every element type with IEEE arithmetic ([NanArith]: binary16,
    binary32, binary64), on well-formed states:

    - a negative pivot is not refused: line 56 writes NaN as the pivot
      entry, line 72 divides the row by it, lines 76 and 79 make the
      error of that batch element NaN, and the next loop test is false
      because no comparison with NaN holds.  The loop ends after that
      iteration for the whole batch, and the factor returned holds NaN
      ([negative_pivot_stops]);
    - a NaN on the diagonal of any batch element makes the first loop test
      false: the function returns factors without rows, and raises
      nothing ([nan_diagonal_no_rows]);
    - a pivot of zero is not refused either ([ZeroDivArith]): line 56
      writes a zero, line 72 divides the row by it, and every entry
      written to the row and the error of that batch element are NaN or
      infinite ([zero_pivot_not_refused]).  This is what a singular
      positive semi-definite matrix meets in a batch, once its own error
      is zero and another matrix keeps the loop running. *)

From Stdlib Require Import Floats.
From S2P Require Import Prelude Scalar ScalarInstances FloatFormats Tensor TensorOrder.
From S2P Require Import NanArithmetic MatrixAccess Examples PivotedCholesky PivotedCholeskySpec.
From S2P Require Import PivotedCholeskyProofs PivotedCholeskyInvariants.

Section nan_step.
Context {F : Type} `{NanArith F} {M : Type} `{MatrixAccessLaws F M}.
Implicit Types (matrix : M) (st : state F) (e : elem F) (m n mi f : nat).


(** Line 72 with a pivot root that is NaN: every new entry is NaN. *)
Lemma new_entries_nan m pi_m pi_i (row : list F) Ls :
  sisnan ((Ls !!! m) !!! pi_m) = true →
  all_nan (new_entries_t m pi_m pi_i row Ls).
Proof.
  intros Hn. unfold all_nan, new_entries_t. apply Forall_fmap, Forall_forall.
  intros x _. simpl. by apply nan_div_r.
Qed.

(** Lines 75-76 with new entries that are NaN. *)
Lemma deflated_nan (g new : list F) :
  all_nan new → all_nan (zip_with ssub g (ssqr <$> new)).
Proof.
  unfold all_nan. intros Hn. revert g.
  induction Hn as [|v new Hv _ IH]; intros [|u g]; simpl; try by constructor.
  constructor; [|apply IH]. by apply nan_sub_r, nan_mul_l.
Qed.

(** Lines 63-79 on an element whose entry at the pivot is NaN: the error
    is NaN. *)
Lemma post_t_nan n mi m pi_m row e :
  elem_wf n mi e → m + 1 < n → sisnan ((L e !!! m) !!! pi_m) = true →
  sisnan (errors (post_t m n pi_m row e)) = true.
Proof.
  intros Hwf Hm Hn. unfold post_t. rewrite decide_True by done. cbn [errors].
  pose proof (wf_perm_length _ _ _ Hwf) as Hlen.
  set (pi_i := drop (m + 1) (permutation e)).
  assert (length pi_i = n - (m + 1)) as Hpi
    by (unfold pi_i; rewrite length_drop; lia).
  set (new := new_entries_t m pi_m pi_i row (L e)).
  assert (length new = length pi_i) as Hnew.
  { unfold new, new_entries_t. by rewrite length_fmap, length_orthogonalize_t. }
  unfold deflate_t. rewrite gather_scatter_t.
  - apply norm1_nan, all_nan_has_nan; [by apply deflated_nan, new_entries_nan|].
    rewrite length_zip_with, length_gather_t, length_fmap. lia.
  - apply NoDup_drop. eapply perm_seq_NoDup, Hwf.
  - eapply perm_drop_bound; apply Hwf.
  - rewrite length_zip_with, length_gather_t, length_fmap. lia.
Qed.

(** Lines 55-56: the entry written at the pivot is the root. *)
Lemma pre_t_root n mi m e :
  elem_wf n mi e → m < mi → mi ≤ n →
  (L (pre_t m e).1 !!! m) !!! (pre_t m e).2 = ssqrt (pivot_of m e).1.
Proof.
  intros Hwf Hm Hmi. destruct (pre_t_pivot n mi m e Hwf Hm Hmi) as [Hlt _].
  rewrite pre_t_row by (by rewrite (wf_L_rows _ _ _ Hwf)).
  apply list_lookup_total_insert_eq. by rewrite (wf_row_length n mi).
Qed.

(** One iteration on an element whose pivot is negative: its error is
    NaN. *)
Lemma elem_step_nan matrix mi m f e :
  elem_wf (ma_n matrix) mi e → m < mi → mi ≤ ma_n matrix →
  m + 1 < ma_n matrix → (pivot_of m e).1 ≺ szero →
  sisnan (errors (elem_step matrix m f e)) = true
  ∧ has_nan (L (elem_step matrix m f e) !!! m).
Proof.
  intros Hwf Hm Hmi Hlast Hneg. split.
  - unfold elem_step. apply (post_t_nan _ mi); [by apply pre_t_wf|done|].
    rewrite (pre_t_root _ mi) by done. by apply nan_sqrt_negative.
  - apply Exists_exists. exists (ssqrt (pivot_of m e).1).
    split; [|by apply nan_sqrt_negative].
    eapply list_elem_of_lookup_2. by eapply elem_step_row_pivot.
Qed.

(** A state in which the error of some element is NaN ends the loop. *)
Lemma continue_t_nan mi (error_tol : F) st f e :
  st_elems st !! f = Some e → sisnan (errors e) = true →
  continue_t mi error_tol st = false.
Proof.
  intros He Hn. unfold continue_t. apply andb_false_iff. right.
  apply nan_ltb_r, argmax_nan, Exists_exists. exists (errors e).
  split; [|done]. apply list_elem_of_fmap. exists e. split; [done|].
  by eapply list_elem_of_lookup_2.
Qed.

(** C22.  A negative pivot ends the factorisation without an exception, in
    every IEEE format: when the loop test holds in a well-formed state with
    [m + 1 < n] and the pivot selected for some batch element is negative,
    the loop performs that iteration and stops for the whole batch; the
    error of the element is NaN and so is an entry of its row [m]. *)
Theorem negative_pivot_stops fuel matrix mi error_tol st f e v k :
  ma_wf matrix → state_wf matrix mi st → 0 < numel (ma_batch_shape matrix) →
  st_m st + 1 < ma_n matrix →
  loop_test mi error_tol st = Val true →
  st_elems st !! f = Some e →
  select_pivot (st_m st) e = Val (v, k) → v ≺ szero →
  ∃ st', loop (S fuel) matrix (ma_batch_shape matrix) (ma_n matrix)
           (batch_iters (ma_batch_shape matrix)) mi error_tol st = Val st'
    ∧ st_m st' = st_m st + 1
    ∧ ∃ e', st_elems st' !! f = Some e' ∧ sisnan (errors e') = true
            ∧ has_nan (L e' !!! st_m st).
Proof.
  intros Hwf Hst Hb Hlast Hgo He Hsel Hneg.
  rewrite (loop_test_total matrix) in Hgo by done. injection Hgo as Hgo.
  pose proof (continue_t_lt _ _ _ Hgo) as Hm.
  pose proof (Forall_lookup_1 _ _ _ _ (swf_elems _ _ _ Hst) He) as Hewf.
  rewrite (select_pivot_total _ mi) in Hsel by (done || lia).
  assert ((pivot_of (st_m st) e).1 ≺ szero) as Hp
    by (injection Hsel as Hv _; unfold pivot_of; simpl; by rewrite Hv).
  destruct (elem_step_nan matrix mi (st_m st) f e Hewf Hm
    (swf_mi _ _ _ Hst) Hlast Hp) as [Hnan Hrow].
  assert (st_elems (step_t matrix st) !! f
          = Some (elem_step matrix (st_m st) f e)) as He'
    by (by rewrite step_t_elems, list_lookup_imap, He).
  exists (step_t matrix st). split; [|split; [done|by eauto]].
  cbn [loop]. rewrite (loop_test_total matrix), Hgo by done. res_simpl.
  rewrite (step_total matrix mi) by done. res_simpl.
  pose proof (step_t_wf matrix mi st Hwf Hst Hm) as Hst'.
  destruct fuel; cbn [loop]; rewrite (loop_test_total matrix) by done;
    by rewrite (continue_t_nan mi error_tol _ f _ He' Hnan).
Qed.

(** C24.  A NaN on the diagonal of any batch element, in every IEEE
    format: the first loop test is false, and [pivoted_cholesky] returns a
    factor without rows for every batch element and raises nothing. *)
Theorem nan_diagonal_no_rows matrix max_iter error_tol ds f d :
  ma_wf matrix → (0 ≤ max_iter)%Z → 0 < numel (ma_batch_shape matrix) →
  ma_diag matrix = Val ds → ds !! f = Some d → has_nan d →
  pivoted_cholesky matrix max_iter error_tol
  = Val (replicate (numel (ma_batch_shape matrix)) []).
Proof.
  intros Hwf Hmax Hb Hds Hd Hn. unfold pivoted_cholesky.
  rewrite pivoted_cholesky_state_total by done. simpl. f_equal.
  assert (final_t matrix max_iter error_tol = init_t matrix max_iter) as ->.
  { assert (continue_t (mi_of matrix max_iter) error_tol
              (init_t matrix max_iter) = false) as Hc.
    { apply (continue_t_nan _ _ _ f (init_elem
        (replicate (mi_of matrix max_iter) (zeros (ma_n matrix)))
        (ma_n matrix) d)); [|by apply norm1_nan].
      unfold init_t, diag_t. cbn [st_elems]. rewrite Hds. simpl.
      by rewrite list_lookup_fmap, Hd. }
    unfold final_t. destruct (mi_of matrix max_iter) at 1; [done|].
    simpl. by rewrite Hc. }
  unfold result_of, init_t. cbn [st_elems st_m]. rewrite <-list_fmap_compose.
  destruct (diag_t_spec matrix Hwf) as (_&Hlen&_). rewrite <-Hlen. clear Hlen.
  induction (diag_t matrix) as [|x l IH]; [done|].
  rewrite fmap_cons. cbn [length replicate]. f_equal. exact IH.
Qed.
End nan_step.


(** ** A pivot that is zero *)

Section zero_step.
Context {F : Type} `{Scalar F} `{!ZeroDivArith F}.
Context {M : Type} `{MatrixAccessLaws F M}.
Implicit Types (matrix : M) (st : state F) (e : elem F) (m n mi f : nat).

(** Line 72 with a pivot root that is zero: no new entry is finite. *)
Lemma new_entries_non_finite m pi_m pi_i (row : list F) Ls :
  is_zero ((Ls !!! m) !!! pi_m) →
  Forall non_finite (new_entries_t m pi_m pi_i row Ls).
Proof.
  intros Hz. unfold new_entries_t. apply Forall_fmap, Forall_forall.
  intros x _. simpl. by apply nf_div_zero.
Qed.

(** Lines 75-76 with new entries that are not finite. *)
Lemma deflated_non_finite (g new : list F) :
  Forall non_finite new → Forall non_finite (zip_with ssub g (ssqr <$> new)).
Proof.
  intros Hn. revert g.
  induction Hn as [|v new Hv _ IH]; intros [|u g]; simpl; try by constructor.
  constructor; [|apply IH]. by apply nf_sub_r, nf_sqr.
Qed.

(** A tensor that is not empty and holds no finite number holds a number
    that is not finite. *)
Lemma non_finite_exists (x : list F) :
  Forall non_finite x → 0 < length x → Exists non_finite x.
Proof. intros [|v x' Hv _] Hlen; [simpl in Hlen; lia|by left]. Qed.

(** Lines 63-79 on an element whose entry at the pivot is zero: the error
    is not finite, and neither is any entry written to row [m]. *)
Lemma post_t_zero n mi m pi_m row e :
  elem_wf n mi e → m < mi → m + 1 < n → is_zero ((L e !!! m) !!! pi_m) →
  non_finite (errors (post_t m n pi_m row e))
  ∧ Forall non_finite (gather_t (L (post_t m n pi_m row e) !!! m)
                                (drop (m + 1) (permutation e))).
Proof.
  intros Hwf Hmi Hm Hz. pose proof (wf_perm_length _ _ _ Hwf) as Hlen.
  rewrite post_t_row by (by rewrite (wf_L_rows _ _ _ Hwf)).
  unfold post_t. rewrite !decide_True by done. cbn [errors].
  set (pi_i := drop (m + 1) (permutation e)).
  assert (length pi_i = n - (m + 1)) as Hpi
    by (unfold pi_i; rewrite length_drop; lia).
  assert (NoDup pi_i) as Hnd by (apply NoDup_drop; eapply perm_seq_NoDup, Hwf).
  set (new := new_entries_t m pi_m pi_i row (L e)).
  assert (length new = length pi_i) as Hnew.
  { unfold new, new_entries_t. by rewrite length_fmap, length_orthogonalize_t. }
  pose proof (new_entries_non_finite m pi_m pi_i row (L e) Hz) as Hnf.
  unfold deflate_t. rewrite !gather_scatter_t; try done.
  - split; [|done]. apply norm1_non_finite, non_finite_exists.
    + by apply deflated_non_finite.
    + rewrite length_zip_with, length_gather_t, length_fmap. lia.
  - eapply perm_drop_bound; [apply Hwf|by apply (wf_row_length n mi)].
  - eapply perm_drop_bound; apply Hwf.
  - rewrite length_zip_with, length_gather_t, length_fmap. lia.
Qed.

(** One iteration on an element whose pivot is zero. *)
Lemma elem_step_zero matrix mi m f e :
  elem_wf (ma_n matrix) mi e → m < mi → mi ≤ ma_n matrix →
  m + 1 < ma_n matrix → is_zero (pivot_of m e).1 →
  let e' := elem_step matrix m f e in
  non_finite (errors e')
  ∧ Forall non_finite
      (gather_t (L e' !!! m) (drop (m + 1) (permutation e'))).
Proof.
  intros Hwf Hm Hmi Hlast Hz e'. unfold e', elem_step.
  rewrite post_t_permutation.
  apply (post_t_zero _ mi); [by apply pre_t_wf|done..|].
  rewrite (pre_t_root _ mi) by done. by apply zero_sqrt.
Qed.
(** C23.  A pivot of zero is not refused, in every IEEE format: when the
    loop test holds in a well-formed state with [m + 1 < n] and the pivot
    selected for some batch element is zero (as it is for a singular
    positive semi-definite matrix that is factored already, while another
    matrix of the batch keeps the loop running), the iteration raises
    nothing: line 56 writes a zero as the pivot entry, line 72 divides the
    row by it, and every entry written to row [m] of that element is NaN
    or infinite, and so is its error. *)
Theorem zero_pivot_not_refused matrix mi error_tol st f e v k :
  ma_wf matrix → state_wf matrix mi st → 0 < numel (ma_batch_shape matrix) →
  st_m st + 1 < ma_n matrix →
  loop_test mi error_tol st = Val true →
  st_elems st !! f = Some e →
  select_pivot (st_m st) e = Val (v, k) → is_zero v →
  ∃ st', step matrix (ma_batch_shape matrix) (ma_n matrix)
              (batch_iters (ma_batch_shape matrix)) st = Val st'
    ∧ st_m st' = st_m st + 1
    ∧ ∃ e', st_elems st' !! f = Some e' ∧ non_finite (errors e')
        ∧ Forall non_finite
            (gather_t (L e' !!! st_m st)
                      (drop (st_m st + 1) (permutation e'))).
Proof.
  intros Hwf Hst Hb Hlast Hgo He Hsel Hz.
  rewrite (loop_test_total matrix) in Hgo by done. injection Hgo as Hgo.
  pose proof (continue_t_lt _ _ _ Hgo) as Hm.
  pose proof (Forall_lookup_1 _ _ _ _ (swf_elems _ _ _ Hst) He) as Hewf.
  rewrite (select_pivot_total _ mi) in Hsel by (done || lia).
  assert (is_zero (pivot_of (st_m st) e).1) as Hp
    by (injection Hsel as Hv _; unfold pivot_of; simpl; by rewrite Hv).
  exists (step_t matrix st). split; [by apply (step_total matrix mi)|].
  split; [done|]. exists (elem_step matrix (st_m st) f e).
  split; [by rewrite step_t_elems, list_lookup_imap, He|].
  by apply (elem_step_zero matrix mi); [|  |apply (swf_mi _ _ _ Hst)|..].
Qed.
End zero_step.

(** ** In binary64, on a matrix with a negative diagonal *)

Definition Fneg_elem : elem float :=
  init_elem [[0; 0]; [0; 0]]%float 2 [-1; -2]%float.

Lemma negative_pivot_stops_witness :
  ∃ st', loop 1 Fneg (ma_batch_shape Fneg) (ma_n Fneg)
           (batch_iters (ma_batch_shape Fneg)) 2 0%float (init_t Fneg 2)
         = Val st'
    ∧ st_m st' = st_m (init_t Fneg 2) + 1
    ∧ ∃ e', st_elems st' !! 0 = Some e' ∧ sisnan (errors e') = true
            ∧ has_nan (L e' !!! st_m (init_t Fneg 2)).
Proof.
  exact (negative_pivot_stops 0 Fneg 2 0%float (init_t Fneg 2) 0 Fneg_elem
           (-1)%float 0 ltac:(by apply (bool_decide_unpack _))
           (init_t_wf Fneg 2 ltac:(by apply (bool_decide_unpack _)))
           ltac:(vm_compute; lia) ltac:(vm_compute; lia)
           ltac:(by vm_compute) ltac:(by vm_compute) ltac:(by vm_compute)
           ltac:(by vm_compute)).
Defined.

Definition Fnan : dense float := Dense [] 2 2 [[[nan; 0]; [0; 1]]]%float.

Lemma nan_diagonal_no_rows_witness :
  pivoted_cholesky Fnan 2 0%float
  = Val (replicate (numel (ma_batch_shape Fnan)) []).
Proof.
  apply (nan_diagonal_no_rows Fnan 2 0%float [[nan; 1]]%float 0
           [nan; 1]%float);
    [by apply (bool_decide_unpack _)|lia|vm_compute; lia|done|done|].
  by left.
Defined.

(** ** In binary64, on a batch with a singular matrix *)

(** The batch [Frank] after the first iteration: the matrix of ones is
    factored, the identity is not. *)
Definition Frank_state : state float := step_t Frank (init_t Frank 3).

(** Its first element: the matrix of ones after one iteration. *)
Definition Frank_elem : elem float :=
  elem_step Frank 0 0 (init_elem (replicate 3 (zeros 3)) 3 [1; 1; 1]%float).

Lemma Frank_state_wf : state_wf Frank 3 Frank_state.
Proof.
  apply step_t_wf; [by apply (bool_decide_unpack _)| |vm_compute; lia].
  exact (init_t_wf Frank 3 ltac:(by apply (bool_decide_unpack _))).
Qed.

Lemma zero_pivot_not_refused_witness :
  ∃ st', step Frank (ma_batch_shape Frank) (ma_n Frank)
              (batch_iters (ma_batch_shape Frank)) Frank_state = Val st'
    ∧ st_m st' = st_m Frank_state + 1
    ∧ ∃ e', st_elems st' !! 0 = Some e' ∧ non_finite (errors e')
        ∧ Forall non_finite
            (gather_t (L e' !!! st_m Frank_state)
                      (drop (st_m Frank_state + 1) (permutation e'))).
Proof.
  exact (zero_pivot_not_refused Frank 3 0%float Frank_state 0
           Frank_elem 0%float 1
           ltac:(by apply (bool_decide_unpack _)) Frank_state_wf
           ltac:(vm_compute; lia) ltac:(vm_compute; lia)
           ltac:(by vm_compute) ltac:(by vm_compute) ltac:(by vm_compute)
           ltac:(by split; vm_compute)).
Defined.
