(* ===== verification/PivotedCholeskyOrder.v ===== *)
(** * PivotedCholeskyOrder: the greedy choice

    What the pivot selection of lines 43-46 and the deflation of lines 75-76
    achieve.

    The first part needs the order of the element type only ([NanOrder]:
    exact fields, and the IEEE formats on numbers that are not NaN):

    - the pivot is the largest diagonal entry still to be factored, at the
      first position of the permutation that holds it.

    The second part is about exact arithmetic ([ExactField]; the rationals
    and the reals are instances, the IEEE formats are not):

    - the deflation never increases a diagonal entry;
    - hence the diagonal entries kept at the pivots are non-increasing in
      the order in which the pivots were chosen, and bound every entry still
      to be factored. *)

From Stdlib Require Import Ring Field Floats.
From S2P Require Import Prelude Scalar ScalarInstances Tensor TensorOrder.
From S2P Require Import NanArithmetic.
From S2P Require Import MatrixAccess Examples PivotedCholesky PivotedCholeskySpec.
From S2P Require Import PivotedCholeskyProofs PivotedCholeskyInvariants.

(** ** The pivot is the first largest remaining entry *)

Section greedy.
Context {F : Type} `{NanOrder F}.
Implicit Types (e : elem F) (m n mi : nat).

(** The diagonal entry at position [i] of the permutation. *)
Definition diag_at e (i : nat) : F := matrix_diag e !!! (permutation e !!! i).

(** The diagonal still to be factored holds no NaN. *)
Definition remaining_nan_free n m e : Prop :=
  ∀ i, m ≤ i → i < n → sisnan (diag_at e i) = false.

Lemma remaining_lookup n mi m e i :
  elem_wf n mi e → m ≤ i → i < n →
  gather_t (matrix_diag e) (drop m (permutation e)) !! (i - m)
  = Some (diag_at e i).
Proof.
  intros Hwf Hm Hi. apply lookup_gather_t. rewrite lookup_drop.
  replace (m + (i - m)) with i by lia.
  apply list_lookup_lookup_total_lt. by rewrite (wf_perm_length _ _ _ Hwf).
Qed.

Lemma remaining_gather_nan_free n mi m e :
  elem_wf n mi e → remaining_nan_free n m e →
  nan_free (gather_t (matrix_diag e) (drop m (permutation e))).
Proof.
  intros Hwf Hnf. apply Forall_lookup. intros j v Hj.
  assert (j < n - m) as Hlt.
  { apply lookup_lt_Some in Hj.
    by rewrite length_gather_t, length_drop, (wf_perm_length _ _ _ Hwf) in Hj. }
  rewrite <-(Nat.add_sub j m), Nat.add_comm, (remaining_lookup n mi) in Hj
    by (done || lia).
  simplify_eq. apply Hnf; lia.
Qed.

Lemma pivot_greatest n mi m e i :
  elem_wf n mi e → remaining_nan_free n m e → m ≤ i → i < n →
  diag_at e i ≼ (pivot_of m e).1.
Proof.
  intros Hwf Hnf Hm Hi. unfold pivot_of; cbn [fst].
  pose proof (argmax_bounds _ (remaining_gather_nan_free n mi m e Hwf Hnf))
    as Hall.
  apply (Forall_lookup_1 _ _ (i - m) _ Hall). by eapply remaining_lookup.
Qed.

Lemma pivot_earliest n mi m e i :
  elem_wf n mi e → remaining_nan_free n m e →
  m ≤ i → i < (pivot_of m e).2 → i < n →
  diag_at e i ≺ (pivot_of m e).1.
Proof.
  intros Hwf Hnf Hm Hi Hn. unfold pivot_of in *; cbn [fst snd] in *.
  eapply (argmax_before _ (i - m));
    [by eapply remaining_gather_nan_free|lia|by eapply remaining_lookup].
Qed.

(** C36.  The pivot of an iteration is the largest diagonal entry still to
    be factored, and the first one in the order of the permutation, in
    exact arithmetic and in every IEEE format: when the diagonal holds no
    NaN from position [m] on, [select_pivot] returns the value [v] at a
    position [k >= m] such that no entry from [m] on exceeds [v] and every
    entry from [m] up to [k] is strictly smaller. *)
Theorem select_pivot_maximal n mi m e :
  elem_wf n mi e → m < n → remaining_nan_free n m e →
  ∃ v k, select_pivot m e = Val (v, k) ∧ m ≤ k < n ∧ diag_at e k = v ∧
         (∀ i, m ≤ i → i < n → diag_at e i ≼ v) ∧
         (∀ i, m ≤ i → i < k → diag_at e i ≺ v).
Proof.
  intros Hwf Hm Hnf. exists (pivot_of m e).1, (pivot_of m e).2.
  pose proof (pivot_of_bounds _ _ _ _ Hwf Hm) as Hk.
  split_and!; [|lia..| | |].
  - rewrite (select_pivot_total n mi) by done. by destruct (pivot_of m e).
  - symmetry. by eapply pivot_of_value.
  - intros i ??. by eapply pivot_greatest.
  - intros i ??. eapply pivot_earliest; [done..|lia].
Qed.
End greedy.

Section order.
Context {F : Type} `{ExactField F} {M : Type} `{MatrixAccessLaws F M}.
Implicit Types (matrix : M) (st : state F) (e : elem F) (m n mi f : nat).

Lemma exact_nan_free n m e : remaining_nan_free n m e.
Proof. intros i _ _. apply ef_not_nan. Qed.

(** The pivots are sorted and bound what remains: every entry at or after
    position [i < m] of the permutation is at most the entry at [i]. *)
Definition pivots_sorted n m e : Prop :=
  ∀ i j, i < m → i ≤ j → j < n → diag_at e j ≼ diag_at e i.

(** The state after at most [k] iterations of the loop. *)
Definition after_t (k : nat) matrix (max_iter : Z) (error_tol : F) : state F :=
  loop_t k matrix (mi_of matrix max_iter) error_tol (init_t matrix max_iter).

(** ** In exact arithmetic *)

Lemma pivot_maximal n mi m e i :
  elem_wf n mi e → m ≤ i → i < n → diag_at e i ≼ (pivot_of m e).1.
Proof. intros. eapply pivot_greatest; [done|apply exact_nan_free|done..]. Qed.

Lemma pivot_first n mi m e i :
  elem_wf n mi e → m ≤ i → i < (pivot_of m e).2 → i < n →
  diag_at e i ≺ (pivot_of m e).1.
Proof. intros. eapply pivot_earliest; [done|apply exact_nan_free|done..]. Qed.

Lemma pivot_of_diag_at n mi m e :
  elem_wf n mi e → m < n → (pivot_of m e).1 = diag_at e (pivot_of m e).2.
Proof. intros. by eapply pivot_of_value. Qed.

(** ** The deflation never increases the diagonal *)

Lemma deflate_t_lookup_in pi_i (new diag : list F) k c :
  NoDup pi_i → pi_i !! k = Some c → c < length diag →
  length new = length pi_i →
  deflate_t pi_i new diag !!! c = (diag !!! c) ⊖ ssqr (new !!! k).
Proof.
  intros Hnd Hk Hc Hlen. apply list_lookup_total_correct. unfold deflate_t.
  eapply scatter_t_lookup_in; [done..| |done].
  rewrite lookup_zip_with, (lookup_gather_t _ _ _ _ Hk). simpl.
  rewrite list_lookup_fmap.
  rewrite (list_lookup_lookup_total_lt new k); [done|].
  rewrite Hlen. by eapply lookup_lt_Some.
Qed.

Lemma deflate_t_le pi_i (new diag : list F) c :
  NoDup pi_i → c < length diag → length new = length pi_i →
  deflate_t pi_i new diag !!! c ≼ diag !!! c.
Proof.
  intros Hnd Hc Hlen. destruct (decide (c ∈ pi_i)) as [Hin|Hnotin].
  - apply list_elem_of_lookup in Hin as [k Hk].
    rewrite (deflate_t_lookup_in _ _ _ k) by done.
    apply ef_sub_le, ef_sqr_nonneg.
  - unfold deflate_t.
    rewrite !list_lookup_total_alt, scatter_t_lookup_notin by done.
    apply ef_le_refl.
Qed.

Lemma elem_step_diag_le matrix mi m f e c :
  elem_wf (ma_n matrix) mi e → m < mi → mi ≤ ma_n matrix → c < ma_n matrix →
  matrix_diag (elem_step matrix m f e) !!! c ≼ matrix_diag e !!! c.
Proof.
  intros Hwf Hm Hmi Hc. pose proof (pre_t_wf _ _ _ _ Hwf Hm Hmi) as Hwf'.
  unfold elem_step, post_t. case_decide; [|apply ef_le_refl].
  cbn [matrix_diag].
  apply (deflate_t_le _ _ (matrix_diag (pre_t m e).1)).
  - apply NoDup_drop, (perm_seq_NoDup _ _ (wf_perm _ _ _ Hwf')).
  - by rewrite (wf_diag _ _ _ Hwf').
  - apply length_new_entries_t.
Qed.

(** ** The pivots are sorted *)

(** After the swap, the positions from [m] on hold what they held before,
    in another order. *)
Lemma swap_remaining (p : list nat) m k j :
  m ≤ k → k < length p → m ≤ j → j < length p →
  ∃ j', m ≤ j' ∧ j' < length p ∧ swap m k p !!! j = p !!! j'.
Proof.
  intros Hmk Hk Hmj Hj.
  destruct (decide (j = m)) as [->|Hjm]; [|destruct (decide (j = k)) as [->|Hjk]].
  - exists k. split_and!; [done..|].
    apply list_lookup_total_correct, swap_lookup_l; lia.
  - exists m. split_and!; [lia..|].
    apply list_lookup_total_correct, swap_lookup_r; lia.
  - exists j. split_and!; [done..|].
    by rewrite !list_lookup_total_alt, swap_lookup_ne.
Qed.

(** A diagonal entry after the iteration, at a position from [m] on, is
    bounded by an entry that was at such a position before. *)
Lemma elem_step_diag_at_remaining matrix mi m f e j :
  elem_wf (ma_n matrix) mi e → m < mi → mi ≤ ma_n matrix →
  m ≤ j → j < ma_n matrix →
  ∃ j', m ≤ j' ∧ j' < ma_n matrix ∧
        diag_at (elem_step matrix m f e) j ≼ diag_at e j'.
Proof.
  intros Hwf Hm Hmi Hmj Hj.
  pose proof (pivot_of_bounds _ mi m e Hwf ltac:(lia)) as Hk.
  pose proof (wf_perm_length _ _ _ Hwf) as Hlen.
  destruct (swap_remaining (permutation e) m (pivot_of m e).2 j)
    as (j'&?&?&Hj'); [lia..|].
  exists j'. split_and!; [lia..|]. unfold diag_at.
  rewrite elem_step_permutation, Hj'.
  apply (elem_step_diag_le _ mi); [done..|].
  apply perm_lookup_total_lt; [apply Hwf|lia].
Qed.

(** The entry at the new pivot is the pivot value. *)
Lemma elem_step_diag_at_pivot matrix mi m f e :
  elem_wf (ma_n matrix) mi e → m < mi → mi ≤ ma_n matrix →
  diag_at (elem_step matrix m f e) m = (pivot_of m e).1.
Proof.
  intros Hwf Hm Hmi. pose proof (pre_t_wf _ _ _ _ Hwf Hm Hmi) as Hwf'.
  pose proof (pivot_of_bounds _ mi m e Hwf ltac:(lia)) as Hk.
  pose proof (wf_perm_length _ _ _ Hwf) as Hlen.
  unfold diag_at. rewrite elem_step_permutation.
  rewrite elem_step_diag_untouched.
  - rewrite (pivot_of_value _ _ _ _ Hwf) by lia. f_equal.
    apply list_lookup_total_correct, swap_lookup_l; lia.
  - replace (swap m _ _) with (permutation (pre_t m e).1) by done.
    eapply perm_prefix_notin; [apply Hwf'|lia..].
Qed.

(** The entries at the earlier pivots do not change. *)
Lemma elem_step_diag_at_earlier matrix mi m f e i :
  elem_wf (ma_n matrix) mi e → m < mi → mi ≤ ma_n matrix → i < m →
  diag_at (elem_step matrix m f e) i = diag_at e i.
Proof.
  intros Hwf Hm Hmi Hi. pose proof (pre_t_wf _ _ _ _ Hwf Hm Hmi) as Hwf'.
  unfold diag_at. rewrite (elem_step_perm_lookup _ mi) by done.
  apply elem_step_diag_untouched.
  rewrite <-(elem_step_perm_lookup matrix mi m f e i) by done.
  rewrite elem_step_permutation.
  replace (swap m _ _) with (permutation (pre_t m e).1) by done.
  eapply perm_prefix_notin; [apply Hwf'|lia..].
Qed.

Lemma elem_step_pivots_sorted matrix mi m f e :
  elem_wf (ma_n matrix) mi e → m < mi → mi ≤ ma_n matrix →
  pivots_sorted (ma_n matrix) m e →
  pivots_sorted (ma_n matrix) (m + 1) (elem_step matrix m f e).
Proof.
  intros Hwf Hm Hmi Hs i j Hi Hij Hj.
  assert (diag_at (elem_step matrix m f e) j ≼ (pivot_of m e).1 ∨ j < m)
    as Hrem.
  { destruct (decide (j < m)); [by right|left].
    destruct (elem_step_diag_at_remaining matrix mi m f e j)
      as (j'&?&?&Hle); [done..|lia|done|].
    eapply ef_le_trans; [exact Hle|]. by eapply pivot_maximal. }
  destruct (decide (i = m)) as [->|Hne].
  - rewrite (elem_step_diag_at_pivot _ mi) by done.
    destruct Hrem; [done|lia].
  - rewrite (elem_step_diag_at_earlier _ mi _ _ _ i) by (done || lia).
    destruct (decide (j < m)).
    + rewrite (elem_step_diag_at_earlier _ mi _ _ _ j) by done.
      apply Hs; lia.
    + destruct (elem_step_diag_at_remaining matrix mi m f e j)
        as (j'&?&?&Hle); [done..|lia|done|].
      eapply ef_le_trans; [exact Hle|]. apply Hs; lia.
Qed.

(** ** The error does not increase while the diagonal stays non-negative *)

Lemma drop_swap (p : list nat) m k :
  m ≤ k → k < length p → drop m (swap m k p) ≡ₚ drop m p.
Proof.
  intros Hmk Hk. unfold swap. rewrite !drop_insert_ge by lia.
  replace (m - m) with 0 by lia.
  replace (p !!! m) with (drop m p !!! 0)
    by (rewrite lookup_total_drop; f_equal; lia).
  replace (p !!! k) with (drop m p !!! (k - m))
    by (rewrite lookup_total_drop; f_equal; lia).
  apply (swap_Permutation 0 (k - m) (drop m p)); rewrite length_drop; lia.
Qed.

(** The remaining diagonal before the iteration, in the order in which the
    permutation lists it after the swap: the pivot first. *)
Lemma remaining_swap n mi m e :
  elem_wf n mi e → m < n →
  remaining m e
  ≡ₚ (pivot_of m e).1 ::
     gather_t (matrix_diag e) (drop (m + 1) (permutation (pre_t m e).1)).
Proof.
  intros Hwf Hm. pose proof (pivot_of_bounds _ _ _ _ Hwf Hm) as Hk.
  pose proof (wf_perm_length _ _ _ Hwf) as Hlen.
  unfold remaining, pre_t; cbn [permutation fst].
  rewrite <-(drop_swap (permutation e) m (pivot_of m e).2) by lia.
  rewrite (drop_S _ (permutation e !!! (pivot_of m e).2) m)
    by (apply swap_lookup_l; lia).
  rewrite gather_t_cons, Nat.add_1_r.
  by rewrite <-(pivot_of_value _ _ _ _ Hwf Hm).
Qed.

(** One iteration does not increase the error of an element whose
    remaining diagonal is non-negative after it. *)
Lemma elem_step_errors_le matrix mi m f e :
  elem_wf (ma_n matrix) mi e → m < mi → mi ≤ ma_n matrix →
  errors_inv (ma_n matrix) m e →
  Forall (λ v, szero ≼ v) (remaining (m + 1) (elem_step matrix m f e)) →
  errors (elem_step matrix m f e) ≼ errors e.
Proof.
  intros Hwf Hm Hmi Herr Hpos.
  pose proof (pre_t_wf _ _ _ _ Hwf Hm Hmi) as Hwf'.
  unfold elem_step, post_t in *. case_decide as Hlast; [|apply ef_le_refl].
  unfold remaining, gather_t in Hpos. cbn [errors matrix_diag permutation] in *.
  rewrite Herr by lia. clear Herr.
  rewrite (remaining_swap _ mi) by (done || lia). rewrite norm1_cons.
  eapply ef_le_trans; [|apply ef_le_add_l, ef_abs_nonneg].
  apply norm1_mono, Forall2_fmap, Forall_Forall2_diag.
  apply Forall_forall. intros c Hc.
  apply ef_abs_le_of_nonneg.
  - rewrite Forall_fmap in Hpos. by apply (proj1 (Forall_forall _ _) Hpos).
  - apply deflate_t_le; [| |apply length_new_entries_t].
    + apply NoDup_drop, (perm_seq_NoDup _ _ (wf_perm _ _ _ Hwf')).
    + eapply (proj1 (Forall_forall (λ i, i < _) _)); [|exact Hc].
      eapply perm_drop_bound; apply Hwf'.
Qed.

(** C37.  The pivots are non-increasing: in the state the function ends
    in, the diagonal entries held at the pivots, in the order in which they
    were chosen, never increase, and each bounds every entry still to be
    factored. *)
Theorem pivots_nonincreasing matrix max_iter error_tol :
  ma_wf matrix → (0 ≤ max_iter)%Z → 0 < numel (ma_batch_shape matrix) →
  ∃ st, pivoted_cholesky_state matrix max_iter error_tol = Val st ∧
        ∀ f e, st_elems st !! f = Some e →
               pivots_sorted (ma_n matrix) (st_m st) e.
Proof.
  intros Hwf Hmax Hpos.
  apply (final_elem_invariant (λ m _ e, pivots_sorted (ma_n matrix) m e));
    [done..| |].
  - intros. by eapply elem_step_pivots_sorted.
  - intros f d _ _ i j ?. lia.
Qed.
Lemma after_t_wf k matrix max_iter error_tol :
  ma_wf matrix →
  state_wf matrix (mi_of matrix max_iter) (after_t k matrix max_iter error_tol).
Proof. intros. apply loop_t_wf; [done|by apply init_t_wf]. Qed.

Lemma after_t_errors k matrix max_iter error_tol f e :
  ma_wf matrix →
  st_elems (after_t k matrix max_iter error_tol) !! f = Some e →
  errors_inv (ma_n matrix) (st_m (after_t k matrix max_iter error_tol)) e.
Proof.
  intros Hwf. unfold after_t.
  apply (loop_elem_invariant (λ m _ e, errors_inv (ma_n matrix) m e));
    [done|by apply init_t_wf| |].
  - intros. apply elem_step_errors.
  - intros f' e' (d&?&?&->)%init_t_lookup; [|done]. by apply init_elem_errors.
Qed.

(** C38.  One more iteration does not increase the error of a batch
    element whose remaining diagonal is non-negative after it.  (Without
    that condition the error can grow: see [errors_can_increase].) *)
Theorem errors_nonincreasing k matrix max_iter error_tol :
  ma_wf matrix →
  st_m (after_t k matrix max_iter error_tol) < mi_of matrix max_iter →
  ∀ f e, st_elems (after_t k matrix max_iter error_tol) !! f = Some e →
    let e' := elem_step matrix (st_m (after_t k matrix max_iter error_tol)) f e in
    st_elems (step_t matrix (after_t k matrix max_iter error_tol)) !! f = Some e'
    ∧ (Forall (λ v, szero ≼ v)
         (remaining (st_m (after_t k matrix max_iter error_tol) + 1) e') →
       errors e' ≼ errors e).
Proof.
  intros Hwf Hm f e He e'.
  pose proof (after_t_wf k matrix max_iter error_tol Hwf) as Hst.
  split.
  - by rewrite step_t_elems, list_lookup_imap, He.
  - apply (elem_step_errors_le _ (mi_of matrix max_iter)); [|done|apply Hst|].
    + by eapply (Forall_lookup_1 _ _ _ _ (swf_elems _ _ _ Hst)).
    + by eapply after_t_errors.
Qed.
End order.

(** The error can grow: the first iteration on the indefinite matrix
    [N22] raises it from 2 to 99.  The bound of [errors_nonincreasing]
    needs its condition. *)
Example errors_can_increase :
  errors <$> st_elems (init_t N22 2) = [qc 2 1] ∧
  (λ st, errors <$> st_elems st) <$> step N22 [] 2 (batch_iters []) (init_t N22 2)
  = Val [qc 99 1].
Proof. by vm_compute. Qed.

Lemma errors_nonincreasing_witness :
  (∀ f e, st_elems (after_t 1 B233 3 (qc 1 1000)) !! f = Some e →
    let e' := elem_step B233 (st_m (after_t 1 B233 3 (qc 1 1000))) f e in
    st_elems (step_t B233 (after_t 1 B233 3 (qc 1 1000))) !! f = Some e'
    ∧ (Forall (λ v, szero ≼ v)
         (remaining (st_m (after_t 1 B233 3 (qc 1 1000)) + 1) e') →
       errors e' ≼ errors e))
  ∧ Forall (λ e, Forall (λ v, szero ≼ v) (remaining 2 e))
      (st_elems (step_t B233 (after_t 1 B233 3 (qc 1 1000)))).
Proof.
  split.
  - apply (errors_nonincreasing 1 B233 3 (qc 1 1000)); [exact B233_wf|].
    vm_compute. lia.
  - apply (bool_decide_unpack _). vm_compute. exact I.
Defined.

(** In binary64: the diagonal [(1, 9, 4)]. *)
Definition diag3f : elem float :=
  init_elem (replicate 3 (zeros 3)) 3 [1; 9; 4]%float.

Lemma diag3f_nan_free : remaining_nan_free 3 0 diag3f.
Proof. intros i _ Hi. by destruct i as [|[|[|]]]; [..|lia]. Qed.

Lemma select_pivot_maximal_witness :
  ∃ v k, select_pivot 0 diag3f = Val (v, k)
         ∧ 0 ≤ k < 3
         ∧ diag_at diag3f k = v
         ∧ (∀ i, 0 ≤ i → i < 3 → diag_at diag3f i ≼ v)
         ∧ (∀ i, 0 ≤ i → i < k → diag_at diag3f i ≺ v).
Proof.
  apply (select_pivot_maximal 3 3);
    [by apply init_elem_wf|lia|exact diag3f_nan_free].
Defined.

Lemma pivots_nonincreasing_witness :
  ∃ st, pivoted_cholesky_state B233 3 (qc 1 1000) = Val st ∧
        ∀ f e, st_elems st !! f = Some e → pivots_sorted (ma_n B233) (st_m st) e.
Proof. apply pivots_nonincreasing; [exact B233_wf|lia|vm_compute; lia]. Defined.
