(* ===== verification/PivotedCholeskyEdge.v ===== *)
(** * PivotedCholeskyEdge: the edges of the domain, and runs

    What [pivoted_cholesky] does at the edges of its domain, for every
    element type:

    - a negative [max_iter] is refused by [torch.zeros] (line 25), before
      the loop;
    - with [min(max_iter, n) = 0] the loop test fails on [m < max_iter]
      without evaluating [torch.max(errors)], and the factor has no rows,
      whatever the batch;
    - with an empty batch and [min(max_iter, n) > 0] the loop test
      evaluates [torch.max] of an empty tensor, which raises;
    - when the largest initial error does not exceed [error_tol], the factor
      has no rows.

    Then runs of the model with exceptions ([pivoted_cholesky], not its
    total reading) on the matrices of [Examples], checked by evaluation.
    They fix the behaviour of the definitions on inputs a reader can
    follow by hand, and they record the behaviours that differ from what
    the specification of the repository promises:

    - on an indefinite matrix the error grows ([errors_can_increase] in
      [PivotedCholeskyOrder] is the same run, one iteration long);
    - a negative pivot gives a row of NaN and ends the loop, without an
      exception ([negative_pivot_nan]);
    - the number of rows of a batch element depends on the other elements
      of the batch ([batch_rows_depend_on_batch]);
    - a singular matrix in a batch is given a pivot of zero, and the NaN of
      its row ends the loop for the whole batch
      ([rank_deficient_batch_nan]). *)

From Stdlib Require Import QArith Qcanon Floats.
From S2P Require Import Prelude Scalar ScalarInstances Tensor MatrixAccess.
From S2P Require Import Examples PivotedCholesky PivotedCholeskySpec.
From S2P Require Import PivotedCholeskyProofs.

Section edge.
Context {F : Type} `{Scalar F} {M : Type} `{MatrixAccessLaws F M}.
Implicit Types (matrix : M) (st : state F) (e : elem F) (error_tol : F).

(** The function up to the loop: shape, diagonal, allocation. *)
Lemma pivoted_cholesky_state_unfold matrix max_iter error_tol :
  ma_wf matrix → (0 ≤ max_iter)%Z →
  pivoted_cholesky_state matrix max_iter error_tol
  = loop (mi_of matrix max_iter) matrix (ma_batch_shape matrix) (ma_n matrix)
         (batch_iters (ma_batch_shape matrix)) (mi_of matrix max_iter)
         error_tol (init_t matrix max_iter).
Proof.
  intros Hwf Hmax. unfold pivoted_cholesky_state. cbv zeta.
  destruct (diag_t_spec matrix Hwf) as (Hd&_&_). rewrite Hd. res_simpl.
  rewrite init_state_total by done. by res_simpl.
Qed.

(** A loop whose test fails returns the state it was given. *)
Lemma loop_stops fuel matrix batch_shape n iters mi error_tol st :
  loop_test mi error_tol st = Val false →
  loop fuel matrix batch_shape n iters mi error_tol st = Val st.
Proof. intros Ht. destruct fuel; simpl; rewrite Ht; by res_simpl. Qed.

(** A loop whose test raises, raises. *)
Lemma loop_raises fuel matrix batch_shape n iters mi error_tol st ex :
  loop_test mi error_tol st = Raise ex →
  loop fuel matrix batch_shape n iters mi error_tol st = Raise ex.
Proof. intros Ht. destruct fuel; simpl; rewrite Ht; by res_simpl. Qed.

Lemma result_of_init matrix max_iter :
  ma_wf matrix →
  result_of (init_t matrix max_iter)
  = replicate (numel (ma_batch_shape matrix)) [].
Proof.
  intros Hwf. destruct (diag_t_spec matrix Hwf) as (_&Hlen&_).
  unfold result_of, init_t, slice_to; cbn [st_elems st_m].
  rewrite <-Hlen, <-list_fmap_compose. by apply const_fmap.
Qed.

(** The function when the first loop test fails. *)
Lemma pivoted_cholesky_no_iteration matrix max_iter error_tol :
  ma_wf matrix → (0 ≤ max_iter)%Z →
  loop_test (mi_of matrix max_iter) error_tol (init_t matrix max_iter)
  = Val false →
  pivoted_cholesky matrix max_iter error_tol
  = Val (replicate (numel (ma_batch_shape matrix)) []).
Proof.
  intros Hwf Hmax Ht. unfold pivoted_cholesky.
  rewrite pivoted_cholesky_state_unfold, (loop_stops _ _ _ _ _ _ _ _ Ht) by done.
  res_simpl. by rewrite result_of_init.
Qed.

(** A negative [max_iter] raises [RuntimeError]: the allocation of
    [L] (line 25) refuses a negative dimension. *)
Theorem negative_max_iter_raises matrix max_iter error_tol :
  ma_wf matrix → (max_iter < 0)%Z →
  pivoted_cholesky matrix max_iter error_tol = Raise RuntimeError.
Proof.
  intros Hwf Hneg. unfold pivoted_cholesky, pivoted_cholesky_state. cbv zeta.
  destruct (diag_t_spec matrix Hwf) as (Hd&_&_). rewrite Hd. res_simpl.
  unfold init_state, zeros2. rewrite decide_True by lia. done.
Qed.

(** C39.  With [min(max_iter, n) = 0] the function returns a factor without
    rows for every batch element, and does not look at the errors. *)
Theorem zero_max_iter_empty matrix max_iter error_tol :
  ma_wf matrix → (0 ≤ max_iter)%Z → mi_of matrix max_iter = 0 →
  pivoted_cholesky matrix max_iter error_tol
  = Val (replicate (numel (ma_batch_shape matrix)) []).
Proof.
  intros Hwf Hmax Hmi. apply pivoted_cholesky_no_iteration; [done..|].
  unfold loop_test. rewrite Hmi. by rewrite decide_False by (simpl; lia).
Qed.

(** C40.  An empty batch raises [RuntimeError] as soon as the loop may run:
    the loop test takes [torch.max] of an empty tensor of errors. *)
Theorem empty_batch_raises matrix max_iter error_tol :
  ma_wf matrix → (0 ≤ max_iter)%Z → 0 < mi_of matrix max_iter →
  numel (ma_batch_shape matrix) = 0 →
  pivoted_cholesky matrix max_iter error_tol = Raise RuntimeError.
Proof.
  intros Hwf Hmax Hmi Hempty. unfold pivoted_cholesky.
  rewrite pivoted_cholesky_state_unfold by done.
  rewrite (loop_raises _ _ _ _ _ _ _ _ RuntimeError); [done|].
  destruct (diag_t_spec matrix Hwf) as (_&Hlen&_).
  rewrite Hempty in Hlen. apply nil_length_inv in Hlen.
  unfold loop_test, init_t; cbn [st_elems st_m]. rewrite Hlen.
  by rewrite decide_True by done.
Qed.

(** When no initial error exceeds [error_tol], the function returns a
    factor without rows for every batch element. *)
Theorem tolerance_met_empty matrix max_iter error_tol :
  ma_wf matrix → (0 ≤ max_iter)%Z → 0 < numel (ma_batch_shape matrix) →
  sltb error_tol (argmax (norm1 <$> diag_t matrix)).1 = false →
  pivoted_cholesky matrix max_iter error_tol
  = Val (replicate (numel (ma_batch_shape matrix)) []).
Proof.
  intros Hwf Hmax Hpos Htol. apply pivoted_cholesky_no_iteration; [done..|].
  rewrite (loop_test_total matrix) by (by apply init_t_wf || done).
  unfold continue_t, init_t; cbn [st_elems st_m].
  rewrite <-list_fmap_compose.
  replace (errors ∘ _) with (@norm1 F _) by done.
  by rewrite Htol, andb_false_r.
Qed.
End edge.

Lemma negative_max_iter_raises_witness :
  pivoted_cholesky B233 (-1) (qc 1 1000) = Raise RuntimeError.
Proof. apply negative_max_iter_raises; [exact B233_wf|lia]. Defined.

Lemma zero_max_iter_empty_witness :
  pivoted_cholesky E20 0 (qc 1 1000)
  = Val (replicate (numel (ma_batch_shape E20)) []).
Proof. apply (zero_max_iter_empty E20); [exact E20_wf|lia|done]. Defined.

Lemma empty_batch_raises_witness :
  pivoted_cholesky E20 2 (qc 1 1000) = Raise RuntimeError.
Proof.
  apply empty_batch_raises; [exact E20_wf|lia|vm_compute; lia|done].
Defined.

Lemma tolerance_met_empty_witness :
  pivoted_cholesky B233 3 (qc 19 1)
  = Val (replicate (numel (ma_batch_shape B233)) []).
Proof.
  apply (tolerance_met_empty B233); [exact B233_wf|lia|vm_compute; lia|].
  by vm_compute.
Defined.

(** ** Runs *)

(** [A22 = [[4 2] [2 2]]]: the pivots are 4 and 1, and [L' L = A22]. *)
Example run_A22 :
  pivoted_cholesky A22 2 (qc 1 1000)
  = Val [[[qc 2 1; qc 1 1]; [qc 0 1; qc 1 1]]].
Proof. qc_decide. Qed.

(** The batch [B233], to full rank: the first matrix is factored in the
    order of the rows 2, 0, 1, the second in the order 1, 2, 0. *)
Example run_B233 :
  pivoted_cholesky B233 3 (qc 1 1000)
  = Val [ [[qc 1 1; qc 2 1; qc 3 1]; [qc 2 1; qc 0 1; qc 0 1]; [qc 0 1; qc 1 1; qc 0 1]];
          [[qc 0 1; qc 2 1; qc 0 1]; [qc 0 1; qc 0 1; qc 1 1]; [qc 1 2; qc 0 1; qc 0 1]] ].
Proof. qc_decide. Qed.

(** [max_iter] bounds the rank: one iteration gives one row per element. *)
Example run_B233_rank1 :
  pivoted_cholesky B233 1 (qc 1 1000)
  = Val [ [[qc 1 1; qc 2 1; qc 3 1]]; [[qc 0 1; qc 2 1; qc 0 1]] ].
Proof. qc_decide. Qed.

(** A larger [max_iter] than [n] is clamped to [n] (line 22). *)
Example run_B233_clamped :
  pivoted_cholesky B233 7 (qc 1 1000) = pivoted_cholesky B233 3 (qc 1 1000).
Proof. qc_decide. Qed.

(** With tolerance 6 the second matrix of [B233], of trace 21/4, needs no
    row when it is factored alone, and gets one when it is factored in the
    batch: the loop runs while the largest error of the batch exceeds the
    tolerance (line 42). *)
Example batch_rows_depend_on_batch :
  pivoted_cholesky (dense_select B233 1) 3 (qc 6 1) = Val [[]] ∧
  pivoted_cholesky B233 3 (qc 6 1)
  = Val [ [[qc 1 1; qc 2 1; qc 3 1]]; [[qc 0 1; qc 2 1; qc 0 1]] ].
Proof. qc_decide. Qed.

(** On the indefinite matrix [N22] the function returns, with a second row
    of zeros: the second pivot is negative and [Qc_sqrt] gives 0. *)
Example run_N22 :
  pivoted_cholesky N22 2 (qc 1 1000)
  = Val [[[qc 1 1; qc 10 1]; [qc 0 1; qc 0 1]]].
Proof. qc_decide. Qed.

(** In binary64 a negative pivot is not refused: its square root is NaN,
    the row is NaN, the error is NaN, and the loop test [NaN > error_tol]
    ends the loop (lines 56, 72, 79 and 42). *)
Example negative_pivot_nan :
  pivoted_cholesky Fneg 2 0.5%float = Val [[[nan; nan]]].
Proof. qc_decide. Qed.

(** A positive definite binary64 matrix, to full rank: every entry is a
    number. *)
Example run_F33 :
  ∃ Ls, pivoted_cholesky F33 3 0.5%float = Val [Ls] ∧ length Ls = 3 ∧
        Forall (Forall (λ x, PrimFloat.is_nan x = false)) Ls.
Proof.
  eexists. split; [vm_compute; reflexivity|]. split; [reflexivity|].
  repeat constructor.
Qed.

(** A singular positive semi-definite matrix in a batch.  After one
    iteration the matrix of ones is factored exactly and its error is
    zero, but the identity keeps the loop running: the next pivot of the
    first matrix is zero, line 72 divides zero by zero, its error becomes
    NaN, and the loop test of line 42 ends the loop for the batch, with two
    of the three rows of the identity.  Factored alone, the first matrix
    gets one row and no NaN, and the identity its three rows. *)
Example rank_deficient_batch_nan :
  pivoted_cholesky Frank 3 0%float
  = Val [ [[1; 1; 1]; [0; 0; nan]]; [[1; 0; 0]; [0; 1; 0]] ]%float
  ∧ pivoted_cholesky (dense_select Frank 0) 3 0%float
    = Val [ [[1; 1; 1]] ]%float
  ∧ pivoted_cholesky (dense_select Frank 1) 3 0%float
    = Val [ [[1; 0; 0]; [0; 1; 0]; [0; 0; 1]] ]%float.
Proof. split_and!; vm_compute; reflexivity. Qed.
