(* ===== verification/Matrix.v ===== *)
(** * Matrix: two-dimensional tensors

    The matrix operations [woodbury_factor] and [woodbury_solve] call:
    [transpose(-1, -2)], the products [@] (matrix by matrix and matrix by
    vector), [torch.eye], [unsqueeze(-1)], and the elementwise operations
    with broadcasting.  A two-dimensional tensor carries its shape, so that
    a matrix without rows still has columns, as in torch.

    Every operation is defined by its entries ([mat_tab] tabulates a
    function of the row and the column), and a shape that does not fit
    raises [RuntimeError].  Sums run from left to right starting at zero. *)

From S2P Require Import Prelude Scalar Tensor.

(** ** Lists as tabulated functions *)

Section tabulate.
Context {A : Type} `{Inhabited A}.

Lemma lookup_total_tab (g : nat → A) n i :
  i < n → (g <$> seq 0 n) !!! i = g i.
Proof.
  intros Hi. apply list_lookup_total_correct.
  by rewrite list_lookup_fmap, lookup_seq_0.
Qed.

(** A list is the tabulation of its entries. *)
Lemma list_tab (x : list A) n : length x = n → x = (λ i, x !!! i) <$> seq 0 n.
Proof. intros <-. symmetry. apply gather_t_arange. Qed.

Lemma zip_with_tab (op : A → A → A) (x y : list A) n :
  length x = n → length y = n →
  zip_with op x y = (λ i, op (x !!! i) (y !!! i)) <$> seq 0 n.
Proof.
  intros Hx Hy. apply list_eq. intros i.
  rewrite lookup_zip_with, list_lookup_fmap.
  destruct (decide (i < n)) as [Hi|Hi].
  - rewrite lookup_seq_0 by done.
    by rewrite (list_lookup_lookup_total_lt x i), (list_lookup_lookup_total_lt y i)
      by lia.
  - rewrite lookup_seq_ge by lia. by rewrite (lookup_ge_None_2 x i) by lia.
Qed.

Lemma tab_ext (f g : nat → A) n :
  (∀ i, i < n → f i = g i) → f <$> seq 0 n = g <$> seq 0 n.
Proof.
  intros Hfg. apply list_fmap_ext. intros i ? [-> Hi]%lookup_seq.
  apply Hfg. lia.
Qed.
End tabulate.

Section matrix.
Context {F : Type} `{Scalar F}.

(** A tensor of shape [(mrows, mcols)], stored by rows. *)
Record mat : Type := Mat {
  mrows : nat;
  mcols : nat;
  mdata : list (list F);
}.

(** The data fills the shape. *)
Record mat_wf (A : mat) : Prop := {
  mwf_rows : length (mdata A) = mrows A;
  mwf_cols : Forall (λ r, length r = mcols A) (mdata A);
}.

(** The entry at row [i], column [j]. *)
Definition mget (A : mat) (i j : nat) : F := (mdata A !!! i) !!! j.

(** The matrix of shape [(r, c)] whose entry at [(i, j)] is [f i j]. *)
Definition mat_tab (r c : nat) (f : nat → nat → F) : mat :=
  Mat r c ((λ i, f i <$> seq 0 c) <$> seq 0 r).

(** The sum of [f 0 .. f (n-1)]. *)
Definition ssum (n : nat) (f : nat → F) : F := tsum (f <$> seq 0 n).

(** Column [c] of a matrix, as a vector: [A[:, c]]. *)
Definition column (A : mat) (c : nat) : list F :=
  (λ i, mget A i c) <$> seq 0 (mrows A).

(** [A.transpose(-1, -2)] *)
Definition transpose (A : mat) : mat :=
  mat_tab (mcols A) (mrows A) (λ i j, mget A j i).

(** [A @ B] for two matrices. *)
Definition matmul (A B : mat) : res mat :=
  if decide (mcols A = mrows B)
  then Val (mat_tab (mrows A) (mcols B)
              (λ i j, ssum (mcols A) (λ k, mget A i k ⊗ mget B k j)))
  else Raise RuntimeError.

(** [A @ v] for a matrix and a one-dimensional tensor. *)
Definition matvec (A : mat) (v : list F) : res (list F) :=
  if decide (mcols A = length v)
  then Val ((λ i, ssum (mcols A) (λ k, mget A i k ⊗ v !!! k)) <$> seq 0 (mrows A))
  else Raise RuntimeError.

(** [torch.eye(k)] *)
Definition eye (k : nat) : mat :=
  mat_tab k k (λ i j, if decide (i = j) then sone else szero).

(** An operation applied to every entry ([.div(scale)], [.mul(scale)]). *)
Definition mat_map (f : F → F) (A : mat) : mat :=
  Mat (mrows A) (mcols A) ((λ row : list F, f <$> row) <$> mdata A).

(** [v.unsqueeze(-1)]: a vector as a matrix with one column. *)
Definition unsqueeze (v : list F) : mat :=
  Mat (length v) 1 ((λ x, [x]) <$> v).

(** Broadcasting of one dimension: equal sizes, or one of them is 1. *)
Definition bdim (a b : nat) : res nat :=
  if decide (a = b) then Val a
  else if decide (a = 1) then Val b
  else if decide (b = 1) then Val a
  else Raise RuntimeError.

(** The index into a dimension of size [d] that is broadcast when [d = 1]. *)
Definition bix (d i : nat) : nat := if decide (d = 1) then 0 else i.

(** An elementwise operation on two matrices, with broadcasting. *)
Definition bop (op : F → F → F) (A B : mat) : res mat :=
  r ← bdim (mrows A) (mrows B);
  c ← bdim (mcols A) (mcols B);
  Val (mat_tab r c (λ i j,
         op (mget A (bix (mrows A) i) (bix (mcols A) j))
            (mget B (bix (mrows B) i) (bix (mcols B) j)))).

#[export] Instance mat_eq_dec : EqDecision mat.
Proof. solve_decision. Defined.

#[export] Instance mat_wf_dec (A : mat) : Decision (mat_wf A).
Proof.
  refine (match decide (length (mdata A) = mrows A
                        ∧ Forall (λ r, length r = mcols A) (mdata A))
          with left Hd => left _ | right Hn => right _ end).
  - by destruct Hd.
  - intros []. by apply Hn.
Defined.

(** ** Entries and shapes *)

Lemma mat_tab_wf r c f : mat_wf (mat_tab r c f).
Proof.
  split; simpl.
  - by rewrite length_fmap, length_seq.
  - apply Forall_fmap, Forall_forall. intros i _. simpl.
    by rewrite length_fmap, length_seq.
Qed.

Lemma mget_mat_tab r c f i j :
  i < r → j < c → mget (mat_tab r c f) i j = f i j.
Proof.
  intros Hi Hj. unfold mget, mat_tab; simpl.
  rewrite (list_lookup_total_correct _ i (f i <$> seq 0 c))
    by (by rewrite list_lookup_fmap, lookup_seq_0).
  apply list_lookup_total_correct. by rewrite list_lookup_fmap, lookup_seq_0.
Qed.

Lemma mat_tab_ext r c f g :
  (∀ i j, i < r → j < c → f i j = g i j) → mat_tab r c f = mat_tab r c g.
Proof.
  intros Hfg. unfold mat_tab. f_equal.
  apply list_fmap_ext. intros i ? [-> Hi]%lookup_seq.
  apply list_fmap_ext. intros j ? [-> Hj]%lookup_seq. simpl in *.
  apply Hfg; lia.
Qed.

Lemma bix_ne d i : d ≠ 1 → bix d i = i.
Proof. intros. unfold bix. by rewrite decide_False. Qed.

Lemma bix_1 i : bix 1 i = 0.
Proof. done. Qed.

Lemma mdata_lookup A i row :
  mat_wf A → mdata A !! i = Some row → i < mrows A ∧ length row = mcols A.
Proof.
  intros [Hr Hc] Hi. split.
  - rewrite <-Hr. by eapply lookup_lt_Some.
  - by apply (Forall_lookup_1 _ _ _ _ Hc Hi).
Qed.

(** A well-formed matrix is the tabulation of its entries. *)
Lemma mat_tab_mget A : mat_wf A → mat_tab (mrows A) (mcols A) (mget A) = A.
Proof.
  intros Hwf. destruct A as [r c d]. unfold mat_tab. simpl in *. f_equal.
  destruct Hwf as [Hr Hc]; simpl in *.
  apply list_eq_same_length with r; [done|by rewrite length_fmap, length_seq|].
  intros i row1 row2 Hi. rewrite list_lookup_fmap, lookup_seq_0 by done.
  intros [= <-] Hrow2.
  pose proof (Forall_lookup_1 _ _ _ _ Hc Hrow2) as Hlen. simpl in Hlen.
  apply list_eq_same_length with c; [done|by rewrite length_fmap, length_seq|].
  intros j x y Hj. rewrite list_lookup_fmap, lookup_seq_0 by done.
  intros [= <-] Hy. unfold mget; simpl.
  rewrite (list_lookup_total_correct _ _ _ Hrow2).
  by apply list_lookup_total_correct.
Qed.

(** Two well-formed matrices of the same shape with the same entries are
    equal. *)
Lemma mat_ext A B :
  mat_wf A → mat_wf B → mrows A = mrows B → mcols A = mcols B →
  (∀ i j, i < mrows A → j < mcols A → mget A i j = mget B i j) → A = B.
Proof.
  intros HA HB Hr Hc Hent.
  rewrite <-(mat_tab_mget A HA), <-(mat_tab_mget B HB), <-Hr, <-Hc.
  by apply mat_tab_ext.
Qed.

Lemma transpose_wf A : mat_wf (transpose A).
Proof. apply mat_tab_wf. Qed.

Lemma mget_transpose A i j :
  i < mcols A → j < mrows A → mget (transpose A) i j = mget A j i.
Proof. intros. unfold transpose. by rewrite mget_mat_tab. Qed.

Lemma transpose_involutive A : mat_wf A → transpose (transpose A) = A.
Proof.
  intros HA. apply mat_ext; [apply transpose_wf|done..|].
  simpl. intros i j Hi Hj. by rewrite !mget_transpose.
Qed.

Lemma eye_wf k : mat_wf (eye k).
Proof. apply mat_tab_wf. Qed.

Lemma mat_map_wf f A : mat_wf A → mat_wf (mat_map f A).
Proof.
  intros [Hr Hc]. split; simpl.
  - by rewrite length_fmap.
  - apply Forall_fmap. eapply Forall_impl; [exact Hc|].
    intros r Hrl. simpl. by rewrite length_fmap.
Qed.

Lemma mget_mat_map f A i j :
  mat_wf A → i < mrows A → j < mcols A →
  mget (mat_map f A) i j = f (mget A i j).
Proof.
  intros [Hr Hc] Hi Hj. unfold mget, mat_map; simpl.
  destruct (lookup_lt_is_Some_2 (mdata A) i) as [row Hrow]; [lia|].
  pose proof (Forall_lookup_1 _ _ _ _ Hc Hrow) as Hlen. simpl in Hlen.
  rewrite (list_lookup_total_correct _ i (f <$> row))
    by (by rewrite list_lookup_fmap, Hrow).
  rewrite (list_lookup_total_correct _ _ _ Hrow).
  apply list_lookup_total_correct. rewrite list_lookup_fmap.
  by rewrite (list_lookup_lookup_total_lt row j) by lia.
Qed.

Lemma mat_map_tab f r c g :
  mat_map f (mat_tab r c g) = mat_tab r c (λ i j, f (g i j)).
Proof.
  unfold mat_map, mat_tab; simpl. f_equal. rewrite <-list_fmap_compose.
  apply list_fmap_ext. intros i ? _. simpl. by rewrite <-list_fmap_compose.
Qed.

Lemma unsqueeze_wf v : mat_wf (unsqueeze v).
Proof.
  split; simpl; [by rewrite length_fmap|].
  apply Forall_fmap, Forall_forall. by intros x _.
Qed.

Lemma mget_unsqueeze v i : i < length v → mget (unsqueeze v) i 0 = v !!! i.
Proof.
  intros Hi. unfold mget, unsqueeze; simpl.
  rewrite (list_lookup_total_correct _ i [v !!! i]); [done|].
  by rewrite list_lookup_fmap, (list_lookup_lookup_total_lt v i).
Qed.

(** ** Products *)

Lemma matmul_Val A B :
  mcols A = mrows B →
  matmul A B = Val (mat_tab (mrows A) (mcols B)
                      (λ i j, ssum (mcols A) (λ k, mget A i k ⊗ mget B k j))).
Proof. intros. unfold matmul. by rewrite decide_True. Qed.

Lemma matmul_shape A B C :
  matmul A B = Val C → mat_wf C ∧ mrows C = mrows A ∧ mcols C = mcols B.
Proof.
  unfold matmul. case_decide; [|done]. intros [= <-].
  split; [apply mat_tab_wf|done].
Qed.

Lemma matmul_Raise A B :
  mcols A ≠ mrows B → matmul A B = Raise RuntimeError.
Proof. intros. unfold matmul. by rewrite decide_False. Qed.

Lemma matvec_Val A v :
  mcols A = length v →
  matvec A v = Val ((λ i, ssum (mcols A) (λ k, mget A i k ⊗ v !!! k))
                      <$> seq 0 (mrows A)).
Proof. intros. unfold matvec. by rewrite decide_True. Qed.

Lemma matvec_length A v w : matvec A v = Val w → length w = mrows A.
Proof.
  unfold matvec. case_decide; [|done]. intros [= <-].
  by rewrite length_fmap, length_seq.
Qed.

(** ** Broadcasting *)

Lemma bdim_same a : bdim a a = Val a.
Proof. unfold bdim. by rewrite decide_True. Qed.

Lemma bdim_1_l b : bdim 1 b = Val b.
Proof. unfold bdim. case_decide; [by subst|]. by rewrite decide_True. Qed.

Lemma bix_lt d i : i < d → bix d i = i.
Proof. intros. unfold bix. case_decide; [lia|done]. Qed.

(** Two matrices of the same shape: no broadcasting. *)
Lemma bop_same op A B :
  mrows A = mrows B → mcols A = mcols B →
  bop op A B = Val (mat_tab (mrows A) (mcols A)
                      (λ i j, op (mget A i j) (mget B i j))).
Proof.
  intros Hr Hc. unfold bop. rewrite <-Hr, <-Hc, !bdim_same. res_simpl.
  f_equal. apply mat_tab_ext. intros i j Hi Hj. by rewrite !bix_lt.
Qed.

(** A column [v.unsqueeze(-1)] against a matrix with as many rows: the
    column is broadcast along the rows. *)
Lemma bop_col_bcast op (v : list F) B :
  length v = mrows B →
  bop op (unsqueeze v) B
  = Val (mat_tab (mrows B) (mcols B) (λ i j, op (v !!! i) (mget B i j))).
Proof.
  intros Hv. unfold bop. cbn [mrows mcols unsqueeze].
  rewrite Hv, bdim_same, bdim_1_l. res_simpl.
  f_equal. apply mat_tab_ext. intros i j Hi Hj.
  rewrite bix_1, !bix_lt by done. by rewrite mget_unsqueeze by lia.
Qed.

(** The same lemmas with the shapes named, for operands that are
    themselves results. *)
Lemma matmul_dims A B p q r :
  mrows A = p → mcols A = q → mrows B = q → mcols B = r →
  matmul A B
  = Val (mat_tab p r (λ i j, ssum q (λ k, mget A i k ⊗ mget B k j))).
Proof. intros <- <- HB <-. by rewrite matmul_Val. Qed.

Lemma bop_same_dims op A B r c :
  mrows A = r → mcols A = c → mrows B = r → mcols B = c →
  bop op A B = Val (mat_tab r c (λ i j, op (mget A i j) (mget B i j))).
Proof. intros <- <- ??. by rewrite bop_same. Qed.

Lemma bop_col_bcast_dims op (v : list F) B r c :
  mrows B = r → mcols B = c → length v = r →
  bop op (unsqueeze v) B
  = Val (mat_tab r c (λ i j, op (v !!! i) (mget B i j))).
Proof. intros <- <- ?. by rewrite bop_col_bcast. Qed.

Lemma bop_shape op A B C : bop op A B = Val C → mat_wf C.
Proof.
  unfold bop. intros Hb. simplify_res. apply mat_tab_wf.
Qed.
End matrix.

Arguments mat F : clear implicits.
