(* ===== verification/MatrixAlgebra.v ===== *)
(** * MatrixAlgebra: finite sums and products over an exact field

    The algebra behind the theorems on [woodbury_solve]: the laws of the
    finite sum [ssum] that the matrix products are made of (linearity,
    exchange of two sums, the sum against the unit matrix), and what they
    give for the products: the entries of [A @ B] and [A @ v], and the
    associativity [(A @ B) @ v = A @ (B @ v)].  All of it needs exact
    arithmetic ([ExactField]); none of it holds in floating point. *)

From Stdlib Require Import Ring Field.
From S2P Require Import Prelude Scalar Tensor TensorOrder Matrix.

(** ** Sums, for every element type *)

Section sums.
Context {F : Type} `{Scalar F}.
Implicit Types (f g : nat → F) (n k : nat).

Lemma ssum_0 f : ssum 0 f = szero.
Proof. done. Qed.

Lemma ssum_S n f : ssum (S n) f = ssum n f ⊕ f n.
Proof.
  unfold ssum, tsum. by rewrite seq_S, fmap_app, foldl_app.
Qed.

Lemma ssum_ext n f g : (∀ k, k < n → f k = g k) → ssum n f = ssum n g.
Proof.
  intros Hfg. unfold ssum. f_equal.
  apply list_fmap_ext. intros i k [-> Hk]%lookup_seq. apply Hfg. lia.
Qed.
End sums.

(** ** Sums over an exact field *)

Section exact_sums.
Context {F : Type} `{ExactField F}.
Implicit Types (f g : nat → F) (n k : nat) (c : F).

Add Field matrix_algebra_field : ef_field.

Lemma ssum_zero n : ssum n (λ _, szero) = (szero : F).
Proof.
  induction n as [|n IH]; [done|]. rewrite ssum_S, IH. ring.
Qed.

Lemma ssum_add n f g : ssum n (λ k, f k ⊕ g k) = ssum n f ⊕ ssum n g.
Proof.
  induction n as [|n IH]; [rewrite !ssum_0; ring|].
  rewrite !ssum_S, IH. ring.
Qed.

Lemma ssum_sub n f g : ssum n (λ k, f k ⊖ g k) = ssum n f ⊖ ssum n g.
Proof.
  induction n as [|n IH]; [rewrite !ssum_0; ring|].
  rewrite !ssum_S, IH. ring.
Qed.

Lemma ssum_opp n f : ssum n (λ k, sopp (f k)) = sopp (ssum n f).
Proof.
  induction n as [|n IH]; [rewrite !ssum_0; ring|].
  rewrite !ssum_S, IH. ring.
Qed.

Lemma ssum_mul_l n c f : ssum n (λ k, c ⊗ f k) = c ⊗ ssum n f.
Proof.
  induction n as [|n IH]; [rewrite !ssum_0; ring|].
  rewrite !ssum_S, IH. ring.
Qed.

Lemma ssum_mul_r n c f : ssum n (λ k, f k ⊗ c) = ssum n f ⊗ c.
Proof.
  induction n as [|n IH]; [rewrite !ssum_0; ring|].
  rewrite !ssum_S, IH. ring.
Qed.

(** Two finite sums can be exchanged. *)
Lemma ssum_exchange n k (f : nat → nat → F) :
  ssum n (λ i, ssum k (λ j, f i j)) = ssum k (λ j, ssum n (λ i, f i j)).
Proof.
  induction n as [|n IH].
  - rewrite ssum_0. symmetry. apply ssum_zero.
  - rewrite ssum_S, IH, <-ssum_add. apply ssum_ext. intros j _.
    by rewrite ssum_S.
Qed.

(** The sum against a row of the unit matrix selects one term. *)
Lemma ssum_delta n i f :
  i < n → ssum n (λ k, (if decide (i = k) then sone else szero) ⊗ f k) = f i.
Proof.
  intros Hi. induction n as [|n IH]; [lia|]. rewrite ssum_S.
  destruct (decide (i = n)) as [->|Hne].
  - rewrite (ssum_ext n _ (λ _, szero)).
    + rewrite ssum_zero. ring.
    + intros k Hk. rewrite decide_False by lia. ring.
  - rewrite IH by lia. ring.
Qed.

(** Terms that are zero from [a] on do not count. *)
Lemma ssum_truncate n a f :
  a ≤ n → (∀ j, a ≤ j → j < n → f j = szero) → ssum n f = ssum a f.
Proof.
  intros Ha Hz. induction n as [|n IH].
  - by replace a with 0 by lia.
  - destruct (decide (a = S n)) as [->|Hne]; [done|].
    rewrite ssum_S, IH, Hz by (lia || (intros; apply Hz; lia)). ring.
Qed.

(** A sum in two parts. *)
Lemma ssum_split n a f :
  a ≤ n → ssum n f = ssum a f ⊕ ssum (n - a) (λ u, f (a + u)).
Proof.
  intros Ha. induction n as [|n IH].
  - replace a with 0 by lia. rewrite !ssum_0. ring.
  - destruct (decide (a = S n)) as [->|Hne].
    + rewrite Nat.sub_diag, ssum_0. ring.
    + replace (S n - a) with (S (n - a)) by lia.
      rewrite !ssum_S, IH by lia. replace (a + (n - a)) with n by lia. ring.
Qed.

(** Only the last term counts when the others are zero. *)
Lemma ssum_last n f :
  (∀ j, j < n → f j = szero) → ssum (S n) f = f n.
Proof.
  intros Hz. rewrite ssum_S, (ssum_ext n f (λ _, szero)), ssum_zero by done.
  ring.
Qed.

(** A sum can run through its indices in any order. *)
Lemma ssum_reindex n (p : list nat) f :
  p ≡ₚ seq 0 n → ssum n (λ i, f (p !!! i)) = ssum n f.
Proof.
  intros Hp. unfold ssum. rewrite <-(tsum_Permutation _ _ (fmap_Permutation f _ _ Hp)).
  f_equal. transitivity (f <$> ((λ i, p !!! i) <$> seq 0 n)).
  - by rewrite <-list_fmap_compose.
  - by rewrite <-(list_tab p n) by by apply perm_seq_length.
Qed.

(** A sum of non-negative terms is not negative, and bounds its terms. *)
Lemma ssum_nonneg n f : (∀ j, j < n → szero ≼ f j) → szero ≼ ssum n f.
Proof.
  induction n as [|n IH]; intros Hf; [apply ef_le_refl|].
  rewrite ssum_S. apply ef_add_nonneg; [apply IH; intros; apply Hf|apply Hf];
    lia.
Qed.

Lemma ssum_le_mono n f g : (∀ k, k < n → f k ≼ g k) → ssum n f ≼ ssum n g.
Proof.
  induction n as [|n IH]; intros Hfg; [apply ef_le_refl|]. rewrite !ssum_S.
  apply ef_add_le_mono; [apply IH; intros; apply Hfg|apply Hfg]; lia.
Qed.

Lemma ssum_term_le n f p :
  (∀ j, j < n → szero ≼ f j) → p < n → f p ≼ ssum n f.
Proof.
  induction n as [|n IH]; intros Hf Hp; [lia|]. rewrite ssum_S.
  destruct (decide (p = n)) as [->|Hne].
  - apply ef_le_add_l, ssum_nonneg. intros; apply Hf; lia.
  - apply ef_le_trans with (ssum n f); [apply IH; [intros; apply Hf|]; lia|].
    replace (ssum n f) with (ssum n f ⊕ szero) at 1 by ring.
    apply ef_add_le_l, Hf. lia.
Qed.

(** The quadratic form of [V diag(d) V']: a weighted sum of squares. *)
Lemma ssum_quadratic n k (v : nat → nat → F) (d z : nat → F) :
  ssum k (λ l, z l ⊗ ssum k (λ m,
    ssum n (λ j, v l j ⊗ (d j ⊗ v m j)) ⊗ z m))
  = ssum n (λ j, d j ⊗ (ssum k (λ l, v l j ⊗ z l)
                        ⊗ ssum k (λ l, v l j ⊗ z l))).
Proof.
  rewrite (ssum_ext k _ (λ l, ssum n (λ j,
    (d j ⊗ ssum k (λ m, v m j ⊗ z m)) ⊗ (v l j ⊗ z l)))).
  - rewrite ssum_exchange. apply ssum_ext. intros j _.
    rewrite ssum_mul_l. ring.
  - intros l _. rewrite <-ssum_mul_l.
    rewrite (ssum_ext k _ (λ m, ssum n (λ j,
      (z l ⊗ v l j ⊗ d j) ⊗ (v m j ⊗ z m)))).
    + rewrite ssum_exchange. apply ssum_ext. intros j _.
      rewrite ssum_mul_l. ring.
    + intros m _. rewrite <-ssum_mul_r, <-ssum_mul_l.
      apply ssum_ext. intros; ring.
Qed.

(** ** Products *)

(** [(A @ B) @ y = A @ (B @ y)]: the product of three factors may be
    formed from the right, without the matrix [A @ B]. *)
Lemma matvec_matmul (A B : mat F) (y : list F) :
  mcols A = mrows B → mcols B = length y →
  (C ← matmul A B; matvec C y) = (u ← matvec B y; matvec A u).
Proof.
  intros HAB HBy.
  rewrite matmul_Val, (matvec_Val B) by done. res_simpl.
  rewrite !matvec_Val by (simpl; by rewrite ?length_fmap, ?length_seq).
  change (mrows (mat_tab (mrows A) (mcols B) _)) with (mrows A).
  change (mcols (mat_tab (mrows A) (mcols B) _)) with (mcols B).
  f_equal. apply tab_ext. intros i Hi.
  rewrite (ssum_ext (mcols B) _
    (λ j, ssum (mcols A) (λ l, mget A i l ⊗ (mget B l j ⊗ y !!! j)))).
  - rewrite ssum_exchange. apply ssum_ext. intros l Hl.
    rewrite ssum_mul_l, lookup_total_tab by lia. done.
  - intros j Hj. rewrite mget_mat_tab by done. rewrite <-ssum_mul_r.
    apply ssum_ext. intros l _. ring.
Qed.
(** The rows of a triangular array with a diagonal without zeros are
    linearly independent. *)
Lemma triangular_independent m (T : nat → nat → F) (c : nat → F) :
  (∀ j i, j < m → i < j → T j i = szero) → (∀ j, j < m → T j j ≠ szero) →
  (∀ i, i < m → ssum m (λ j, c j ⊗ T j i) = szero) →
  ∀ j, j < m → c j = szero.
Proof.
  intros Htri Hd Hc j. induction j as [j IH] using lt_wf_ind. intros Hj.
  pose proof (Hc j Hj) as Hs.
  rewrite (ssum_split m (S j)), ssum_S in Hs by lia.
  rewrite (ssum_ext j _ (λ _, szero)), ssum_zero in Hs
    by (intros p Hp; rewrite IH by lia; ring).
  rewrite (ssum_ext (m - S j) _ (λ _, szero)), ssum_zero in Hs
    by (intros u Hu; rewrite Htri by lia; ring).
  destruct (ef_eq_dec (c j) szero) as [|Hne]; [done|].
  exfalso. apply (ef_mul_neq_zero (c j) (T j j)); [done|by apply Hd|].
  rewrite <-Hs. ring.
Qed.
End exact_sums.
