(* ===== verification/DenseSolver.v ===== *)
(** * DenseSolver: [torch.cholesky] and [torch.potrs]

    [woodbury_factor] factors a small [k x k] matrix with [torch.cholesky]
    and solves with [torch.potrs(., chol, upper=False)].  Both are functions
    of torch, not of the sources: the interface [DenseSolver] states what
    [woodbury_factor] calls, and [DenseSolverLaws] what the two functions
    rely on: that the matrix returned for a symmetric [A] solves
    [A X = B].

    [chol_solver] is an executable instance written from the documented
    behaviour of the two functions: the Cholesky-Banachiewicz recurrence on
    the lower triangle, which refuses a matrix that is not square or has a
    pivot that is not positive, and forward and backward substitution.
    [DenseSolverProofs] shows that it satisfies the laws where the square
    root is exact. *)

From S2P Require Import Prelude Scalar Tensor Matrix.

(** What [woodbury_factor] calls. *)
Class DenseSolver (F : Type) `{Scalar F} : Type := {
  (** [torch.cholesky(A)]: the lower triangular factor *)
  cholesky : mat F → res (mat F);
  (** [torch.potrs(B, chol, upper=False)]: [X] with [chol chol' X = B] *)
  potrs : mat F → mat F → res (mat F);
}.

(** [A] equals its transpose. *)
Definition mat_symmetric {F : Type} `{Scalar F} (A : mat F) : Prop :=
  ∀ i j, i < mrows A → j < mrows A → mget A i j = mget A j i.

(** What [woodbury_factor] relies on, in exact arithmetic: when the
    factorisation of a symmetric matrix [A] succeeds, [potrs] with the
    factor returns, and what it returns solves [A X = B]. *)
Class DenseSolverLaws (F : Type) `{ExactField F} `{!DenseSolver F} : Prop := {
  potrs_returns (A B C : mat F) :
    mrows B = mrows A → cholesky A = Val C → is_Val (potrs B C);
  potrs_solves (A B C X : mat F) :
    mat_wf A → mat_wf B → mrows A = mcols A → mrows B = mrows A →
    mat_symmetric A →
    cholesky A = Val C → potrs B C = Val X →
    mat_wf X ∧ matmul A X = Val B;
}.

Section chol_solver.
Context {F : Type} `{Scalar F}.
Implicit Types (A B C : mat F) (x y b : list F).

(** The inner product of two vectors, up to the length of the shorter. *)
Definition dot x y : F := tsum (zip_with smul x y).

(** Row [i] of the factor, given the rows before it and row [i] of the
    matrix: the entries left of the diagonal, then the diagonal, which must
    be the square root of a positive number. *)
Definition chol_entry (Ls : list (list F)) (a : list F) (i : nat)
    (acc : list F) (j : nat) : res F :=
  if decide (j = i) then
    let s := (a !!! j) ⊖ dot acc acc in
    if sltb szero s then Val (ssqrt s) else Raise RuntimeError
  else
    let s := (a !!! j) ⊖ dot acc (Ls !!! j) in
    Val (s ⊘ ((Ls !!! j) !!! j)).

Definition chol_row (Ls : list (list F)) (a : list F) (i : nat) : res (list F) :=
  buildM (chol_entry Ls a i) (S i).

(** Row [i] of the factor, filled with zeros right of the diagonal. *)
Definition chol_step (n : nat) (rows : list (list F)) (Ls : list (list F))
    (i : nat) : res (list F) :=
  row ← chol_row Ls (rows !!! i) i;
  Val (row ++ zeros (n - S i)).

(** The rows of the factor. *)
Definition chol_rows (n : nat) (rows : list (list F)) : res (list (list F)) :=
  buildM (chol_step n rows) n.

(** [torch.cholesky]: only square matrices; reads the lower triangle. *)
Definition chol (A : mat F) : res (mat F) :=
  if decide (mrows A = mcols A) then
    rows ← chol_rows (mrows A) (mdata A);
    Val (Mat (mrows A) (mrows A) rows)
  else Raise RuntimeError.

(** Forward substitution: [y] with [C y = b] for lower triangular [C]. *)
Definition forward_subst (C : mat F) (b : list F) : list F :=
  build (λ y i, ((b !!! i) ⊖ dot y (mdata C !!! i)) ⊘ mget C i i) (mrows C).

(** Backward substitution: [x] with [C' x = y] for lower triangular [C]. *)
Definition backward_subst (C : mat F) (y : list F) : list F :=
  build_back (λ i xs,
                let col := (λ k, mget C k i) <$> seq (S i) (mrows C - S i) in
                ((y !!! i) ⊖ dot xs col) ⊘ mget C i i)
             (mrows C).

(** [torch.potrs(B, C, upper=False)]: both substitutions, column by column. *)
Definition chol_solve (B C : mat F) : res (mat F) :=
  if decide (mrows C = mcols C ∧ mrows B = mrows C) then
    let cols := (λ j, backward_subst C
                        (forward_subst C ((λ i, mget B i j) <$> seq 0 (mrows B))))
                <$> seq 0 (mcols B) in
    Val (mat_tab (mrows B) (mcols B) (λ i j, (cols !!! j) !!! i))
  else Raise RuntimeError.

#[export] Instance chol_solver : DenseSolver F := {|
  cholesky := chol;
  potrs := chol_solve;
|}.

Lemma chol_Raise_not_square A :
  mrows A ≠ mcols A → chol A = Raise RuntimeError.
Proof. intros. unfold chol. by rewrite decide_False. Qed.

Lemma chol_solve_shape B C X :
  chol_solve B C = Val X →
  mat_wf X ∧ mrows X = mrows B ∧ mcols X = mcols B.
Proof.
  unfold chol_solve. case_decide; [|done]. intros [= <-].
  split; [apply mat_tab_wf|done].
Qed.
End chol_solver.
