(* ===== verification/DenseSolverProofs.v ===== *)
(** * DenseSolverProofs: the Cholesky solver solves

    Where arithmetic and the square root are exact, [chol_solver] keeps the
    promise of [torch.cholesky] and [torch.potrs]: if [chol A] returns [C]
    for a symmetric matrix [A], then [C] is lower triangular with a
    non-zero diagonal and [C C' = A], and [chol_solve B C] is a matrix [X]
    with [A X = B].  This is the instance of [DenseSolverLaws] on which
    the theorems about [woodbury_factor] rest.

    The entries of the factor satisfy the recurrences of the algorithm
    ([chol_rec]); the rest is algebra on finite sums. *)

From Stdlib Require Import Ring Field.
From S2P Require Import Prelude Scalar Tensor Matrix MatrixAlgebra DenseSolver.

(** ** The entries the loops compute, for every element type *)

Section entries.
Context {F : Type} `{Scalar F}.
Implicit Types (A B C : mat F) (x y b r : list F) (Ls : list (list F)).

(** The inner product with a longer vector is a sum over the shorter. *)
Lemma dot_prefix x y :
  length x ≤ length y → dot x y = ssum (length x) (λ t, x !!! t ⊗ y !!! t).
Proof.
  intros Hxy. unfold dot, ssum. f_equal.
  rewrite <-zip_with_take_r,
    (zip_with_tab smul x (take (length x) y) (length x))
    by (rewrite ?length_take; lia).
  apply tab_ext. intros t Ht. by rewrite lookup_total_take_lt.
Qed.

(** The recurrences of the factor [C] of [A], on [k] rows. *)
Record chol_rec A C (k : nat) : Prop := {
  cr_below i j : j < i → i < k →
    mget C i j
    = (mget A i j ⊖ ssum j (λ t, mget C i t ⊗ mget C j t)) ⊘ mget C j j;
  cr_diag i : i < k →
    szero ≺ (mget A i i ⊖ ssum i (λ t, mget C i t ⊗ mget C i t))
    ∧ mget C i i = ssqrt (mget A i i ⊖ ssum i (λ t, mget C i t ⊗ mget C i t));
  cr_above i j : i < j → j < k → mget C i j = szero;
}.

(** What the loop of [chol_rows] has computed after [m] rows of width [k],
    row by row. *)
Lemma chol_prefix_spec k rows m Ls :
  m ≤ k → buildM (chol_step k rows) m = Val Ls →
  length Ls = m
  ∧ ∀ i, i < m →
      length (Ls !!! i) = k
      ∧ (∀ j, i < j → j < k → (Ls !!! i) !!! j = szero)
      ∧ (∀ j, j ≤ i →
           chol_entry (take i Ls) (rows !!! i) i (take j (Ls !!! i)) j
           = Val ((Ls !!! i) !!! j)).
Proof.
  intros Hm [Hlen Hrows]%buildM_Val. split; [done|]. intros i Hi.
  destruct (proj1 (bind_Val _ _ _) (Hrows i Hi)) as (r&Hr&[= Hi']).
  apply buildM_Val in Hr as [Hlr Hr]. rewrite <-Hi'.
  split; [|split].
  - rewrite length_app, Hlr. unfold zeros. rewrite length_replicate. lia.
  - intros j Hij Hj. rewrite lookup_total_app_r by lia.
    apply lookup_total_replicate_2. lia.
  - intros j Hj. rewrite take_app_le, lookup_total_app_l by lia.
    apply Hr. lia.
Qed.

Lemma chol_rows_spec k rows Ls :
  chol_rows k rows = Val Ls →
  length Ls = k
  ∧ ∀ i, i < k →
      length (Ls !!! i) = k
      ∧ (∀ j, i < j → j < k → (Ls !!! i) !!! j = szero)
      ∧ (∀ j, j ≤ i →
           chol_entry (take i Ls) (rows !!! i) i (take j (Ls !!! i)) j
           = Val ((Ls !!! i) !!! j)).
Proof. by apply chol_prefix_spec. Qed.

Lemma chol_Val A C :
  chol A = Val C →
  mrows A = mcols A ∧ chol_rows (mrows A) (mdata A) = Val (mdata C)
  ∧ mrows C = mrows A ∧ mcols C = mrows A.
Proof.
  unfold chol. case_decide; [|done].
  intros (rows&Hrows&[= <-])%bind_Val. done.
Qed.

Lemma chol_wf A C : chol A = Val C → mat_wf C.
Proof.
  intros (_&[Hlen Hrows]%chol_rows_spec&Hr&Hc)%chol_Val. split.
  - by rewrite Hr.
  - apply Forall_lookup. intros i r Hi. rewrite Hc.
    rewrite <-(list_lookup_total_correct _ _ _ Hi).
    apply Hrows. rewrite <-Hlen. by eapply lookup_lt_Some.
Qed.

(** The sums the algorithm subtracts from an entry. *)
Lemma dot_take j x y :
  j ≤ length x → j ≤ length y →
  dot (take j x) y = ssum j (λ t, x !!! t ⊗ y !!! t).
Proof.
  intros Hx Hy. rewrite dot_prefix by (rewrite length_take; lia).
  rewrite length_take, Nat.min_l by lia.
  apply ssum_ext. intros t Ht. by rewrite lookup_total_take_lt.
Qed.

Lemma dot_take_take j x :
  j ≤ length x → dot (take j x) (take j x) = ssum j (λ t, x !!! t ⊗ x !!! t).
Proof.
  intros Hx. rewrite dot_take by (rewrite ?length_take; lia).
  apply ssum_ext. intros t Ht. by rewrite lookup_total_take_lt.
Qed.

(** The rows computed so far satisfy the recurrences. *)
Lemma chol_prefix_rec A m Ls :
  m ≤ mrows A → buildM (chol_step (mrows A) (mdata A)) m = Val Ls →
  chol_rec A (Mat m (mrows A) Ls) m.
Proof.
  intros Hm [Hlen Hrows]%chol_prefix_spec; [|done].
  split; unfold mget; simpl.
  - intros i j Hj Hi. destruct (Hrows i Hi) as (Hli&_&He).
    specialize (He j ltac:(lia)). unfold chol_entry in He.
    rewrite decide_False, lookup_total_take_lt in He by lia.
    injection He as He. rewrite <-He at 1.
    assert (length (Ls !!! j) = mrows A) by (apply Hrows; lia).
    by rewrite dot_take by lia.
  - intros i Hi. destruct (Hrows i Hi) as (Hli&_&He).
    specialize (He i ltac:(lia)). unfold chol_entry in He.
    rewrite decide_True, dot_take_take in He by (done || lia).
    destruct (sltb szero _) eqn:Hs; [|done]. by injection He as <-.
  - intros i j Hij Hj. apply Hrows; lia.
Qed.

(** The factor satisfies the recurrences. *)
Lemma chol_entries A C : chol A = Val C → chol_rec A C (mrows A).
Proof.
  intros (_&HC&Hr&Hc)%chol_Val. destruct C as [r c d]. simpl in *. subst.
  by apply chol_prefix_rec.
Qed.

(** Every row of [C] reaches the diagonal of the last row. *)
Definition rows_long C : Prop :=
  ∀ i, i < mrows C → mrows C ≤ length (mdata C !!! i).

Lemma wf_rows_long C : mat_wf C → mrows C = mcols C → rows_long C.
Proof.
  intros [Hr Hc] Hsq i Hi.
  rewrite (Forall_lookup_1 _ _ i _ Hc) by
    (apply list_lookup_lookup_total_lt; lia). lia.
Qed.

(** What forward substitution computes. *)
Lemma forward_subst_spec C b :
  rows_long C →
  length (forward_subst C b) = mrows C
  ∧ ∀ i, i < mrows C →
      forward_subst C b !!! i
      = (b !!! i ⊖ ssum i (λ t, forward_subst C b !!! t ⊗ mget C i t))
        ⊘ mget C i i.
Proof.
  intros Hlong. unfold forward_subst.
  destruct (build_spec
    (λ y i, ((b !!! i) ⊖ dot y (mdata C !!! i)) ⊘ mget C i i) (mrows C))
    as [Hlen Hall].
  split; [done|]. intros i Hi. rewrite (Hall i Hi) at 1. do 2 f_equal.
  apply dot_take; [lia|]. specialize (Hlong i Hi). lia.
Qed.

(** The entries of a row of the factor left of the diagonal are a forward
    substitution: they solve [C c = a] for the rows [C] before it. *)
Lemma chol_row_forward Ls a i k :
  buildM (chol_entry Ls a i) i = Val (forward_subst (Mat i k Ls) a).
Proof.
  apply buildM_build. simpl. intros l j Hj. unfold chol_entry.
  by rewrite decide_False by lia.
Qed.

(** What backward substitution computes. *)
Lemma backward_subst_spec C y :
  length (backward_subst C y) = mrows C
  ∧ ∀ i, i < mrows C →
      backward_subst C y !!! i
      = (y !!! i ⊖ ssum (mrows C - S i)
                     (λ u, backward_subst C y !!! (S i + u)
                           ⊗ mget C (S i + u) i))
        ⊘ mget C i i.
Proof.
  unfold backward_subst.
  destruct (build_back_spec
    (λ i xs, ((y !!! i) ⊖ dot xs ((λ k, mget C k i)
                                   <$> seq (S i) (mrows C - S i)))
             ⊘ mget C i i) (mrows C)) as [Hlen Hall].
  split; [done|]. intros i Hi. rewrite (Hall i Hi) at 1. do 2 f_equal.
  rewrite dot_prefix; rewrite length_drop, Hlen, ?length_fmap, ?length_seq;
    [|done].
  apply ssum_ext. intros u Hu. rewrite lookup_total_drop. f_equal.
  apply list_lookup_total_correct.
  by rewrite list_lookup_fmap, lookup_seq_lt.
Qed.
End entries.

(** ** Triangular systems, over an exact field *)

Section triangular.
Context {F : Type} `{ExactField F}.
Implicit Types (A B C : mat F) (x y b : list F) (k : nat).

Add Field triangular_field : ef_field.

(** [C] is lower triangular with a non-zero diagonal, on [k] rows. *)
Record lower_regular C k : Prop := {
  lr_above i j : i < j → j < k → mget C i j = szero;
  lr_diag i : i < k → mget C i i ≠ szero;
}.

(** Forward substitution solves [C y = b]. *)
Lemma forward_subst_solves C b i :
  rows_long C → lower_regular C (mrows C) → i < mrows C →
  ssum (mrows C) (λ t, mget C i t ⊗ forward_subst C b !!! t) = b !!! i.
Proof.
  intros Hlong [Hab Hd] Hi.
  destruct (forward_subst_spec C b Hlong) as [_ Hy].
  rewrite (ssum_truncate (mrows C) (S i));
    [|lia|intros j ??; rewrite (Hab i j) by lia; ring].
  rewrite ssum_S, (Hy i Hi).
  rewrite (ssum_ext i (λ t, mget C i t ⊗ forward_subst C b !!! t)
             (λ t, forward_subst C b !!! t ⊗ mget C i t)) by (intros; ring).
  field. by apply Hd.
Qed.

(** Backward substitution solves [C' x = y]. *)
Lemma backward_subst_solves C y i :
  lower_regular C (mrows C) → i < mrows C →
  ssum (mrows C) (λ t, mget C t i ⊗ backward_subst C y !!! t) = y !!! i.
Proof.
  intros [Hab Hd] Hi. destruct (backward_subst_spec C y) as [_ Hx].
  rewrite (ssum_split (mrows C) (S i)), ssum_last;
    [|intros j ?; rewrite (Hab j i) by lia; ring|lia].
  rewrite (Hx i Hi) at 1.
  rewrite (ssum_ext (mrows C - S i)
    (λ u, mget C (S i + u) i ⊗ backward_subst C y !!! (S i + u))
    (λ u, backward_subst C y !!! (S i + u) ⊗ mget C (S i + u) i))
    by (intros; ring).
  field. by apply Hd.
Qed.

(** The two substitutions, one after the other, solve [A x = b] when
    [C C' = A]: algebra on the entries. *)
Lemma factored_system k (a c : nat → nat → F) (x y b : nat → F) i :
  (∀ i u, i < k → u < k → ssum k (λ t, c i t ⊗ c u t) = a i u) →
  (∀ u, u < k → ssum k (λ t, c t u ⊗ x t) = y u) →
  (∀ i, i < k → ssum k (λ u, c i u ⊗ y u) = b i) →
  i < k → ssum k (λ t, a i t ⊗ x t) = b i.
Proof.
  intros Ha Hx Hy Hi. rewrite <-(Hy i Hi).
  rewrite (ssum_ext k _ (λ t, ssum k (λ u, c i u ⊗ (c t u ⊗ x t)))).
  - rewrite ssum_exchange. apply ssum_ext. intros u Hu.
    by rewrite ssum_mul_l, Hx.
  - intros t Ht. rewrite <-(Ha i t Hi Ht), <-ssum_mul_r.
    apply ssum_ext. intros; ring.
Qed.
End triangular.

(** ** The factor, where the square root is exact *)

Section factor.
Context {F : Type} `{ExactSqrt F}.
Implicit Types (A B C X : mat F) (k : nat).

Add Field factor_field : ef_field.

(** The diagonal of the factor is not zero, and its square is what the
    recurrence took the root of. *)
Lemma chol_rec_diag A C k i :
  chol_rec A C k → i < k →
  mget C i i ≠ szero
  ∧ mget C i i ⊗ mget C i i
    = mget A i i ⊖ ssum i (λ t, mget C i t ⊗ mget C i t).
Proof.
  intros Hrec Hi. destruct (cr_diag _ _ _ Hrec i Hi) as [Hpos ->].
  pose proof (ef_lt_le_weak _ _ Hpos) as Hge. split.
  - intros Hz. apply es_sqrt_zero_iff in Hz; [|done].
    rewrite Hz, ef_lt_irrefl in Hpos. done.
  - by apply es_sqrt_sqr.
Qed.

Lemma chol_rec_lower_regular A C k : chol_rec A C k → lower_regular C k.
Proof.
  intros Hrec. split; [apply Hrec|].
  intros i Hi. by apply (chol_rec_diag A C k i).
Qed.

(** [C C'] is [A] on the lower triangle. *)
Lemma chol_rec_gram_lower A C k i j :
  chol_rec A C k → j ≤ i → i < k →
  ssum k (λ t, mget C i t ⊗ mget C j t) = mget A i j.
Proof.
  intros Hrec Hj Hi.
  destruct (chol_rec_diag A C k j Hrec ltac:(lia)) as [Hnz Hsq].
  rewrite (ssum_truncate k (S j)), ssum_S;
    [|lia|intros t ??; rewrite (cr_above _ _ _ Hrec j t) by lia; ring].
  destruct (decide (j = i)) as [->|Hne]; [rewrite Hsq; ring|].
  rewrite (cr_below _ _ _ Hrec i j) by lia. by field.
Qed.

(** [C C' = A] when [A] is symmetric. *)
Lemma chol_rec_gram A C k i j :
  chol_rec A C k → (∀ i j, i < k → j < k → mget A i j = mget A j i) →
  i < k → j < k →
  ssum k (λ t, mget C i t ⊗ mget C j t) = mget A i j.
Proof.
  intros Hrec Hsym Hi Hj.
  destruct (decide (j ≤ i)); [by apply chol_rec_gram_lower|].
  rewrite Hsym, <-(chol_rec_gram_lower A C k j i) by (done || lia).
  apply ssum_ext. intros; ring.
Qed.

(** ** [chol_solve] after [chol] *)

(** The solution for one right-hand side. *)
Definition solve_column C B (j : nat) : list F :=
  backward_subst C (forward_subst C ((λ i, mget B i j) <$> seq 0 (mrows B))).

Lemma chol_solve_Val B C X :
  chol_solve B C = Val X →
  mrows C = mcols C ∧ mrows B = mrows C
  ∧ X = mat_tab (mrows B) (mcols B) (λ i j, solve_column C B j !!! i).
Proof.
  unfold chol_solve. case_decide as Hsh; [|done]. intros [= <-].
  destruct Hsh. split; [done|]. split; [done|].
  apply mat_tab_ext. intros i j Hi Hj. by rewrite lookup_total_tab.
Qed.

(** One column of the solution solves the system for one column of [B]. *)
Lemma solve_column_correct A B C i j :
  mat_symmetric A → mrows B = mrows A → chol A = Val C → i < mrows A →
  ssum (mrows A) (λ t, mget A i t ⊗ solve_column C B j !!! t) = mget B i j.
Proof.
  intros Hsym HB HC Hi.
  pose proof (chol_entries A C HC) as Hrec.
  pose proof (chol_rec_lower_regular A C _ Hrec) as Hlr.
  destruct (chol_Val A C HC) as (_&_&Hr&Hc). rewrite <-Hr in Hlr.
  apply (factored_system (mrows A) (mget A) (mget C) _
    (λ u, forward_subst C ((λ i, mget B i j) <$> seq 0 (mrows B)) !!! u)
    (λ i, mget B i j)); [|..|done].
  - intros. by apply chol_rec_gram.
  - intros u Hu. rewrite <-Hr in *. by apply backward_subst_solves.
  - intros u Hu. rewrite <-Hr in *.
    rewrite forward_subst_solves, lookup_total_tab;
      [done|lia| |done..].
    apply wf_rows_long; [by eapply chol_wf|congruence].
Qed.

(** [chol_solve] with the factor of a symmetric [A] solves [A X = B]. *)
Lemma chol_solve_correct A B C X :
  mat_wf B → mrows A = mcols A → mrows B = mrows A → mat_symmetric A →
  chol A = Val C → chol_solve B C = Val X →
  mat_wf X ∧ matmul A X = Val B.
Proof.
  intros HwB Hsq HB Hsym HC (_&_&->)%chol_solve_Val.
  split; [apply mat_tab_wf|].
  rewrite (matmul_dims _ _ (mrows B) (mrows A) (mcols B)) by done.
  f_equal. apply mat_ext; [apply mat_tab_wf|done..|].
  intros i j Hi Hj. simpl in Hi, Hj. rewrite mget_mat_tab by done.
  rewrite <-(solve_column_correct A B C i j) by (done || lia).
  apply ssum_ext. intros t Ht. by rewrite mget_mat_tab by lia.
Qed.

Lemma chol_solve_returns A B C :
  mrows B = mrows A → chol A = Val C → is_Val (chol_solve B C).
Proof.
  intros HB (_&_&Hr&Hc)%chol_Val. unfold chol_solve.
  rewrite decide_True by (split; congruence). apply is_Val_Val.
Qed.

(** [chol_solver] keeps the laws of the interface. *)
#[export] Instance chol_solver_laws : DenseSolverLaws F.
Proof.
  split.
  - apply chol_solve_returns.
  - intros A B C X _. apply chol_solve_correct.
Qed.
End factor.
