(* ===== verification/QuadraticForms.v ===== *)
(** * QuadraticForms: positive definite and positive semi-definite forms

    The matrices the module is written for are symmetric and positive
    semi-definite.  This file holds what the theorems on the values of the
    factors need of such matrices, for forms given by their entries:

    - [bform n a u v] is [u' a v]; [pd_fun] and [psd_fun] are positive
      definiteness and semi-definiteness; both are kept when the
      coordinates are permuted;
    - an entry of a semi-definite symmetric form is bounded by its trace
      ([psd_entry_le_trace]); a system with a positive definite matrix has
      at most one solution ([pd_system_unique]);
    - the residual of a partial factorisation: when the rows [l] reproduce
      the first [m] rows of a symmetric form [a], the form
      [a - l' l] takes at [z] the value that [a] takes at a corrected
      vector ([residual_form]), so it is semi-definite when [a] is
      ([residual_psd]). *)

From Stdlib Require Import Ring Field.
From S2P Require Import Prelude Scalar Tensor Matrix MatrixAlgebra.
From S2P Require Import DenseSolver DenseSolverProofs.

(** ** Forms *)

(** [z' a z > 0] for every [z] that is not zero, for a form [a] on [n]
    coordinates given by its entries. *)
Definition pd_fun {F : Type} `{Scalar F} (n : nat) (a : nat → nat → F) : Prop :=
  ∀ z : nat → F,
    (∃ p, p < n ∧ z p ≠ szero) →
    szero ≺ ssum n (λ p, z p ⊗ ssum n (λ q, a p q ⊗ z q)).

Section forms.
Context {F : Type} `{ExactField F}.
Implicit Types (a b : nat → nat → F) (u v w z : nat → F) (c d : F).
Implicit Types (n i j p q : nat).

Add Field forms_field : ef_field.

(** [u' a v] *)
Definition bform n a u v : F :=
  ssum n (λ p, u p ⊗ ssum n (λ q, a p q ⊗ v q)).

(** [z' a z >= 0] for every [z]. *)
Definition psd_fun n a : Prop := ∀ z, szero ≼ bform n a z z.

Definition sym_fun n a : Prop := ∀ p q, p < n → q < n → a p q = a q p.

(** The vector with [c] at coordinate [i] and zero elsewhere. *)
Definition unit_vec i c (q : nat) : F := if decide (i = q) then c else szero.

Lemma bform_ext n a b u u' v v' :
  (∀ p q, p < n → q < n → a p q = b p q) →
  (∀ p, p < n → u p = u' p) → (∀ q, q < n → v q = v' q) →
  bform n a u v = bform n b u' v'.
Proof.
  intros Ha Hu Hv. apply ssum_ext. intros p Hp. rewrite Hu by done. f_equal.
  apply ssum_ext. intros q Hq. by rewrite Ha, Hv.
Qed.

Lemma bform_lin_l n a u w v c :
  bform n a (λ q, u q ⊕ c ⊗ w q) v = bform n a u v ⊕ c ⊗ bform n a w v.
Proof.
  unfold bform. rewrite <-ssum_mul_l, <-ssum_add. apply ssum_ext.
  intros; ring.
Qed.

Lemma bform_lin_r n a u v w c :
  bform n a u (λ q, v q ⊕ c ⊗ w q) = bform n a u v ⊕ c ⊗ bform n a u w.
Proof.
  unfold bform. rewrite <-ssum_mul_l, <-ssum_add. apply ssum_ext. intros p _.
  rewrite (ssum_ext n _ (λ q, a p q ⊗ v q ⊕ c ⊗ (a p q ⊗ w q)))
    by (intros; ring).
  rewrite ssum_add, ssum_mul_l. ring.
Qed.

Lemma bform_sym n a u v : sym_fun n a → bform n a u v = bform n a v u.
Proof.
  intros Hs. unfold bform.
  rewrite (ssum_ext n _ (λ p, ssum n (λ q, v q ⊗ (a q p ⊗ u p)))).
  - rewrite ssum_exchange. apply ssum_ext. intros q _. by rewrite ssum_mul_l.
  - intros p Hp. rewrite <-ssum_mul_l. apply ssum_ext. intros q Hq.
    rewrite (Hs p q) by done. ring.
Qed.

(** The difference of two forms, and the form of a product [l' l]. *)
Lemma bform_sub_fun n a b u v :
  bform n (λ p q, a p q ⊖ b p q) u v = bform n a u v ⊖ bform n b u v.
Proof.
  unfold bform. rewrite <-ssum_sub. apply ssum_ext. intros p _.
  rewrite (ssum_ext n _ (λ q, a p q ⊗ v q ⊖ b p q ⊗ v q)) by (intros; ring).
  rewrite ssum_sub. ring.
Qed.

Lemma bform_gram n m (l : nat → nat → F) u v :
  bform n (λ p q, ssum m (λ t, l t p ⊗ l t q)) u v
  = ssum m (λ t, ssum n (λ p, l t p ⊗ u p) ⊗ ssum n (λ q, l t q ⊗ v q)).
Proof.
  unfold bform.
  rewrite (ssum_ext n _ (λ p, ssum m (λ t,
    (l t p ⊗ u p) ⊗ ssum n (λ q, l t q ⊗ v q)))).
  - rewrite ssum_exchange. apply ssum_ext. intros t _. by rewrite ssum_mul_r.
  - intros p _. rewrite <-ssum_mul_l.
    rewrite (ssum_ext n _ (λ q, ssum m (λ t, (u p ⊗ l t p) ⊗ (l t q ⊗ v q)))).
    + rewrite ssum_exchange. apply ssum_ext. intros t _.
      rewrite ssum_mul_l. ring.
    + intros q _. rewrite <-ssum_mul_r, <-ssum_mul_l. apply ssum_ext.
      intros; ring.
Qed.

(** ** Unit vectors *)

Lemma ssum_unit n i c (f : nat → F) :
  i < n → ssum n (λ k, f k ⊗ unit_vec i c k) = f i ⊗ c.
Proof.
  intros Hi. rewrite <-(ssum_delta n i (λ k, f k ⊗ c) Hi). apply ssum_ext.
  intros k _. unfold unit_vec. case_decide; ring.
Qed.

Lemma bform_units n a i j c d :
  i < n → j < n → bform n a (unit_vec i c) (unit_vec j d) = c ⊗ a i j ⊗ d.
Proof.
  intros Hi Hj. unfold bform.
  rewrite (ssum_ext n _ (λ p, (a p j ⊗ d) ⊗ unit_vec i c p)).
  - rewrite ssum_unit by done. ring.
  - intros p _. rewrite ssum_unit by done. ring.
Qed.

(** The form at a vector with two entries. *)
Lemma bform_two n a i j c d :
  sym_fun n a → i < n → j < n →
  bform n a (λ q, unit_vec i c q ⊕ d ⊗ unit_vec j sone q)
            (λ q, unit_vec i c q ⊕ d ⊗ unit_vec j sone q)
  = c ⊗ c ⊗ a i i ⊕ (c ⊗ d ⊗ a i j ⊕ c ⊗ d ⊗ a i j) ⊕ d ⊗ d ⊗ a j j.
Proof.
  intros Hs Hi Hj. rewrite bform_lin_l, !bform_lin_r, !bform_units by done.
  rewrite (Hs j i) by done. ring.
Qed.

Lemma bform_add_fun n a b u v :
  bform n (λ p q, a p q ⊕ b p q) u v = bform n a u v ⊕ bform n b u v.
Proof.
  unfold bform. rewrite <-ssum_add. apply ssum_ext. intros p _.
  rewrite (ssum_ext n _ (λ q, a p q ⊗ v q ⊕ b p q ⊗ v q)) by (intros; ring).
  rewrite ssum_add. ring.
Qed.

(** The form of a diagonal matrix. *)
Lemma bform_diag n (s : nat → F) u v :
  bform n (λ p q, unit_vec p (s p) q) u v = ssum n (λ p, u p ⊗ (s p ⊗ v p)).
Proof.
  apply ssum_ext. intros p Hp. f_equal.
  rewrite (ssum_ext n _ (λ q, v q ⊗ unit_vec p (s p) q)) by (intros; ring).
  rewrite ssum_unit by done. ring.
Qed.

(** ** Permuted coordinates *)

(** The form with permuted coordinates takes at [z'] the value of the form
    at the vector [z] with [z (p i) = z' i]. *)
Lemma bform_perm n a (p : list nat) z' :
  p ≡ₚ seq 0 n →
  ∃ z, (∀ i, i < n → z (p !!! i) = z' i)
       ∧ bform n (λ i j, a (p !!! i) (p !!! j)) z' z' = bform n a z z.
Proof.
  intros Hp. pose proof (perm_seq_length _ _ Hp) as Hlen.
  set (z x := ssum n (λ i,
    (if decide (p !!! i = x) then sone else szero) ⊗ z' i)).
  assert (∀ i, i < n → z (p !!! i) = z' i) as Hzp.
  { intros i Hi. rewrite <-(ssum_delta n i z' Hi). apply ssum_ext.
    intros j Hj. f_equal. destruct (decide (i = j)) as [->|Hne].
    - by rewrite decide_True.
    - rewrite decide_False; [done|]. intros Heq. apply Hne.
      apply (perm_seq_inj p n i j (p !!! i) Hp);
        [|rewrite <-Heq]; apply list_lookup_lookup_total_lt; lia. }
  exists z. split; [done|]. unfold bform.
  rewrite <-(ssum_reindex n p (λ x, z x ⊗ ssum n (λ y, a x y ⊗ z y))) by done.
  apply ssum_ext. intros i Hi. cbv beta. rewrite Hzp by done. f_equal.
  rewrite <-(ssum_reindex n p (λ y, a (p !!! i) y ⊗ z y)) by done.
  apply ssum_ext. intros j Hj. by rewrite Hzp.
Qed.

(** A positive definite form stays so when its coordinates are permuted. *)
Lemma pd_fun_perm n a (p : list nat) :
  p ≡ₚ seq 0 n → pd_fun n a → pd_fun n (λ i j, a (p !!! i) (p !!! j)).
Proof.
  intros Hp Hpd z' (q&Hq&Hz).
  destruct (bform_perm n a p z' Hp) as (z&Hzp&Heq).
  unfold bform in Heq. rewrite Heq. apply Hpd.
  exists (p !!! q). rewrite Hzp by done. split; [|done].
  eapply perm_seq_lt; [done|]. apply list_lookup_lookup_total_lt.
  rewrite (perm_seq_length _ _ Hp). lia.
Qed.

Lemma psd_fun_perm n a (p : list nat) :
  p ≡ₚ seq 0 n → psd_fun n a → psd_fun n (λ i j, a (p !!! i) (p !!! j)).
Proof.
  intros Hp Hpsd z'. destruct (bform_perm n a p z' Hp) as (z&_&->).
  apply Hpsd.
Qed.

(** A positive definite form is semi-definite. *)
Lemma zero_or_not n z :
  (∀ p, p < n → z p = szero) ∨ (∃ p, p < n ∧ z p ≠ szero).
Proof.
  induction n as [|n [IH|(p&Hp&Hz)]]; [left; intros; lia| |right; eauto].
  destruct (ef_eq_dec (z n) szero) as [Hz|Hz]; [left|right; eauto].
  intros p Hp. destruct (decide (p = n)) as [->|]; [done|apply IH; lia].
Qed.

Lemma pd_fun_psd n a : pd_fun n a → psd_fun n a.
Proof.
  intros Hpd z. destruct (zero_or_not n z) as [Hz|Hz].
  - unfold bform. rewrite (ssum_ext n _ (λ _, szero)), ssum_zero;
      [apply ef_le_refl|]. intros p Hp. rewrite Hz by done. ring.
  - apply ef_lt_le_weak, Hpd, Hz.
Qed.

(** ** Entries of a semi-definite form *)

Lemma psd_diag_nonneg n a i : psd_fun n a → i < n → szero ≼ a i i.
Proof.
  intros Hp Hi. pose proof (Hp (unit_vec i sone)) as Hz.
  rewrite bform_units in Hz by done.
  by replace (sone ⊗ a i i ⊗ sone) with (a i i) in Hz by ring.
Qed.

(** [2 |a_ij| <= a_ii + a_jj]: the form at [e_i - e_j] and at
    [e_i + e_j]. *)
Lemma psd_offdiag n a i j :
  psd_fun n a → sym_fun n a → i < n → j < n →
  sabs (a i j) ⊕ sabs (a i j) ≼ a i i ⊕ a j j.
Proof.
  intros Hp Hs Hi Hj. apply ef_le_of_sub_nonneg. rewrite ef_abs.
  destruct (sleb szero (a i j)).
  - pose proof (Hp (λ q, unit_vec i sone q ⊕ sopp sone ⊗ unit_vec j sone q))
      as Hz.
    rewrite bform_two in Hz by done.
    by replace (a i i ⊕ a j j ⊖ (a i j ⊕ a i j)) with
      (sone ⊗ sone ⊗ a i i ⊕ (sone ⊗ sopp sone ⊗ a i j
       ⊕ sone ⊗ sopp sone ⊗ a i j) ⊕ sopp sone ⊗ sopp sone ⊗ a j j) by ring.
  - pose proof (Hp (λ q, unit_vec i sone q ⊕ sone ⊗ unit_vec j sone q)) as Hz.
    rewrite bform_two in Hz by done.
    by replace (a i i ⊕ a j j ⊖ (sopp (a i j) ⊕ sopp (a i j))) with
      (sone ⊗ sone ⊗ a i i ⊕ (sone ⊗ sone ⊗ a i j ⊕ sone ⊗ sone ⊗ a i j)
       ⊕ sone ⊗ sone ⊗ a j j) by ring.
Qed.

(** Two terms of a sum of non-negative terms. *)
Lemma ssum_two_terms_le n (f : nat → F) i j :
  (∀ k, k < n → szero ≼ f k) → i < n → j < n → i ≠ j →
  f i ⊕ f j ≼ ssum n f.
Proof.
  induction n as [|n IH]; intros Hf Hi Hj Hne; [lia|]. rewrite ssum_S.
  assert (∀ k, k < n → szero ≼ f k) as Hf' by (intros; apply Hf; lia).
  destruct (decide (j = n)) as [->|Hjn]; [|destruct (decide (i = n)) as [->|Hin]].
  - apply ef_add_le, ssum_term_le; [done|lia].
  - replace (f n ⊕ f j) with (f j ⊕ f n) by ring.
    apply ef_add_le, ssum_term_le; [done|lia].
  - eapply ef_le_trans; [apply IH; (done || lia)|].
    replace (ssum n f) with (ssum n f ⊕ szero) at 1 by ring.
    apply ef_add_le_l, Hf. lia.
Qed.

(** An entry of a semi-definite symmetric form is bounded by the trace. *)
Lemma psd_entry_le_trace n a i j :
  psd_fun n a → sym_fun n a → i < n → j < n →
  sabs (a i j) ≼ ssum n (λ p, a p p).
Proof.
  intros Hp Hs Hi Hj.
  assert (∀ k, k < n → szero ≼ a k k) as Hd
    by (intros; by eapply psd_diag_nonneg).
  destruct (decide (i = j)) as [->|Hne].
  - rewrite ef_abs_of_nonneg by auto. by apply (ssum_term_le n (λ p, a p p)).
  - eapply ef_le_trans; [apply (ef_le_add_l (sabs (a i j))), ef_abs_nonneg|].
    eapply ef_le_trans; [by apply (psd_offdiag n)|].
    by apply (ssum_two_terms_le n (λ p, a p p)).
Qed.

(** ** The form against the trace *)

Definition trace_fun n a : F := ssum n (λ p, a p p).
Definition norm2sq n (z : nat → F) : F := ssum n (λ q, z q ⊗ z q).

(** Twice a cross term is at most the two squares weighted by the
    diagonal. *)
Lemma psd_cross n a i j c d :
  psd_fun n a → sym_fun n a → i < n → j < n →
  c ⊗ (a i j ⊗ d) ⊕ c ⊗ (a i j ⊗ d) ≼ d ⊗ d ⊗ a i i ⊕ c ⊗ c ⊗ a j j.
Proof.
  intros Hp Hs Hi Hj. apply ef_le_of_sub_nonneg.
  pose proof (Hp (λ q, unit_vec i d q ⊕ sopp c ⊗ unit_vec j sone q)) as Hz.
  rewrite bform_two in Hz by done.
  by replace (d ⊗ d ⊗ a i i ⊕ c ⊗ c ⊗ a j j
              ⊖ (c ⊗ (a i j ⊗ d) ⊕ c ⊗ (a i j ⊗ d))) with
    (d ⊗ d ⊗ a i i ⊕ (d ⊗ sopp c ⊗ a i j ⊕ d ⊗ sopp c ⊗ a i j)
     ⊕ sopp c ⊗ sopp c ⊗ a j j) by ring.
Qed.

Lemma bform_expand n a u v :
  bform n a u v = ssum n (λ p, ssum n (λ q, u p ⊗ (a p q ⊗ v q))).
Proof. unfold bform. apply ssum_ext. intros p _. by rewrite ssum_mul_l. Qed.

Lemma trace_norm_expand n a z :
  trace_fun n a ⊗ norm2sq n z ⊕ trace_fun n a ⊗ norm2sq n z
  = ssum n (λ p, ssum n (λ q, z q ⊗ z q ⊗ a p p ⊕ z p ⊗ z p ⊗ a q q)).
Proof.
  unfold trace_fun, norm2sq. symmetry.
  etrans; [apply ssum_ext; intros p _;
           rewrite ssum_add, ssum_mul_r, ssum_mul_l; reflexivity|].
  rewrite ssum_add, ssum_mul_l, ssum_mul_r. ring.
Qed.

(** A positive semi-definite form is at most the trace times the squared
    norm of the vector: no eigenvalue exceeds the trace. *)
Lemma psd_form_le_trace n a z :
  psd_fun n a → sym_fun n a →
  bform n a z z ≼ trace_fun n a ⊗ norm2sq n z.
Proof.
  intros Hp Hs. apply ef_le_of_double.
  rewrite trace_norm_expand, bform_expand, <-(ssum_add n).
  apply ssum_le_mono. intros p Hpn. rewrite <-(ssum_add n).
  apply ssum_le_mono. intros q Hqn. by apply (psd_cross n).
Qed.

(** Rearranging rows, columns and the vector alike keeps the form. *)
Lemma bform_unperm n a (p : list nat) z :
  p ≡ₚ seq 0 n →
  bform n (λ i j, a (p !!! i) (p !!! j)) (λ i, z (p !!! i)) (λ i, z (p !!! i))
  = bform n a z z.
Proof.
  intros Hp. destruct (bform_perm n a p (λ i, z (p !!! i)) Hp) as (z2&Hz2&->).
  apply bform_ext; [done| |]; intros q Hq;
    destruct (perm_position p n q Hp Hq) as (i&Hi&<-); by apply Hz2.
Qed.

Lemma psd_fun_unperm n a (p : list nat) :
  p ≡ₚ seq 0 n → psd_fun n (λ i j, a (p !!! i) (p !!! j)) → psd_fun n a.
Proof. intros Hp Hpsd z. rewrite <-(bform_unperm n a p z Hp). apply Hpsd. Qed.

(** A system with a positive definite matrix has at most one solution. *)
Lemma pd_system_unique n a x y :
  pd_fun n a →
  (∀ i, i < n → ssum n (λ j, a i j ⊗ x j) = ssum n (λ j, a i j ⊗ y j)) →
  ∀ i, i < n → x i = y i.
Proof.
  intros Hpd Hxy. set (z i := x i ⊖ y i).
  assert (∀ p, p < n → z p = szero) as Hz.
  { destruct (zero_or_not n z) as [Hz|Hz]; [done|]. apply Hpd in Hz.
    rewrite (ssum_ext n _ (λ _, szero)), ssum_zero, ef_lt_irrefl in Hz;
      [done|].
    intros p Hp. rewrite (ssum_ext n _ (λ q, a p q ⊗ x q ⊖ a p q ⊗ y q))
      by (intros; unfold z; ring).
    rewrite ssum_sub, Hxy by done. ring. }
  intros i Hi. specialize (Hz i Hi). unfold z in Hz.
  replace (x i) with ((x i ⊖ y i) ⊕ y i) by ring. rewrite Hz. ring.
Qed.
End forms.

(** ** The residual of a partial factorisation *)

Section residual.
Context {F : Type} {SF : Scalar F} {EF : ExactField F}.
Variables (n m : nat) (a l : nat → nat → F).

Add Field residual_form_field : ef_field.

(** [l z], for a vector [z]. *)
Definition lz (z : nat → F) (t : nat) : F := ssum n (λ q, l t q ⊗ z q).

(** [a - l' l], for the first [m] rows of [l]. *)
Definition res_fun (p q : nat) : F := a p q ⊖ ssum m (λ t, l t p ⊗ l t q).

(** [w] on the first [m] coordinates, zero on the others. *)
Definition pad (w : nat → F) (q : nat) : F :=
  if decide (q < m) then w q else szero.

Lemma bform_res u v :
  bform n res_fun u v = bform n a u v ⊖ ssum m (λ t, lz u t ⊗ lz v t).
Proof using EF. unfold res_fun. by rewrite bform_sub_fun, bform_gram. Qed.

Lemma res_fun_sym : sym_fun n a → sym_fun n res_fun.
Proof using EF.
  intros Hs p q Hp Hq. unfold res_fun. rewrite (Hs p q) by done. f_equal.
  apply ssum_ext. intros; ring.
Qed.

Hypothesis Hm : m ≤ n.

Lemma lz_pad w t : lz (pad w) t = ssum m (λ q, l t q ⊗ w q).
Proof using EF Hm.
  unfold lz, pad. rewrite (ssum_truncate n m); [|done|].
  - apply ssum_ext. intros q Hq. by rewrite decide_True.
  - intros q Hq _. rewrite decide_False by lia. ring.
Qed.

Hypothesis Hsym : sym_fun n a.
Hypothesis Hgram :
  ∀ p q, p < m → q < n → ssum m (λ t, l t p ⊗ l t q) = a p q.

(** [a] against a padded vector goes through the rows of [l]. *)
Lemma bform_pad w v :
  bform n a (pad w) v = ssum m (λ t, ssum m (λ p, l t p ⊗ w p) ⊗ lz v t).
Proof using EF Hm Hgram.
  transitivity (bform n (λ p q, ssum m (λ t, l t p ⊗ l t q)) (pad w) v).
  - apply ssum_ext. intros p Hp. unfold pad. case_decide; [|ring]. f_equal.
    apply ssum_ext. intros q Hq. by rewrite Hgram.
  - rewrite bform_gram. apply ssum_ext. intros t _. by rewrite <-lz_pad.
Qed.

Variables (z w : nat → F).
Hypothesis Hw : ∀ t, t < m → ssum m (λ p, l t p ⊗ w p) = lz z t.

(** [z] minus the solution [w] of [l' w = l z] on the first [m]
    coordinates. *)
Definition corrected (q : nat) : F := z q ⊕ sopp sone ⊗ pad w q.

(** The residual at [z] is the form at the corrected vector. *)
Lemma residual_form : bform n res_fun z z = bform n a corrected corrected.
Proof using All.
  unfold corrected. rewrite bform_res, bform_lin_l, !bform_lin_r.
  rewrite (bform_sym n a z (pad w)), !bform_pad by done.
  rewrite (ssum_ext m (λ t, ssum m (λ p, l t p ⊗ w p) ⊗ lz (pad w) t)
                      (λ t, lz z t ⊗ lz z t)),
    (ssum_ext m (λ t, ssum m (λ p, l t p ⊗ w p) ⊗ lz z t)
                (λ t, lz z t ⊗ lz z t)).
  - ring.
  - intros t Ht. by rewrite Hw.
  - intros t Ht. by rewrite lz_pad, Hw.
Qed.
End residual.

Section residual_psd.
Context {F : Type} `{ExactField F}.

(** The residual of a partial factorisation of a semi-definite form is
    semi-definite: the rows [l] reproduce the first [m] rows of [a], are
    triangular there and have no zero on their diagonal. *)
Lemma residual_psd n m (a l : nat → nat → F) :
  m ≤ n → sym_fun n a →
  (∀ p q, p < m → q < n → ssum m (λ t, l t p ⊗ l t q) = a p q) →
  (∀ p t, p < t → t < m → l t p = szero) → (∀ p, p < m → l p p ≠ szero) →
  psd_fun n a → psd_fun n (res_fun m a l).
Proof.
  intros Hm Hsym Hgram Htri Hd Hpsd z.
  set (C := mat_tab m m (λ p t, l t p)). set (y := lz n l z <$> seq 0 m).
  assert (lower_regular C m) as Hlr.
  { split; intros; unfold C; rewrite mget_mat_tab by lia; auto. }
  rewrite (residual_form n m a l Hm Hsym Hgram z
             (λ t, backward_subst C y !!! t)); [apply Hpsd|].
  intros t Ht. rewrite <-(lookup_total_tab (lz n l z) m t Ht). fold y.
  rewrite <-(backward_subst_solves C y t) by done.
  apply ssum_ext. intros p Hp. unfold C. by rewrite mget_mat_tab.
Qed.
End residual_psd.
