(* ===== verification/GreedyDeflation.v ===== *)
(** * GreedyDeflation: the factorisation as an abstract machine

    What [pivoted_cholesky] is meant to compute, without tensors, rows or
    permutations: a state is the residual of the matrix, a form on
    [0..n-1], and the list of the pivots chosen so far.  One step picks a
    coordinate not chosen yet whose diagonal entry is positive and largest
    (the greedy choice of lines 43-46) and subtracts the rank-one form of
    its row divided by the pivot (lines 64-76):

      [r' i j = r i j - r i p * r p j / r p p].

    The machine is a step relation ([astep]).  Its properties are proved
    by induction on its steps, with no reference to the code:

    - the residual stays symmetric, the pivots are distinct, and the rows
      of the residual at the pivots are zero ([ainv]);
    - a positive semi-definite residual stays so ([astep_psd], the Schur
      complement);
    - every step lowers the trace of the residual by at least the pivot
      ([astep_trace]);
    - the machine makes at most [n] steps, and after [n] steps the
      residual is zero ([nsteps_bound], [full_rank_zero]);
    - it can step as long as an unchosen diagonal entry is positive, and
      when it cannot, a semi-definite residual is zero: a complete run
      factors the form exactly ([astep_progress], [stuck_zero],
      [complete_run_exact]);
    - equivalent states, which hold the same pivots and agree on the [n]
      coordinates, take the same steps ([aequiv], [astep_proper]).

    [PivotedCholeskyRefinement] shows that the loop of the code is this
    machine. *)

From Stdlib Require Import Ring Field.
From stdpp Require Import relations.
From S2P Require Import Prelude Scalar Tensor TensorOrder Matrix MatrixAlgebra.
From S2P Require Import QuadraticForms.

(** ** States and steps *)

(** The residual and the pivots chosen, in the order they were chosen. *)
Record astate (F : Type) : Type := AState {
  a_res : nat → nat → F;
  a_piv : list nat;
}.
Arguments AState {F} _ _.
Arguments a_res {F} _ _ _.
Arguments a_piv {F} _.

Section machine.
Context {F : Type} `{ExactField F}.
Variable n : nat.
Implicit Types (s : astate F) (p q i j : nat) (z : nat → F).

Add Field deflation_field : ef_field.

(** A coordinate that has not been a pivot. *)
Definition unpivoted s q : Prop := q < n ∧ q ∉ a_piv s.

(** One deflation. *)
Inductive astep s s' : Prop :=
  | astep_pivot p :
      unpivoted s p →
      (∀ q, unpivoted s q → a_res s q q ≼ a_res s p p) →
      szero ≺ a_res s p p →
      a_piv s' = a_piv s ++ [p] →
      (∀ i j, i < n → j < n →
         a_res s' i j
         = a_res s i j ⊖ a_res s i p ⊗ a_res s p j ⊘ a_res s p p) →
      astep s s'.

(** ** States up to the coordinates

    A step reads and constrains the residual at the [n] coordinates only.
    Two states are equivalent when they hold the same pivots and their
    residuals agree there; the machine cannot tell them apart. *)

Definition aequiv s1 s2 : Prop :=
  a_piv s1 = a_piv s2 ∧ ∀ i j, i < n → j < n → a_res s1 i j = a_res s2 i j.

#[global] Instance aequiv_equivalence : Equivalence aequiv.
Proof.
  split.
  - by intros s.
  - intros s1 s2 [Hp Hr]. split; [done|]. intros. by rewrite Hr.
  - intros s1 s2 s3 [Hp Hr] [Hp' Hr']. split; [congruence|].
    intros. by rewrite Hr, Hr'.
Qed.

Lemma astep_equiv s1 s2 s1' s2' :
  aequiv s1 s2 → aequiv s1' s2' → astep s1 s1' → astep s2 s2'.
Proof.
  intros [Hp Hr] [Hp' Hr'] [p [Hpn Hpp] Hmax Hpos Hpiv Hres].
  apply (astep_pivot _ _ p).
  - split; [done|]. by rewrite <-Hp.
  - intros q [Hq Hqp]. rewrite <-!Hr by done. apply Hmax. split; [done|].
    by rewrite Hp.
  - by rewrite <-Hr.
  - by rewrite <-Hp', <-Hp.
  - intros i j Hi Hj. by rewrite <-Hr', <-!Hr, Hres.
Qed.

#[global] Instance astep_proper : Proper (aequiv ==> aequiv ==> iff) astep.
Proof.
  intros s1 s2 Hs s1' s2' Hs'. split; [by apply astep_equiv|].
  by apply astep_equiv.
Qed.

(** ** The invariant *)

Record ainv s : Prop := {
  ai_sym : sym_fun n (a_res s);
  ai_nodup : NoDup (a_piv s);
  ai_bound : Forall (λ p, p < n) (a_piv s);
  ai_zero : ∀ p j, p ∈ a_piv s → j < n → a_res s p j = szero;
}.

Lemma pivot_lt s p : ainv s → p ∈ a_piv s → p < n.
Proof.
  intros [_ _ Hb _] Hp. exact (proj1 (Forall_forall (λ p, p < n) _) Hb p Hp).
Qed.

(** The pivots are among the [n] coordinates. *)
Lemma pivots_sub s : ainv s → a_piv s ⊆+ seq 0 n.
Proof.
  intros Hs. apply NoDup_submseteq; [apply Hs|]. intros p Hp.
  apply elem_of_seq. pose proof (pivot_lt s p Hs Hp). lia.
Qed.

(** The machine starts from a symmetric form and no pivot. *)
Lemma ainv_init a : sym_fun n a → ainv (AState a []).
Proof.
  intros Ha. split; simpl; [done|constructor|constructor|].
  by intros p j ?%elem_of_nil.
Qed.

Lemma astep_ainv s s' : ainv s → astep s s' → ainv s'.
Proof.
  intros [Hsym Hnd Hb Hz] [p [Hp Hnp] _ Hpos%ef_pos_neq_zero Hpiv Hres].
  split.
  - intros i j Hi Hj. rewrite !Hres, (Hsym i j), (Hsym i p), (Hsym p j) by done.
    by field.
  - rewrite Hpiv. apply NoDup_app. split_and!; [done| |apply NoDup_singleton].
    by intros q Hq ->%list_elem_of_singleton.
  - rewrite Hpiv. apply Forall_app. split; [done|by constructor].
  - intros q j Hq Hj. rewrite Hpiv in Hq.
    apply elem_of_app in Hq as [Hq| ->%list_elem_of_singleton].
    + rewrite Hres, !Hz by (done || by eapply (Forall_forall (λ p, p < n))).
      by field.
    + rewrite Hres by done. by field.
Qed.

#[global] Instance ainv_proper : Proper (aequiv ==> iff) ainv.
Proof.
  assert (∀ s1 s2, aequiv s1 s2 → ainv s1 → ainv s2) as Himp.
  { intros s1 s2 [Hp Hr] Hs. pose proof (pivot_lt s1) as Hlt.
    destruct Hs as [Hsym Hnd Hb Hz]. split; rewrite <-?Hp; [|done..|].
    - intros i j Hi Hj. rewrite <-!Hr by done. by apply Hsym.
    - intros p j Hpin Hj. rewrite <-Hr; [by apply Hz| |done].
      by apply Hlt. }
  intros s1 s2 Hs. split; apply Himp; [done|by symmetry].
Qed.

(** After [k] steps the invariant holds and [k] more pivots are chosen. *)
Lemma nsteps_ainv k s s' :
  ainv s → nsteps astep k s s' →
  ainv s' ∧ length (a_piv s') = length (a_piv s) + k.
Proof.
  intros Hs Hk. induction Hk as [s|k s s1 s' Hstep _ IH]; [split; [done|lia]|].
  destruct (IH (astep_ainv _ _ Hs Hstep)) as [Hinv ->]. split; [done|].
  destruct Hstep as [p _ _ _ -> _]. rewrite length_app. simpl. lia.
Qed.

(** ** The machine stops *)

Lemma pivots_length s : ainv s → length (a_piv s) ≤ n.
Proof.
  intros Hs. trans (length (seq 0 n)); [|by rewrite length_seq].
  by apply submseteq_length, pivots_sub.
Qed.

(** From a state without pivots the machine makes at most [n] steps. *)
Lemma nsteps_bound k s s' :
  ainv s → a_piv s = [] → nsteps astep k s s' → k ≤ n.
Proof.
  intros Hs Hnil Hk. destruct (nsteps_ainv k s s' Hs Hk) as [Hinv Hlen].
  pose proof (pivots_length s' Hinv). rewrite Hnil in Hlen. simpl in *. lia.
Qed.

(** When every coordinate has been a pivot the residual is zero. *)
Lemma full_rank_zero s i j :
  ainv s → length (a_piv s) = n → i < n → j < n → a_res s i j = szero.
Proof.
  intros Hs Hlen Hi Hj. apply (ai_zero s Hs); [|done].
  assert (a_piv s ≡ₚ seq 0 n) as ->.
  { apply submseteq_length_Permutation; [by apply pivots_sub|].
    by rewrite length_seq, Hlen. }
  apply elem_of_seq. lia.
Qed.

(** ** The trace of the residual *)

(** A step lowers the trace by at least the pivot. *)
Lemma astep_trace s s' :
  ainv s → astep s s' → trace_fun n (a_res s') ≺ trace_fun n (a_res s).
Proof.
  intros [Hsym _ _ _] [p [Hp _] _ Hpos _ Hres]. unfold trace_fun.
  pose proof (ef_pos_neq_zero _ Hpos) as Hnz.
  rewrite (ssum_ext n _ (λ i, a_res s i i
             ⊖ ssqr (a_res s i p) ⊘ a_res s p p)).
  2:{ intros i Hi. rewrite Hres, (Hsym p i) by done. unfold ssqr. by field. }
  rewrite ssum_sub. apply ef_sub_lt.
  eapply ef_lt_le_trans; [exact Hpos|].
  replace (a_res s p p) with (ssqr (a_res s p p) ⊘ a_res s p p) at 1
    by (unfold ssqr; by field).
  apply (ssum_term_le n (λ i, ssqr (a_res s i p) ⊘ a_res s p p)); [|done].
  intros i _. apply ef_div_nonneg; [apply ef_sqr_nonneg|done].
Qed.

(** ** Positive semi-definiteness: the Schur complement *)

(** The form of a rank-one matrix factors. *)
Lemma bform_rank_one (g h : nat → F) u v :
  bform n (λ i j, g i ⊗ h j) u v
  = ssum n (λ i, u i ⊗ g i) ⊗ ssum n (λ j, h j ⊗ v j).
Proof.
  unfold bform. rewrite <-ssum_mul_r. apply ssum_ext. intros i _.
  rewrite (ssum_ext n _ (λ j, g i ⊗ (h j ⊗ v j))) by (intros; ring).
  rewrite ssum_mul_l. ring.
Qed.

(** The form against a unit vector reads one row. *)
Lemma bform_unit_l a p c v :
  p < n → bform n a (unit_vec p c) v = c ⊗ ssum n (λ j, a p j ⊗ v j).
Proof.
  intros Hp. unfold bform.
  rewrite (ssum_ext n _ (λ i, ssum n (λ j, a i j ⊗ v j) ⊗ unit_vec p c i))
    by (intros; ring).
  rewrite ssum_unit by done. ring.
Qed.

(** The residual after deflating by [p], as a form. *)
Lemma deflated_form a p z :
  sym_fun n a → p < n → a p p ≠ szero →
  bform n (λ i j, a i j ⊖ a i p ⊗ a p j ⊘ a p p) z z
  = bform n a (λ q, z q ⊕ sopp (ssum n (λ j, a p j ⊗ z j) ⊘ a p p)
                          ⊗ unit_vec p sone q)
              (λ q, z q ⊕ sopp (ssum n (λ j, a p j ⊗ z j) ⊘ a p p)
                          ⊗ unit_vec p sone q).
Proof.
  intros Hsym Hp Hnz. set (t := ssum n (λ j, a p j ⊗ z j)).
  rewrite bform_lin_l, !bform_lin_r, bform_units by done.
  rewrite (bform_sym n a z (unit_vec p sone)), bform_unit_l by done. fold t.
  rewrite (bform_ext n _ (λ i j, a i j ⊖ (a i p ⊘ a p p) ⊗ a p j) z z z z),
    bform_sub_fun, bform_rank_one; [|intros; by field|done|done].
  rewrite (ssum_ext n _ (λ i, (a p i ⊗ z i) ⊗ sinv (a p p))),
    ssum_mul_r; [fold t; unfold sinv; by field|].
  intros i Hi. rewrite (Hsym i p) by done. unfold sinv. by field.
Qed.

(** The residual of a state is positive semi-definite. *)
Definition apsd s : Prop := psd_fun n (a_res s).

#[global] Instance apsd_proper : Proper (aequiv ==> iff) apsd.
Proof.
  assert (∀ s1 s2, aequiv s1 s2 → apsd s1 → apsd s2) as Himp.
  { intros s1 s2 [_ Hr] Hp z. rewrite <-(bform_ext n (a_res s1) _ z z z z);
      [apply Hp|done..]. }
  intros s1 s2 Hs. split; apply Himp; [done|by symmetry].
Qed.

Lemma astep_psd s s' : ainv s → apsd s → astep s s' → apsd s'.
Proof.
  intros [Hsym _ _ _] Hpsd [p [Hp _] _ Hpos%ef_pos_neq_zero _ Hres] z.
  rewrite (bform_ext n _ _ z z z z (λ i j Hi Hj, Hres i j Hi Hj)) by done.
  rewrite deflated_form by done. apply Hpsd.
Qed.

(** ** Progress *)

(** Among the coordinates below [k] that satisfy a decidable property,
    one has the largest value, unless none satisfies it. *)
Lemma greatest_or_none (P : nat → Prop) `{!∀ q, Decision (P q)} (f : nat → F) k :
  (∃ p, p < k ∧ P p ∧ ∀ q, q < k → P q → f q ≼ f p) ∨ (∀ q, q < k → ¬ P q).
Proof.
  induction k as [|k [(p & Hp & HPp & Hmax)|Hno]]; [right; lia| |].
  - left. destruct (decide (P k ∧ sleb (f k) (f p) = false)) as [[HPk Hk]|Hk].
    + exists k. split_and!; [lia|done|]. intros q Hq HPq.
      destruct (decide (q = k)) as [->|]; [apply ef_le_refl|].
      eapply ef_le_trans; [apply Hmax; [lia|done]|by apply ef_le_false].
    + exists p. split_and!; [lia|done|]. intros q Hq HPq.
      destruct (decide (q = k)) as [->|]; [|apply Hmax; [lia|done]].
      destruct (sleb (f k) (f p)) eqn:E; [done|]. by destruct Hk.
  - destruct (decide (P k)) as [HPk|HPk].
    + left. exists k. split_and!; [lia|done|]. intros q Hq HPq.
      destruct (decide (q = k)) as [->|]; [apply ef_le_refl|].
      destruct (Hno q); [lia|done].
    + right. intros q Hq. destruct (decide (q = k)) as [->|]; [done|].
      apply Hno. lia.
Qed.

Lemma greatest_below (P : nat → Prop) `{!∀ q, Decision (P q)} (f : nat → F) k q :
  q < k → P q → ∃ p, p < k ∧ P p ∧ ∀ q, q < k → P q → f q ≼ f p.
Proof.
  intros Hq HP. destruct (greatest_or_none P f k) as [?|Hno]; [done|].
  by destruct (Hno q).
Qed.

#[local] Instance unpivoted_dec s q : Decision (unpivoted s q).
Proof. unfold unpivoted. apply _. Defined.

#[global] Instance unpivoted_proper :
  Proper (aequiv ==> eq ==> iff) unpivoted.
Proof. intros s1 s2 [Hp _] q _ <-. unfold unpivoted. by rewrite Hp. Qed.

(** The state the machine moves to when it deflates by [p]. *)
Definition deflate_by s p : astate F :=
  AState (λ i j, a_res s i j ⊖ a_res s i p ⊗ a_res s p j ⊘ a_res s p p)
         (a_piv s ++ [p]).

(** The machine can step whenever an unchosen diagonal entry is
    positive. *)
Lemma astep_progress s q :
  unpivoted s q → szero ≺ a_res s q q → ∃ s', astep s s'.
Proof.
  intros Hq Hpos.
  destruct (greatest_below (unpivoted s) (λ q, a_res s q q) n q)
    as (p & Hp & Hup & Hmax); [apply Hq|done|].
  exists (deflate_by s p). apply (astep_pivot s _ p); try done.
  - intros q' Hq'. apply Hmax; [apply Hq'|done].
  - eapply ef_lt_le_trans; [exact Hpos|]. apply Hmax; [apply Hq|done].
Qed.

(** A state is stuck when no unchosen diagonal entry is positive. *)
Definition stuck s : Prop := ∀ q, unpivoted s q → a_res s q q ≼ szero.

#[global] Instance stuck_proper : Proper (aequiv ==> iff) stuck.
Proof.
  assert (∀ s1 s2, aequiv s1 s2 → stuck s1 → stuck s2) as Himp.
  { intros s1 s2 Hs Hst q Hq. rewrite <-Hs in Hq.
    rewrite <-(proj2 Hs q q) by apply Hq. by apply Hst. }
  intros s1 s2 Hs. split; apply Himp; [done|by symmetry].
Qed.

Lemma stuck_no_step s s' : stuck s → astep s s' → False.
Proof.
  intros Hst [p Hp _ Hpos _ _]. apply ef_lt_iff in Hpos.
  by rewrite (Hst p Hp) in Hpos.
Qed.

(** In a stuck state a positive semi-definite residual is zero: the
    factorisation the machine stops with is exact. *)
Lemma stuck_zero s i j :
  ainv s → apsd s → stuck s → i < n → j < n →
  a_res s i j = szero.
Proof.
  intros Hs Hpsd Hst Hi Hj. apply ef_abs_le_zero.
  eapply ef_le_trans; [by apply (psd_entry_le_trace n); [|apply Hs|..]|].
  rewrite (ssum_ext n _ (λ _, szero)); [rewrite ssum_zero; apply ef_le_refl|].
  intros q Hq. destruct (decide (q ∈ a_piv s)) as [Hin|Hout].
  - by apply (ai_zero s Hs).
  - apply ef_le_antisym; [by apply Hst|by apply (psd_diag_nonneg n)].
Qed.

(** ** Runs *)

(** A run from a positive semi-definite residual stays there. *)
Lemma nsteps_psd k s s' :
  ainv s → apsd s → nsteps astep k s s' → ainv s' ∧ apsd s'.
Proof.
  intros Hs Hp Hk. induction Hk as [s|k s s1 s' Hstep _ IH]; [done|].
  apply IH; [by eapply astep_ainv|by eapply astep_psd].
Qed.

(** A run never raises the trace of the residual. *)
Lemma nsteps_trace k s s' :
  ainv s → nsteps astep k s s' →
  trace_fun n (a_res s') ≼ trace_fun n (a_res s).
Proof.
  intros Hs Hk. induction Hk as [s|k s s1 s' Hstep _ IH]; [apply ef_le_refl|].
  eapply ef_le_trans; [apply IH; by eapply astep_ainv|].
  by apply ef_lt_le_weak, astep_trace.
Qed.

(** A run of a positive semi-definite form that ends where the machine
    cannot step has factored the form: the residual is zero. *)
Lemma complete_run_exact k s s' i j :
  ainv s → apsd s → nsteps astep k s s' → stuck s' → i < n → j < n →
  a_res s' i j = szero.
Proof.
  intros Hs Hp Hk Hst Hi Hj. destruct (nsteps_psd k s s' Hs Hp Hk).
  by apply stuck_zero.
Qed.

End machine.
