(* ===== verification/CholeskyTotal.v ===== *)
(** * CholeskyTotal: the factorisation of a positive definite matrix exists

    [chol] refuses a matrix when the number under a square root is not
    positive.  For a symmetric positive definite matrix that never happens:
    the number is the value of the quadratic form at a vector that is not
    zero ([schur_form]), so [chol] returns.  The argument is the classical
    one: with the rows [C] computed so far, the new row [r] solves
    [C r = a], and for the solution [w] of [C' w = r] the vector
    [z = (-w, 1, 0, ..)] gives [z' A z = a_ii - r . r].

    The argument is stated for forms given by their entries
    ([schur_positive]; the forms are those of [QuadraticForms], where
    positive definiteness is kept when the coordinates are permuted), so
    that it also serves the pivoted factorisation, whose rows come in the
    order of the pivots.

    The converse holds too: what [chol] factors is [C C'] for a lower
    triangular [C] with a positive diagonal, whose form is a sum of squares
    that vanishes at zero only ([chol_Val_pos_def]).  So on a square
    symmetric matrix [torch.cholesky] returns exactly when the matrix is
    positive definite and raises [RuntimeError] otherwise
    ([chol_is_Val_iff], [chol_Raise_iff]). *)

From Stdlib Require Import Ring Field.
From S2P Require Import Prelude Scalar Tensor Matrix MatrixAlgebra.
From S2P Require Import DenseSolver DenseSolverProofs QuadraticForms.

(** ** The quadratic form at the vector [z] *)

Section schur.
Context {F : Type} {SF : Scalar F} {EF : ExactField F}.
Variables (k i : nat) (a c : nat → nat → F) (r w : nat → F).

Add Field schur_field : ef_field.

Definition schur_z (p : nat) : F :=
  if decide (p < i) then sopp (w p)
  else if decide (p = i) then sone else szero.

Lemma schur_z_lt p : p < i → schur_z p = sopp (w p).
Proof using Type. intros. unfold schur_z. by rewrite decide_True. Qed.

Lemma schur_z_eq : schur_z i = sone.
Proof using Type.
  unfold schur_z. by rewrite decide_False, decide_True by lia.
Qed.

Lemma schur_z_gt p : i < p → schur_z p = szero.
Proof using Type. intros. unfold schur_z. by rewrite !decide_False by lia. Qed.

Hypothesis Hik : i < k.
Hypothesis Hsym : ∀ p q, p < k → q < k → a p q = a q p.
Hypothesis Hgram : ∀ p q, p < i → q < i → ssum i (λ t, c p t ⊗ c q t) = a p q.
Hypothesis Hrow : ∀ p, p < i → ssum i (λ t, c p t ⊗ r t) = a i p.
Hypothesis Hw : ∀ u, u < i → ssum i (λ t, c t u ⊗ w t) = r u.

(** Row [p] of [A] applied to [z]. *)
Lemma schur_inner p :
  ssum k (λ q, a p q ⊗ schur_z q) = a p i ⊖ ssum i (λ q, a p q ⊗ w q).
Proof using EF Hik.
  rewrite (ssum_truncate k (S i));
    [|lia|intros q ??; rewrite schur_z_gt by lia; ring].
  rewrite ssum_S, schur_z_eq,
    (ssum_ext i _ (λ q, sopp (a p q ⊗ w q))), ssum_opp;
    [ring|intros q Hq; rewrite schur_z_lt by done; ring].
Qed.

(** [A w] is the new row of [A], on the rows before it. *)
Lemma schur_rows p : p < i → ssum i (λ q, a p q ⊗ w q) = a i p.
Proof using EF Hgram Hrow Hw.
  intros Hp.
  by apply (factored_system i a c w r (λ p, a i p)).
Qed.

Lemma schur_last : ssum i (λ q, a i q ⊗ w q) = ssum i (λ t, r t ⊗ r t).
Proof using EF Hrow Hw.
  rewrite (ssum_ext i _ (λ q, ssum i (λ t, r t ⊗ (c q t ⊗ w q)))).
  - rewrite ssum_exchange. apply ssum_ext. intros t Ht.
    by rewrite ssum_mul_l, Hw.
  - intros q Hq. rewrite <-(Hrow q Hq), <-ssum_mul_r.
    apply ssum_ext. intros; ring.
Qed.

(** The quadratic form at [z] is the number under the square root. *)
Lemma schur_form :
  ssum k (λ p, schur_z p ⊗ ssum k (λ q, a p q ⊗ schur_z q))
  = a i i ⊖ ssum i (λ t, r t ⊗ r t).
Proof using All.
  rewrite (ssum_truncate k (S i));
    [|lia|intros q ??; rewrite schur_z_gt by lia; ring].
  rewrite ssum_last, schur_z_eq, schur_inner, schur_last; [ring|].
  intros p Hp. rewrite schur_inner, schur_rows, (Hsym p i) by (done || lia).
  ring.
Qed.
End schur.

Section positive.
Context {F : Type} `{ExactField F}.
Implicit Types (a c : nat → nat → F) (r z : nat → F) (n k i : nat).

Add Field positive_field : ef_field.

(** The number under the square root: with the rows [c] of a factor of
    the leading [i x i] block of a positive definite symmetric form [a],
    and the solution [r] of [c r = a_i], the number [a_ii - r . r] is
    positive. *)
Lemma schur_positive k i a c r :
  i < k → pd_fun k a → (∀ p q, p < k → q < k → a p q = a q p) →
  (∀ p t, p < t → t < i → c p t = szero) → (∀ p, p < i → c p p ≠ szero) →
  (∀ p q, p < i → q < i → ssum i (λ t, c p t ⊗ c q t) = a p q) →
  (∀ p, p < i → ssum i (λ t, c p t ⊗ r t) = a i p) →
  szero ≺ a i i ⊖ ssum i (λ t, r t ⊗ r t).
Proof.
  intros Hi Hpd Hsym Hup Hd Hgram Hrow.
  set (C := mat_tab i i c). set (y := r <$> seq 0 i).
  assert (lower_regular C i) as Hlr.
  { split; intros; unfold C; rewrite mget_mat_tab by lia; auto. }
  rewrite <-(schur_form k i a c r (λ t, backward_subst C y !!! t));
    [|done..|].
  - apply Hpd. exists i. split; [done|].
    rewrite schur_z_eq. apply ef_one_neq_zero.
  - intros u Hu.
    rewrite <-(lookup_total_tab r i u Hu), <-(backward_subst_solves C y u)
      by done.
    apply ssum_ext. intros t Ht. unfold C. by rewrite mget_mat_tab.
Qed.
End positive.

(** ** [chol] on a positive definite matrix *)

Section total.
Context {F : Type} `{ExactSqrt F}.
Implicit Types (A C : mat F) (Ls : list (list F)).

(** [z' A z > 0] for every [z] that is not zero. *)
Definition pos_def A : Prop := pd_fun (mrows A) (mget A).

(** The number under the square root of row [i] is positive. *)
Lemma chol_pivot_positive A i Ls :
  mat_symmetric A → pos_def A → i < mrows A →
  buildM (chol_step (mrows A) (mdata A)) i = Val Ls →
  szero ≺ mget A i i
          ⊖ dot (forward_subst (Mat i (mrows A) Ls) (mdata A !!! i))
                (forward_subst (Mat i (mrows A) Ls) (mdata A !!! i)).
Proof.
  intros Hsym Hpd Hi HLs.
  set (C := Mat i (mrows A) Ls). set (r := forward_subst C (mdata A !!! i)).
  pose proof (chol_prefix_rec A i Ls ltac:(lia) HLs) as Hrec. fold C in Hrec.
  pose proof (chol_rec_lower_regular A C i Hrec) as Hlr.
  destruct (chol_prefix_spec (mrows A) (mdata A) i Ls ltac:(lia) HLs)
    as [_ Hrows].
  assert (rows_long C) as Hlong.
  { intros t Ht. simpl in *. rewrite (proj1 (Hrows t Ht)). lia. }
  assert (length r = i) as Hr by apply (forward_subst_spec C _ Hlong).
  rewrite dot_prefix, Hr by done.
  apply (schur_positive (mrows A) i (mget A) (mget C) (λ t, r !!! t));
    [done..|apply Hlr|apply Hlr| |].
  - intros p q Hp Hq. apply (chol_rec_gram A C i); [done| |done..].
    intros ????. apply Hsym; lia.
  - intros p Hp. by apply (forward_subst_solves C (mdata A !!! i) p).
Qed.

(** Row [i] can be computed. *)
Lemma chol_step_is_Val A i Ls :
  mat_symmetric A → pos_def A → i < mrows A →
  buildM (chol_step (mrows A) (mdata A)) i = Val Ls →
  is_Val (chol_step (mrows A) (mdata A) Ls i).
Proof.
  intros Hsym Hpd Hi HLs. unfold chol_step, chol_row.
  rewrite buildM_S, (chol_row_forward _ _ _ (mrows A)). res_simpl.
  unfold chol_entry. rewrite decide_True by done. cbv zeta.
  pose proof (chol_pivot_positive A i Ls Hsym Hpd Hi HLs) as Hpos.
  unfold mget in Hpos. rewrite Hpos. res_simpl. apply is_Val_Val.
Qed.

(** [chol] returns on a symmetric positive definite matrix. *)
Lemma chol_is_Val A :
  mrows A = mcols A → mat_symmetric A → pos_def A → is_Val (chol A).
Proof.
  intros Hsq Hsym Hpd. unfold chol, chol_rows. rewrite decide_True by done.
  destruct (buildM_is_Val (chol_step (mrows A) (mdata A)) (mrows A))
    as [Ls HLs]; [intros i Ls ??; by apply chol_step_is_Val|].
  rewrite HLs. res_simpl. apply is_Val_Val.
Qed.
End total.

(** ** The factorisation exists only for a positive definite matrix *)

Section complete.
Context {F : Type} `{ExactSqrt F}.
Implicit Types (A C : mat F).
Add Field chol_complete_field : ef_field.

Lemma chol_raises_only A : raises_only RuntimeError (chol A).
Proof.
  unfold chol. case_decide; [|by intros e [= <-]].
  apply raises_only_bind; [|intros; apply raises_only_Val].
  apply buildM_raises_only. intros Ls i. unfold chol_step.
  apply raises_only_bind; [|intros; apply raises_only_Val].
  apply buildM_raises_only. intros acc j. unfold chol_entry.
  case_decide; [|apply raises_only_Val].
  destruct (sltb _ _); [apply raises_only_Val|by intros e [= <-]].
Qed.

(** A sum of squares that is zero has no term that is not. *)
Lemma ssum_squares_zero n (y : nat → F) :
  ssum n (λ t, y t ⊗ y t) = szero → ∀ t, t < n → y t = szero.
Proof.
  intros Hz t Ht. destruct (ef_eq_dec (y t) szero) as [|Hne]; [done|].
  assert (szero ≺ y t ⊗ y t) as Hpos.
  { apply ef_lt_of_le_neq; [apply (ef_sqr_nonneg (y t))|].
    intros Heq. by apply (ef_mul_neq_zero (y t) (y t)). }
  pose proof (ssum_term_le n (λ t, y t ⊗ y t) t
    (λ j _, ef_sqr_nonneg (y j)) Ht) as Hle.
  rewrite Hz in Hle. simpl in Hle.
  by rewrite (proj1 (ef_lt_iff _ _) Hpos) in Hle.
Qed.

(** A lower triangular matrix with a diagonal without zeros: its transpose
    sends no other vector than zero to zero. *)
Lemma lower_regular_injective C k (z : nat → F) :
  lower_regular C k →
  (∀ t, t < k → ssum k (λ p, mget C p t ⊗ z p) = szero) →
  ∀ p, p < k → z p = szero.
Proof.
  intros [Hab Hd] Hy.
  assert (∀ d p, k - d ≤ p → p < k → z p = szero) as Hind.
  { induction d as [|d IH]; intros p Hp Hk; [lia|].
    destruct (decide (k - d ≤ p)) as [|Hlt]; [by apply IH|].
    pose proof (Hy p Hk) as Hyp.
    rewrite (ssum_split k (S p)), ssum_S in Hyp by lia.
    rewrite (ssum_ext p _ (λ _, szero)), ssum_zero in Hyp
      by (intros q Hq; rewrite Hab by lia; ring).
    rewrite (ssum_ext (k - S p) _ (λ _, szero)), ssum_zero in Hyp
      by (intros u Hu; rewrite (IH (S p + u)) by lia; ring).
    destruct (ef_eq_dec (z p) szero) as [|Hne]; [done|].
    exfalso. apply (ef_mul_neq_zero (mget C p p) (z p)); [by apply Hd|done|].
    rewrite <-Hyp. ring. }
  intros p Hp. apply (Hind k); lia.
Qed.

(** What [chol] factors is positive definite. *)
Lemma chol_Val_pos_def A C :
  mat_symmetric A → chol A = Val C → pos_def A.
Proof.
  intros Hsym HC. pose proof (chol_entries A C HC) as Hrec.
  pose proof (chol_rec_lower_regular A C _ Hrec) as Hlr.
  intros z (p&Hp&Hz). change (szero ≺ bform (mrows A) (mget A) z z).
  rewrite (bform_ext _ _
    (λ p q, ssum (mrows A) (λ t, mget C p t ⊗ mget C q t)) z z z z);
    [|intros; symmetry; by apply (chol_rec_gram A C)|done..].
  rewrite (bform_gram _ _ (λ t p, mget C p t)).
  apply ef_lt_of_le_neq.
  - apply ssum_nonneg. intros t _. apply ef_sqr_nonneg.
  - intros Hz0. symmetry in Hz0. apply Hz.
    apply (lower_regular_injective C (mrows A)); [done| |done].
    by apply (ssum_squares_zero (mrows A)
      (λ t, ssum (mrows A) (λ p, mget C p t ⊗ z p))).
Qed.

(** [torch.cholesky] on a square symmetric matrix: it returns exactly when
    the matrix is positive definite, and raises [RuntimeError] when it is
    not. *)
Lemma chol_is_Val_iff A :
  mrows A = mcols A → mat_symmetric A → is_Val (chol A) ↔ pos_def A.
Proof.
  intros Hsq Hsym. split; [|by apply chol_is_Val].
  intros [C HC]. by eapply chol_Val_pos_def.
Qed.

Lemma chol_Raise_iff A :
  mrows A = mcols A → mat_symmetric A →
  chol A = Raise RuntimeError ↔ ¬ pos_def A.
Proof.
  intros Hsq Hsym. rewrite <-chol_is_Val_iff by done. split.
  - intros HA [C HC]. congruence.
  - intros Hno. destruct (chol A) as [C|e] eqn:HA; [destruct Hno; by eexists|].
    f_equal. by apply (chol_raises_only A).
Qed.
End complete.
