(* ===== verification/Woodbury.v ===== *)
(** * Woodbury: the model of [woodbury_factor] and [woodbury_solve]

    [woodbury_factor] (lines 85-120) scales the reciprocal of the shift by
    its largest absolute value, forms the [k x k] matrix
    [V diag(inv_shift) V' + I / scale], factors it with [torch.cholesky] and
    returns [R = potrs(V, chol)].  [woodbury_solve] (lines 123-145) applies
    the Woodbury identity with that [R]; its right-hand side is a vector or
    a matrix ([vector.ndimension() > 1], line 138).

    The two torch calls go through the interface [DenseSolver].  The
    matrices have no batch dimensions here; operands with batch dimensions
    are in [WoodburyBatch].  [woodbury_factor] is the value
    returned for a [dtype] other than [float16]; the half-precision branch
    (lines 112-115) and the [print] of line 119 are in [WoodburyFull]. *)

From S2P Require Import Prelude Scalar Tensor Matrix MatrixAlgebra DenseSolver.

Section woodbury.
Context {F : Type} `{Scalar F} `{!DenseSolver F}.

(** A tensor of one or of two dimensions: the right-hand side of
    [woodbury_solve]. *)
Inductive tensor12 : Type :=
  | T1 (v : list F)
  | T2 (A : mat F).

#[export] Instance tensor12_eq_dec : EqDecision tensor12.
Proof. solve_decision. Defined.

(** [vector.ndimension()] *)
Definition ndimension (t : tensor12) : nat :=
  match t with T1 _ => 1 | T2 _ => 2 end.

(** [shift.reciprocal()] *)
Definition reciprocal (x : list F) : list F := sinv <$> x.

(** Lines 103-105 and 135-137: the reciprocal of the shift divided by its
    largest absolute value, and that value. *)
Definition scaled_inv_shift (shift : list F) : res (list F * F) :=
  let inv_shift := reciprocal shift in
  scale ← tmax (sabs <$> inv_shift);
  Val ((λ v, v ⊘ scale) <$> inv_shift, scale).

(** Lines 108-109: [V @ (inv_shift * V') + eye(k) / scale]. *)
Definition shifted_mat (low_rank_mat : mat F) (inv_shift : list F) (scale : F)
    : res (mat F) :=
  let k := mrows low_rank_mat in
  scaled ← bop smul (unsqueeze inv_shift) (transpose low_rank_mat);
  prod ← matmul low_rank_mat scaled;
  bop sadd prod (mat_map (λ v, v ⊘ scale) (eye k)).

(** Lines 100-109 and 116-118: the value returned for a [dtype] other than
    [float16].  The [float16] branch (lines 112-115) and the [print] of
    line 119 are in [woodbury_factor_full] of [WoodburyFull]. *)
Definition woodbury_factor (low_rank_mat : mat F) (shift : list F)
    : res (mat F) :=
  '(inv_shift, scale) ← scaled_inv_shift shift;
  shifted ← shifted_mat low_rank_mat inv_shift scale;
  chol ← cholesky shifted;
  potrs low_rank_mat chol.

(** Lines 135-145.  The product [V' @ R @ shifted_vector] associates to the
    left: the [n x n] matrix [V' @ R] is formed first. *)
Definition woodbury_solve (vector : tensor12)
    (low_rank_mat woodbury_factor : mat F) (shift : list F) : res tensor12 :=
  '(inv_shift, scale) ← scaled_inv_shift shift;
  match vector with
  | T2 B =>
      let inv_shift := unsqueeze inv_shift in
      shifted_vector ← bop smul inv_shift B;
      VtR ← matmul (transpose low_rank_mat) woodbury_factor;
      prod ← matmul VtR shifted_vector;
      diff ← bop smul inv_shift prod;
      res ← bop ssub shifted_vector diff;
      Val (T2 (mat_map (λ v, v ⊗ scale) res))
  | T1 b =>
      shifted_vector ← ewise smul inv_shift b;
      VtR ← matmul (transpose low_rank_mat) woodbury_factor;
      prod ← matvec VtR shifted_vector;
      diff ← ewise smul inv_shift prod;
      res ← ewise ssub shifted_vector diff;
      Val (T1 ((λ v, v ⊗ scale) <$> res))
  end.
(** ** The same lines, entry by entry

    On operands whose shapes fit, nothing but [torch.cholesky] can raise,
    and every intermediate tensor is given by a formula for its entries. *)

(** Line 104: [scale]. *)
Definition scale_t (shift : list F) : F :=
  (argmax (sabs <$> reciprocal shift)).1.

(** Line 105: [inv_shift] after the division. *)
Definition inv_shift_t (shift : list F) : list F :=
  (λ v, v ⊘ scale_t shift) <$> reciprocal shift.

(** Lines 108-109: the entry of [shifted_mat] at [(l, m)]. *)
Definition shifted_entry (V : mat F) (d : list F) (a : F) (l m : nat) : F :=
  ssum (mcols V) (λ j, mget V l j ⊗ (d !!! j ⊗ mget V m j))
  ⊕ ((if decide (l = m) then sone else szero) ⊘ a).

Definition shifted_t (V : mat F) (shift : list F) : mat F :=
  mat_tab (mrows V) (mrows V)
          (shifted_entry V (inv_shift_t shift) (scale_t shift)).

(** Line 142: the entry of [V' @ R] at [(i, j)]. *)
Definition vtr_entry (V R : mat F) (i j : nat) : F :=
  ssum (mrows V) (λ l, mget V l i ⊗ mget R l j).

(** Lines 141-144: the entry [i] of the solution for a vector [b]. *)
Definition solve_entry (V R : mat F) (shift b : list F) (i : nat) : F :=
  let d := inv_shift_t shift in
  let y j := d !!! j ⊗ b !!! j in
  (y i ⊖ d !!! i ⊗ ssum (mcols V) (λ j, vtr_entry V R i j ⊗ y j))
  ⊗ scale_t shift.

Definition solve_t (V R : mat F) (shift b : list F) : list F :=
  solve_entry V R shift b <$> seq 0 (mcols V).

Lemma scaled_inv_shift_total shift :
  0 < length shift →
  scaled_inv_shift shift = Val (inv_shift_t shift, scale_t shift).
Proof.
  intros Hs. unfold scaled_inv_shift, tmax.
  rewrite max_dim_total by (unfold reciprocal; by rewrite !length_fmap).
  by res_simpl.
Qed.

Lemma scaled_inv_shift_empty : scaled_inv_shift [] = Raise RuntimeError.
Proof. done. Qed.

Lemma length_inv_shift_t shift : length (inv_shift_t shift) = length shift.
Proof. unfold inv_shift_t, reciprocal. by rewrite !length_fmap. Qed.

Lemma lookup_inv_shift_t shift j :
  j < length shift →
  inv_shift_t shift !!! j = sinv (shift !!! j) ⊘ scale_t shift.
Proof.
  intros Hj. apply list_lookup_total_correct.
  unfold inv_shift_t, reciprocal. rewrite !list_lookup_fmap.
  by rewrite (list_lookup_lookup_total_lt shift j).
Qed.

(** Lines 108-109 raise nothing on a [k x n] matrix and [n] shifts. *)
Lemma shifted_mat_total V d a :
  mat_wf V → length d = mcols V →
  shifted_mat V d a = Val (mat_tab (mrows V) (mrows V) (shifted_entry V d a)).
Proof.
  intros HV Hd. unfold shifted_mat.
  rewrite bop_col_bcast by done. res_simpl.
  rewrite matmul_Val by done. res_simpl.
  rewrite bop_same by done. cbn [mrows mcols mat_tab transpose].
  f_equal. apply mat_tab_ext. intros l m Hl Hm.
  rewrite mget_mat_tab, mget_mat_map by (done || apply eye_wf).
  unfold eye. rewrite mget_mat_tab by done.
  unfold shifted_entry. f_equal. apply ssum_ext. intros j Hj.
  by rewrite mget_mat_tab, mget_transpose.
Qed.

(** [woodbury_factor] is [torch.cholesky] and [torch.potrs] applied to the
    matrix [shifted_t]. *)
Lemma woodbury_factor_total V shift :
  mat_wf V → length shift = mcols V → 0 < mcols V →
  woodbury_factor V shift
  = chol ← cholesky (shifted_t V shift); potrs V chol.
Proof.
  intros HV Hs Hn. unfold woodbury_factor.
  rewrite scaled_inv_shift_total by lia. res_simpl.
  rewrite shifted_mat_total by (done || by rewrite length_inv_shift_t).
  by res_simpl.
Qed.

Lemma lookup_solve_t V R shift b i :
  i < mcols V → solve_t V R shift b !!! i = solve_entry V R shift b i.
Proof.
  intros Hi. apply list_lookup_total_correct. unfold solve_t.
  by rewrite list_lookup_fmap, lookup_seq_0.
Qed.

Lemma length_solve_t V R shift b : length (solve_t V R shift b) = mcols V.
Proof. unfold solve_t. by rewrite length_fmap, length_seq. Qed.

(** The entries of [V' @ R] (line 142). *)
Lemma matmul_transpose_total V R :
  mrows R = mrows V →
  matmul (transpose V) R
  = Val (mat_tab (mcols V) (mcols R) (vtr_entry V R)).
Proof.
  intros Hr. rewrite matmul_Val by done. cbn [mrows mcols transpose mat_tab].
  f_equal. apply mat_tab_ext. intros i j Hi Hj. unfold vtr_entry.
  apply ssum_ext. intros l Hl. by rewrite mget_transpose.
Qed.

(** [woodbury_solve] on a vector raises nothing when the shapes fit, and
    computes [solve_t]. *)
Lemma woodbury_solve_vec_total V R shift b :
  mrows R = mrows V → mcols R = mcols V →
  length shift = mcols V → length b = mcols V → 0 < mcols V →
  woodbury_solve (T1 b) V R shift = Val (T1 (solve_t V R shift b)).
Proof.
  intros Hr Hc Hs Hb Hn. unfold woodbury_solve.
  pose proof (length_inv_shift_t shift) as Hd. rewrite Hs in Hd.
  rewrite scaled_inv_shift_total by lia. res_simpl.
  rewrite ewise_same, (zip_with_tab _ _ _ (mcols V)) by (done || lia). res_simpl.
  rewrite matmul_transpose_total by done. res_simpl.
  rewrite matvec_Val
    by (cbn [mcols mat_tab]; by rewrite length_fmap, length_seq). res_simpl.
  cbn [mrows mcols mat_tab]. rewrite Hc.
  rewrite ewise_same, (zip_with_tab _ _ _ (mcols V))
    by (rewrite ?length_fmap, ?length_seq; done || lia). res_simpl.
  rewrite ewise_same, (zip_with_tab _ _ _ (mcols V))
    by (rewrite ?length_fmap, ?length_seq; done || lia). res_simpl.
  do 2 f_equal. rewrite <-list_fmap_compose. apply tab_ext. intros i Hi.
  unfold solve_entry; simpl. rewrite !lookup_total_tab by done. do 3 f_equal.
  apply ssum_ext. intros j Hj.
  by rewrite mget_mat_tab, lookup_total_tab by done.
Qed.

(** [woodbury_solve] on a matrix (the branch of lines 138-139) solves for
    every column. *)
Lemma woodbury_solve_mat_total V R shift B :
  mrows R = mrows V → mcols R = mcols V →
  length shift = mcols V → mrows B = mcols V → 0 < mcols V →
  woodbury_solve (T2 B) V R shift
  = Val (T2 (mat_tab (mcols V) (mcols B)
               (λ i c, solve_entry V R shift (column B c) i))).
Proof.
  intros Hr Hc Hs HB Hn. unfold woodbury_solve, column.
  pose proof (length_inv_shift_t shift) as Hd. rewrite Hs in Hd.
  rewrite scaled_inv_shift_total by lia. res_simpl.
  rewrite (bop_col_bcast_dims smul _ B (mcols V) (mcols B)) by done. res_simpl.
  rewrite matmul_transpose_total by done. res_simpl.
  rewrite (matmul_dims _ _ (mcols V) (mcols V) (mcols B)) by done. res_simpl.
  rewrite (bop_col_bcast_dims smul _ _ (mcols V) (mcols B)) by done. res_simpl.
  rewrite (bop_same_dims ssub _ _ (mcols V) (mcols B)) by done. res_simpl.
  rewrite mat_map_tab. do 2 f_equal. apply mat_tab_ext. intros i c Hi Hcc.
  unfold solve_entry; cbv zeta. rewrite HB.
  rewrite !lookup_total_tab, !mget_mat_tab by done. do 3 f_equal.
  apply ssum_ext. intros j Hj.
  rewrite !mget_mat_tab, lookup_total_tab by (done || lia). done.
Qed.
End woodbury.

Arguments tensor12 F : clear implicits.
