(* ===== verification/WoodburyProofs.v ===== *)
(** * WoodburyProofs: [woodbury_solve] solves the shifted system

    Over an exact field, for a [k x n] matrix [V], non-zero shifts [s] and a
    matrix [R] with [M R = V], where [M] is the matrix [woodbury_factor]
    hands to [torch.cholesky], the vector [x] that [woodbury_solve] returns
    for [b] satisfies [(diag(s) + V'V) x = b].

    The proof is the Woodbury identity, entry by entry: [woodbury_core] is
    the algebra on functions of the indices, [woodbury_solve_correct] ties
    it to the tensors the code computes.

    The runs at the end include the shifts the theorem excludes: an empty
    shift, and in binary64 a shift with a zero entry, whose reciprocal is
    infinite ([zero_shift_nan]). *)

From Stdlib Require Import Ring Field QArith Qcanon Floats.
From S2P Require Import Prelude Scalar ScalarInstances Tensor TensorOrder.
From S2P Require Import Matrix MatrixAlgebra DenseSolver Woodbury.

(** ** The identity on functions of the indices *)

Section core.
Context {F : Type} `{ExactField F}.
Variables (n k : nat) (v r : nat → nat → F) (s d b : nat → F) (a : F).

Add Field woodbury_core_field : ef_field.

(** [M], [V' R], [y = d * b] and [x], as the code computes them. *)
Definition core_small (l m : nat) : F :=
  ssum n (λ j, v l j ⊗ (d j ⊗ v m j))
  ⊕ ((if decide (l = m) then sone else szero) ⊘ a).
Definition core_y (j : nat) : F := d j ⊗ b j.
Definition core_vtr (i j : nat) : F := ssum k (λ l, v l i ⊗ r l j).
Definition core_x (i : nat) : F :=
  (core_y i ⊖ d i ⊗ ssum n (λ j, core_vtr i j ⊗ core_y j)) ⊗ a.

(** [R y], [V' R y] and [V y]. *)
Definition core_u (l : nat) : F := ssum n (λ j, r l j ⊗ core_y j).
Definition core_p (i : nat) : F := ssum k (λ l, v l i ⊗ core_u l).
Definition core_w (l : nat) : F := ssum n (λ j, v l j ⊗ core_y j).

Hypothesis Hd : ∀ j, j < n → a ⊗ (s j ⊗ d j) = sone.
Hypothesis Ha : a ≠ szero.
Hypothesis HR : ∀ l j, l < k → j < n →
  ssum k (λ m, core_small l m ⊗ r m j) = v l j.

(** [(V' R) y = V' (R y)]. *)
Lemma core_prod i : ssum n (λ j, core_vtr i j ⊗ core_y j) = core_p i.
Proof.
  unfold core_vtr, core_p, core_u.
  rewrite (ssum_ext n _ (λ j, ssum k (λ l, v l i ⊗ (r l j ⊗ core_y j)))).
  - rewrite ssum_exchange. apply ssum_ext. intros l _. by rewrite ssum_mul_l.
  - intros j _. rewrite <-ssum_mul_r. apply ssum_ext. intros l _. ring.
Qed.

(** [M (R y) = V y]. *)
Lemma core_small_u l : l < k → ssum k (λ m, core_small l m ⊗ core_u m) = core_w l.
Proof.
  intros Hl. unfold core_u, core_w.
  rewrite (ssum_ext k _ (λ m, ssum n (λ j, (core_small l m ⊗ r m j) ⊗ core_y j))).
  - rewrite ssum_exchange. apply ssum_ext. intros j Hj.
    by rewrite ssum_mul_r, HR.
  - intros m _. rewrite <-ssum_mul_l. apply ssum_ext. intros j _. ring.
Qed.

(** [V D V' (R y) = V y - R y / a]. *)
Lemma core_vdp l :
  l < k → ssum n (λ j, v l j ⊗ (d j ⊗ core_p j)) = core_w l ⊖ core_u l ⊘ a.
Proof.
  intros Hl. rewrite <-(core_small_u l Hl). unfold core_p.
  rewrite (ssum_ext n _
    (λ j, ssum k (λ m, (v l j ⊗ (d j ⊗ v m j)) ⊗ core_u m))).
  2:{ intros j _. rewrite <-!ssum_mul_l. apply ssum_ext. intros m _. ring. }
  rewrite ssum_exchange.
  rewrite (ssum_ext k (λ m, core_small l m ⊗ core_u m)
    (λ m, ssum n (λ j, (v l j ⊗ (d j ⊗ v m j)) ⊗ core_u m)
          ⊕ (if decide (l = m) then sone else szero) ⊗ (core_u m ⊘ a))).
  2:{ intros m _. unfold core_small. rewrite ssum_mul_r. by field. }
  rewrite ssum_add, (ssum_delta k l (λ m, core_u m ⊘ a)) by done. ring.
Qed.

(** [V'V x = V' (R y)]. *)
Lemma core_gram_x i :
  ssum n (λ j, ssum k (λ l, v l i ⊗ v l j) ⊗ core_x j) = core_p i.
Proof.
  rewrite (ssum_ext n _ (λ j, ssum k (λ l,
    v l i ⊗ (a ⊗ (v l j ⊗ core_y j ⊖ v l j ⊗ (d j ⊗ core_p j)))))).
  2:{ intros j _. unfold core_x. rewrite core_prod, <-ssum_mul_r.
      apply ssum_ext. intros l _. ring. }
  rewrite ssum_exchange. unfold core_p at 2. apply ssum_ext. intros l Hl.
  rewrite ssum_mul_l, ssum_mul_l, ssum_sub, core_vdp by done.
  fold (core_w l). by field.
Qed.

(** The Woodbury identity: [s_i x_i + (V'V x)_i = b_i]. *)
Lemma woodbury_core i :
  i < n →
  (s i ⊗ core_x i)
  ⊕ ssum n (λ j, ssum k (λ l, v l i ⊗ v l j) ⊗ core_x j) = b i.
Proof.
  intros Hi. rewrite core_gram_x. unfold core_x. rewrite core_prod.
  unfold core_y.
  replace (s i ⊗ ((d i ⊗ b i ⊖ d i ⊗ core_p i) ⊗ a))
    with ((a ⊗ (s i ⊗ d i)) ⊗ (b i ⊖ core_p i)) by ring.
  rewrite Hd by done. ring.
Qed.
End core.

(** ** From the identity to the tensors *)

Section solve.
Context {F : Type} `{ExactField F}.
Implicit Types (V R : mat F) (shift b x : list F).

Add Field woodbury_solve_field : ef_field.

(** The matrix [diag(shift) + V'V] of the system.  The code never forms
    it; it states what [woodbury_solve] solves. *)
Definition shifted_system V shift : mat F :=
  mat_tab (mcols V) (mcols V)
    (λ i j, (if decide (i = j) then shift !!! i else szero)
            ⊕ ssum (mrows V) (λ l, mget V l i ⊗ mget V l j)).

(** The scale is positive when no shift is zero (line 104). *)
Lemma scale_t_neq_zero shift :
  0 < length shift → Forall (λ z, z ≠ szero) shift → scale_t shift ≠ szero.
Proof.
  intros Hlen Hnz Hz. destruct shift as [|z shift]; [simpl in Hlen; lia|].
  apply Forall_cons in Hnz as [Hz0 _].
  apply (ef_inv_neq_zero z Hz0), ef_abs_eq_zero, ef_le_antisym;
    [|apply ef_abs_nonneg].
  rewrite <-Hz. unfold scale_t.
  apply (argmax_ge_lookup _ 0). done.
Qed.

Lemma inv_shift_t_spec shift j :
  Forall (λ z, z ≠ szero) shift → j < length shift →
  scale_t shift ⊗ (shift !!! j ⊗ inv_shift_t shift !!! j) = sone.
Proof.
  intros Hnz Hj. rewrite lookup_inv_shift_t by done.
  assert (shift !!! j ≠ szero) as Hsj.
  { apply (Forall_lookup_1 _ _ _ _ Hnz (list_lookup_lookup_total_lt _ _ Hj)). }
  pose proof (scale_t_neq_zero shift ltac:(lia) Hnz). unfold sinv. by field.
Qed.

(** What [M R = V] says of the entries. *)
Lemma factor_entries V R shift l j :
  matmul (shifted_t V shift) R = Val V → mrows R = mrows V →
  l < mrows V → j < mcols V →
  ssum (mrows V)
    (λ m, core_small (mcols V) (mget V) (λ j, inv_shift_t shift !!! j)
                     (scale_t shift) l m ⊗ mget R m j)
  = mget V l j.
Proof.
  intros HMR Hr Hl Hj. rewrite matmul_Val in HMR by done.
  injection HMR as HMR.
  pose proof (f_equal mcols HMR) as Hc. simpl in Hc.
  pose proof (f_equal (λ A, mget A l j) HMR) as He. simpl in He.
  rewrite mget_mat_tab in He by (done || lia). rewrite <-He.
  apply ssum_ext. intros m Hm. unfold shifted_t.
  by rewrite mget_mat_tab.
Qed.

(** The system applied to a vector, entry by entry. *)
Lemma shifted_system_matvec V shift x :
  length x = mcols V →
  matvec (shifted_system V shift) x
  = Val ((λ i, (shift !!! i ⊗ x !!! i)
               ⊕ ssum (mcols V) (λ j,
                   ssum (mrows V) (λ l, mget V l i ⊗ mget V l j) ⊗ x !!! j))
           <$> seq 0 (mcols V)).
Proof.
  intros Hx. rewrite matvec_Val by done.
  change (mrows (shifted_system V shift)) with (mcols V).
  change (mcols (shifted_system V shift)) with (mcols V).
  f_equal. apply tab_ext. intros i Hi. unfold shifted_system.
  rewrite (ssum_ext _ _ (λ j,
    (if decide (i = j) then sone else szero) ⊗ (shift !!! i ⊗ x !!! j)
    ⊕ ssum (mrows V) (λ l, mget V l i ⊗ mget V l j) ⊗ x !!! j)).
  - by rewrite ssum_add, (ssum_delta _ i (λ j, shift !!! i ⊗ x !!! j)).
  - intros j Hj. rewrite mget_mat_tab by done. case_decide; ring.
Qed.

(** [solve_t] solves the system. *)
Lemma solve_t_correct V R shift b :
  mrows R = mrows V → length shift = mcols V → length b = mcols V →
  0 < mcols V → Forall (λ z, z ≠ szero) shift →
  matmul (shifted_t V shift) R = Val V →
  matvec (shifted_system V shift) (solve_t V R shift b) = Val b.
Proof.
  intros Hr Hs Hb Hn Hnz HMR.
  rewrite shifted_system_matvec by apply length_solve_t.
  f_equal. etransitivity; [|symmetry; by apply (list_tab b (mcols V))].
  apply tab_ext. intros i Hi.
  rewrite lookup_solve_t by done.
  rewrite (ssum_ext _ _ (λ j, ssum (mrows V) (λ l, mget V l i ⊗ mget V l j)
                              ⊗ solve_entry V R shift b j))
    by (intros j Hj; by rewrite lookup_solve_t).
  apply (woodbury_core (mcols V) (mrows V) (mget V) (mget R)
           (λ j, shift !!! j) (λ j, inv_shift_t shift !!! j) (λ j, b !!! j)
           (scale_t shift)); [| | |done].
  - intros j Hj. apply inv_shift_t_spec; [done|lia].
  - apply scale_t_neq_zero; [lia|done].
  - intros l j Hl Hj. by apply factor_entries.
Qed.

(** C16.  [woodbury_solve] solves the shifted system: for a [k x n] matrix
    [V], [n] non-zero shifts and a [k x n] matrix [R] with [M R = V], where
    [M] is the matrix that [woodbury_factor] factors, the call on a vector
    [b] raises nothing and returns [x] with [(diag(shift) + V'V) x = b]. *)
Theorem woodbury_solve_correct V R shift b :
  mrows R = mrows V → mcols R = mcols V →
  length shift = mcols V → length b = mcols V → 0 < mcols V →
  Forall (λ z, z ≠ szero) shift →
  matmul (shifted_t V shift) R = Val V →
  ∃ x, woodbury_solve (T1 b) V R shift = Val (T1 x) ∧
       matvec (shifted_system V shift) x = Val b.
Proof.
  intros Hr Hc Hs Hb Hn Hnz HMR. exists (solve_t V R shift b). split.
  - by apply woodbury_solve_vec_total.
  - by apply solve_t_correct.
Qed.

(** The product [V' @ R @ y] of line 142 associates to the left and
    forms the [n x n] matrix [V' @ R]; its value is that of
    [V' @ (R @ y)], which needs two products of a matrix and a vector. *)
Theorem solve_product_reassociates V R (y : list F) :
  mrows R = mrows V → mcols R = length y →
  ∃ VtR, matmul (transpose V) R = Val VtR ∧
         mrows VtR = mcols V ∧ mcols VtR = length y ∧
         matvec VtR y = (u ← matvec R y; matvec (transpose V) u).
Proof.
  intros Hr Hy. eexists. split; [by apply matmul_transpose_total|].
  split; [done|]. split; [done|].
  rewrite <-(matvec_matmul (transpose V) R y) by done.
  by rewrite matmul_transpose_total by done.
Qed.
End solve.

(** ** For every element type *)

Section generic.
Context {F : Type} `{Scalar F} `{!DenseSolver F}.
Implicit Types (V R B : mat F) (shift b : list F).

(** [woodbury_factor] hands to [torch.cholesky] the matrix whose
    entry [(l, m)] is [sum_j V[l,j] * (inv_shift[j] * V[m,j])], plus
    [1 / scale] on the diagonal, and returns what [torch.potrs] gives for
    [V] and the factor; on a [k x n] matrix and [n > 0] shifts nothing else
    can raise. *)
Theorem woodbury_factor_matrix V shift :
  mat_wf V → length shift = mcols V → 0 < mcols V →
  woodbury_factor V shift
  = chol ← cholesky (shifted_t V shift); potrs V chol.
Proof. apply woodbury_factor_total. Qed.

Lemma column_tab r c (f : nat → nat → F) j :
  j < c → column (mat_tab r c f) j = (λ i, f i j) <$> seq 0 r.
Proof.
  intros Hj. unfold column. apply tab_ext. intros i Hi.
  by rewrite mget_mat_tab.
Qed.

Lemma length_column B c : length (column B c) = mrows B.
Proof. unfold column. by rewrite length_fmap, length_seq. Qed.

(** The two branches of line 138 agree: on a matrix [B] of
    right-hand sides [woodbury_solve] returns the matrix whose columns are
    what it returns on the columns of [B]. *)
Theorem woodbury_solve_columns V R shift B :
  mrows R = mrows V → mcols R = mcols V →
  length shift = mcols V → mrows B = mcols V → 0 < mcols V →
  ∃ X, woodbury_solve (T2 B) V R shift = Val (T2 X) ∧
       mrows X = mrows B ∧ mcols X = mcols B ∧
       ∀ c, c < mcols B →
            woodbury_solve (T1 (column B c)) V R shift = Val (T1 (column X c)).
Proof.
  intros Hr Hc Hs HB Hn. eexists. split; [by apply woodbury_solve_mat_total|].
  split; [done|]. split; [done|]. intros c Hcc.
  rewrite woodbury_solve_vec_total
    by (done || by rewrite length_column).
  by rewrite column_tab.
Qed.

(** Without shifts both functions raise [RuntimeError]: the scale is
    [torch.max] of an empty tensor (lines 104 and 136). *)
Theorem woodbury_empty_shift_raises V R (t : tensor12 F) :
  woodbury_factor V [] = Raise RuntimeError
  ∧ woodbury_solve t V R [] = Raise RuntimeError.
Proof. done. Qed.
End generic.

(** ** Runs *)

(** The matrix [[1 0 0] [0 1 0]] of the repository's example. *)
Definition V23 : mat Qc := Mat 2 3 [[qc 1 1; qc 0 1; qc 0 1]; [qc 0 1; qc 1 1; qc 0 1]].
Definition V23f : mat float := Mat 2 3 [[1; 0; 0]; [0; 1; 0]]%float.

(** The factor for [V23] and the shift 3: [M = 4 I], [R = V / 4]. *)
Definition R23 : mat Qc :=
  Mat 2 3 [[qc 1 4; qc 0 1; qc 0 1]; [qc 0 1; qc 1 4; qc 0 1]].

(** With shift 3 every number of the computation is rational: the factor
    is [R23] and the solution of [diag(4, 4, 3) x = (4, 4, 3)] is exact. *)
Example run_woodbury_exact :
  woodbury_factor V23 [qc 3 1; qc 3 1; qc 3 1] = Val R23 ∧
  woodbury_solve (T1 [qc 4 1; qc 4 1; qc 3 1]) V23 R23 [qc 3 1; qc 3 1; qc 3 1]
  = Val (T1 [qc 1 1; qc 1 1; qc 1 1]).
Proof. split; qc_decide. Qed.

(** The example of the repository's specification, in binary64: for
    [V = [[1 0 0] [0 1 0]]], [shift = (1, 1, 1)] and [b = (2, 2, 1)] the two
    functions return [x = (1, 1, 1)]. *)
Example run_woodbury_spec_example :
  (R ← woodbury_factor V23f [1; 1; 1]%float;
   woodbury_solve (T1 [2; 2; 1]%float) V23f R [1; 1; 1]%float)
  = Val (T1 [1; 1; 1]%float).
Proof. qc_decide. Qed.

(** A shift with a zero entry, in binary64.  Its reciprocal is infinite
    and so is the scale; the scaled reciprocal is [inf / inf = NaN] at the
    zero and [1 / inf = 0] elsewhere.  [woodbury_factor] hands a matrix of
    NaN to [torch.cholesky], which refuses it; [woodbury_solve], given any
    factor, returns a vector of NaN without raising. *)
Example zero_shift_nan :
  scaled_inv_shift [0; 1; 1]%float = Val ([nan; 0; 0]%float, infinity)
  ∧ woodbury_factor V23f [0; 1; 1]%float = Raise RuntimeError
  ∧ woodbury_solve (T1 [2; 2; 1]%float) V23f V23f [0; 1; 1]%float
    = Val (T1 [nan; nan; nan]%float).
Proof. repeat split; qc_decide. Qed.

Lemma woodbury_solve_correct_witness :
  ∃ x, woodbury_solve (T1 [qc 4 1; qc 4 1; qc 3 1]) V23 R23
         [qc 3 1; qc 3 1; qc 3 1] = Val (T1 x) ∧
       matvec (shifted_system V23 [qc 3 1; qc 3 1; qc 3 1]) x
       = Val [qc 4 1; qc 4 1; qc 3 1].
Proof.
  apply woodbury_solve_correct; [done|done|done|done|simpl; lia| |qc_decide].
  repeat constructor; by apply (bool_decide_unpack _).
Defined.

Lemma solve_product_reassociates_witness :
  ∃ VtR, matmul (transpose V23) R23 = Val VtR ∧
         mrows VtR = mcols V23 ∧ mcols VtR = length [qc 1 1; qc 2 1; qc 3 1] ∧
         matvec VtR [qc 1 1; qc 2 1; qc 3 1]
         = (u ← matvec R23 [qc 1 1; qc 2 1; qc 3 1]; matvec (transpose V23) u).
Proof. apply solve_product_reassociates; done. Defined.

Lemma woodbury_factor_matrix_witness :
  woodbury_factor V23 [qc 3 1; qc 3 1; qc 3 1]
  = chol ← cholesky (shifted_t V23 [qc 3 1; qc 3 1; qc 3 1]); potrs V23 chol.
Proof.
  apply woodbury_factor_matrix; [by apply (bool_decide_unpack _)|done|simpl; lia].
Defined.

Lemma woodbury_solve_columns_witness :
  ∃ X, woodbury_solve (T2 (transpose V23)) V23 R23 [qc 3 1; qc 3 1; qc 3 1]
       = Val (T2 X) ∧
       mrows X = mrows (transpose V23) ∧ mcols X = mcols (transpose V23) ∧
       ∀ c, c < mcols (transpose V23) →
            woodbury_solve (T1 (column (transpose V23) c)) V23 R23
              [qc 3 1; qc 3 1; qc 3 1] = Val (T1 (column X c)).
Proof. apply woodbury_solve_columns; [done|done|done|done|simpl; lia]. Defined.
