(* ===== verification/WoodburyFactorProofs.v ===== *)
(** * WoodburyFactorProofs: [woodbury_factor] and [woodbury_solve] together

    Against the interface [DenseSolverLaws], over an exact field: the
    matrix [R] that [woodbury_factor] returns satisfies [M R = V] for the
    symmetric matrix [M = V diag(inv_shift) V' + I / scale] it factors,
    and therefore [woodbury_solve] with that [R] solves
    [(diag(shift) + V'V) x = b]: the contract of the two functions used as
    the specification describes, a factor computed once and reused.

    With the executable solver the hypothesis on [M] is settled: for
    positive shifts [M] is positive definite and nothing raises
    ([factor_then_solve_vec]); for any shift, [woodbury_factor] returns
    exactly when [M] is positive definite and raises [RuntimeError]
    exactly when it is not ([woodbury_factor_refuses]). *)

From Stdlib Require Import Ring Field Reals Lra.
From S2P Require Import Prelude Scalar ScalarInstances Tensor TensorOrder.
From S2P Require Import Matrix MatrixAlgebra.
From S2P Require Import DenseSolver DenseSolverProofs CholeskyTotal.
From S2P Require Import Woodbury WoodburyProofs.

Section factor_solve.
Context {F : Type} `{ExactField F} `{!DenseSolver F} `{!DenseSolverLaws F}.
Implicit Types (V R : mat F) (shift b x : list F).

Add Field factor_solve_field : ef_field.

(** The matrix handed to [torch.cholesky] is symmetric, whatever the
    weights [d] and the scale [a]. *)
Lemma shifted_symmetric V (d : list F) (a : F) :
  mat_symmetric (mat_tab (mrows V) (mrows V) (shifted_entry V d a)).
Proof.
  intros l m Hl Hm. simpl in Hl, Hm.
  rewrite !mget_mat_tab by done. unfold shifted_entry. f_equal.
  - apply ssum_ext. intros; ring.
  - by repeat case_decide; subst.
Qed.

Lemma shifted_t_symmetric V shift : mat_symmetric (shifted_t V shift).
Proof. apply shifted_symmetric. Qed.

(** What [woodbury_factor] returns solves [M R = V]. *)
Lemma woodbury_factor_solves V shift R :
  mat_wf V → length shift = mcols V → 0 < mcols V →
  woodbury_factor V shift = Val R →
  mat_wf R ∧ mrows R = mrows V ∧ mcols R = mcols V
  ∧ matmul (shifted_t V shift) R = Val V.
Proof.
  intros HV Hs Hn. rewrite woodbury_factor_total by done.
  intros (C&HC&HR)%bind_Val.
  destruct (potrs_solves (shifted_t V shift) V C R
              (mat_tab_wf _ _ _) HV eq_refl eq_refl
              (shifted_t_symmetric V shift) HC HR) as [HwR HMR].
  destruct (matmul_shape _ _ _ HMR) as (_&_&Hc).
  assert (mrows R = mrows V) by (unfold matmul in HMR; by case_decide).
  done.
Qed.

(** C17.  The factor is what its documentation says: on a [k x n] matrix
    [V] and [n > 0] shifts, the matrix [R] that [woodbury_factor] returns
    has the shape of [V] and satisfies [M R = V], where [M] is
    [V diag(inv_shift) V' + I / scale]. *)
Theorem woodbury_factor_correct V shift R :
  mat_wf V → length shift = mcols V → 0 < mcols V →
  woodbury_factor V shift = Val R →
  mat_wf R ∧ mrows R = mrows V ∧ mcols R = mcols V
  ∧ matmul (shifted_t V shift) R = Val V.
Proof. apply woodbury_factor_solves. Qed.

(** The two functions together: with the factor [R] that
    [woodbury_factor] returned for [V] and non-zero shifts,
    [woodbury_solve] raises nothing on a vector [b] and returns the
    solution [x] of [(diag(shift) + V'V) x = b]. *)
Theorem woodbury_factor_then_solve V shift R b :
  mat_wf V → length shift = mcols V → length b = mcols V → 0 < mcols V →
  Forall (λ z, z ≠ szero) shift →
  woodbury_factor V shift = Val R →
  ∃ x, woodbury_solve (T1 b) V R shift = Val (T1 x) ∧
       matvec (shifted_system V shift) x = Val b.
Proof.
  intros HV Hs Hb Hn Hnz (HwR&Hr&Hc&HMR)%woodbury_factor_solves; [|done..].
  exists (solve_t V R shift b). split.
  - by apply woodbury_solve_vec_total.
  - by apply solve_t_correct.
Qed.
End factor_solve.

(** ** Positive shifts: the matrix factored is positive definite *)

Section positive_definite.
Context {F : Type} `{ExactField F}.
Implicit Types (V R : mat F) (shift b x : list F) (z : nat → F).

Add Field positive_definite_field : ef_field.

Lemma scale_t_pos shift :
  0 < length shift → Forall (λ s, szero ≺ s) shift → szero ≺ scale_t shift.
Proof.
  intros Hlen Hpos. apply ef_lt_of_le_neq.
  - destruct shift as [|s shift]; [simpl in Hlen; lia|].
    apply ef_le_trans with (sabs (sinv s)); [apply ef_abs_nonneg|].
    by apply (argmax_ge_lookup _ 0).
  - apply not_eq_sym, scale_t_neq_zero; [done|].
    eapply Forall_impl; [done|]. apply ef_pos_neq_zero.
Qed.

Lemma inv_shift_t_pos shift j :
  Forall (λ s, szero ≺ s) shift → j < length shift →
  szero ≺ inv_shift_t shift !!! j.
Proof.
  intros Hpos Hj. rewrite lookup_inv_shift_t by done.
  apply ef_div_pos; [apply ef_inv_pos|apply scale_t_pos; [lia|done]].
  apply (Forall_lookup_1 _ _ _ _ Hpos (list_lookup_lookup_total_lt _ _ Hj)).
Qed.

(** The quadratic form of the matrix factored: a weighted sum of squares
    plus the squares of the entries of [z], divided by the scale. *)
Lemma shifted_quadratic V (d : list F) (a : F) z :
  a ≠ szero →
  ssum (mrows V) (λ l, z l ⊗ ssum (mrows V)
    (λ m, mget (mat_tab (mrows V) (mrows V) (shifted_entry V d a)) l m ⊗ z m))
  = ssum (mcols V) (λ j, d !!! j
      ⊗ (ssum (mrows V) (λ l, mget V l j ⊗ z l)
         ⊗ ssum (mrows V) (λ l, mget V l j ⊗ z l)))
    ⊕ ssum (mrows V) (λ l, (z l ⊗ z l) ⊘ a).
Proof.
  intros Ha.
  rewrite <-ssum_quadratic, <-ssum_add. apply ssum_ext. intros l Hl.
  rewrite (ssum_ext _ _ (λ m,
    ssum (mcols V) (λ j, mget V l j ⊗ (d !!! j ⊗ mget V m j)) ⊗ z m
    ⊕ (if decide (l = m) then sone else szero) ⊗ (z m ⊘ a))).
  - rewrite ssum_add, (ssum_delta _ l (λ m, z m ⊘ a)) by done.
    by field.
  - intros m Hm. rewrite mget_mat_tab by done.
    unfold shifted_entry. by field.
Qed.

(** With positive weights and a positive scale the matrix factored is
    positive definite. *)
Lemma shifted_pos_def V (d : list F) (a : F) :
  szero ≺ a → (∀ j, j < mcols V → szero ≺ d !!! j) →
  pos_def (mat_tab (mrows V) (mrows V) (shifted_entry V d a)).
Proof.
  intros Ha Hd z (p&Hp&Hz). simpl in Hp. cbn [mrows mat_tab].
  rewrite shifted_quadratic by by apply ef_pos_neq_zero.
  assert (∀ l, szero ≼ (z l ⊗ z l) ⊘ a) as Hsq
    by (intros l; apply ef_div_nonneg, Ha; apply (ef_sqr_nonneg (z l))).
  apply ef_lt_le_trans with ((z p ⊗ z p) ⊘ a).
  - apply ef_div_pos, Ha. apply ef_lt_of_le_neq; [apply (ef_sqr_nonneg (z p))|].
    by apply not_eq_sym, ef_mul_neq_zero.
  - eapply ef_le_trans;
      [apply (ssum_term_le (mrows V) (λ l, (z l ⊗ z l) ⊘ a) p); done|].
    apply ef_le_add_l, ssum_nonneg. intros j Hj. apply ef_mul_nonneg.
    + by apply ef_lt_le_weak, Hd.
    + apply (ef_sqr_nonneg (ssum _ _)).
Qed.

(** With positive shifts the matrix factored is positive definite. *)
Lemma shifted_t_pos_def V shift :
  length shift = mcols V → 0 < mcols V → Forall (λ s, szero ≺ s) shift →
  pos_def (shifted_t V shift).
Proof.
  intros Hs Hn Hpos. apply shifted_pos_def; [apply scale_t_pos; (done || lia)|].
  intros j Hj. apply inv_shift_t_pos; [done|lia].
Qed.
End positive_definite.

(** ** Positive shifts: the two functions never raise *)

Section positive_shifts.
Context {F : Type} `{ExactSqrt F}.
Implicit Types (V R : mat F) (shift b x : list F).

(** With positive shifts [woodbury_factor] returns. *)
Lemma woodbury_factor_is_Val V shift :
  mat_wf V → length shift = mcols V → 0 < mcols V →
  Forall (λ s, szero ≺ s) shift →
  is_Val (woodbury_factor V shift).
Proof.
  intros HV Hs Hn Hpos. rewrite woodbury_factor_total by done.
  destruct (chol_is_Val (shifted_t V shift)) as [C HC];
    [done|apply shifted_t_symmetric|by apply shifted_t_pos_def|].
  change (cholesky (shifted_t V shift)) with (chol (shifted_t V shift)).
  rewrite HC. res_simpl. by apply (chol_solve_returns (shifted_t V shift)).
Qed.

(** With positive shifts [woodbury_factor] never raises: the matrix
    [V diag(inv_shift) V' + I / scale] is symmetric positive definite, so
    its Cholesky factorisation exists. *)
Theorem woodbury_factor_returns V shift :
  mat_wf V → length shift = mcols V → 0 < mcols V →
  Forall (λ s, szero ≺ s) shift →
  ∃ R, woodbury_factor V shift = Val R ∧ mat_wf R
       ∧ mrows R = mrows V ∧ mcols R = mcols V.
Proof.
  intros HV Hs Hn Hpos.
  destruct (woodbury_factor_is_Val V shift) as [R HR]; [done..|].
  exists R. split; [done|].
  destruct (woodbury_factor_solves V shift R) as (?&?&?&_); done.
Qed.

(** The factor, then the solve with it, on a vector: the vector returned
    is [solve_t], and it solves the system. *)
Lemma factor_then_solve_vec V shift b :
  mat_wf V → length shift = mcols V → length b = mcols V → 0 < mcols V →
  Forall (λ s, szero ≺ s) shift →
  ∃ R, woodbury_factor V shift = Val R ∧
       woodbury_solve (T1 b) V R shift = Val (T1 (solve_t V R shift b)) ∧
       matvec (shifted_system V shift) (solve_t V R shift b) = Val b.
Proof.
  intros HV Hs Hb Hn Hpos.
  destruct (woodbury_factor_is_Val V shift) as [R HR]; [done..|].
  destruct (woodbury_factor_solves V shift R) as (HwR&Hr&Hc&HMR); [done..|].
  exists R. split; [done|]. split.
  - by apply woodbury_solve_vec_total.
  - apply solve_t_correct; [done..| |done].
    eapply Forall_impl; [done|]. apply ef_pos_neq_zero.
Qed.

(** The contract of the module, end to end: for a [k x n] matrix [V],
    [n] positive shifts and a vector [b], [woodbury_factor] returns a
    factor [R], and [woodbury_solve] with it returns the solution [x] of
    [(diag(shift) + V'V) x = b]. *)
Theorem woodbury_positive_shifts V shift b :
  mat_wf V → length shift = mcols V → length b = mcols V → 0 < mcols V →
  Forall (λ s, szero ≺ s) shift →
  ∃ R x, woodbury_factor V shift = Val R ∧
         woodbury_solve (T1 b) V R shift = Val (T1 x) ∧
         matvec (shifted_system V shift) x = Val b.
Proof.
  intros HV Hs Hb Hn Hpos.
  destruct (factor_then_solve_vec V shift b) as (R&HR&Hx&Hsys); [done..|].
  by exists R, (solve_t V R shift b).
Qed.
(** The two outcomes of [woodbury_factor]. *)
Lemma woodbury_factor_cases V shift :
  mat_wf V → length shift = mcols V → 0 < mcols V →
  (pos_def (shifted_t V shift) ∧ is_Val (woodbury_factor V shift))
  ∨ (¬ pos_def (shifted_t V shift)
     ∧ woodbury_factor V shift = Raise RuntimeError).
Proof.
  intros HV Hs Hn. rewrite woodbury_factor_total by done. simpl.
  pose proof (shifted_t_symmetric V shift) as Hsym.
  destruct (chol (shifted_t V shift)) as [C|e] eqn:HC.
  - left. split; [by eapply chol_Val_pos_def|]. res_simpl.
    by apply (chol_solve_returns (shifted_t V shift)).
  - right. pose proof (chol_raises_only _ _ HC) as ->. split; [|done].
    intros Hpd%chol_is_Val; [|done..]. destruct Hpd. congruence.
Qed.

(** C10.  The failure of [woodbury_factor], with the Cholesky solver in
    exact arithmetic: for a [k x n] matrix [V] and [n] shifts the function
    returns exactly when the matrix [M = V diag(inv_shift) V' + I / scale]
    it factors is positive definite, and raises [RuntimeError], the
    exception of [torch.cholesky], exactly when it is not. *)
Theorem woodbury_factor_refuses V shift :
  mat_wf V → length shift = mcols V → 0 < mcols V →
  (is_Val (woodbury_factor V shift) ↔ pos_def (shifted_t V shift))
  ∧ (woodbury_factor V shift = Raise RuntimeError
     ↔ ¬ pos_def (shifted_t V shift)).
Proof.
  intros HV Hs Hn.
  destruct (woodbury_factor_cases V shift HV Hs Hn) as [[Hp Hv]|[Hp Hr]].
  - split; [done|]. split; [|done]. intros Hr. destruct Hv. congruence.
  - rewrite Hr. split; [|done]. split; [|done]. by intros []. 
Qed.
End positive_shifts.

(** ** The example of the specification, over the real numbers *)

Definition V23r : mat R := Mat 2 3 [[1; 0; 0]; [0; 1; 0]]%R.
Definition shift3r : list R := [1; 1; 1]%R.
Definition b3r : list R := [2; 2; 1]%R.

Lemma V23r_wf : mat_wf V23r.
Proof. by apply (bool_decide_unpack _). Qed.

Lemma shift3r_pos : Forall (λ s, szero ≺ s) shift3r.
Proof.
  unfold shift3r.
  repeat (apply Forall_cons; split; [simpl; apply R_ltb_lt; lra|]).
  by apply Forall_nil.
Qed.

Lemma woodbury_positive_shifts_witness :
  ∃ R x, woodbury_factor V23r shift3r = Val R ∧
         woodbury_solve (T1 b3r) V23r R shift3r = Val (T1 x) ∧
         matvec (shifted_system V23r shift3r) x = Val b3r.
Proof.
  apply woodbury_positive_shifts;
    [exact V23r_wf|done|done|simpl; lia|exact shift3r_pos].
Defined.

Lemma woodbury_factor_returns_witness :
  ∃ R, woodbury_factor V23r shift3r = Val R ∧ mat_wf R
       ∧ mrows R = mrows V23r ∧ mcols R = mcols V23r.
Proof.
  apply woodbury_factor_returns;
    [exact V23r_wf|done|simpl; lia|exact shift3r_pos].
Defined.

Lemma woodbury_factor_correct_witness :
  ∃ R, woodbury_factor V23r shift3r = Val R ∧
       (mat_wf R ∧ mrows R = mrows V23r ∧ mcols R = mcols V23r
        ∧ matmul (shifted_t V23r shift3r) R = Val V23r).
Proof.
  destruct (woodbury_factor_is_Val V23r shift3r) as [R HR];
    [exact V23r_wf|done|simpl; lia|exact shift3r_pos|].
  exists R. split; [done|].
  apply (woodbury_factor_correct V23r shift3r R);
    [exact V23r_wf|done|simpl; lia|done].
Defined.

Lemma woodbury_factor_then_solve_witness :
  ∃ R, woodbury_factor V23r shift3r = Val R ∧
       ∃ x, woodbury_solve (T1 b3r) V23r R shift3r = Val (T1 x) ∧
            matvec (shifted_system V23r shift3r) x = Val b3r.
Proof.
  destruct (woodbury_factor_is_Val V23r shift3r) as [R HR];
    [exact V23r_wf|done|simpl; lia|exact shift3r_pos|].
  exists R. split; [done|].
  apply (woodbury_factor_then_solve V23r shift3r R b3r);
    [exact V23r_wf|done|done|simpl; lia| |done].
  eapply Forall_impl; [exact shift3r_pos|]. apply ef_pos_neq_zero.
Defined.

Lemma woodbury_factor_refuses_witness :
  (is_Val (woodbury_factor V23r shift3r) ↔ pos_def (shifted_t V23r shift3r))
  ∧ (woodbury_factor V23r shift3r = Raise RuntimeError
     ↔ ¬ pos_def (shifted_t V23r shift3r)).
Proof.
  exact (woodbury_factor_refuses V23r shift3r V23r_wf eq_refl
           ltac:(simpl; lia)).
Defined.

(** Negative shifts for which [M] is the zero matrix: [torch.cholesky]
    refuses it. *)
Example run_negative_shift_refused :
  woodbury_factor (Mat 1 2 [[qc 1 1; qc 0 1]]) [qc (-1) 1; qc (-1) 1]
  = Raise RuntimeError
  ∧ woodbury_factor (Mat 1 2 [[qc 1 1; qc 0 1]]) [qc (-1) 1; qc 1 1]
  = Raise RuntimeError.
Proof. split; qc_decide. Qed.
