(* ===== verification/WoodburyShift.v ===== *)
(** * WoodburyShift: shifts of one element and shifts with a zero

    Two behaviours of the Woodbury functions that come from the shift
    argument alone.

    ** A shift of one element

    The shift is a vector of length [n] "or scalar broadcast"
    (specification, section 3); the docstrings speak of [V'V + shift I]
    and [sigma*I + VV'].  The code has no case for it: a shift of one
    element goes through the same lines, and torch broadcasts it at line
    108 ([inv_shift] of shape [(1, 1)] against [V'] of shape [(n, k)]) and
    at lines 141-142.

    Section [broadcast] shows that the two functions with a one-element
    shift [[sigma]] are the two functions with the vector
    [(sigma, .., sigma)], for every element type and every dense solver,
    provided the right-hand side has [n] rows; and so that for
    [sigma > 0], in exact arithmetic, they solve [(sigma I + V'V) x = b].

    ** A shift with a zero entry

    Both Woodbury functions start with [shift.reciprocal()] (lines 103 and
    134) and divide it by its largest absolute value.  Nothing tests the
    shift.  In IEEE arithmetic the reciprocal of a zero is infinite, the
    scale is then [+inf] (or NaN, when the shift holds a NaN as well), and
    the scaled reciprocal of the zero is [inf / inf], a NaN.  From there
    on every sum that runs over the entries of the shift is NaN:

    - every entry of what [woodbury_solve] returns is NaN, and nothing is
      raised ([solve_entry_nan]);
    - every entry of the [k x k] matrix of [woodbury_factor] is NaN, and
      [torch.cholesky] refuses it ([chol_nan]): the function raises, but
      only because the factorisation fails.

    Section [zero_shift] holds for every element type with IEEE
    arithmetic ([NanArith], [InfArith]): binary16, binary32 and
    binary64. *)

From Stdlib Require Import ZArith Ring Field Floats Reals Lra Lia.
From S2P Require Import Prelude Scalar ScalarInstances FloatFormats Tensor TensorOrder.
From S2P Require Import NanArithmetic Examples Matrix MatrixAlgebra.
From S2P Require Import DenseSolver DenseSolverProofs QuadraticForms CholeskyTotal.
From S2P Require Import Woodbury WoodburyProofs WoodburyFactorProofs.

(** * A shift of one element *)

Section broadcast.
Context {F : Type} `{Scalar F} `{!DenseSolver F}.
Implicit Types (V R B : mat F) (b : list F) (σ d a : F).

(** The maximum of equal values. *)
Lemma max_scan_replicate a besti i n :
  max_scan a besti i (replicate n a) = (a, besti).
Proof.
  revert i. induction n as [|n IH]; intros i; [done|]. simpl.
  destruct (sisnan a) eqn:Hn; [done|].
  unfold sisnan in Hn. apply negb_false_iff in Hn. by rewrite Hn.
Qed.

Lemma tmax_replicate a n : 0 < n → tmax (replicate n a) = Val a.
Proof.
  intros Hn. destruct n as [|n]; [lia|]. unfold tmax. simpl.
  by rewrite max_scan_replicate.
Qed.

(** Lines 103-105 on a shift repeated [n] times: the scaled reciprocal of
    the one-element shift, repeated. *)
Lemma scaled_inv_shift_replicate σ n d a :
  0 < n → scaled_inv_shift [σ] = Val ([d], a) →
  scaled_inv_shift (replicate n σ) = Val (replicate n d, a).
Proof.
  intros Hn. unfold scaled_inv_shift, reciprocal. cbn [fmap list_fmap].
  unfold tmax at 1. simpl. intros [= <- <-].
  rewrite !fmap_replicate, tmax_replicate by done. res_simpl.
  by rewrite fmap_replicate.
Qed.

Lemma scaled_inv_shift_singleton σ :
  scaled_inv_shift [σ] = Val ([sinv σ ⊘ sabs (sinv σ)], sabs (sinv σ)).
Proof. reflexivity. Qed.

(** Line 108: a one-element [inv_shift] is broadcast over the rows of
    [V']. *)
Lemma bop_scalar_bcast op d B :
  bop op (unsqueeze [d]) B
  = bop op (unsqueeze (replicate (mrows B) d)) B.
Proof.
  unfold bop. cbn [mrows mcols unsqueeze length].
  rewrite length_replicate, !bdim_1_l, bdim_same. res_simpl. f_equal.
  apply mat_tab_ext. intros i j Hi Hj. rewrite !bix_1. f_equal.
  rewrite (mget_unsqueeze [d]) by (simpl; lia).
  rewrite mget_unsqueeze
    by (rewrite length_replicate; unfold bix; case_decide; lia).
  simpl. symmetry. apply list_lookup_total_correct, lookup_replicate_2.
  unfold bix; case_decide; lia.
Qed.

(** Lines 108-109 with a one-element [inv_shift]. *)
Lemma shifted_mat_scalar V d a :
  shifted_mat V [d] a = shifted_mat V (replicate (mcols V) d) a.
Proof.
  unfold shifted_mat. cbv zeta.
  by rewrite (bop_scalar_bcast smul d (transpose V)).
Qed.

(** [woodbury_factor] with a shift of one element is [woodbury_factor]
    with that element repeated [n] times. *)
Lemma woodbury_factor_scalar V σ :
  0 < mcols V →
  woodbury_factor V [σ] = woodbury_factor V (replicate (mcols V) σ).
Proof.
  intros Hn. unfold woodbury_factor.
  rewrite (scaled_inv_shift_replicate σ (mcols V) _ _ Hn
             (scaled_inv_shift_singleton σ)), scaled_inv_shift_singleton.
  res_simpl. by rewrite shifted_mat_scalar.
Qed.

Lemma fmap_replicate_zip (op : F → F → F) d b :
  op d <$> b = zip_with op (replicate (length b) d) b.
Proof. induction b as [|v b IH]; [done|]. rewrite fmap_cons. simpl. by f_equal. Qed.

Lemma ewise_scalar op d b n :
  length b = n → ewise op [d] b = ewise op (replicate n d) b.
Proof.
  intros <-. rewrite ewise_bcast_l, ewise_same by (by rewrite length_replicate).
  f_equal. apply fmap_replicate_zip.
Qed.

Lemma woodbury_solve_scalar (t : tensor12 F) V R σ :
  0 < mcols V →
  match t with T1 b => length b = mcols V | T2 B => mrows B = mcols V end →
  woodbury_solve t V R [σ] = woodbury_solve t V R (replicate (mcols V) σ).
Proof.
  intros Hn Ht. unfold woodbury_solve.
  rewrite (scaled_inv_shift_replicate σ (mcols V) _ _ Hn
             (scaled_inv_shift_singleton σ)), scaled_inv_shift_singleton.
  res_simpl. destruct t as [b|B].
  - rewrite (ewise_scalar smul _ b (mcols V)) by done.
    destruct (ewise smul _ b) as [y|] eqn:Hy; [|done]. res_simpl.
    destruct (matmul (transpose V) R) as [VtR|] eqn:HVtR; [|done]. res_simpl.
    destruct (matvec VtR y) as [p|] eqn:Hp; [|done]. res_simpl.
    rewrite (ewise_scalar smul _ p (mcols V)); [done|].
    rewrite (matvec_length _ _ _ Hp). by apply matmul_shape in HVtR as (_&->&_).
  - rewrite (bop_scalar_bcast smul _ B), Ht.
    destruct (bop smul _ B) as [Y|] eqn:HY; [|done]. res_simpl.
    destruct (matmul (transpose V) R) as [VtR|] eqn:HVtR; [|done]. res_simpl.
    destruct (matmul VtR Y) as [P|] eqn:HP; [|done]. res_simpl.
    rewrite (bop_scalar_bcast smul _ P).
    apply matmul_shape in HP as (_&->&_). by apply matmul_shape in HVtR as (_&->&_).
Qed.

(** C26.  A shift of one element is broadcast: for a matrix [V] with
    [n > 0] columns and a right-hand side with [n] rows, [woodbury_factor]
    and [woodbury_solve] with the shift [[sigma]] return what they return
    with the shift [(sigma, .., sigma)] of length [n], whatever the element
    type and the dense solver. *)
Theorem scalar_shift_broadcast (t : tensor12 F) V R σ :
  0 < mcols V →
  match t with T1 b => length b = mcols V | T2 B => mrows B = mcols V end →
  woodbury_factor V [σ] = woodbury_factor V (replicate (mcols V) σ)
  ∧ woodbury_solve t V R [σ] = woodbury_solve t V R (replicate (mcols V) σ).
Proof.
  intros Hn Ht. split; [by apply woodbury_factor_scalar|].
  by apply woodbury_solve_scalar.
Qed.
End broadcast.

Section scalar_shift.
Context {F : Type} `{ExactSqrt F}.

(** The contract with a scalar shift, in exact arithmetic with the
    Cholesky solver: for a [k x n] matrix [V], [sigma > 0] and a vector [b]
    of length [n], the two functions with the shift [[sigma]] return the
    solution of [(sigma I + V'V) x = b]. *)
Theorem woodbury_scalar_shift (V : mat F) (σ : F) (b : list F) :
  mat_wf V → length b = mcols V → 0 < mcols V → szero ≺ σ →
  ∃ R x, woodbury_factor V [σ] = Val R ∧
         woodbury_solve (T1 b) V R [σ] = Val (T1 x) ∧
         matvec (shifted_system V (replicate (mcols V) σ)) x = Val b.
Proof.
  intros HV Hb Hn Hσ.
  destruct (factor_then_solve_vec V (replicate (mcols V) σ) b)
    as (R&HR&Hx&Hsys);
    [done|by rewrite length_replicate|done|done|by apply Forall_replicate|].
  exists R, (solve_t V R (replicate (mcols V) σ) b).
  by rewrite woodbury_factor_scalar, (woodbury_solve_scalar (T1 b)).
Qed.
End scalar_shift.

(** ** The example of the specification with the shift [[1]] *)

Lemma scalar_shift_broadcast_witness :
  woodbury_factor V23f [1]%float
  = woodbury_factor V23f (replicate (mcols V23f) 1%float)
  ∧ woodbury_solve (T1 [2; 2; 1]%float) V23f V23f [1]%float
    = woodbury_solve (T1 [2; 2; 1]%float) V23f V23f
        (replicate (mcols V23f) 1%float).
Proof.
  exact (scalar_shift_broadcast (T1 [2; 2; 1]%float) V23f V23f 1%float
           ltac:(simpl; lia) eq_refl).
Defined.

Lemma woodbury_scalar_shift_witness :
  ∃ R x, woodbury_factor V23r [1%R] = Val R ∧
         woodbury_solve (T1 b3r) V23r R [1%R] = Val (T1 x) ∧
         matvec (shifted_system V23r (replicate (mcols V23r) 1%R)) x
         = Val b3r.
Proof.
  exact (woodbury_scalar_shift V23r 1%R b3r V23r_wf eq_refl
           ltac:(simpl; lia) ltac:(simpl; apply R_ltb_lt; lra)).
Defined.

Example run_scalar_shift :
  (R ← woodbury_factor V23f [1]%float;
   woodbury_solve (T1 [2; 2; 1]%float) V23f R [1]%float)
  = Val (T1 [1; 1; 1]%float).
Proof. qc_decide. Qed.

(** * A shift with a zero entry *)

Section zero_shift.
Context {F : Type} `{NanArith F} `{!InfArith F}.
Implicit Types (V R B A : mat F) (shift b : list F) (z : F).

(** A sum with a NaN term is NaN. *)
Lemma ssum_nan n (f : nat → F) j :
  j < n → sisnan (f j) = true → sisnan (ssum n f) = true.
Proof.
  intros Hj Hf. apply tsum_nan, Exists_exists. exists (f j). split; [|done].
  apply list_elem_of_fmap_2, elem_of_seq. lia.
Qed.

(** Line 105 at a zero of the shift: [inf / inf], or a division by NaN. *)
Lemma inv_shift_zero_nan shift j z :
  shift !! j = Some z → is_zero z → sisnan (inv_shift_t shift !!! j) = true.
Proof.
  intros Hj Hz. rewrite lookup_inv_shift_t by (by eapply lookup_lt_Some).
  rewrite (list_lookup_total_correct _ _ _ Hj).
  destruct (argmax_top (sabs <$> reciprocal shift)) as [Hn|Ht].
  - apply Exists_exists. exists (sabs (sinv z)).
    split; [|by apply top_recip_zero].
    apply list_elem_of_fmap_2, list_elem_of_fmap_2.
    by eapply list_elem_of_lookup_2.
  - by apply nan_div_r.
  - apply top_div_top; [by apply top_recip_zero|done].
Qed.

(** Lines 141-144: every entry of the result is NaN. *)
Lemma solve_entry_nan V R shift b j z i :
  length shift = mcols V → shift !! j = Some z → is_zero z →
  sisnan (solve_entry V R shift b i) = true.
Proof.
  intros Hs Hj Hz. unfold solve_entry; cbv zeta.
  apply nan_mul_l, nan_sub_r, nan_mul_r, (ssum_nan _ _ j).
  - rewrite <-Hs. by eapply lookup_lt_Some.
  - by apply nan_mul_r, nan_mul_l, (inv_shift_zero_nan _ _ z).
Qed.

(** Lines 108-109: every entry of the matrix to be factored is NaN. *)
Lemma shifted_entry_nan V shift j z l m :
  length shift = mcols V → shift !! j = Some z → is_zero z →
  sisnan (shifted_entry V (inv_shift_t shift) (scale_t shift) l m) = true.
Proof.
  intros Hs Hj Hz. unfold shifted_entry.
  apply nan_add_l, (ssum_nan _ _ j).
  - rewrite <-Hs. by eapply lookup_lt_Some.
  - by apply nan_mul_r, nan_mul_l, (inv_shift_zero_nan _ _ z).
Qed.

(** [torch.cholesky] refuses a matrix whose first entry is NaN: no
    comparison with NaN holds, so the first pivot is not positive. *)
Lemma chol_nan A :
  0 < mrows A → sisnan (mget A 0 0) = true → chol A = Raise RuntimeError.
Proof.
  intros Hk Hn.
  destruct (chol A) as [C|e] eqn:HC; [|by rewrite (chol_raises_only _ _ HC)].
  exfalso. unfold chol in HC. case_decide; [|done]. simplify_res.
  apply buildM_Val in Ha as [_ Hrows]. specialize (Hrows 0 Hk).
  unfold chol_step, chol_row in Hrows. simplify_res.
  apply buildM_Val in Ha as [_ Hent]. specialize (Hent 0 ltac:(lia)).
  unfold chol_entry in Hent. rewrite decide_True in Hent by done.
  rewrite nan_ltb_r in Hent; [done|]. by apply nan_sub_l.
Qed.

(** C25.  A zero in the shift is not refused, in any IEEE format: for a
    [k x n] matrix [V], a shift of length [n] with an entry that is [+0]
    or [-0], any factor [R] of the shape of [V] and a vector [b] of length
    [n], [woodbury_solve] raises nothing and returns a vector of [n] NaN;
    [woodbury_factor], with the Cholesky solver and [k > 0], raises the
    [RuntimeError] of [torch.cholesky], which is handed a matrix of
    NaN. *)
Theorem zero_shift_not_refused V R shift b j z :
  mat_wf V → mrows R = mrows V → mcols R = mcols V →
  length shift = mcols V → length b = mcols V →
  shift !! j = Some z → is_zero z →
  (∃ x, woodbury_solve (T1 b) V R shift = Val (T1 x)
        ∧ length x = mcols V ∧ all_nan x)
  ∧ (0 < mrows V → woodbury_factor V shift = Raise RuntimeError).
Proof.
  intros HV Hr Hc Hs Hb Hj Hz.
  assert (0 < mcols V) as Hn by (apply lookup_lt_Some in Hj; lia).
  split.
  - exists (solve_t V R shift b).
    split; [by apply woodbury_solve_vec_total|].
    unfold solve_t. split; [by rewrite length_fmap, length_seq|].
    apply Forall_fmap, Forall_forall. intros i _.
    by apply (solve_entry_nan _ _ _ _ j z).
  - intros Hk. rewrite woodbury_factor_total by done. simpl.
    rewrite chol_nan; [done|done|]. unfold shifted_t.
    rewrite mget_mat_tab by done. by apply (shifted_entry_nan _ _ j z).
Qed.
End zero_shift.

(** In binary64: [V = ((1, 0, 0), (0, 1, 0))] with the shift [(0, 1, 1)]. *)
Lemma V23f_wf : mat_wf V23f.
Proof. by apply (bool_decide_unpack _). Qed.

Lemma zero_shift_not_refused_witness :
  (∃ x, woodbury_solve (T1 [2; 2; 1]%float) V23f V23f [0; 1; 1]%float
        = Val (T1 x) ∧ length x = 3 ∧ all_nan x)
  ∧ (0 < mrows V23f →
     woodbury_factor V23f [0; 1; 1]%float = Raise RuntimeError).
Proof.
  exact (zero_shift_not_refused V23f V23f [0; 1; 1]%float [2; 2; 1]%float
           0 0%float V23f_wf eq_refl eq_refl eq_refl eq_refl eq_refl
           (conj eq_refl eq_refl)).
Defined.
