(* ===== verification/WoodburyFull.v ===== *)
(** * WoodburyFull: [woodbury_factor] with its two branches and its output

    [Woodbury.woodbury_factor] is the value the function returns for a
    [dtype] other than [float16].  This file models the whole body, lines
    100-120:

    - the test [low_rank_mat.dtype == torch.float16] (line 112) is the
      field [dtype_is_half] of the class [Precision], which also holds the
      two conversions of the half-precision branch ([.float()] and
      [.type_as], lines 113-115).  The branch converts the [k x k] matrix,
      formed in half precision, and [V] to single precision, calls the
      dense solver there, and converts the result back;
    - the [print] of line 119 is an event [Printed shape diff] in the list
      of outputs the function returns beside its value: the shape of [R]
      and the norm of [shifted_mat @ R - V].  The product and the
      subtraction are computed for the print only, and can raise.

    Theorems: the value of the full function is the value of
    [woodbury_factor]; in exact arithmetic with positive shifts the number
    printed is zero; the result has the shape of [V] in both branches; runs
    in half precision, among them one where the matrix overflows before it
    is converted. *)

From Stdlib Require Import Ring Field ZArith QArith Qcanon Floats Reals.
From S2P Require Import Prelude Scalar ScalarInstances FloatFormats.
From S2P Require Import Tensor TensorOrder Matrix MatrixAlgebra.
From S2P Require Import DenseSolver DenseSolverProofs CholeskyTotal.
From S2P Require Import Woodbury WoodburyProofs WoodburyFactorProofs.

(** ** Precision policy *)

(** The element type [F] of the operands, the type [G] in which the dense
    solver runs, and what line 112 asks of [F]. *)
Class Precision (F G : Type) : Type := {
  (** [low_rank_mat.dtype == torch.float16] *)
  dtype_is_half : bool;
  (** [.float()] *)
  widen : F → G;
  (** [.type_as(low_rank_mat)] *)
  narrow : G → F;
}.

(** Every [dtype] but [float16]: the solver runs in the type itself. *)
Definition full_precision (F : Type) : Precision F F :=
  {| dtype_is_half := false; widen := λ x, x; narrow := λ x, x |}.

#[export] Instance half_precision : Precision half single :=
  {| dtype_is_half := true; widen := to_float; narrow := type_as |}.
#[export] Instance single_precision : Precision single single :=
  full_precision single.
#[export] Instance float_precision : Precision float float :=
  full_precision float.
#[export] Instance Qc_precision : Precision Qc Qc := full_precision Qc.
#[export] Instance R_precision : Precision R R := full_precision R.

(** A conversion applied to every entry of a matrix. *)
Definition mat_cast {A B : Type} (f : A → B) (M : mat A) : mat B :=
  Mat (mrows M) (mcols M) ((λ row : list A, f <$> row) <$> mdata M).

(** ** Output *)

(** What line 119 writes: [R.shape] and the norm of the residual. *)
Record printed (F : Type) : Type := Printed {
  printed_shape : list nat;
  printed_diff : F;
}.
Arguments Printed {F} _ _.
Arguments printed_shape {F} _.
Arguments printed_diff {F} _.

Section full.
Context {F G : Type} `{Scalar F} `{Scalar G}.
Context `{!DenseSolver F} `{!DenseSolver G} `{!Precision F G}.
Implicit Types (V R : mat F) (shift : list F).

#[export] Instance printed_eq_dec : EqDecision (printed F).
Proof. solve_decision. Defined.

(** [A.norm()]: the square root of the sum of the squares of all entries. *)
Definition fro_norm (A : mat F) : F := ssqrt (tsum (ssqr <$> mjoin (mdata A))).

(** Lines 100-120: the value returned and what was printed. *)
Definition woodbury_factor_full (low_rank_mat : mat F) (shift : list F)
    : res (mat F * list (printed F)) :=
  '(inv_shift, scale) ← scaled_inv_shift shift;
  shifted ← shifted_mat low_rank_mat inv_shift scale;
  if dtype_is_half then
    chol ← cholesky (mat_cast widen shifted);
    R ← potrs (mat_cast widen low_rank_mat) chol;
    Val (mat_cast narrow R, [])
  else
    chol ← cholesky shifted;
    R ← potrs low_rank_mat chol;
    prod ← matmul shifted R;
    diff ← bop ssub prod low_rank_mat;
    Val (R, [Printed [mrows R; mcols R] (fro_norm diff)]).

(** The residual whose norm is printed, entry by entry. *)
Definition residual_t V shift R : mat F :=
  mat_tab (mrows V) (mcols V) (λ i j,
    ssum (mrows V) (λ l, mget (shifted_t V shift) i l ⊗ mget R l j)
    ⊖ mget V i j).

Lemma mat_cast_wf {A B : Type} (f : A → B) (M : mat A) :
  mat_wf M → mat_wf (mat_cast f M).
Proof.
  intros [Hr Hc]. split; simpl; [by rewrite length_fmap|].
  apply Forall_fmap. eapply Forall_impl; [done|].
  intros row Hrow. simpl. by rewrite length_fmap.
Qed.

(** ** The branch for every [dtype] but [float16] *)

(** The value returned is the one of [woodbury_factor], and one line is
    printed: the shape of [V] and the norm of the residual. *)
Lemma woodbury_factor_full_plain V shift R :
  dtype_is_half = false →
  mat_wf V → length shift = mcols V → 0 < mcols V →
  woodbury_factor V shift = Val R →
  mrows R = mrows V → mcols R = mcols V →
  woodbury_factor_full V shift
  = Val (R, [Printed [mrows V; mcols V] (fro_norm (residual_t V shift R))]).
Proof.
  intros Hd HV Hs Hn. rewrite woodbury_factor_total by done.
  intros (C&HC&HR)%bind_Val Hr Hc. unfold woodbury_factor_full.
  rewrite scaled_inv_shift_total by lia. res_simpl.
  rewrite shifted_mat_total by (done || by rewrite length_inv_shift_t).
  res_simpl. rewrite Hd. fold (shifted_t V shift). rewrite HC. res_simpl.
  rewrite HR. res_simpl.
  rewrite (matmul_dims _ _ (mrows V) (mrows V) (mcols V)) by done. res_simpl.
  rewrite (bop_same_dims _ _ _ (mrows V) (mcols V)) by done. res_simpl.
  rewrite Hr, Hc. do 5 f_equal. apply mat_tab_ext. intros i j Hi Hj.
  by rewrite mget_mat_tab.
Qed.

(** When [woodbury_factor] raises, so does the full function, with the same
    exception. *)
Lemma woodbury_factor_full_Raise V shift e :
  dtype_is_half = false →
  woodbury_factor V shift = Raise e → woodbury_factor_full V shift = Raise e.
Proof.
  intros Hd. unfold woodbury_factor, woodbury_factor_full. rewrite Hd.
  destruct (scaled_inv_shift shift) as [[d a]|]; res_simpl;
    [|by intros [= ->]].
  destruct (shifted_mat V d a) as [M|]; res_simpl; [|by intros [= ->]].
  destruct (cholesky M) as [C|]; res_simpl; [|by intros [= ->]].
  intros ->. by res_simpl.
Qed.
End full.

(** ** The number printed, in exact arithmetic *)

Section exact.
Context {F : Type} `{ExactSqrt F}.
Implicit Types (V R : mat F) (shift : list F).

Add Field woodbury_full_field : ef_field.

Lemma fro_norm_zero r c (f : nat → nat → F) :
  (∀ i j, i < r → j < c → f i j = szero) →
  fro_norm (mat_tab r c f) = szero.
Proof.
  intros Hf. unfold fro_norm. rewrite tsum_zero; [apply es_sqrt_zero|].
  apply Forall_fmap, Forall_forall. intros v Hv. simpl.
  apply list_elem_of_join in Hv as (row&Hv&Hrow).
  apply list_elem_of_fmap in Hrow as (i&->&[_ Hi]%elem_of_seq).
  apply list_elem_of_fmap in Hv as (j&->&[_ Hj]%elem_of_seq).
  rewrite Hf by lia. unfold ssqr. ring.
Qed.

(** The residual of an exact solution is the zero matrix. *)
Lemma residual_t_zero V shift R :
  mat_wf V → matmul (shifted_t V shift) R = Val V →
  fro_norm (residual_t V shift R) = szero.
Proof.
  intros HV HMR. apply fro_norm_zero. intros i j Hi Hj.
  assert (mrows R = mrows V) as Hr by (unfold matmul in HMR; by case_decide).
  destruct (matmul_shape _ _ _ HMR) as (_&_&Hc).
  rewrite matmul_Val in HMR by done. injection HMR as HMR.
  pose proof (f_equal (λ A, mget A i j) HMR) as E. cbv beta in E.
  rewrite mget_mat_tab in E by (simpl; lia). simpl in E. rewrite <-E. ring.
Qed.

(** C35.  In exact arithmetic, with positive shifts and the Cholesky solver,
    the full function returns the factor of [woodbury_factor] and prints
    the shape of [V] and a residual of zero. *)
Theorem printed_residual_zero V shift :
  mat_wf V → length shift = mcols V → 0 < mcols V →
  Forall (λ s, szero ≺ s) shift →
  ∃ R, woodbury_factor V shift = Val R ∧
       woodbury_factor_full (Precision0 := full_precision F) V shift
       = Val (R, [Printed [mrows V; mcols V] szero]).
Proof.
  intros HV Hs Hn Hpos.
  destruct (woodbury_factor_is_Val V shift) as [R HR]; [done..|].
  destruct (woodbury_factor_solves V shift R) as (HwR&Hr&Hc&HMR); [done..|].
  exists R. split; [done|].
  rewrite (woodbury_factor_full_plain V shift R) by done.
  by rewrite residual_t_zero.
Qed.
End exact.

(** ** The shape of the result, in both branches *)

Section shape.
Context {F G : Type} `{Scalar F} `{Scalar G} `{!Precision F G}.
Implicit Types (V R : mat F) (shift : list F).

(** C34.  With the Cholesky solver, whatever the element types: when the
    full function returns, its result is a well-formed matrix of the shape
    of [V], and it has printed one line, or none in half precision. *)
Theorem woodbury_factor_full_shape V shift R out :
  woodbury_factor_full V shift = Val (R, out) →
  mat_wf R ∧ mrows R = mrows V ∧ mcols R = mcols V
  ∧ length out = (if dtype_is_half then 0 else 1).
Proof.
  unfold woodbury_factor_full.
  intros ([d a]&_&(M&_&Hrest)%bind_Val)%bind_Val.
  destruct dtype_is_half.
  - apply bind_Val in Hrest as (C&_&(R'&HR'&[= <- <-])%bind_Val).
    destruct (chol_solve_shape _ _ _ HR') as (Hwf&Hr&Hc).
    split; [by apply mat_cast_wf|done].
  - apply bind_Val in Hrest as (C&_&(R'&HR'&Hrest)%bind_Val).
    apply bind_Val in Hrest as (P&_&(D&_&[= <- <-])%bind_Val).
    by destruct (chol_solve_shape _ _ _ HR') as (Hwf&Hr&Hc).
Qed.
End shape.

(** ** Runs in half and in single precision *)

Definition V23h : mat half :=
  Mat 2 3 [[fp_of_Z 1 0; fp_of_Z 0 0; fp_of_Z 0 0];
           [fp_of_Z 0 0; fp_of_Z 1 0; fp_of_Z 0 0]].

(** [V = (300, 0)], whose square exceeds the largest half-precision number,
    65504. *)
Definition V12h : mat half := Mat 1 2 [[fp_of_Z 300 0; fp_of_Z 0 0]].
Definition V12s : mat single := Mat 1 2 [[fp_of_Z 300 0; fp_of_Z 0 0]].

Lemma printed_residual_zero_witness :
  ∃ R, woodbury_factor V23r shift3r = Val R ∧
       woodbury_factor_full (Precision0 := full_precision _) V23r shift3r
       = Val (R, [Printed [2; 3] szero]).
Proof.
  apply (printed_residual_zero V23r shift3r);
    [exact V23r_wf|done|simpl; lia|exact shift3r_pos].
Defined.

Definition shift3h : list half := [fp_of_Z 3 0; fp_of_Z 3 0; fp_of_Z 3 0].

(** [V23h / 4]. *)
Definition R23h : mat half :=
  Mat 2 3 [[fp_of_Z 1 (-2); fp_of_Z 0 0; fp_of_Z 0 0];
           [fp_of_Z 0 0; fp_of_Z 1 (-2); fp_of_Z 0 0]].

(** For [V = [[1,0,0],[0,1,0]]] and the shift 3 in half precision the
    matrix factored is [4 I] and the factor is [V / 4]; nothing is
    printed. *)
Example run_half_factor : woodbury_factor_full V23h shift3h = Val (R23h, []).
Proof. vm_compute. reflexivity. Qed.

Lemma woodbury_factor_full_shape_witness :
  mat_wf R23h ∧ mrows R23h = mrows V23h ∧ mcols R23h = mcols V23h
  ∧ length ([] : list (printed half)) = 0.
Proof.
  exact (woodbury_factor_full_shape V23h shift3h R23h [] run_half_factor).
Defined.

(** The conversion of line 113 comes after the [k x k] matrix was
    formed in half precision (lines 108-109): for [V = (300, 0)] the entry
    [300 * 300 + 1] is already infinite, the solver divides by infinity,
    and the function returns the zero matrix without raising.  In single
    precision the same input gives [300 / 90001], which half precision
    can hold. *)
Example half_factor_overflow :
  woodbury_factor_full V12h [fp_of_Z 1 0; fp_of_Z 1 0]
  = Val (Mat 1 2 [[fp_of_Z 0 0; fp_of_Z 0 0]], [])
  ∧ (∃ R out, woodbury_factor_full V12s [fp_of_Z 1 0; fp_of_Z 1 0]
              = Val (R, out)
      ∧ type_as (mget R 0 0) = fp_of_Z 1748 (-19)).
Proof. split; [by vm_compute|]. eexists _, _. by vm_compute. Qed.
