(* ===== verification/Batch.v ===== *)
(** * Batch: tensors with leading batch dimensions

    [woodbury_factor] and [woodbury_solve] accept operands with leading
    batch dimensions.  A tensor with batch dimensions is its batch shape
    and the list of its elements over the flattened batch, in row-major
    order ([batch]).  A torch operation on one operand acts on every
    element ([batch_pure], [batch_map]); an operation on two operands
    broadcasts their batch shapes first ([batch_zip]): the shapes are
    aligned at their last dimension, a missing dimension counts as 1, two
    sizes fit when they are equal or one of them is 1
    ([broadcast_shapes]), and the element of an operand that is used at a
    position of the result is found by reading every broadcast dimension
    at 0 ([bsource]).  Shapes that do not fit raise [RuntimeError], as in
    torch.  The elements are visited in the order of the flattened batch,
    so the first element on which the operation fails decides the
    exception.

    The lemmas give the two cases the functions of the repository meet:
    operands of the same batch shape ([batch_zip_tab]) and an operand
    without batch dimensions that every element of the batch shares
    ([batch_get_shared]). *)

From S2P Require Import Prelude Tensor Matrix.

(** ** Batches *)

(** A tensor with leading batch dimensions: their sizes and, over the
    flattened batch, the tensors of the trailing dimensions. *)
Record batch (A : Type) : Type := Batch {
  b_shape : list nat;
  b_elems : list A;
}.
Arguments Batch {A} _ _.
Arguments b_shape {A} _.
Arguments b_elems {A} _.

#[export] Instance batch_eq_dec {A : Type} `{EqDecision A} :
  EqDecision (batch A).
Proof. solve_decision. Defined.

(** ** Broadcasting of batch shapes *)

(** The broadcast of two shapes, both given from the last dimension to the
    first. *)
Fixpoint broadcast_rev (a b : list nat) : res (list nat) :=
  match a, b with
  | [], _ => Val b
  | _, [] => Val a
  | x :: a', y :: b' =>
      d ← bdim x y; r ← broadcast_rev a' b'; Val (d :: r)
  end.

(** The broadcast of two shapes; [RuntimeError] when they do not fit. *)
Definition broadcast_shapes (a b : list nat) : res (list nat) :=
  r ← broadcast_rev (rev a) (rev b); Val (rev r).

(** The shape [s] with the leading dimensions of size 1 that align it with
    the broadcast shape [rs]. *)
Definition expand_shape (rs s : list nat) : list nat :=
  replicate (length rs - length s) 1 ++ s.

(** The flat position, in an operand of batch shape [s], of the element
    that is used at the flat position [f] of the result of shape [rs]. *)
Definition bsource (rs s : list nat) (f : nat) : res nat :=
  let s' := expand_shape rs s in
  ravel s' (zip_with bix s' (unravel rs f)).

Lemma broadcast_rev_same s : broadcast_rev s s = Val s.
Proof.
  induction s as [|d s IH]; [done|]. simpl. rewrite bdim_same, IH. by res_simpl.
Qed.

Lemma broadcast_rev_nil_r s : broadcast_rev s [] = Val s.
Proof. by destruct s. Qed.

Lemma broadcast_shapes_same s : broadcast_shapes s s = Val s.
Proof.
  unfold broadcast_shapes. rewrite broadcast_rev_same. res_simpl.
  by rewrite rev_involutive.
Qed.

Lemma broadcast_shapes_nil_l s : broadcast_shapes [] s = Val s.
Proof. unfold broadcast_shapes. simpl. by rewrite rev_involutive. Qed.

Lemma broadcast_shapes_nil_r s : broadcast_shapes s [] = Val s.
Proof.
  unfold broadcast_shapes. simpl. rewrite broadcast_rev_nil_r. res_simpl.
  by rewrite rev_involutive.
Qed.

Lemma length_unravel shape f : length (unravel shape f) = length shape.
Proof. unfold unravel. by rewrite length_imap. Qed.

(** The coordinate of a dimension of size 1 is 0 already. *)
Lemma bix_unravel shape f :
  zip_with bix shape (unravel shape f) = unravel shape f.
Proof.
  apply list_eq. intros i. unfold unravel.
  rewrite lookup_zip_with, list_lookup_imap.
  destruct (shape !! i) as [d|]; [simpl|done]. f_equal.
  unfold bix. case_decide as Hd; [|done]. subst d. by rewrite Nat.mod_1_r.
Qed.

Lemma expand_shape_same rs : expand_shape rs rs = rs.
Proof. unfold expand_shape. by rewrite Nat.sub_diag. Qed.

(** Operands of the shape of the result are read where they are. *)
Lemma bsource_same rs f : f < numel rs → bsource rs rs f = Val f.
Proof.
  intros Hf. unfold bsource. rewrite expand_shape_same, bix_unravel.
  by apply ravel_unravel.
Qed.

Lemma ravel_ones k idx :
  length idx = k → ravel (replicate k 1) (zip_with bix (replicate k 1) idx) = Val 0.
Proof.
  revert idx. induction k as [|k IH]; intros [|i idx] Hlen; simplify_eq/=;
    [done|].
  by rewrite IH.
Qed.

(** An operand without batch dimensions is read at its only element. *)
Lemma bsource_nil rs f : bsource rs [] f = Val 0.
Proof.
  unfold bsource, expand_shape. rewrite app_nil_r, Nat.sub_0_r.
  apply ravel_ones, length_unravel.
Qed.

(** ** Operations on batches *)

(** The element of [x] that a result of batch shape [rs] uses at its flat
    position [f]. *)
Definition batch_get {A} (rs : list nat) (x : batch A) (f : nat) : res A :=
  i ← bsource rs (b_shape x) f; index (b_elems x) i.

(** The batch [x] broadcasts to the batch shape [rs], where its element at
    the position [f] is [h f]. *)
Definition broadcasts_as {A} (rs : list nat) (x : batch A) (h : nat → A) : Prop :=
  broadcast_shapes (b_shape x) rs = Val rs
  ∧ broadcast_shapes rs (b_shape x) = Val rs
  ∧ ∀ f, f < numel rs → batch_get rs x f = Val (h f).

Section batch_ops.
Context {A B C : Type}.
Implicit Types (x : batch A) (y : batch B).

(** A function applied to every element of the batch. *)
Definition batch_pure (g : A → B) x : batch B :=
  Batch (b_shape x) (g <$> b_elems x).

(** An operation that can raise, applied to every element. *)
Definition batch_map (op : A → res B) x : res (batch B) :=
  elems ← mapM op (b_elems x);
  Val (Batch (b_shape x) elems).

(** An operation on two batches, element by element over the broadcast of
    their batch shapes. *)
Definition batch_zip (op : A → B → res C) x y : res (batch C) :=
  rs ← broadcast_shapes (b_shape x) (b_shape y);
  elems ← mapM (λ f, a ← batch_get rs x f; b ← batch_get rs y f; op a b)
               (seq 0 (numel rs));
  Val (Batch rs elems).

(** The batch whose element [f] is [h f]. *)
Definition batch_tab (bs : list nat) (b : nat) (h : nat → A) : batch A :=
  Batch bs (h <$> seq 0 b).
End batch_ops.

Section batch_elems.
Context {A B : Type}.

Lemma batch_pure_tab (g : A → B) bs b (h : nat → A) :
  batch_pure g (batch_tab bs b h) = batch_tab bs b (λ f, g (h f)).
Proof. unfold batch_pure, batch_tab. simpl. by rewrite <-list_fmap_compose. Qed.

Lemma batch_pure_compose {C} (g : A → B) (g' : B → C) (x : batch A) :
  batch_pure (g' ∘ g) x = batch_pure g' (batch_pure g x).
Proof. unfold batch_pure. simpl. by rewrite list_fmap_compose. Qed.

Lemma batch_map_tab (op : A → res B) bs b (h : nat → A) (g : nat → B) :
  (∀ f, f < b → op (h f) = Val (g f)) →
  batch_map op (batch_tab bs b h) = Val (batch_tab bs b g).
Proof.
  intros Hop. unfold batch_map, batch_tab. simpl.
  rewrite mapM_res_fmap, (mapM_res_total _ g); [done|].
  apply Forall_forall. intros f [_ Hf]%elem_of_seq. by apply Hop.
Qed.

Lemma batch_tab_lookup bs b (h : nat → A) f x :
  b_elems (batch_tab bs b h) !! f = Some x → f < b ∧ x = h f.
Proof.
  unfold batch_tab. simpl.
  by intros (f'&->&[-> ?]%lookup_seq)%list_lookup_fmap_Some.
Qed.

(** The elements of a batch given by its elements. *)
Lemma batch_get_tab bs (h : nat → A) f :
  f < numel bs → batch_get bs (batch_tab bs (numel bs) h) f = Val (h f).
Proof.
  intros Hf. unfold batch_get, batch_tab. simpl. rewrite bsource_same by done.
  res_simpl. apply index_Val. rewrite list_lookup_fmap, lookup_seq_lt by done.
  done.
Qed.

(** Every position of the result reads the only element of an operand
    without batch dimensions. *)
Lemma batch_get_shared rs (a : A) f : batch_get rs (Batch [] [a]) f = Val a.
Proof. unfold batch_get. simpl. rewrite bsource_nil. by res_simpl. Qed.

Lemma batch_get_pure (g : A → B) rs (x : batch A) f a :
  batch_get rs x f = Val a → batch_get rs (batch_pure g x) f = Val (g a).
Proof.
  unfold batch_get, batch_pure. simpl. intros Hx. simplify_res.
  apply index_Val in Hx. rewrite Ha. res_simpl. apply index_Val.
  by rewrite list_lookup_fmap, Hx.
Qed.


Lemma batch_get_elem rs (x : batch A) f a :
  batch_get rs x f = Val a → a ∈ b_elems x.
Proof.
  unfold batch_get. intros Hx. simplify_res. apply index_Val in Hx.
  by eapply list_elem_of_lookup_2.
Qed.

(** A batch of the shape [bs] broadcasts to it as it is. *)
Lemma broadcasts_as_tab bs (h : nat → A) :
  broadcasts_as bs (batch_tab bs (numel bs) h) h.
Proof.
  split_and!; [apply broadcast_shapes_same..|]. intros f Hf.
  by apply batch_get_tab.
Qed.

(** An operand without batch dimensions broadcasts to every batch shape. *)
Lemma broadcasts_as_shared rs (a : A) : broadcasts_as rs (Batch [] [a]) (λ _, a).
Proof.
  split_and!; [apply broadcast_shapes_nil_l|apply broadcast_shapes_nil_r|].
  intros f _. apply batch_get_shared.
Qed.

Lemma broadcasts_as_pure (g : A → B) rs (x : batch A) h :
  broadcasts_as rs x h → broadcasts_as rs (batch_pure g x) (λ f, g (h f)).
Proof.
  intros (?&?&Hx). split_and!; [done..|]. intros f Hf.
  by apply batch_get_pure, Hx.
Qed.
End batch_elems.

Section batch_zip.
Context {A B C : Type}.

(** The operation on two batches whose shapes broadcast to [rs], given
    the elements that each position of the result reads. *)
Lemma batch_zip_elems (op : A → B → res C) (x : batch A) (y : batch B) rs
    (h1 : nat → A) (h2 : nat → B) (g : nat → C) :
  broadcast_shapes (b_shape x) (b_shape y) = Val rs →
  (∀ f, f < numel rs → batch_get rs x f = Val (h1 f)) →
  (∀ f, f < numel rs → batch_get rs y f = Val (h2 f)) →
  (∀ f, f < numel rs → op (h1 f) (h2 f) = Val (g f)) →
  batch_zip op x y = Val (batch_tab rs (numel rs) g).
Proof.
  intros Hrs Hx Hy Hop. unfold batch_zip. rewrite Hrs. res_simpl.
  rewrite (mapM_res_total _ g); [done|].
  apply Forall_forall. intros f [_ Hf]%elem_of_seq.
  rewrite Hx, Hy by done. res_simpl. by apply Hop.
Qed.

(** A batch of the shape [bs] with an operand that broadcasts to it. *)
Lemma batch_zip_tab_l (op : A → B → res C) bs b
    (h1 : nat → A) (y : batch B) (h2 : nat → B) (g : nat → C) :
  b = numel bs → broadcasts_as bs y h2 →
  (∀ f, f < b → op (h1 f) (h2 f) = Val (g f)) →
  batch_zip op (batch_tab bs b h1) y = Val (batch_tab bs b g).
Proof.
  intros -> (_&Hrs&Hy) Hop. apply (batch_zip_elems _ _ _ _ h1 h2); try done.
  intros f Hf. by apply batch_get_tab.
Qed.

Lemma batch_zip_tab_r (op : A → B → res C) bs b
    (x : batch A) (h1 : nat → A) (h2 : nat → B) (g : nat → C) :
  b = numel bs → broadcasts_as bs x h1 →
  (∀ f, f < b → op (h1 f) (h2 f) = Val (g f)) →
  batch_zip op x (batch_tab bs b h2) = Val (batch_tab bs b g).
Proof.
  intros -> (Hrs&_&Hx) Hop. apply (batch_zip_elems _ _ _ _ h1 h2); try done.
  intros f Hf. by apply batch_get_tab.
Qed.

(** Two batches of the same batch shape: no broadcasting. *)
Lemma batch_zip_tab (op : A → B → res C) bs b
    (h1 : nat → A) (h2 : nat → B) (g : nat → C) :
  b = numel bs →
  (∀ f, f < b → op (h1 f) (h2 f) = Val (g f)) →
  batch_zip op (batch_tab bs b h1) (batch_tab bs b h2)
  = Val (batch_tab bs b g).
Proof.
  intros -> Hop.
  by apply (batch_zip_tab_l _ _ _ h1 _ h2); [|apply broadcasts_as_tab|].
Qed.

(** Batch shapes that do not fit are refused. *)
Lemma batch_zip_Raise (op : A → B → res C) (x : batch A) (y : batch B) :
  broadcast_shapes (b_shape x) (b_shape y) = Raise RuntimeError →
  batch_zip op x y = Raise RuntimeError.
Proof. intros Hrs. unfold batch_zip. by rewrite Hrs. Qed.
End batch_zip.
