(* ===== verification/WoodburyBatch.v ===== *)
(** * WoodburyBatch: [woodbury_factor] and [woodbury_solve] on batches

    Both functions accept tensors with leading batch dimensions: the
    products, the broadcasts, [torch.cholesky] and [torch.potrs] then act
    on every batch element.  This file models the two functions on
    batches ([Batch.batch]).  An operation of the code is an operation on
    every element ([batch_zip], [batch_map]), in the order of the code, so
    that the first operation that fails on some element decides the
    exception; operands of different batch shapes are broadcast, and
    refused with [RuntimeError] when their shapes do not fit.

    One line does not act element by element: [inv_shift.abs().max()]
    (lines 104 and 136) is the maximum over the whole tensor, so the scale
    is the same for every element of the batch
    ([scaled_inv_shift_batch]).  The factor of a batch element is
    therefore not the factor of that element alone
    ([batch_factor_depends_on_batch]); the solution is, because the two
    functions use the same scale ([woodbury_batch_invariant]).

    The theorems are about a batch of matrices and right-hand sides of one
    batch shape and a shift that broadcasts to it ([broadcasts_as]): a
    shift of the same batch shape ([woodbury_batch_correct]) or one shift
    without batch dimensions that the batch shares
    ([woodbury_shared_shift]).

    The right-hand sides of a batch are matrices: with batch dimensions
    [vector.ndimension() > 1] holds (line 138), also for a batch of
    vectors, which line 139 then treats as matrices
    ([batch_of_vectors_misread]).  [torch.potrs] is
    taken to broadcast batch dimensions like the other operations; the
    theorems only use it on operands of the same batch shape. *)

From Stdlib Require Import Ring Field QArith Qcanon Reals Lra.
From S2P Require Import Prelude Scalar ScalarInstances Tensor TensorOrder.
From S2P Require Import Matrix MatrixAlgebra.
From S2P Require Import DenseSolver DenseSolverProofs QuadraticForms CholeskyTotal.
From S2P Require Import Woodbury WoodburyProofs WoodburyFactorProofs Batch.

(** ** The two functions on batches *)

Section woodbury_batch.
Context {F : Type} `{Scalar F} `{!DenseSolver F}.
Implicit Types (shift : batch (list F)) (low_rank_mat vector : batch (mat F)).

(** Lines 103-105 and 135-137 on a shift with batch dimensions:
    [inv_shift.abs().max()] is the maximum over the whole tensor. *)
Definition scaled_inv_shift_batch shift : res (batch (list F) * F) :=
  let inv_shift := batch_pure reciprocal shift in
  scale ← tmax (sabs <$> mjoin (b_elems inv_shift));
  Val (batch_pure (fmap (λ v, v ⊘ scale)) inv_shift, scale).

(** Lines 100-120 on a batch, for a [dtype] other than [float16]. *)
Definition woodbury_factor_batch low_rank_mat shift : res (batch (mat F)) :=
  '(inv_shift, scale) ← scaled_inv_shift_batch shift;
  shifted ← batch_zip (λ V d, shifted_mat V d scale) low_rank_mat inv_shift;
  chol ← batch_map cholesky shifted;
  batch_zip potrs low_rank_mat chol.

(** Lines 135-145 on a batch.  With batch dimensions
    [vector.ndimension() > 1] holds: the right-hand sides are matrices. *)
Definition woodbury_solve_batch vector low_rank_mat
    (woodbury_factor : batch (mat F)) shift : res (batch (mat F)) :=
  '(inv_shift, scale) ← scaled_inv_shift_batch shift;
  let inv_shift := batch_pure unsqueeze inv_shift in
  shifted_vector ← batch_zip (bop smul) inv_shift vector;
  VtR ← batch_zip (λ V R, matmul (transpose V) R) low_rank_mat woodbury_factor;
  prod ← batch_zip matmul VtR shifted_vector;
  diff ← batch_zip (bop smul) inv_shift prod;
  res ← batch_zip (bop ssub) shifted_vector diff;
  Val (batch_pure (mat_map (λ v, v ⊗ scale)) res).

(** *** The same lines, entry by entry *)

(** Line 104: the scale of the batch. *)
Definition scale_b shift : F :=
  (argmax (sabs <$> mjoin (reciprocal <$> b_elems shift))).1.

(** Line 105: the weights of one batch element. *)
Definition weights (a : F) (s : list F) : list F :=
  (λ v, v ⊘ a) <$> reciprocal s.

(** Lines 141-144 for one batch element and one column. *)
Definition solve_entry_b (a : F) (V R B : mat F) (s : list F) (i c : nat) : F :=
  let d := weights a s in
  let y j := d !!! j ⊗ mget B j c in
  (y i ⊖ d !!! i ⊗ ssum (mcols V) (λ j, vtr_entry V R i j ⊗ y j)) ⊗ a.

Definition solve_b (a : F) (V R B : mat F) (s : list F) : mat F :=
  mat_tab (mcols V) (mcols B) (solve_entry_b a V R B s).

Lemma length_join_reciprocal (ss : list (list F)) :
  length (mjoin (reciprocal <$> ss)) = length (mjoin ss).
Proof.
  induction ss as [|s ss IH]; [done|].
  change (length (reciprocal s ++ mjoin (reciprocal <$> ss))
          = length (s ++ mjoin ss)).
  rewrite !length_app, IH. unfold reciprocal. by rewrite length_fmap.
Qed.

Lemma scaled_inv_shift_batch_total shift :
  0 < length (mjoin (b_elems shift)) →
  scaled_inv_shift_batch shift
  = Val (batch_pure (weights (scale_b shift)) shift, scale_b shift).
Proof.
  intros Hlen. unfold scaled_inv_shift_batch, tmax, batch_pure; simpl.
  rewrite max_dim_total.
  - res_simpl. unfold weights. by rewrite <-list_fmap_compose.
  - rewrite length_fmap, length_join_reciprocal. done.
Qed.
End woodbury_batch.

(** ** The weights and the scale, in exact arithmetic *)

Section weights.
Context {F : Type} `{ExactField F}.
Implicit Types (a : F) (s : list F).

Add Field batch_weights_field : ef_field.

Lemma length_weights a s : length (weights a s) = length s.
Proof. unfold weights, reciprocal. by rewrite !length_fmap. Qed.

Lemma lookup_weights a s j :
  j < length s → weights a s !!! j = sinv (s !!! j) ⊘ a.
Proof.
  intros Hj. apply list_lookup_total_correct.
  unfold weights, reciprocal. rewrite !list_lookup_fmap.
  by rewrite (list_lookup_lookup_total_lt s j).
Qed.

Lemma weights_spec a s j :
  a ≠ szero → Forall (λ z, z ≠ szero) s → j < length s →
  a ⊗ (s !!! j ⊗ weights a s !!! j) = sone.
Proof.
  intros Ha Hnz Hj. rewrite lookup_weights by done.
  assert (s !!! j ≠ szero) as Hsj.
  { apply (Forall_lookup_1 _ _ _ _ Hnz (list_lookup_lookup_total_lt _ _ Hj)). }
  unfold sinv. by field.
Qed.

Lemma weights_pos a s j :
  szero ≺ a → Forall (λ z, szero ≺ z) s → j < length s →
  szero ≺ weights a s !!! j.
Proof.
  intros Ha Hpos Hj. rewrite lookup_weights by done.
  apply ef_div_pos; [apply ef_inv_pos|done].
  apply (Forall_lookup_1 _ _ _ _ Hpos (list_lookup_lookup_total_lt _ _ Hj)).
Qed.

(** The scale of a batch of shifts that holds a positive shift is
    positive. *)
Lemma scale_b_pos (S : batch (list F)) l v :
  l ∈ b_elems S → v ∈ l → szero ≺ v → szero ≺ scale_b S.
Proof.
  intros Hl Hv Hpos.
  eapply ef_lt_le_trans; [exact (ef_inv_pos v Hpos)|].
  eapply ef_le_trans; [apply ef_le_abs|].
  eapply (proj1 (Forall_forall _ _) (argmax_ge _)).
  apply list_elem_of_fmap_2, list_elem_of_join. exists (reciprocal l).
  split; by apply list_elem_of_fmap_2.
Qed.

Lemma length_join_pos (ss : list (list F)) l v :
  l ∈ ss → v ∈ l → 0 < length (mjoin ss).
Proof.
  intros Hl Hv. assert (v ∈ mjoin ss) as Hin by (apply list_elem_of_join; eauto).
  destruct (mjoin ss); [by apply elem_of_nil in Hin|simpl; lia].
Qed.
End weights.

(** ** One batch element, for any scale *)

Section element.
Context {F : Type} `{ExactField F}.
Implicit Types (a : F) (s : list F) (V R B : mat F).

Add Field batch_element_field : ef_field.

(** The matrix factored for a batch element (lines 108-109). *)
Definition shifted_b a V s : mat F :=
  mat_tab (mrows V) (mrows V) (shifted_entry V (weights a s) a).

(** The system applied to a matrix, entry by entry. *)
Lemma shifted_system_matmul V s X :
  mrows X = mcols V →
  matmul (shifted_system V s) X
  = Val (mat_tab (mcols V) (mcols X) (λ i c,
      (s !!! i ⊗ mget X i c)
      ⊕ ssum (mcols V) (λ j,
          ssum (mrows V) (λ l, mget V l i ⊗ mget V l j) ⊗ mget X j c))).
Proof.
  intros HX. rewrite (matmul_dims _ _ (mcols V) (mcols V) (mcols X)) by done.
  f_equal. apply mat_tab_ext. intros i c Hi Hc. unfold shifted_system.
  rewrite (ssum_ext _ _ (λ j,
    (if decide (i = j) then sone else szero) ⊗ (s !!! i ⊗ mget X j c)
    ⊕ ssum (mrows V) (λ l, mget V l i ⊗ mget V l j) ⊗ mget X j c)).
  - by rewrite ssum_add, (ssum_delta _ i (λ j, s !!! i ⊗ mget X j c)).
  - intros j Hj. rewrite mget_mat_tab by done. case_decide; ring.
Qed.

(** What [M R = V] says of the entries. *)
Lemma factor_entries_b a V R s l j :
  matmul (shifted_b a V s) R = Val V → mrows R = mrows V →
  l < mrows V → j < mcols V →
  ssum (mrows V)
    (λ m, core_small (mcols V) (mget V) (λ j, weights a s !!! j) a l m
          ⊗ mget R m j)
  = mget V l j.
Proof.
  intros HMR Hr Hl Hj. rewrite matmul_Val in HMR by done.
  injection HMR as HMR.
  pose proof (f_equal mcols HMR) as Hc. simpl in Hc.
  pose proof (f_equal (λ A, mget A l j) HMR) as He. simpl in He.
  rewrite mget_mat_tab in He by (done || lia). rewrite <-He.
  apply ssum_ext. intros m Hm. unfold shifted_b. by rewrite mget_mat_tab.
Qed.

(** The solution computed with any scale that is not zero solves the
    system of the batch element. *)
Lemma solve_b_correct a V R B s :
  mat_wf B → mrows R = mrows V → length s = mcols V → mrows B = mcols V →
  a ≠ szero → Forall (λ z, z ≠ szero) s →
  matmul (shifted_b a V s) R = Val V →
  matmul (shifted_system V s) (solve_b a V R B s) = Val B.
Proof.
  intros HB Hr Hs HBr Ha Hnz HMR.
  rewrite shifted_system_matmul by done. cbn [mcols solve_b mat_tab].
  rewrite <-(mat_tab_mget B HB) at 2. rewrite HBr. f_equal.
  apply mat_tab_ext. intros i c Hi Hc.
  rewrite (ssum_ext _ _ (λ j, ssum (mrows V) (λ l, mget V l i ⊗ mget V l j)
                              ⊗ solve_entry_b a V R B s j c))
    by (intros j Hj; unfold solve_b; by rewrite !mget_mat_tab).
  unfold solve_b. rewrite mget_mat_tab by done.
  apply (woodbury_core (mcols V) (mrows V) (mget V) (mget R)
           (λ j, s !!! j) (λ j, weights a s !!! j) (λ j, mget B j c) a);
    [|done| |done].
  - intros j Hj. apply weights_spec; [done..|lia].
  - intros l j Hl Hj. by apply factor_entries_b.
Qed.
End element.

(** ** A batch of systems with positive shifts *)

Section factor_element.
Context {F : Type} `{ExactSqrt F}.
Implicit Types (a : F) (s : list F) (V R B : mat F).

(** What [torch.cholesky] and [torch.potrs] return, where they return. *)
Definition chol_t (A : mat F) : mat F := res_default A (cholesky A).
Definition factor_b a V s : mat F :=
  res_default V (potrs V (chol_t (shifted_b a V s))).

(** The factor of a batch element, for any positive scale. *)
Lemma factor_b_spec a V s :
  mat_wf V → length s = mcols V → szero ≺ a → Forall (λ z, szero ≺ z) s →
  cholesky (shifted_b a V s) = Val (chol_t (shifted_b a V s))
  ∧ potrs V (chol_t (shifted_b a V s)) = Val (factor_b a V s)
  ∧ mrows (factor_b a V s) = mrows V ∧ mcols (factor_b a V s) = mcols V
  ∧ matmul (shifted_b a V s) (factor_b a V s) = Val V.
Proof.
  intros HV Hs Ha Hpos. unfold factor_b, chol_t.
  destruct (chol_is_Val (shifted_b a V s)) as [C HC];
    [done|apply shifted_symmetric| |].
  { apply shifted_pos_def; [done|]. intros j Hj. apply weights_pos; (done || lia). }
  change (cholesky (shifted_b a V s)) with (chol (shifted_b a V s)).
  rewrite HC. simpl.
  destruct (chol_solve_returns (shifted_b a V s) V C eq_refl HC) as [R HR].
  change (potrs V C) with (chol_solve V C). rewrite HR. simpl.
  destruct (chol_solve_correct (shifted_b a V s) V C R) as [_ HMR];
    [done..|apply shifted_symmetric|done|done|].
  destruct (matmul_shape _ _ _ HMR) as (_&_&Hc).
  assert (mrows R = mrows V) by (unfold matmul in HMR; by case_decide).
  done.
Qed.

Lemma factor_b_shape a V s k n :
  mat_wf V → mrows V = k → mcols V = n → length s = n →
  szero ≺ a → Forall (λ z, szero ≺ z) s →
  mrows (factor_b a V s) = k ∧ mcols (factor_b a V s) = n.
Proof.
  intros HV <- <- Hs Ha Hpos.
  by destruct (factor_b_spec a V s HV Hs Ha Hpos) as (_&_&?&?&_).
Qed.
End factor_element.

Section batch_correct.
Context {F : Type} {SF : Scalar F} {EF : ExactField F} {ES : ExactSqrt F}.
Variables (bs : list nat) (b k n t : nat) (V B : nat → mat F) (s : nat → list F).
Variable (S : batch (list F)).

Hypothesis Hbs : b = numel bs.
Hypothesis Hb : 0 < b.
Hypothesis Hn : 0 < n.
Hypothesis HV : ∀ f, f < b → mat_wf (V f) ∧ mrows (V f) = k ∧ mcols (V f) = n.
Hypothesis Hs : ∀ f, f < b → length (s f) = n ∧ Forall (λ z, szero ≺ z) (s f).
Hypothesis HB : ∀ f, f < b → mat_wf (B f) ∧ mrows (B f) = n ∧ mcols (B f) = t.
Hypothesis HS : broadcasts_as bs S s.

(** The shift holds a positive entry: the first of the element 0. *)
Lemma shift_entry : ∃ l v, l ∈ b_elems S ∧ v ∈ l ∧ szero ≺ v.
Proof using EF Hbs Hb Hn Hs HS.
  destruct HS as (_&_&Hget), (Hs 0 Hb) as [Hlen Hpos].
  exists (s 0). destruct (s 0) as [|v l] eqn:E; [simpl in Hlen; lia|].
  exists v. split; [|split; [left|by apply Forall_cons in Hpos as [? _]]].
  rewrite <-E. apply (batch_get_elem bs S 0), Hget. lia.
Qed.

Lemma scale_of_pos : szero ≺ scale_b S.
Proof using EF Hbs Hb Hn Hs HS.
  destruct shift_entry as (l&v&?&?&?). by eapply scale_b_pos.
Qed.

Lemma scaled_inv_shift_broadcast :
  scaled_inv_shift_batch S
  = Val (batch_pure (weights (scale_b S)) S, scale_b S).
Proof using EF Hbs Hb Hn Hs HS.
  apply scaled_inv_shift_batch_total.
  destruct shift_entry as (l&v&?&?&?). by eapply length_join_pos.
Qed.

(** The factor of the batch: every element is factored with the scale of
    the batch. *)
Lemma woodbury_factor_batch_total :
  woodbury_factor_batch (batch_tab bs b V) S
  = Val (batch_tab bs b (λ f, factor_b (scale_b S) (V f) (s f))).
Proof using All.
  unfold woodbury_factor_batch. rewrite scaled_inv_shift_broadcast. res_simpl.
  pose proof scale_of_pos as Ha.
  rewrite (batch_zip_tab_l _ _ _ _ _ _
    (λ f, shifted_b (scale_b S) (V f) (s f)) Hbs
    (broadcasts_as_pure (weights (scale_b S)) _ _ _ HS)).
  2:{ intros f Hf. destruct (HV f Hf) as (?&?&?), (Hs f Hf) as [??].
      apply shifted_mat_total; [done|]. rewrite length_weights. congruence. }
  res_simpl.
  rewrite (batch_map_tab _ _ _ _
    (λ f, chol_t (shifted_b (scale_b S) (V f) (s f)))).
  2:{ intros f Hf. destruct (HV f Hf) as (?&?&?), (Hs f Hf) as [??].
      apply factor_b_spec; (done || congruence). }
  res_simpl. apply batch_zip_tab; [done|]. intros f Hf.
  destruct (HV f Hf) as (?&?&?), (Hs f Hf) as [??].
  apply factor_b_spec; (done || congruence).
Qed.

(** The solution of the batch, for factors of the right shape. *)
Lemma woodbury_solve_batch_total (R : nat → mat F) :
  (∀ f, f < b → mrows (R f) = k ∧ mcols (R f) = n) →
  woodbury_solve_batch (batch_tab bs b B) (batch_tab bs b V)
                       (batch_tab bs b R) S
  = Val (batch_tab bs b (λ f, solve_b (scale_b S) (V f) (R f) (B f) (s f))).
Proof using All.
  intros HR. unfold woodbury_solve_batch. rewrite scaled_inv_shift_broadcast.
  res_simpl. rewrite <-batch_pure_compose.
  pose proof (broadcasts_as_pure (unsqueeze ∘ weights (scale_b S)) _ _ _ HS)
    as HS'.
  assert (∀ f, f < b → length (weights (scale_b S) (s f)) = n) as Hd
    by (intros f Hf; rewrite length_weights; by apply Hs).
  erewrite (batch_zip_tab_r (bop smul) _ _ _ _ _ _ Hbs HS'); [|intros f Hf;
    destruct (HB f Hf) as (?&?&?);
    by apply (bop_col_bcast_dims smul _ _ n t); [..|apply Hd]]. res_simpl.
  erewrite (batch_zip_tab (λ V R, matmul (transpose V) R)); [|done|intros f Hf;
    destruct (HV f Hf) as (?&?&?), (HR f Hf) as [??];
    apply matmul_transpose_total; congruence]. res_simpl.
  erewrite (batch_zip_tab matmul); [|done|intros f Hf;
    destruct (HV f Hf) as (?&?&?), (HR f Hf) as [??];
    by apply (matmul_dims _ _ n n t)]. res_simpl.
  erewrite (batch_zip_tab_r (bop smul) _ _ _ _ _ _ Hbs HS'); [|intros f Hf;
    by apply (bop_col_bcast_dims smul _ _ n t); [..|apply Hd]]. res_simpl.
  erewrite (batch_zip_tab (bop ssub)); [|done|intros f Hf;
    by apply (bop_same_dims ssub _ _ n t)]. res_simpl.
  rewrite batch_pure_tab. unfold batch_tab. do 2 f_equal.
  apply tab_ext. intros f Hf. destruct (HV f Hf) as (?&?&Hc), (HB f Hf) as (?&Hr&Ht).
  rewrite mat_map_tab. unfold solve_b. rewrite Hc, Ht.
  apply mat_tab_ext. intros i c Hi Hcc. unfold solve_entry_b; cbv zeta.
  rewrite Hc, !mget_mat_tab by done. do 3 f_equal.
  apply ssum_ext. intros j Hj. destruct (HR f Hf) as [_ HRc].
  by rewrite HRc, !mget_mat_tab by (done || lia).
Qed.
End batch_correct.

(** ** The solution does not depend on the scale *)

Section unique.
Context {F : Type} `{ExactField F}.
Implicit Types (a : F) (s : list F) (V R B X Y : mat F).

Add Field batch_unique_field : ef_field.

(** With positive shifts the matrix of the system is positive definite. *)
Lemma shifted_system_pos_def V s :
  length s = mcols V → Forall (λ z, szero ≺ z) s →
  pd_fun (mcols V) (mget (shifted_system V s)).
Proof.
  intros Hs Hpos z (p&Hp&Hz). fold (bform (mcols V) (mget (shifted_system V s)) z z).
  rewrite (bform_ext _ _ (λ i j, unit_vec i (s !!! i) j
      ⊕ ssum (mrows V) (λ l, mget V l i ⊗ mget V l j)) z z z z);
    [|intros i j ??; unfold shifted_system; by rewrite mget_mat_tab|done..].
  rewrite bform_add_fun, bform_diag, bform_gram.
  assert (∀ i, i < mcols V → szero ≺ s !!! i) as Hsi.
  { intros i Hi. rewrite <-Hs in Hi.
    apply (Forall_lookup_1 _ _ _ _ Hpos (list_lookup_lookup_total_lt _ _ Hi)). }
  assert (∀ i, i < mcols V → szero ≼ z i ⊗ (s !!! i ⊗ z i)) as Hnn.
  { intros i Hi. replace (z i ⊗ (s !!! i ⊗ z i)) with (s !!! i ⊗ ssqr (z i))
      by (unfold ssqr; ring).
    apply ef_mul_nonneg; [by apply ef_lt_le_weak, Hsi|apply ef_sqr_nonneg]. }
  apply ef_lt_le_trans with (z p ⊗ (s !!! p ⊗ z p)).
  - replace (z p ⊗ (s !!! p ⊗ z p)) with (s !!! p ⊗ (z p ⊗ z p)) by ring.
    apply ef_mul_pos; [by apply Hsi|].
    apply ef_lt_of_le_neq; [apply (ef_sqr_nonneg (z p))|].
    by apply not_eq_sym, ef_mul_neq_zero.
  - eapply ef_le_trans;
      [by apply (ssum_term_le (mcols V) (λ i, z i ⊗ (s !!! i ⊗ z i)) p)|].
    replace (ssum (mcols V) (λ i, z i ⊗ (s !!! i ⊗ z i)))
      with (ssum (mcols V) (λ i, z i ⊗ (s !!! i ⊗ z i)) ⊕ szero) at 1 by ring.
    apply ef_add_le_l, ssum_nonneg. intros l _. apply (ef_sqr_nonneg (ssum _ _)).
Qed.

(** The system has at most one solution. *)
Lemma shifted_system_unique V s B X Y :
  length s = mcols V → Forall (λ z, szero ≺ z) s →
  mat_wf X → mat_wf Y → mrows X = mcols V → mrows Y = mcols V →
  matmul (shifted_system V s) X = Val B →
  matmul (shifted_system V s) Y = Val B → X = Y.
Proof.
  intros Hs Hpos HX HY HXr HYr HSX HSY.
  destruct (matmul_shape _ _ _ HSX) as (_&_&HXc).
  destruct (matmul_shape _ _ _ HSY) as (_&_&HYc).
  rewrite (matmul_dims _ X (mcols V) (mcols V) (mcols B)) in HSX by done.
  rewrite (matmul_dims _ Y (mcols V) (mcols V) (mcols B)) in HSY by done.
  injection HSX as HSX. injection HSY as HSY.
  apply mat_ext; [done|done|congruence|congruence|]. intros i c Hi Hc.
  apply (pd_system_unique (mcols V) (mget (shifted_system V s))
    (λ j, mget X j c) (λ j, mget Y j c)); [by apply shifted_system_pos_def| |lia].
  intros l Hl. pose proof (f_equal (λ A, mget A l c) HSX) as E1.
  pose proof (f_equal (λ A, mget A l c) HSY) as E2. cbv beta in E1, E2.
  rewrite mget_mat_tab in E1, E2 by (done || lia). congruence.
Qed.
End unique.

(** ** The batch and its elements *)

Section single.
Context {F : Type} `{ExactSqrt F}.
Implicit Types (s : list F) (V R B : mat F).

(** With its factor, the solution of a batch element solves its system,
    for any positive scale. *)
Lemma solve_factor_b_correct (a : F) V B s :
  mat_wf V → mat_wf B → length s = mcols V → mrows B = mcols V →
  szero ≺ a → Forall (λ z, szero ≺ z) s →
  matmul (shifted_system V s) (solve_b a V (factor_b a V s) B s) = Val B.
Proof.
  intros HV HB Hs HBr Ha Hpos.
  destruct (factor_b_spec a V s) as (_&_&?&?&?); [done..|].
  apply solve_b_correct; try done; [by apply ef_pos_neq_zero|].
  eapply Forall_impl; [done|]. apply ef_pos_neq_zero.
Qed.

(** The call on one matrix is the batch element with the scale of its own
    shift. *)
Lemma woodbury_factor_single V s :
  mat_wf V → length s = mcols V → 0 < mcols V →
  Forall (λ z, szero ≺ z) s →
  woodbury_factor V s = Val (factor_b (scale_t s) V s).
Proof.
  intros HV Hs Hn Hpos. rewrite woodbury_factor_total by done.
  destruct (factor_b_spec (scale_t s) V s) as (HC&HR&_);
    [done|done|apply scale_t_pos; (done || lia)|done|].
  change (shifted_t V s) with (shifted_b (scale_t s) V s).
  rewrite HC. by res_simpl.
Qed.

Lemma woodbury_solve_single V R B s :
  mrows R = mrows V → mcols R = mcols V →
  length s = mcols V → mrows B = mcols V → 0 < mcols V →
  woodbury_solve (T2 B) V R s = Val (T2 (solve_b (scale_t s) V R B s)).
Proof.
  intros Hr Hc Hs HB Hn. rewrite woodbury_solve_mat_total by done.
  do 2 f_equal. apply mat_tab_ext. intros i c Hi Hcc.
  unfold solve_entry, solve_entry_b, column; cbv zeta.
  change (inv_shift_t s) with (weights (scale_t s) s).
  rewrite lookup_total_tab by lia. do 3 f_equal.
  apply ssum_ext. intros j Hj. by rewrite lookup_total_tab by lia.
Qed.
End single.

Section batch_theorems.
Context {F : Type} `{ExactSqrt F}.
Implicit Types (bs : list nat) (V B : nat → mat F) (s : nat → list F).
Implicit Types (S : batch (list F)).

(** The two functions on a batch of systems never raise, and what they
    return is given element by element with the scale of the batch, which
    is positive.  The shift is a batch that broadcasts to the batch shape
    of the matrices. *)
Lemma batch_factor_solve_total bs b k n t V B s S :
  b = numel bs → 0 < b → 0 < n →
  (∀ f, f < b → mat_wf (V f) ∧ mrows (V f) = k ∧ mcols (V f) = n) →
  (∀ f, f < b → length (s f) = n ∧ Forall (λ z, szero ≺ z) (s f)) →
  (∀ f, f < b → mat_wf (B f) ∧ mrows (B f) = n ∧ mcols (B f) = t) →
  broadcasts_as bs S s →
  woodbury_factor_batch (batch_tab bs b V) S
  = Val (batch_tab bs b (λ f, factor_b (scale_b S) (V f) (s f)))
  ∧ woodbury_solve_batch (batch_tab bs b B) (batch_tab bs b V)
      (batch_tab bs b (λ f, factor_b (scale_b S) (V f) (s f))) S
    = Val (batch_tab bs b (λ f,
        solve_b (scale_b S) (V f)
                (factor_b (scale_b S) (V f) (s f)) (B f) (s f)))
  ∧ szero ≺ scale_b S.
Proof.
  intros Hbs Hb Hn HV Hs HB HS.
  pose proof (scale_of_pos bs b n s S Hbs Hb Hn Hs HS) as Ha.
  split; [by eapply woodbury_factor_batch_total|].
  split; [eapply woodbury_solve_batch_total; try done|done].
  intros f Hf. destruct (HV f Hf) as (?&?&?), (Hs f Hf) as [??].
  by apply factor_b_shape.
Qed.

(** With a shift that broadcasts to the batch as [s], the two functions
    return a batch of the batch shape whose element [f] solves the system
    of [V f] and [s f]. *)
Lemma batch_solves bs b k n t V B s S :
  b = numel bs → 0 < b → 0 < n →
  (∀ f, f < b → mat_wf (V f) ∧ mrows (V f) = k ∧ mcols (V f) = n) →
  (∀ f, f < b → length (s f) = n ∧ Forall (λ z, szero ≺ z) (s f)) →
  (∀ f, f < b → mat_wf (B f) ∧ mrows (B f) = n ∧ mcols (B f) = t) →
  broadcasts_as bs S s →
  ∃ Rb Xb,
    woodbury_factor_batch (batch_tab bs b V) S = Val Rb
    ∧ woodbury_solve_batch (batch_tab bs b B) (batch_tab bs b V) Rb S = Val Xb
    ∧ b_shape Xb = bs ∧ length (b_elems Xb) = b
    ∧ ∀ f X, b_elems Xb !! f = Some X →
        matmul (shifted_system (V f) (s f)) X = Val (B f).
Proof.
  intros Hbs Hb Hn HV Hs HB HS.
  destruct (batch_factor_solve_total bs b k n t V B s S) as (HR&HX&Ha);
    [done..|].
  eexists _, _. split; [exact HR|]. split; [exact HX|].
  split; [done|]. split; [simpl; by rewrite length_fmap, length_seq|].
  intros f X [Hf ->]%batch_tab_lookup.
  destruct (HV f Hf) as (?&?&?), (Hs f Hf) as [??], (HB f Hf) as (?&?&?).
  apply solve_factor_b_correct; (done || congruence).
Qed.

(** C9.  The two functions on a batch of systems, in exact arithmetic:
    for [b > 0] matrices [V f] of shape [k x n], positive shifts and
    right-hand sides [B f] of shape [n x t], [woodbury_factor] returns a
    batch of factors, [woodbury_solve] with it returns a batch of the same
    batch shape, and its element [f] solves
    [(diag(shift f) + V f' V f) X = B f], although the scale of lines 104
    and 136 is the maximum over the whole batch. *)
Theorem woodbury_batch_correct bs b k n t V B s :
  b = numel bs → 0 < b → 0 < n →
  (∀ f, f < b → mat_wf (V f) ∧ mrows (V f) = k ∧ mcols (V f) = n) →
  (∀ f, f < b → length (s f) = n ∧ Forall (λ z, szero ≺ z) (s f)) →
  (∀ f, f < b → mat_wf (B f) ∧ mrows (B f) = n ∧ mcols (B f) = t) →
  ∃ Rb Xb,
    woodbury_factor_batch (batch_tab bs b V) (batch_tab bs b s) = Val Rb
    ∧ woodbury_solve_batch (batch_tab bs b B) (batch_tab bs b V) Rb
                           (batch_tab bs b s) = Val Xb
    ∧ b_shape Xb = bs ∧ length (b_elems Xb) = b
    ∧ ∀ f X, b_elems Xb !! f = Some X →
        matmul (shifted_system (V f) (s f)) X = Val (B f).
Proof.
  intros Hbs. intros. apply (batch_solves bs b k n t); try done.
  subst b. apply broadcasts_as_tab.
Qed.

(** C19.  A shift without batch dimensions is shared by the batch: for
    [b > 0] matrices [V f] of shape [k x n], one positive shift of length
    [n] and right-hand sides [B f] of shape [n x t], the two functions
    broadcast the shift over the batch and raise nothing, and the element
    [f] of the result solves [(diag(shift) + V f' V f) X = B f]. *)
Theorem woodbury_shared_shift bs b k n t V B (shift : list F) :
  b = numel bs → 0 < b → 0 < n →
  (∀ f, f < b → mat_wf (V f) ∧ mrows (V f) = k ∧ mcols (V f) = n) →
  length shift = n → Forall (λ z, szero ≺ z) shift →
  (∀ f, f < b → mat_wf (B f) ∧ mrows (B f) = n ∧ mcols (B f) = t) →
  ∃ Rb Xb,
    woodbury_factor_batch (batch_tab bs b V) (Batch [] [shift]) = Val Rb
    ∧ woodbury_solve_batch (batch_tab bs b B) (batch_tab bs b V) Rb
                           (Batch [] [shift]) = Val Xb
    ∧ b_shape Xb = bs ∧ length (b_elems Xb) = b
    ∧ ∀ f X, b_elems Xb !! f = Some X →
        matmul (shifted_system (V f) shift) X = Val (B f).
Proof.
  intros. apply (batch_solves bs b k n t V B (λ _, shift)); try done.
  apply broadcasts_as_shared.
Qed.

(** C18.  Batch invariance of the solve: under the same hypotheses, the
    element [f] of the batch of solutions is what the two functions return
    for the system [f] alone. *)
Theorem woodbury_batch_invariant bs b k n t V B s :
  b = numel bs → 0 < b → 0 < n →
  (∀ f, f < b → mat_wf (V f) ∧ mrows (V f) = k ∧ mcols (V f) = n) →
  (∀ f, f < b → length (s f) = n ∧ Forall (λ z, szero ≺ z) (s f)) →
  (∀ f, f < b → mat_wf (B f) ∧ mrows (B f) = n ∧ mcols (B f) = t) →
  ∃ Rb Xb,
    woodbury_factor_batch (batch_tab bs b V) (batch_tab bs b s) = Val Rb
    ∧ woodbury_solve_batch (batch_tab bs b B) (batch_tab bs b V) Rb
                           (batch_tab bs b s) = Val Xb
    ∧ ∀ f X, b_elems Xb !! f = Some X →
        ∃ R, woodbury_factor (V f) (s f) = Val R
             ∧ woodbury_solve (T2 (B f)) (V f) R (s f) = Val (T2 X).
Proof.
  intros Hbs Hb Hn HV Hs HB.
  destruct (batch_factor_solve_total bs b k n t V B s (batch_tab bs b s))
    as (HR&HX&Ha); [done..|subst b; apply broadcasts_as_tab|].
  eexists _, _. split; [exact HR|]. split; [exact HX|].
  intros f X [Hf ->]%batch_tab_lookup.
  destruct (HV f Hf) as (?&?&?), (Hs f Hf) as [??], (HB f Hf) as (?&?&?).
  assert (szero ≺ scale_t (s f)) as Ha' by (apply scale_t_pos; (done || lia)).
  destruct (factor_b_shape (scale_t (s f)) (V f) (s f) k n) as [??];
    [done..|].
  eexists. split; [apply woodbury_factor_single; (done || congruence)|].
  rewrite woodbury_solve_single by (done || congruence). do 2 f_equal.
  apply (shifted_system_unique (V f) (s f) (B f));
    [congruence|done|apply mat_tab_wf|apply mat_tab_wf|done|done|..];
    apply solve_factor_b_correct; (done || congruence).
Qed.
End batch_theorems.

(** ** Runs and witnesses *)

(** Two systems with [k = 1] and [n = 2]: [V = (1, 0)] with the shift 3 and
    [V = (1/2, 0)] with the shift 3/4.  The scale of the batch is 4/3, the
    scale of the first system alone is 1/3. *)
Definition Vq : batch (mat Qc) :=
  Batch [2] [Mat 1 2 [[qc 1 1; qc 0 1]]; Mat 1 2 [[qc 1 2; qc 0 1]]].
Definition sq : batch (list Qc) :=
  Batch [2] [[qc 3 1; qc 3 1]; [qc 3 4; qc 3 4]].
Definition Bq : batch (mat Qc) :=
  Batch [2] [Mat 2 1 [[qc 4 1]; [qc 3 1]]; Mat 2 1 [[qc 1 1]; [qc 3 1]]].

(** The factor of a batch element depends on the other elements of
    the batch: in the batch the factor of the first system is [(1, 0)],
    alone it is [(1/4, 0)], four times smaller, the ratio of the two
    scales.  The solutions are the same, [(1, 1)]. *)
Example batch_factor_depends_on_batch :
  woodbury_factor_batch Vq sq
  = Val (Batch [2] [Mat 1 2 [[qc 1 1; qc 0 1]]; Mat 1 2 [[qc 1 2; qc 0 1]]])
  ∧ woodbury_factor (Mat 1 2 [[qc 1 1; qc 0 1]]) [qc 3 1; qc 3 1]
    = Val (Mat 1 2 [[qc 1 4; qc 0 1]])
  ∧ (R ← woodbury_factor_batch Vq sq; woodbury_solve_batch Bq Vq R sq)
    = Val (Batch [2] [Mat 2 1 [[qc 1 1]; [qc 1 1]];
                      Mat 2 1 [[qc 1 1]; [qc 4 1]]])
  ∧ (R ← woodbury_factor (Mat 1 2 [[qc 1 1; qc 0 1]]) [qc 3 1; qc 3 1];
     woodbury_solve (T2 (Mat 2 1 [[qc 4 1]; [qc 3 1]]))
                    (Mat 1 2 [[qc 1 1; qc 0 1]]) R [qc 3 1; qc 3 1])
    = Val (T2 (Mat 2 1 [[qc 1 1]; [qc 1 1]])).
Proof. split_and!; qc_decide. Qed.

(** A shift without batch dimensions is broadcast over the batch: two
    systems with [k = 1] and [n = 3], [V = (1, 1, 1)] and [V = (2, 2, 0)],
    share the shift [(1, 1, 1)].  Batch shapes that do not fit, and an
    empty batch (the maximum of line 104 is over no entries), are
    refused. *)
Definition Vq3 : batch (mat Qc) :=
  Batch [2] [Mat 1 3 [[qc 1 1; qc 1 1; qc 1 1]];
             Mat 1 3 [[qc 2 1; qc 2 1; qc 0 1]]].
Definition ones3 : list Qc := [qc 1 1; qc 1 1; qc 1 1].

Example run_batch_broadcast :
  woodbury_factor_batch Vq3 (Batch [] [ones3])
  = Val (Batch [2] [Mat 1 3 [[qc 1 4; qc 1 4; qc 1 4]];
                    Mat 1 3 [[qc 2 9; qc 2 9; qc 0 1]]])
  ∧ woodbury_factor_batch Vq3 (Batch [2] [ones3; ones3])
    = woodbury_factor_batch Vq3 (Batch [] [ones3])
  ∧ woodbury_factor_batch Vq3 (Batch [3] [ones3; ones3; ones3])
    = Raise RuntimeError
  ∧ woodbury_factor_batch (Batch [0] []) (Batch [0] []) = Raise RuntimeError.
Proof. split_and!; qc_decide. Qed.

(** A batch of vectors must be passed with a last dimension of size 1.
    Passed as a tensor of shape [(b, n)] it has two dimensions, line 138
    takes it for one [b x n] matrix of right-hand sides, and line 141
    broadcasts [inv_shift], of shape [(b, n, 1)], against it: with [b = 2]
    and [n = 3] the sizes do not fit; with [b = n = 2] they do, and the
    result is a batch of [2 x 2] matrices, not of vectors. *)
Example batch_of_vectors_misread :
  (R ← woodbury_factor_batch Vq3 (Batch [2] [ones3; ones3]);
   woodbury_solve_batch
     (Batch [] [Mat 2 3 [[qc 1 1; qc 1 1; qc 1 1]; [qc 1 1; qc 1 1; qc 1 1]]])
     Vq3 R (Batch [2] [ones3; ones3]))
  = Raise RuntimeError
  ∧ (R ← woodbury_factor_batch Vq sq;
     x ← woodbury_solve_batch
           (Batch [] [Mat 2 2 [[qc 4 1; qc 3 1]; [qc 1 1; qc 3 1]]]) Vq R sq;
     Val (b_shape x, (λ X, (mrows X, mcols X)) <$> b_elems x))
    = Val ([2], [(2, 2); (2, 2)]).
Proof. split; qc_decide. Qed.

(** A batch of two real systems with different shifts. *)
Definition sb (f : nat) : list R :=
  if decide (f = 0) then shift3r else [2; 2; 2]%R.
Definition B31r : mat R := Mat 3 1 [[2]; [2]; [1]]%R.

Lemma sb_pos f : length (sb f) = 3 ∧ Forall (λ z, szero ≺ z) (sb f).
Proof.
  unfold sb. case_decide; (split; [done|]); [exact shift3r_pos|].
  repeat (apply Forall_cons; split; [simpl; apply R_ltb_lt; lra|]).
  by apply Forall_nil.
Qed.

Lemma woodbury_batch_correct_witness :
  ∃ Rb Xb,
    woodbury_factor_batch (batch_tab [2] 2 (λ _, V23r)) (batch_tab [2] 2 sb)
    = Val Rb
    ∧ woodbury_solve_batch (batch_tab [2] 2 (λ _, B31r))
        (batch_tab [2] 2 (λ _, V23r)) Rb (batch_tab [2] 2 sb) = Val Xb
    ∧ b_shape Xb = [2] ∧ length (b_elems Xb) = 2
    ∧ ∀ f X, b_elems Xb !! f = Some X →
        matmul (shifted_system V23r (sb f)) X = Val B31r.
Proof.
  apply (woodbury_batch_correct [2] 2 2 3 1 (λ _, V23r) (λ _, B31r) sb);
    [done|lia|lia|intros; split; [exact V23r_wf|done]|intros; apply sb_pos|].
  intros. split; [by apply (bool_decide_unpack _)|done].
Defined.

Lemma woodbury_batch_invariant_witness :
  ∃ Rb Xb,
    woodbury_factor_batch (batch_tab [2] 2 (λ _, V23r)) (batch_tab [2] 2 sb)
    = Val Rb
    ∧ woodbury_solve_batch (batch_tab [2] 2 (λ _, B31r))
        (batch_tab [2] 2 (λ _, V23r)) Rb (batch_tab [2] 2 sb) = Val Xb
    ∧ ∀ f X, b_elems Xb !! f = Some X →
        ∃ R, woodbury_factor V23r (sb f) = Val R
             ∧ woodbury_solve (T2 B31r) V23r R (sb f) = Val (T2 X).
Proof.
  apply (woodbury_batch_invariant [2] 2 2 3 1 (λ _, V23r) (λ _, B31r) sb);
    [done|lia|lia|intros; split; [exact V23r_wf|done]|intros; apply sb_pos|].
  intros. split; [by apply (bool_decide_unpack _)|done].
Defined.

Lemma woodbury_shared_shift_witness :
  ∃ Rb Xb,
    woodbury_factor_batch (batch_tab [2] 2 (λ _, V23r)) (Batch [] [shift3r])
    = Val Rb
    ∧ woodbury_solve_batch (batch_tab [2] 2 (λ _, B31r))
        (batch_tab [2] 2 (λ _, V23r)) Rb (Batch [] [shift3r]) = Val Xb
    ∧ b_shape Xb = [2] ∧ length (b_elems Xb) = 2
    ∧ ∀ f X, b_elems Xb !! f = Some X →
        matmul (shifted_system V23r shift3r) X = Val B31r.
Proof.
  apply (woodbury_shared_shift [2] 2 2 3 1 (λ _, V23r) (λ _, B31r) shift3r);
    [done|lia|lia|intros; split; [exact V23r_wf|done]|done|exact shift3r_pos|].
  intros. split; [by apply (bool_decide_unpack _)|done].
Defined.
