(* ===== verification/PivotedCholeskyGram.v ===== *)
(** * PivotedCholeskyGram: the factor reproduces the matrix on its pivots

    The functional correctness of [pivoted_cholesky] in exact arithmetic:
    for a symmetric matrix [A] whose pivots are all positive, the rows
    [L_0 .. L_(m-1)] the function returns satisfy

      [sum_j L_j[p] * L_j[c] = A[p, c]]

    for every pivot [p] chosen and every column [c].  After [n] iterations
    every row is a pivot row and [L' L = A]: the full-rank recovery of the
    repository's specification.

    The proof maintains, through the iterations, the Cholesky recurrence of
    each row ([row_inv]) and the value of the deflated diagonal
    ([diag_inv]), and combines them at the end with the triangular shape of
    the factor in pivot order.  The same shape makes the rows linearly
    independent ([gram_rows_independent]). *)

From Stdlib Require Import Ring Field QArith Qcanon Reals.
From S2P Require Import Prelude Scalar ScalarInstances Tensor TensorOrder.
From S2P Require Import MatrixAccess Examples PivotedCholesky PivotedCholeskySpec.
From S2P Require Import PivotedCholeskyProofs PivotedCholeskyInvariants.
From S2P Require Import PivotedCholeskyOrder Matrix MatrixAlgebra.

(** ** The entries of row [m], for every element type *)

Section entries.
Context {F : Type} `{Scalar F}.
Implicit Types (e : elem F) (m n mi : nat) (Ls : list (list F)).

(** The entry of row [j] of [L] at column [c]. *)
Definition Lat e (j c : nat) : F := (L e !!! j) !!! c.

Lemma foldl_zip_with_lookup (acc : list F) (t : list (list F)) k idx :
  length acc = k → Forall (λ r, length r = k) t → idx < k →
  foldl (zip_with sadd) acc t !!! idx
  = foldl sadd (acc !!! idx) ((λ r, r !!! idx) <$> t).
Proof.
  intros Hacc Ht Hidx. revert acc Hacc.
  induction Ht as [|r t Hr _ IH]; intros acc Hacc; simpl; [done|].
  rewrite IH by (rewrite length_zip_with; lia). f_equal.
  apply list_lookup_total_correct. rewrite lookup_zip_with.
  by rewrite (list_lookup_lookup_total_lt acc idx),
    (list_lookup_lookup_total_lt r idx) by lia.
Qed.

(** [torch.sum(., dim=-2)] sums the columns from the first row on. *)
Lemma sum_dim0_lookup k (t : list (list F)) idx :
  Forall (λ r, length r = k) t → idx < k →
  sum_dim0 k t !!! idx = tsum ((λ r, r !!! idx) <$> t).
Proof.
  intros Ht Hidx. unfold sum_dim0, tsum.
  rewrite (foldl_zip_with_lookup _ _ k) by (done || apply length_zeros).
  f_equal. apply list_lookup_total_correct. by apply lookup_zeros.
Qed.

(** Line 70: the sum subtracted from the pivot row, at position [idx] of
    [pi_i]. *)
Lemma prods_t_sum m pi_m pi_i Ls idx c :
  m ≤ length Ls → pi_i !! idx = Some c →
  sum_dim0 (length pi_i) (prods_t m pi_m pi_i Ls) !!! idx
  = ssum m (λ k, (Ls !!! k) !!! pi_m ⊗ (Ls !!! k) !!! c).
Proof.
  intros Hm Hc. pose proof (lookup_lt_Some _ _ _ Hc) as Hidx.
  rewrite sum_dim0_lookup by (done || apply length_prods_t).
  unfold ssum, prods_t. f_equal.
  rewrite (list_tab (take m Ls) m) by (rewrite length_take; lia).
  rewrite <-!list_fmap_compose. apply tab_ext. intros k Hk. simpl.
  rewrite lookup_total_take_lt by done.
  apply list_lookup_total_correct. rewrite list_lookup_fmap.
  by rewrite (lookup_gather_t _ _ _ _ Hc).
Qed.
End entries.

(** ** One iteration, entry by entry *)

Section step_entries.
Context {F : Type} `{ExactField F} {M : Type} `{MatrixAccessLaws F M}.
Implicit Types (matrix : M) (e : elem F) (m n mi f : nat).

Add Field gram_entries_field : ef_field.

(** The entry of the matrix at row [r] and column [c] of batch element
    [f], as the loop fetches it (lines 58-61). *)
Definition entry matrix (f r c : nat) : F := row_t matrix f r !!! c.

(** Lines 66-72: the value written at position [idx] of [pi_i]. *)
Lemma new_entries_lookup m pi_m pi_i (row : list F) Ls idx c :
  m ≤ length Ls → pi_i !! idx = Some c →
  new_entries_t m pi_m pi_i row Ls !!! idx
  = (row !!! c ⊖ ssum m (λ k, (Ls !!! k) !!! pi_m ⊗ (Ls !!! k) !!! c))
    ⊘ ((Ls !!! m) !!! pi_m).
Proof.
  intros Hm Hc. pose proof (lookup_lt_Some _ _ _ Hc) as Hidx.
  unfold new_entries_t. apply list_lookup_total_correct.
  rewrite list_lookup_fmap.
  rewrite (list_lookup_lookup_total_lt (orthogonalize_t _ _ _ _ _) idx)
    by (by rewrite length_orthogonalize_t).
  simpl. do 2 f_equal. unfold orthogonalize_t. case_decide as Hm0.
  - apply list_lookup_total_correct. rewrite lookup_zip_with.
    rewrite (lookup_gather_t _ _ _ _ Hc). simpl.
    rewrite (list_lookup_lookup_total_lt (sum_dim0 _ _) idx)
      by (rewrite sum_dim0_length by apply length_prods_t; done).
    simpl. by rewrite (prods_t_sum m pi_m pi_i Ls idx c).
  - replace m with 0 by lia. rewrite ssum_0.
    rewrite (list_lookup_total_correct _ _ _ (lookup_gather_t _ _ _ _ Hc)).
    ring.
Qed.

(** The positions after [m] of the permutation are the entries of [pi_i]. *)
Lemma pi_i_lookup (p : list nat) m i :
  m < i → i < length p → drop (m + 1) p !! (i - (m + 1)) = Some (p !!! i).
Proof.
  intros Hm Hi. rewrite lookup_drop.
  replace (m + 1 + (i - (m + 1))) with i by lia.
  by apply list_lookup_lookup_total_lt.
Qed.

Lemma pre_t_Lat_other m e k c : k ≠ m → Lat (pre_t m e).1 k c = Lat e k c.
Proof.
  intros. unfold Lat. by rewrite !(list_lookup_total_alt (L _)), pre_t_L_other.
Qed.

(** After iteration [m], the entry of row [m] at a position [i > m] of the
    permutation is the new entry computed for it. *)
Lemma elem_step_Lat_new matrix mi m f e i :
  elem_wf (ma_n matrix) mi e → m < mi → mi ≤ ma_n matrix →
  m < i → i < ma_n matrix →
  Lat (elem_step matrix m f e) m (permutation (pre_t m e).1 !!! i)
  = new_entries_t m (pre_t m e).2 (drop (m + 1) (permutation (pre_t m e).1))
      (row_t matrix f (pre_t m e).2) (L (pre_t m e).1) !!! (i - (m + 1)).
Proof.
  intros Hwf Hm Hmi Hi Hn. pose proof (pre_t_wf _ _ _ _ Hwf Hm Hmi) as Hwf'.
  pose proof (wf_perm_length _ _ _ Hwf') as Hlen.
  unfold Lat, elem_step.
  rewrite post_t_row by (by rewrite (wf_L_rows _ _ _ Hwf')).
  rewrite decide_True by lia. apply list_lookup_total_correct.
  eapply scatter_t_lookup_in.
  - apply NoDup_drop, (perm_seq_NoDup _ _ (wf_perm _ _ _ Hwf')).
  - apply pi_i_lookup; lia.
  - apply list_lookup_lookup_total_lt.
    rewrite length_new_entries_t, length_drop. lia.
  - rewrite (wf_row_length _ _ _ _ Hwf') by done.
    apply perm_lookup_total_lt; [apply Hwf'|lia].
Qed.

(** Lines 66-73 in one formula: the Cholesky recurrence for the entry of
    row [m] at a position [i > m]. *)
Lemma elem_step_Lat_later matrix mi m f e i :
  elem_wf (ma_n matrix) mi e → m < mi → mi ≤ ma_n matrix →
  m < i → i < ma_n matrix →
  let p' := permutation (elem_step matrix m f e) in
  Lat (elem_step matrix m f e) m (p' !!! i)
  = (entry matrix f (p' !!! m) (p' !!! i)
     ⊖ ssum m (λ k, Lat e k (p' !!! m) ⊗ Lat e k (p' !!! i)))
    ⊘ ssqrt (pivot_of m e).1.
Proof.
  intros Hwf Hm Hmi Hi Hn p'.
  pose proof (pre_t_wf _ _ _ _ Hwf Hm Hmi) as Hwf'.
  pose proof (wf_perm_length _ _ _ Hwf') as Hlen.
  destruct (pre_t_pivot _ _ _ _ Hwf Hm Hmi) as [Hlt Hpi].
  apply list_lookup_total_correct in Hpi.
  assert (p' = permutation (pre_t m e).1) as ->
    by (unfold p', elem_step; by rewrite post_t_permutation).
  rewrite (elem_step_Lat_new _ mi) by done.
  rewrite (new_entries_lookup _ _ _ _ _ _ (permutation (pre_t m e).1 !!! i))
    by (rewrite ?(wf_L_rows _ _ _ Hwf'); (lia || apply pi_i_lookup; lia)).
  rewrite Hpi. unfold entry. f_equal.
  - f_equal. apply ssum_ext. intros k Hk.
    fold (Lat (pre_t m e).1 k (pre_t m e).2).
    fold (Lat (pre_t m e).1 k (permutation (pre_t m e).1 !!! i)).
    by rewrite !pre_t_Lat_other by lia.
  - rewrite pre_t_row by (by rewrite (wf_L_rows _ _ _ Hwf)).
    apply list_lookup_total_correct, list_lookup_insert_eq.
    by rewrite (wf_row_length (ma_n matrix) mi e m).
Qed.

(** Lines 75-76 at a position [i > m]: the square of the new entry is
    subtracted. *)
Lemma elem_step_diag_later matrix mi m f e i :
  elem_wf (ma_n matrix) mi e → m < mi → mi ≤ ma_n matrix →
  m < i → i < ma_n matrix →
  let p' := permutation (elem_step matrix m f e) in
  matrix_diag (elem_step matrix m f e) !!! (p' !!! i)
  = matrix_diag e !!! (p' !!! i) ⊖ ssqr (Lat (elem_step matrix m f e) m (p' !!! i)).
Proof.
  intros Hwf Hm Hmi Hi Hn p'.
  pose proof (pre_t_wf _ _ _ _ Hwf Hm Hmi) as Hwf'.
  pose proof (wf_perm_length _ _ _ Hwf') as Hlen.
  assert (p' = permutation (pre_t m e).1) as ->
    by (unfold p', elem_step; by rewrite post_t_permutation).
  rewrite (elem_step_Lat_new _ mi) by done.
  unfold elem_step, post_t. rewrite decide_True by lia. cbn [matrix_diag].
  rewrite (deflate_t_lookup_in _ _ _ (i - (m + 1))); [done| | | |].
  - apply NoDup_drop, (perm_seq_NoDup _ _ (wf_perm _ _ _ Hwf')).
  - apply pi_i_lookup; lia.
  - rewrite (wf_diag _ _ _ Hwf').
    apply perm_lookup_total_lt; [apply Hwf'|lia].
  - apply length_new_entries_t.
Qed.

(** ** The invariants *)

(** The Cholesky recurrence of the rows computed so far: for a row [j]
    whose pivot entry is not zero and a later position [i]. *)
Definition row_inv matrix f m e : Prop :=
  ∀ j i, j < m → j < i → i < ma_n matrix →
    Lat e j (permutation e !!! j) ≠ szero →
    Lat e j (permutation e !!! j) ⊗ Lat e j (permutation e !!! i)
    = entry matrix f (permutation e !!! j) (permutation e !!! i)
      ⊖ ssum j (λ k, Lat e k (permutation e !!! j)
                     ⊗ Lat e k (permutation e !!! i)).

(** The deflated diagonal: at a position [i], the diagonal entry of the
    matrix minus the squares of the rows computed before that position
    became a pivot. *)
Definition diag_inv matrix f m e : Prop :=
  ∀ i, i < ma_n matrix →
    diag_at e i
    = entry matrix f (permutation e !!! i) (permutation e !!! i)
      ⊖ ssum (i `min` m) (λ j, ssqr (Lat e j (permutation e !!! i))).

Lemma elem_step_Lat_other matrix m f e k c :
  k ≠ m → Lat (elem_step matrix m f e) k c = Lat e k c.
Proof. intros. unfold Lat. by rewrite elem_step_L_other_total. Qed.

(** A position of the permutation after the iteration holds what some
    position held before; positions before [m] are unchanged and positions
    from [m] on stay from [m] on. *)
Lemma elem_step_position matrix mi m f e i :
  elem_wf (ma_n matrix) mi e → m < mi → mi ≤ ma_n matrix → i < ma_n matrix →
  ∃ i', i' < ma_n matrix ∧ (i < m → i' = i) ∧ (m ≤ i → m ≤ i') ∧
        permutation (elem_step matrix m f e) !!! i = permutation e !!! i'.
Proof.
  intros Hwf Hm Hmi Hi.
  pose proof (pivot_of_bounds _ mi m e Hwf ltac:(lia)) as Hk.
  pose proof (wf_perm_length _ _ _ Hwf) as Hlen.
  destruct (decide (i < m)) as [Hlt|Hge].
  - exists i. split_and!; [done|done|lia|]. by apply (elem_step_perm_lookup _ mi).
  - destruct (swap_remaining (permutation e) m (pivot_of m e).2 i)
      as (i'&?&?&Hi'); [lia..|].
    exists i'. rewrite elem_step_permutation. split_and!; [lia|lia|done|done].
Qed.

Lemma elem_step_row_inv matrix mi m f e :
  elem_wf (ma_n matrix) mi e → m < mi → mi ≤ ma_n matrix →
  row_inv matrix f m e → row_inv matrix f (m + 1) (elem_step matrix m f e).
Proof.
  intros Hwf Hm Hmi Hrow j i Hj Hji Hi.
  destruct (decide (j = m)) as [->|Hne].
  - intros Hnz. rewrite (elem_step_Lat_later matrix mi m f e i) by done.
    cbv zeta.
    assert (Lat (elem_step matrix m f e) m
              (permutation (elem_step matrix m f e) !!! m)
            = ssqrt (pivot_of m e).1) as Hpiv.
    { destruct (pre_t_pivot _ _ _ _ Hwf Hm Hmi) as [_ Hpi].
      apply list_lookup_total_correct in Hpi.
      unfold Lat. apply list_lookup_total_correct.
      replace (permutation (elem_step matrix m f e))
        with (permutation (pre_t m e).1)
        by (unfold elem_step; by rewrite post_t_permutation).
      rewrite Hpi. by apply (elem_step_row_pivot _ mi). }
    rewrite Hpiv in *.
    rewrite (ssum_ext m
      (λ k, Lat (elem_step matrix m f e) k _ ⊗ Lat (elem_step matrix m f e) k _)
      (λ k, Lat e k (permutation (elem_step matrix m f e) !!! m)
            ⊗ Lat e k (permutation (elem_step matrix m f e) !!! i)))
      by (intros k Hk; by rewrite !elem_step_Lat_other by lia).
    by field.
  - destruct (elem_step_position matrix mi m f e i) as (i'&?&Hlt&Hge&Hi');
      [done..|].
    rewrite (elem_step_perm_lookup _ mi _ _ _ j) by (done || lia).
    rewrite Hi', !elem_step_Lat_other by done.
    rewrite (ssum_ext j
      (λ k, Lat (elem_step matrix m f e) k _ ⊗ Lat (elem_step matrix m f e) k _)
      (λ k, Lat e k (permutation e !!! j) ⊗ Lat e k (permutation e !!! i')))
      by (intros k Hk; by rewrite !elem_step_Lat_other by lia).
    apply Hrow; [lia| |done].
    destruct (decide (i < m)); [rewrite Hlt by done; lia|]. lia.
Qed.

(** The squares of the rows before [m] at a column, before and after the
    iteration. *)
Lemma elem_step_squares matrix m f e a c :
  a ≤ m →
  ssum a (λ j, ssqr (Lat (elem_step matrix m f e) j c))
  = ssum a (λ j, ssqr (Lat e j c)).
Proof.
  intros Ha. apply ssum_ext. intros j Hj.
  by rewrite elem_step_Lat_other by lia.
Qed.

Lemma elem_step_diag_inv matrix mi m f e :
  elem_wf (ma_n matrix) mi e → m < mi → mi ≤ ma_n matrix →
  diag_inv matrix f m e → diag_inv matrix f (m + 1) (elem_step matrix m f e).
Proof.
  intros Hwf Hm Hmi Hdiag i Hi.
  destruct (elem_step_position matrix mi m f e i) as (i'&Hi'n&Hlt&Hge&Hi');
    [done..|].
  destruct (decide (i ≤ m)) as [Hle|Hgt].
  - (* positions up to [m]: the diagonal entry is the one the position held *)
    assert (diag_at (elem_step matrix m f e) i = diag_at e i') as ->.
    { unfold diag_at at 1. rewrite Hi'. apply elem_step_diag_untouched.
      rewrite <-Hi'.
      replace (permutation (pre_t m e).1)
        with (permutation (elem_step matrix m f e))
        by (unfold elem_step; by rewrite post_t_permutation).
      eapply perm_prefix_notin;
        [apply (elem_step_wf _ mi); [done..]|lia|done]. }
    rewrite Hi', (Hdiag i' Hi'n), elem_step_squares by lia.
    do 2 f_equal. destruct (decide (i < m)); [rewrite Hlt by done|]; lia.
  - (* positions after [m]: one more square is subtracted *)
    unfold diag_at. rewrite (elem_step_diag_later _ mi) by (done || lia).
    cbv zeta. rewrite Hi'. fold (diag_at e i'). rewrite (Hdiag i' Hi'n).
    replace (i `min` (m + 1)) with (S m) by lia.
    replace (i' `min` m) with m by lia.
    rewrite ssum_S, elem_step_squares by lia. ring.
Qed.

(** ** Before the first iteration *)

(** The diagonal the function starts from holds the diagonal entries of
    the rows it fetches. *)
Lemma diag_t_entry matrix f d c :
  ma_wf matrix → f < numel (ma_batch_shape matrix) → c < ma_n matrix →
  diag_t matrix !! f = Some d → length d = ma_n matrix →
  d !!! c = entry matrix f c c.
Proof.
  intros Hwf Hf Hc Hd Hlen.
  destruct (ma_diag_wf matrix Hwf) as (d'&Hd'&_&_&Hent).
  destruct (ma_row_wf matrix _ f c Hwf (ravel_unravel _ _ Hf) Hc)
    as (row&Hrow&Hrlen&Hrent).
  unfold diag_t in Hd. rewrite Hd' in Hd. simpl in Hd.
  unfold entry, row_t. rewrite Hrow. simpl.
  assert (d !! c = Some (d !!! c)) as E1
    by (apply list_lookup_lookup_total_lt; lia).
  assert (row !! c = Some (row !!! c)) as E2
    by (apply list_lookup_lookup_total_lt; lia).
  apply (Hent f d c _ Hd) in E1. apply Hrent in E2. congruence.
Qed.

Lemma init_elem_diag_inv matrix f L0 d :
  ma_wf matrix → f < numel (ma_batch_shape matrix) →
  diag_t matrix !! f = Some d → length d = ma_n matrix →
  diag_inv matrix f 0 (init_elem L0 (ma_n matrix) d).
Proof.
  intros Hwf Hf Hd Hlen i Hi.
  unfold diag_at, init_elem, arange; cbn [matrix_diag permutation].
  rewrite (list_lookup_total_correct _ _ _ (lookup_seq_0 _ _ Hi)).
  rewrite Nat.min_0_r, ssum_0, (diag_t_entry matrix f d i) by done. ring.
Qed.
End step_entries.

(** ** The factor on the pivots *)

Section gram.
Context {F : Type} `{ExactField F} {M : Type} `{MatrixAccessLaws F M}.
Implicit Types (matrix : M) (e : elem F) (m n mi f : nat).

Add Field gram_field : ef_field.

(** What the loop maintains for one batch element. *)
Record gram_inv matrix mi f m e : Prop := {
  gi_wf : elem_wf (ma_n matrix) mi e;
  gi_zero : rows_zero (ma_n matrix) m e;
  gi_tri : pivot_triangular m e;
  gi_piv : pivot_entries m e;
  gi_row : row_inv matrix f m e;
  gi_diag : diag_inv matrix f m e;
}.

(** The matrix of a batch element is symmetric. *)
Definition symmetric matrix f : Prop :=
  ∀ r c, r < ma_n matrix → c < ma_n matrix →
         entry matrix f r c = entry matrix f c r.

(** Every pivot chosen was positive. *)
Definition pivots_positive m e : Prop := ∀ j, j < m → szero ≺ diag_at e j.

(** The square root taken of every pivot was exact and not zero: what
    positive pivots give where [sqrt] is exact, and what can be computed
    where it is not (the rationals, when the pivots are squares). *)
Definition pivots_exact m e : Prop :=
  ∀ j, j < m →
    ssqrt (diag_at e j) ≠ szero
    ∧ ssqrt (diag_at e j) ⊗ ssqrt (diag_at e j) = diag_at e j.

Lemma elem_step_gram_inv matrix mi m f e :
  m < mi → mi ≤ ma_n matrix →
  gram_inv matrix mi f m e →
  gram_inv matrix mi f (m + 1) (elem_step matrix m f e).
Proof.
  intros Hm Hmi [Hwf Hz Ht Hp Hr Hd]. split.
  - by apply elem_step_wf.
  - by apply elem_step_rows_zero.
  - by eapply elem_step_triangular.
  - by eapply elem_step_pivot_entries.
  - by eapply elem_step_row_inv.
  - by eapply elem_step_diag_inv.
Qed.

Lemma init_elem_gram_inv matrix mi f d :
  ma_wf matrix → f < numel (ma_batch_shape matrix) →
  diag_t matrix !! f = Some d → length d = ma_n matrix →
  gram_inv matrix mi f 0
    (init_elem (replicate mi (zeros (ma_n matrix))) (ma_n matrix) d).
Proof.
  intros Hwf Hf Hd Hlen. split.
  - by apply init_elem_wf.
  - apply init_elem_rows_zero.
  - intros j i ?. lia.
  - intros j ?. lia.
  - intros j i ?. lia.
  - by apply init_elem_diag_inv.
Qed.

(** The pivot entry of a row is the square root of its pivot. *)
Lemma pivot_entry_sqr m e j :
  pivot_entries m e → pivots_exact m e → j < m →
  Lat e j (permutation e !!! j) ≠ szero
  ∧ Lat e j (permutation e !!! j) ⊗ Lat e j (permutation e !!! j)
    = diag_at e j.
Proof.
  intros Hp Hpos Hj. unfold Lat. rewrite (Hp j Hj). fold (diag_at e j).
  by apply Hpos.
Qed.

(** The identity for a pivot position [i] and a position [t] that is not
    before it. *)
Lemma gram_upper matrix mi f m e i t :
  gram_inv matrix mi f m e → pivots_exact m e →
  i < m → i ≤ t → t < ma_n matrix →
  ssum m (λ j, Lat e j (permutation e !!! i) ⊗ Lat e j (permutation e !!! t))
  = entry matrix f (permutation e !!! i) (permutation e !!! t).
Proof.
  intros [Hwf Hz Ht Hp Hr Hd] Hpos Hi Hit Htn.
  destruct (pivot_entry_sqr m e i Hp Hpos Hi) as [Hnz Hsq].
  rewrite (ssum_truncate m (S i)); [|lia|].
  2:{ intros j Hj Hjm. unfold Lat at 1. rewrite (Ht j i) by lia. ring. }
  rewrite ssum_S. destruct (decide (t = i)) as [->|Hne].
  - rewrite Hsq, (Hd i) by lia. replace (i `min` m) with i by lia.
    unfold ssqr. ring.
  - rewrite (Hr i t) by (done || lia). ring.
Qed.

(** The rows of the factor reproduce the rows of the matrix at the pivots. *)
Lemma gram_pivot_rows matrix mi f m e i c :
  gram_inv matrix mi f m e → pivots_exact m e → symmetric matrix f →
  m ≤ ma_n matrix → i < m → c < ma_n matrix →
  ssum m (λ j, Lat e j (permutation e !!! i) ⊗ Lat e j c)
  = entry matrix f (permutation e !!! i) c.
Proof.
  intros Hinv Hpos Hsym Hm Hi Hc.
  destruct (perm_position _ _ c (wf_perm _ _ _ (gi_wf _ _ _ _ _ Hinv)) Hc)
    as (t&Ht&<-).
  destruct (decide (i ≤ t)); [by eapply gram_upper|].
  rewrite Hsym by (apply perm_lookup_total_lt; [apply Hinv|lia]).
  rewrite <-(gram_upper matrix mi f m e t i) by (done || lia).
  apply ssum_ext. intros j _. ring.
Qed.

(** After [n] iterations every row is a pivot row. *)
Lemma gram_all_rows matrix mi f e r c :
  gram_inv matrix mi f (ma_n matrix) e → pivots_exact (ma_n matrix) e →
  symmetric matrix f → r < ma_n matrix → c < ma_n matrix →
  ssum (ma_n matrix) (λ j, Lat e j r ⊗ Lat e j c) = entry matrix f r c.
Proof.
  intros Hinv Hpp Hsym Hr Hc.
  destruct (perm_position _ _ r (wf_perm _ _ _ (gi_wf _ _ _ _ _ Hinv)) Hr)
    as (i&Hi&<-).
  by eapply gram_pivot_rows.
Qed.

(** The invariants hold in the state the function ends in. *)
Lemma final_gram_inv matrix max_iter error_tol :
  ma_wf matrix → (0 ≤ max_iter)%Z → 0 < numel (ma_batch_shape matrix) →
  ∃ st, pivoted_cholesky_state matrix max_iter error_tol = Val st ∧
        ∀ f e, st_elems st !! f = Some e →
               st_m st ≤ mi_of matrix max_iter ≤ ma_n matrix
               ∧ gram_inv matrix (mi_of matrix max_iter) f (st_m st) e.
Proof.
  intros Hwf Hmax Hpos.
  apply (final_elem_invariant (λ m f e,
    m ≤ mi_of matrix max_iter ≤ ma_n matrix
    ∧ gram_inv matrix (mi_of matrix max_iter) f m e));
    [done..| |].
  - intros m f e _ Hm Hmi _ [_ Hinv]. split; [lia|].
    by apply elem_step_gram_inv.
  - intros f d Hd Hlen.
    split; [pose proof (mi_of_le matrix max_iter); lia|].
    apply init_elem_gram_inv; [done| |done..].
    rewrite <-(proj1 (proj2 (diag_t_spec matrix Hwf))).
    by eapply lookup_lt_Some.
Qed.

(** C11.  The factor reproduces the matrix on its pivots: in exact
    arithmetic, for a batch element whose matrix is symmetric and whose
    pivots had exact, non-zero square roots, the [m] rows the function
    computed satisfy [sum_j L_j[p] * L_j[c] = A[p, c]] for every pivot [p]
    chosen and every column [c]. *)
Theorem factor_reproduces_pivots matrix max_iter error_tol :
  ma_wf matrix → (0 ≤ max_iter)%Z → 0 < numel (ma_batch_shape matrix) →
  ∃ st, pivoted_cholesky_state matrix max_iter error_tol = Val st ∧
        ∀ f e, st_elems st !! f = Some e →
          symmetric matrix f → pivots_exact (st_m st) e →
          ∀ i c, i < st_m st → c < ma_n matrix →
            ssum (st_m st) (λ j, Lat e j (permutation e !!! i) ⊗ Lat e j c)
            = entry matrix f (permutation e !!! i) c.
Proof.
  intros Hwf Hmax Hpos.
  destruct (final_gram_inv matrix max_iter error_tol) as (st&Hst&Hall);
    [done..|].
  exists st. split; [done|]. intros f e He Hsym Hpp i c Hi Hc.
  destruct (Hall f e He) as [Hm Hinv].
  eapply gram_pivot_rows; [done..|lia|done|done].
Qed.

(** Full-rank recovery: when the loop has run [n] times on a
    symmetric matrix and the square roots of its pivots were exact and not
    zero, [L' L] is the matrix. *)
Theorem full_rank_recovery matrix max_iter error_tol :
  ma_wf matrix → (0 ≤ max_iter)%Z → 0 < numel (ma_batch_shape matrix) →
  ∃ st, pivoted_cholesky_state matrix max_iter error_tol = Val st ∧
        ∀ f e, st_elems st !! f = Some e →
          symmetric matrix f → pivots_exact (st_m st) e →
          st_m st = ma_n matrix →
          ∀ r c, r < ma_n matrix → c < ma_n matrix →
            ssum (ma_n matrix) (λ j, Lat e j r ⊗ Lat e j c)
            = entry matrix f r c.
Proof.
  intros Hwf Hmax Hpos.
  destruct (final_gram_inv matrix max_iter error_tol) as (st&Hst&Hall);
    [done..|].
  exists st. split; [done|]. intros f e He Hsym Hpp Hfull r c Hr Hc.
  destruct (Hall f e He) as [Hm Hinv]. rewrite Hfull in Hinv, Hpp.
  by eapply gram_all_rows.
Qed.
(** No row of the factor is a combination of the others. *)
Definition rows_independent n m e : Prop :=
  ∀ c : nat → F,
    (∀ col, col < n → ssum m (λ j, c j ⊗ Lat e j col) = szero) →
    ∀ j, j < m → c j = szero.

Lemma gram_rows_independent matrix mi f m e :
  gram_inv matrix mi f m e → pivots_exact m e → m ≤ ma_n matrix →
  rows_independent (ma_n matrix) m e.
Proof.
  intros [Hwf _ Htri Hpiv _ _] Hpp Hm c Hc.
  apply (triangular_independent m (λ j i, Lat e j (permutation e !!! i))).
  - intros j i Hj Hi. by apply Htri.
  - intros j Hj. unfold Lat. rewrite Hpiv by done. by apply Hpp.
  - intros i Hi. apply Hc, (perm_lookup_total_lt _ _ _ (wf_perm _ _ _ Hwf)).
    lia.
Qed.
End gram.

(** ** Positive pivots, where the square root is exact *)

Section positive.
Context {F : Type} `{ExactSqrt F} {M : Type} `{MatrixAccessLaws F M}.
Implicit Types (matrix : M) (e : elem F) (m n mi f : nat).

Lemma pivots_positive_exact m e : pivots_positive m e → pivots_exact m e.
Proof.
  intros Hpos j Hj. pose proof (Hpos j Hj) as Hlt.
  pose proof (ef_lt_le_weak _ _ Hlt) as Hge. split.
  - intros Hz. apply es_sqrt_zero_iff in Hz; [|done].
    rewrite Hz, ef_lt_irrefl in Hlt. done.
  - by apply es_sqrt_sqr.
Qed.

(** Where the square root is exact (the real numbers), positive
    pivots are enough: the rows computed for a symmetric matrix whose
    pivots were all positive reproduce the rows of the matrix at the
    pivots, and after [n] iterations [L' L] is the matrix. *)
Theorem positive_pivots_recovery matrix max_iter error_tol :
  ma_wf matrix → (0 ≤ max_iter)%Z → 0 < numel (ma_batch_shape matrix) →
  ∃ st, pivoted_cholesky_state matrix max_iter error_tol = Val st ∧
        ∀ f e, st_elems st !! f = Some e →
          symmetric matrix f → pivots_positive (st_m st) e →
          (∀ i c, i < st_m st → c < ma_n matrix →
             ssum (st_m st) (λ j, Lat e j (permutation e !!! i) ⊗ Lat e j c)
             = entry matrix f (permutation e !!! i) c)
          ∧ (st_m st = ma_n matrix →
             ∀ r c, r < ma_n matrix → c < ma_n matrix →
               ssum (ma_n matrix) (λ j, Lat e j r ⊗ Lat e j c)
               = entry matrix f r c).
Proof.
  intros Hwf Hmax Hpos.
  destruct (final_gram_inv matrix max_iter error_tol) as (st&Hst&Hall);
    [done..|].
  exists st. split; [done|]. intros f e He Hsym Hpp%pivots_positive_exact.
  destruct (Hall f e He) as [Hm Hinv]. split.
  - intros i c Hi Hc. eapply gram_pivot_rows; [done..|lia|done|done].
  - intros Hfull r c Hr Hc. rewrite Hfull in Hinv, Hpp.
    by eapply gram_all_rows.
Qed.
End positive.

(** ** The identity on a run *)

(** The batch [B233] after three iterations: both matrices are symmetric
    and the square roots of their pivots are exact rationals. *)
Lemma B233_recovery_hypotheses :
  ∃ st, pivoted_cholesky_state B233 3 (qc 1 1000) = Val st ∧ st_m st = 3 ∧
        ∀ f e, st_elems st !! f = Some e →
               symmetric B233 f ∧ pivots_exact 3 e.
Proof.
  eexists. split; [vm_compute; reflexivity|]. split; [done|].
  intros [|[|f]] e [= <-]; (split;
    [intros [|[|[|r]]] [|[|[|c]]] Hr Hc; try (exfalso; simpl in *; lia)
    |intros [|[|[|j]]] Hj; [..|lia]; split]; qc_decide).
Qed.

Lemma factor_reproduces_pivots_witness :
  ∃ st, pivoted_cholesky_state B233 3 (qc 1 1000) = Val st ∧
        ∀ f e, st_elems st !! f = Some e →
          ∀ i c, i < 3 → c < 3 →
            ssum 3 (λ j, Lat e j (permutation e !!! i) ⊗ Lat e j c)
            = entry B233 f (permutation e !!! i) c.
Proof.
  destruct (factor_reproduces_pivots B233 3 (qc 1 1000))
    as (st&Hst&Hall); [exact B233_wf|lia|vm_compute; lia|].
  destruct B233_recovery_hypotheses as (st'&Hst'&Hm&Hhyp).
  rewrite Hst in Hst'. injection Hst' as <-.
  exists st. split; [done|]. intros f e He. rewrite Hm in Hall.
  destruct (Hhyp f e He). by apply (Hall f e He).
Defined.

Lemma full_rank_recovery_witness :
  ∃ st, pivoted_cholesky_state B233 3 (qc 1 1000) = Val st ∧
        ∀ f e, st_elems st !! f = Some e →
          ∀ r c, r < 3 → c < 3 →
            ssum 3 (λ j, Lat e j r ⊗ Lat e j c) = entry B233 f r c.
Proof.
  destruct (full_rank_recovery B233 3 (qc 1 1000))
    as (st&Hst&Hall); [exact B233_wf|lia|vm_compute; lia|].
  destruct B233_recovery_hypotheses as (st'&Hst'&Hm&Hhyp).
  rewrite Hst in Hst'. injection Hst' as <-.
  exists st. split; [done|]. intros f e He. rewrite Hm in Hall.
  destruct (Hhyp f e He). by apply (Hall f e He).
Defined.

(** [A22] over the real numbers. *)
Definition A22R : dense R := Dense [] 2 2 [[[4; 2]; [2; 2]]]%R.

Lemma positive_pivots_recovery_witness :
  ∃ st, pivoted_cholesky_state A22R 2 (1 / 1000)%R = Val st ∧
        ∀ f e, st_elems st !! f = Some e →
          symmetric A22R f → pivots_positive (st_m st) e →
          (∀ i c, i < st_m st → c < ma_n A22R →
             ssum (st_m st) (λ j, Lat e j (permutation e !!! i) ⊗ Lat e j c)
             = entry A22R f (permutation e !!! i) c)
          ∧ (st_m st = ma_n A22R →
             ∀ r c, r < ma_n A22R → c < ma_n A22R →
               ssum (ma_n A22R) (λ j, Lat e j r ⊗ Lat e j c)
               = entry A22R f r c).
Proof.
  apply (positive_pivots_recovery A22R 2 (1 / 1000)%R);
    [by apply (bool_decide_unpack _)|lia|simpl; lia].
Defined.
