(* ===== verification/PivotedCholeskyPositive.v ===== *)
(** * PivotedCholeskyPositive: symmetric positive definite matrices

    For a symmetric positive definite matrix [A] the hypotheses of
    [PivotedCholeskyGram] hold by themselves.  At every iteration each
    diagonal entry still to be factored is positive
    ([remaining_positive]): it is the value of the quadratic form of [A] at
    a vector that is not zero, by the argument of [CholeskyTotal] in the
    order of the pivots.  Hence every pivot is positive, the error is
    positive while columns remain, and with a tolerance that is not
    positive the loop runs [min(max_iter, n)] times. *)

From Stdlib Require Import Ring Field Reals Lra.
From S2P Require Import Prelude Scalar ScalarInstances Tensor TensorOrder.
From S2P Require Import MatrixAccess Examples PivotedCholesky PivotedCholeskySpec.
From S2P Require Import PivotedCholeskyProofs PivotedCholeskyInvariants.
From S2P Require Import PivotedCholeskyOrder Matrix MatrixAlgebra.
From S2P Require Import DenseSolver DenseSolverProofs QuadraticForms CholeskyTotal.
From S2P Require Import PivotedCholeskyGram.

(** ** The diagonal still to be factored *)

Section remaining.
Context {F : Type} `{ExactField F} {M : Type} `{MatrixAccessLaws F M}.
Implicit Types (matrix : M) (e : elem F) (m n mi f : nat).

(** The matrix of batch element [f] is positive definite. *)
Definition pos_def_at matrix f : Prop := pd_fun (ma_n matrix) (entry matrix f).

Lemma remaining_positive matrix mi f m e i :
  gram_inv matrix mi f m e → pivots_exact m e →
  symmetric matrix f → pos_def_at matrix f →
  m ≤ i → i < ma_n matrix → szero ≺ diag_at e i.
Proof.
  intros Hinv Hpp Hsym Hpd Hmi Hi.
  pose proof (gi_wf _ _ _ _ _ Hinv) as Hwf.
  pose proof (wf_perm_length _ _ _ Hwf) as Hlen.
  set (p := swap m i (permutation e)).
  assert (p ≡ₚ seq 0 (ma_n matrix)) as Hp
    by (unfold p; rewrite swap_Permutation by lia; apply Hwf).
  assert (∀ t, t < m → p !!! t = permutation e !!! t) as Hpt.
  { intros t Ht. apply list_lookup_total_correct. unfold p.
    rewrite swap_lookup_ne by lia. apply list_lookup_lookup_total_lt. lia. }
  assert (p !!! m = permutation e !!! i) as Hpm
    by (apply list_lookup_total_correct, swap_lookup_l; lia).
  rewrite (gi_diag _ _ _ _ _ Hinv i Hi), Nat.min_r, <-Hpm by lia.
  apply (schur_positive (ma_n matrix) m
    (λ a b, entry matrix f (p !!! a) (p !!! b))
    (λ a t, Lat e t (p !!! a)) (λ t, Lat e t (p !!! m))); [lia|..].
  - by apply pd_fun_perm.
  - intros a b Ha Hb. apply Hsym; by apply perm_lookup_total_lt.
  - intros a t Hat Ht. rewrite Hpt by lia. apply (gi_tri _ _ _ _ _ Hinv); lia.
  - intros a Ha. rewrite Hpt by done.
    eapply pivot_entry_sqr; [apply Hinv|done..].
  - intros a b Ha Hb. rewrite !Hpt by done.
    apply (gram_pivot_rows matrix mi f m e a); [done..|lia|done|].
    apply perm_lookup_total_lt; [apply Hwf|lia].
  - intros a Ha. rewrite Hpt by done.
    rewrite Hsym by (apply perm_lookup_total_lt; (done || apply Hwf || lia)).
    apply (gram_pivot_rows matrix mi f m e a); [done..|lia|done|].
    apply perm_lookup_total_lt; [done|lia].
Qed.
End remaining.

(** ** Every pivot is positive *)

Section positive.
Context {F : Type} `{ExactSqrt F} {M : Type} `{MatrixAccessLaws F M}.
Implicit Types (matrix : M) (e : elem F) (st : state F) (m n mi f : nat).

Lemma elem_step_pivots_positive matrix mi f m e :
  m < mi → mi ≤ ma_n matrix → gram_inv matrix mi f m e →
  symmetric matrix f → pos_def_at matrix f →
  pivots_positive m e → pivots_positive (m + 1) (elem_step matrix m f e).
Proof.
  intros Hm Hmi Hinv Hsym Hpd Hpos j Hj.
  pose proof (gi_wf _ _ _ _ _ Hinv) as Hwf.
  destruct (decide (j = m)) as [->|Hne].
  - rewrite (elem_step_diag_at_pivot matrix mi) by done.
    rewrite (pivot_of_diag_at (ma_n matrix) mi) by (done || lia).
    pose proof (pivot_of_bounds _ mi m e Hwf ltac:(lia)).
    eapply remaining_positive; [done|by apply pivots_positive_exact|done..|lia|lia].
  - rewrite (elem_step_diag_at_earlier matrix mi) by (done || lia).
    apply Hpos. lia.
Qed.

(** What the loop maintains for a batch element. *)
Record pd_inv matrix mi f m e : Prop := {
  pi_m : m ≤ mi ≤ ma_n matrix;
  pi_gram : gram_inv matrix mi f m e;
  pi_errors : errors_inv (ma_n matrix) m e;
  pi_pos : symmetric matrix f → pos_def_at matrix f → pivots_positive m e;
}.

Lemma final_pd_inv matrix max_iter error_tol f e :
  ma_wf matrix →
  st_elems (final_t matrix max_iter error_tol) !! f = Some e →
  pd_inv matrix (mi_of matrix max_iter) f
         (st_m (final_t matrix max_iter error_tol)) e.
Proof.
  intros Hwf. revert f e.
  apply (final_t_invariant
    (λ m f e, pd_inv matrix (mi_of matrix max_iter) f m e)); [done|..].
  - intros m f e _ Hm Hmi _ [Hle Hinv Herr Hpos]. split.
    + lia.
    + by apply elem_step_gram_inv.
    + apply elem_step_errors.
    + intros Hsym Hpd. eapply elem_step_pivots_positive; eauto.
  - intros f d Hd Hlen. split.
    + pose proof (mi_of_le matrix max_iter). lia.
    + apply init_elem_gram_inv; [done| |done..].
      rewrite <-(proj1 (proj2 (diag_t_spec matrix Hwf))).
      by eapply lookup_lt_Some.
    + by apply init_elem_errors.
    + intros _ _ j ?. lia.
Qed.

(** While columns remain the error of a positive definite element is
    positive. *)
Lemma pd_errors_positive matrix mi f m e :
  pd_inv matrix mi f m e → symmetric matrix f → pos_def_at matrix f →
  m < ma_n matrix → szero ≺ errors e.
Proof.
  intros [Hle Hinv Herr Hpos] Hsym Hpd Hm. rewrite Herr by done.
  pose proof (gi_wf _ _ _ _ _ Hinv) as Hwf.
  apply ef_lt_of_le_neq; [apply norm1_nonneg|]. intros Hz.
  pose proof (norm1_zero _ (eq_sym Hz)) as Hall.
  pose proof (remaining_lookup _ mi m e m Hwf ltac:(lia) Hm) as Hlk.
  pose proof (Forall_lookup_1 _ _ _ _ Hall Hlk) as Hd. simpl in Hd.
  pose proof (remaining_positive matrix mi f m e m Hinv
    (pivots_positive_exact _ _ (Hpos Hsym Hpd)) Hsym Hpd ltac:(lia) Hm) as Hlt.
  rewrite Hd, ef_lt_irrefl in Hlt. done.
Qed.

(** With a tolerance that is not positive and one positive definite
    element in the batch, the loop runs [min(max_iter, n)] times. *)
Lemma pd_runs_to_max_iter matrix max_iter error_tol f e :
  ma_wf matrix → st_elems (final_t matrix max_iter error_tol) !! f = Some e →
  symmetric matrix f → pos_def_at matrix f → error_tol ≼ szero →
  st_m (final_t matrix max_iter error_tol) = mi_of matrix max_iter.
Proof.
  intros Hwf He Hsym Hpd Htol.
  pose proof (final_t_wf matrix max_iter error_tol Hwf) as Hst.
  pose proof (loop_t_stops (mi_of matrix max_iter) matrix
    (mi_of matrix max_iter) error_tol (init_t matrix max_iter)
    ltac:(simpl; lia)) as Hstop.
  fold (final_t matrix max_iter error_tol) in Hstop.
  pose proof (swf_m _ _ _ Hst). pose proof (swf_mi _ _ _ Hst).
  destruct (decide (st_m (final_t matrix max_iter error_tol)
                    = mi_of matrix max_iter)) as [|Hne]; [done|exfalso].
  pose proof (pd_errors_positive _ _ _ _ _
    (final_pd_inv matrix max_iter error_tol f e Hwf He) Hsym Hpd ltac:(lia))
    as Herr.
  unfold continue_t in Hstop. rewrite bool_decide_eq_true_2 in Hstop by lia.
  assert (error_tol ≺ (argmax (errors <$> st_elems
            (final_t matrix max_iter error_tol))).1) as Hlt; [|simpl in *; congruence].
  eapply ef_le_lt_trans; [exact Htol|]. eapply ef_lt_le_trans; [exact Herr|].
  eapply argmax_ge_lookup. by rewrite list_lookup_fmap, He.
Qed.

(** The rows computed for a positive definite element reproduce the rows
    of its matrix at the pivots. *)
Lemma pd_gram_rows matrix mi f m e i c :
  pd_inv matrix mi f m e → symmetric matrix f → pos_def_at matrix f →
  i < m → c < ma_n matrix →
  ssum m (λ j, Lat e j (permutation e !!! i) ⊗ Lat e j c)
  = entry matrix f (permutation e !!! i) c.
Proof.
  intros [Hm Hinv _ Hpos] Hsym Hpd Hi Hc.
  eapply gram_pivot_rows;
    [done|by apply pivots_positive_exact, Hpos|done|lia|done|done].
Qed.

(** C13.  For a symmetric positive definite matrix every pivot the
    function chooses is positive, so no square root of line 56 is taken of
    a negative number, and the rows computed reproduce the rows of the
    matrix at the pivots: [sum_j L_j[p] * L_j[c] = A[p, c]]. *)
Theorem positive_definite_pivots matrix max_iter error_tol :
  ma_wf matrix → (0 ≤ max_iter)%Z → 0 < numel (ma_batch_shape matrix) →
  ∃ st, pivoted_cholesky_state matrix max_iter error_tol = Val st ∧
    ∀ f e, st_elems st !! f = Some e →
      symmetric matrix f → pos_def_at matrix f →
      pivots_positive (st_m st) e
      ∧ ∀ i c, i < st_m st → c < ma_n matrix →
          ssum (st_m st) (λ j, Lat e j (permutation e !!! i) ⊗ Lat e j c)
          = entry matrix f (permutation e !!! i) c.
Proof.
  intros Hwf Hmax Hbatch. eexists.
  split; [by apply pivoted_cholesky_state_total|]. intros f e He Hsym Hpd.
  pose proof (final_pd_inv matrix max_iter error_tol f e Hwf He) as Hinv.
  split; [by apply (pi_pos _ _ _ _ _ Hinv)|].
  intros i c Hi Hc. by eapply pd_gram_rows.
Qed.

(** C27.  With a tolerance that is not positive and a symmetric positive
    definite matrix in the batch, the loop stops only at its bound: the
    function performs [min(max_iter, n)] iterations. *)
Theorem positive_definite_iterations matrix max_iter error_tol :
  ma_wf matrix → (0 ≤ max_iter)%Z → 0 < numel (ma_batch_shape matrix) →
  error_tol ≼ szero →
  ∃ st, pivoted_cholesky_state matrix max_iter error_tol = Val st ∧
    ∀ f e, st_elems st !! f = Some e →
      symmetric matrix f → pos_def_at matrix f →
      Z.of_nat (st_m st) = (max_iter `min` Z.of_nat (ma_n matrix))%Z.
Proof.
  intros Hwf Hmax Hbatch Htol. eexists.
  split; [by apply pivoted_cholesky_state_total|]. intros f e He Hsym Hpd.
  rewrite (pd_runs_to_max_iter matrix max_iter error_tol f e) by done.
  unfold mi_of. lia.
Qed.

(** C8.  Full rank for positive definite input: with [max_iter >= n] and
    a tolerance that is not positive, the function factors a symmetric
    positive definite matrix completely, [L' L = A]. *)
Theorem positive_definite_full_rank matrix max_iter error_tol :
  ma_wf matrix → (Z.of_nat (ma_n matrix) ≤ max_iter)%Z →
  0 < numel (ma_batch_shape matrix) → error_tol ≼ szero →
  ∃ st, pivoted_cholesky_state matrix max_iter error_tol = Val st ∧
    ∀ f e, st_elems st !! f = Some e →
      symmetric matrix f → pos_def_at matrix f →
      st_m st = ma_n matrix
      ∧ ∀ r c, r < ma_n matrix → c < ma_n matrix →
          ssum (ma_n matrix) (λ j, Lat e j r ⊗ Lat e j c) = entry matrix f r c.
Proof.
  intros Hwf Hmax Hbatch Htol. eexists.
  split; [apply pivoted_cholesky_state_total; (done || lia)|].
  intros f e He Hsym Hpd.
  pose proof (final_pd_inv matrix max_iter error_tol f e Hwf He) as Hinv.
  rewrite (pd_runs_to_max_iter matrix max_iter error_tol f e) in * by done.
  replace (mi_of matrix max_iter) with (ma_n matrix) in *
    by (unfold mi_of; lia).
  split; [done|]. intros r c Hr Hc. destruct Hinv as [_ Hg _ Hpos].
  eapply gram_all_rows; [done|by apply pivots_positive_exact, Hpos|done..].
Qed.
End positive.

(** ** A positive definite matrix over the real numbers *)

Lemma A22R_symmetric : symmetric A22R 0.
Proof.
  intros [|[|r]] [|[|c]] Hr Hc; try (exfalso; simpl in *; lia); reflexivity.
Qed.

(** [z' A z = 2 z0^2 + 2 (z0 + z1)^2 = (2 z0 + z1)^2 + z1^2]. *)
Lemma A22R_pos_def : pos_def_at A22R 0.
Proof.
  intros z (p&Hp&Hz). apply R_ltb_lt.
  change (ma_n A22R) with 2 in *. rewrite !ssum_S, !ssum_0. cbn.
  assert (z 0%nat ≠ 0%R ∨ z 1%nat ≠ 0%R) as Hnz
    by (destruct p as [|[|p]]; [by left|by right|lia]).
  clear Hz Hp. generalize dependent (z 1%nat). generalize dependent (z 0%nat).
  intros a b [Hz|Hz]; apply Rsqr_pos_lt in Hz; unfold Rsqr in Hz.
  - pose proof (Rle_0_sqr (a + b)) as Hs. unfold Rsqr in Hs. lra.
  - pose proof (Rle_0_sqr (2 * a + b)) as Hs. unfold Rsqr in Hs. lra.
Qed.

Lemma positive_definite_pivots_witness :
  ∃ st, pivoted_cholesky_state A22R 2 0%R = Val st ∧
    ∀ e, st_elems st !! 0 = Some e →
      pivots_positive (st_m st) e
      ∧ ∀ i c, i < st_m st → c < 2 →
          ssum (st_m st) (λ j, Lat e j (permutation e !!! i) ⊗ Lat e j c)
          = entry A22R 0 (permutation e !!! i) c.
Proof.
  destruct (positive_definite_pivots A22R 2 0%R) as (st&Hst&Hall);
    [by apply (bool_decide_unpack _)|lia|simpl; lia|].
  exists st. split; [done|]. intros e He.
  exact (Hall 0 e He A22R_symmetric A22R_pos_def).
Defined.

Lemma positive_definite_iterations_witness :
  ∃ st, pivoted_cholesky_state A22R 1 0%R = Val st ∧
    ∀ e, st_elems st !! 0 = Some e → Z.of_nat (st_m st) = 1%Z.
Proof.
  destruct (positive_definite_iterations A22R 1 0%R) as (st&Hst&Hall);
    [by apply (bool_decide_unpack _)|lia|simpl; lia|apply R_leb_le, Rle_refl|].
  exists st. split; [done|]. intros e He.
  exact (Hall 0 e He A22R_symmetric A22R_pos_def).
Defined.

Lemma positive_definite_full_rank_witness :
  ∃ st, pivoted_cholesky_state A22R 2 0%R = Val st ∧
    ∀ e, st_elems st !! 0 = Some e →
      st_m st = 2
      ∧ ∀ r c, r < 2 → c < 2 →
          ssum 2 (λ j, Lat e j r ⊗ Lat e j c) = entry A22R 0 r c.
Proof.
  destruct (positive_definite_full_rank A22R 2 0%R) as (st&Hst&Hall);
    [by apply (bool_decide_unpack _)|vm_compute; discriminate|simpl; lia
    |apply R_leb_le, Rle_refl|].
  exists st. split; [done|]. intros e He.
  exact (Hall 0 e He A22R_symmetric A22R_pos_def).
Defined.
