(* ===== verification/PivotedCholeskyResidual.v ===== *)
(** * PivotedCholeskyResidual: what the stopping rule measures

    The loop stops when the largest [errors] of the batch is at most
    [error_tol] (line 42).  [errors] is the 1-norm of the diagonal still to
    be factored (line 79); this file relates it to the matrix
    [A - L' L] that the factor leaves unexplained, in exact arithmetic:

    - the diagonal of [A - L' L] is zero at the pivots and is the deflated
      diagonal elsewhere, so its trace is the sum of the remaining
      diagonal ([residual_trace_remaining]);
    - hence [errors] bounds the trace of the residual, and when the loop
      stops on its tolerance the trace is at most [error_tol];
    - for a symmetric positive definite matrix the remaining diagonal is
      positive, and [errors] is the trace of the residual. *)

From Stdlib Require Import Ring Field QArith Qcanon Reals.
From S2P Require Import Prelude Scalar ScalarInstances Tensor TensorOrder.
From S2P Require Import MatrixAccess Examples PivotedCholesky PivotedCholeskySpec.
From S2P Require Import PivotedCholeskyProofs PivotedCholeskyInvariants.
From S2P Require Import PivotedCholeskyOrder Matrix MatrixAlgebra.
From S2P Require Import DenseSolver DenseSolverProofs CholeskyTotal.
From S2P Require Import PivotedCholeskyGram PivotedCholeskyPositive.

Section residual.
Context {F : Type} `{ExactField F} {M : Type} `{MatrixAccessLaws F M}.
Implicit Types (matrix : M) (e : elem F) (st : state F) (m n mi f : nat).

Add Field residual_field : ef_field.

(** The diagonal entry of [A - L' L] at column [c], for the first [m] rows
    of [L]. *)
Definition residual_diag matrix f m e (c : nat) : F :=
  entry matrix f c c ⊖ ssum m (λ j, ssqr (Lat e j c)).

(** The trace of [A - L' L]. *)
Definition residual_trace matrix f m e : F :=
  ssum (ma_n matrix) (residual_diag matrix f m e).

(** At a pivot the factor reproduces the diagonal. *)
Lemma residual_diag_pivot matrix mi f m e i :
  gram_inv matrix mi f m e → pivots_exact m e → symmetric matrix f →
  m ≤ ma_n matrix → i < m →
  residual_diag matrix f m e (permutation e !!! i) = szero.
Proof.
  intros Hinv Hpp Hsym Hm Hi. unfold residual_diag, ssqr.
  rewrite (gram_pivot_rows matrix mi f m e i); [ring|done..|].
  apply perm_lookup_total_lt; [apply Hinv|lia].
Qed.

(** Elsewhere the residual is the diagonal the function holds. *)
Lemma residual_diag_remaining matrix mi f m e i :
  gram_inv matrix mi f m e → m ≤ i → i < ma_n matrix →
  residual_diag matrix f m e (permutation e !!! i) = diag_at e i.
Proof.
  intros Hinv Hm Hi. by rewrite (gi_diag _ _ _ _ _ Hinv i Hi), Nat.min_r.
Qed.

Lemma remaining_length n mi m e :
  elem_wf n mi e → length (remaining m e) = n - m.
Proof.
  intros Hwf. unfold remaining.
  by rewrite length_gather_t, length_drop, (wf_perm_length _ _ _ Hwf).
Qed.

Lemma remaining_lookup_total n mi m e u :
  elem_wf n mi e → m + u < n → remaining m e !!! u = diag_at e (m + u).
Proof.
  intros Hwf Hu. apply list_lookup_total_correct.
  pose proof (remaining_lookup n mi m e (m + u) Hwf ltac:(lia) Hu) as Hl.
  by replace (m + u - m) with u in Hl by lia.
Qed.

(** The trace of the residual is the sum of the remaining diagonal. *)
Lemma residual_trace_remaining matrix mi f m e :
  gram_inv matrix mi f m e → pivots_exact m e → symmetric matrix f →
  m ≤ ma_n matrix →
  residual_trace matrix f m e = tsum (remaining m e).
Proof.
  intros Hinv Hpp Hsym Hm. pose proof (gi_wf _ _ _ _ _ Hinv) as Hwf.
  unfold residual_trace.
  rewrite <-(ssum_reindex _ (permutation e) (residual_diag matrix f m e))
    by apply Hwf.
  rewrite (ssum_split _ m) by done.
  rewrite (ssum_ext m _ (λ _, szero)), ssum_zero
    by (intros; by eapply residual_diag_pivot).
  rewrite (list_tab (remaining m e) _ (remaining_length _ _ _ _ Hwf)).
  fold (ssum (ma_n matrix - m) (λ u, remaining m e !!! u)).
  rewrite (ssum_ext _ _ (λ u, remaining m e !!! u)); [ring|].
  intros u Hu. rewrite (remaining_lookup_total _ mi) by (done || lia).
  apply (residual_diag_remaining matrix mi); (done || lia).
Qed.

(** [errors] bounds the trace of the residual. *)
Lemma residual_trace_le_errors matrix mi f m e :
  gram_inv matrix mi f m e → errors_inv (ma_n matrix) m e →
  pivots_exact m e → symmetric matrix f → m < ma_n matrix →
  residual_trace matrix f m e ≼ errors e.
Proof.
  intros Hinv Herr Hpp Hsym Hm.
  rewrite (residual_trace_remaining matrix mi), Herr by (done || lia).
  apply tsum_le_norm1.
Qed.

(** When the loop has stopped before its bound, no error exceeds the
    tolerance. *)
Lemma stopped_errors_le matrix max_iter error_tol f e :
  st_m (final_t matrix max_iter error_tol) < mi_of matrix max_iter →
  st_elems (final_t matrix max_iter error_tol) !! f = Some e →
  errors e ≼ error_tol.
Proof.
  intros Hm He.
  pose proof (loop_t_stops (mi_of matrix max_iter) matrix
    (mi_of matrix max_iter) error_tol (init_t matrix max_iter)
    ltac:(simpl; lia)) as Hstop.
  fold (final_t matrix max_iter error_tol) in Hstop.
  unfold continue_t in Hstop. rewrite bool_decide_eq_true_2 in Hstop by done.
  simpl in Hstop. rewrite ef_lt_le in Hstop. apply negb_false_iff in Hstop.
  eapply ef_le_trans; [|exact Hstop].
  eapply argmax_ge_lookup. by rewrite list_lookup_fmap, He.
Qed.

(** The invariants of the factor and of the error, in the final state. *)
Lemma final_residual_inv matrix max_iter error_tol f e :
  ma_wf matrix →
  st_elems (final_t matrix max_iter error_tol) !! f = Some e →
  gram_inv matrix (mi_of matrix max_iter) f
    (st_m (final_t matrix max_iter error_tol)) e
  ∧ errors_inv (ma_n matrix) (st_m (final_t matrix max_iter error_tol)) e.
Proof.
  intros Hwf. revert f e.
  apply (final_t_invariant (λ m f e,
    gram_inv matrix (mi_of matrix max_iter) f m e
    ∧ errors_inv (ma_n matrix) m e)); [done|..].
  - intros m f e _ Hm Hmi _ [Hinv _].
    split; [by apply elem_step_gram_inv|apply elem_step_errors].
  - intros f d Hd Hlen. split; [|by apply init_elem_errors].
    apply init_elem_gram_inv; [done| |done..].
    rewrite <-(proj1 (proj2 (diag_t_spec matrix Hwf))).
    by eapply lookup_lt_Some.
Qed.

(** C15.  The stopping rule bounds the residual: when the loop stops on its
    tolerance, before [min(max_iter, n)] iterations, the trace of
    [A - L' L] is at most [error_tol] for every symmetric matrix of the
    batch whose pivots had exact square roots. *)
Theorem tolerance_bounds_residual matrix max_iter error_tol :
  ma_wf matrix → (0 ≤ max_iter)%Z → 0 < numel (ma_batch_shape matrix) →
  ∃ st, pivoted_cholesky_state matrix max_iter error_tol = Val st ∧
    (st_m st < mi_of matrix max_iter →
     ∀ f e, st_elems st !! f = Some e →
       symmetric matrix f → pivots_exact (st_m st) e →
       residual_trace matrix f (st_m st) e ≼ error_tol).
Proof.
  intros Hwf Hmax Hbatch. eexists.
  split; [by apply pivoted_cholesky_state_total|]. intros Hm f e He Hsym Hpp.
  destruct (final_residual_inv matrix max_iter error_tol f e Hwf He)
    as [Hinv Herr].
  pose proof (mi_of_le matrix max_iter) as [Hmi _].
  eapply ef_le_trans; [|by eapply stopped_errors_le].
  apply (residual_trace_le_errors matrix (mi_of matrix max_iter));
    (done || lia).
Qed.
End residual.

(** ** Positive definite matrices: the error is the trace *)

Section positive.
Context {F : Type} `{ExactSqrt F} {M : Type} `{MatrixAccessLaws F M}.
Implicit Types (matrix : M) (e : elem F) (m n mi f : nat).

Lemma pd_remaining_nonneg matrix mi f m e :
  pd_inv matrix mi f m e → symmetric matrix f → pos_def_at matrix f →
  Forall (λ v, szero ≼ v) (remaining m e).
Proof.
  intros [Hm Hinv _ Hpos] Hsym Hpd. pose proof (gi_wf _ _ _ _ _ Hinv) as Hwf.
  apply Forall_lookup. intros u v Hv.
  pose proof (lookup_lt_Some _ _ _ Hv) as Hu.
  rewrite (remaining_length _ _ _ _ Hwf) in Hu.
  apply list_lookup_total_correct in Hv.
  rewrite (remaining_lookup_total _ mi) in Hv by (done || lia). subst v.
  apply ef_lt_le_weak.
  eapply remaining_positive;
    [done|by apply pivots_positive_exact, Hpos|done..|lia|lia].
Qed.

(** C33.  For a symmetric positive definite matrix the error the loop
    tests is the trace of [A - L' L]: while columns remain, [errors] is
    exactly what the factor leaves unexplained on the diagonal. *)
Theorem positive_definite_error_is_trace matrix max_iter error_tol :
  ma_wf matrix → (0 ≤ max_iter)%Z → 0 < numel (ma_batch_shape matrix) →
  ∃ st, pivoted_cholesky_state matrix max_iter error_tol = Val st ∧
    ∀ f e, st_elems st !! f = Some e →
      symmetric matrix f → pos_def_at matrix f → st_m st < ma_n matrix →
      errors e = residual_trace matrix f (st_m st) e.
Proof.
  intros Hwf Hmax Hbatch. eexists.
  split; [by apply pivoted_cholesky_state_total|]. intros f e He Hsym Hpd Hm.
  pose proof (final_pd_inv matrix max_iter error_tol f e Hwf He) as Hinv.
  rewrite (residual_trace_remaining matrix (mi_of matrix max_iter));
    [|apply Hinv|by apply pivots_positive_exact, Hinv|done|lia].
  rewrite (pi_errors _ _ _ _ _ Hinv) by done.
  by apply norm1_of_nonneg, (pd_remaining_nonneg matrix (mi_of matrix max_iter) f).
Qed.
End positive.

(** ** On the examples *)

(** The batch [B233] with tolerance 6: the loop stops after one iteration;
    both matrices are symmetric and the one square root taken of each is
    exact. *)
Lemma B233_stopped_hypotheses :
  ∃ st, pivoted_cholesky_state B233 3 (qc 6 1) = Val st ∧ st_m st = 1 ∧
        ∀ f e, st_elems st !! f = Some e →
               symmetric B233 f ∧ pivots_exact 1 e.
Proof.
  eexists. split; [vm_compute; reflexivity|]. split; [done|].
  intros [|[|f]] e [= <-]; (split;
    [intros [|[|[|r]]] [|[|[|c]]] Hr Hc; try (exfalso; simpl in *; lia)
    |intros [|j] Hj; [|lia]; split]; qc_decide).
Qed.

Lemma tolerance_bounds_residual_witness :
  ∃ st, pivoted_cholesky_state B233 3 (qc 6 1) = Val st ∧
    ∀ f e, st_elems st !! f = Some e →
           residual_trace B233 f 1 e ≼ qc 6 1.
Proof.
  destruct (tolerance_bounds_residual B233 3 (qc 6 1)) as (st&Hst&Hall);
    [exact B233_wf|lia|vm_compute; lia|].
  destruct B233_stopped_hypotheses as (st'&Hst'&Hm&Hhyp).
  rewrite Hst in Hst'. injection Hst' as <-.
  exists st. split; [done|]. intros f e He. rewrite Hm in Hall.
  destruct (Hhyp f e He).
  by apply (Hall ltac:(vm_compute; lia) f e He).
Defined.

Lemma positive_definite_error_is_trace_witness :
  ∃ st, pivoted_cholesky_state A22R 1 0%R = Val st ∧ st_m st < 2 ∧
    ∀ e, st_elems st !! 0 = Some e →
         errors e = residual_trace A22R 0 (st_m st) e.
Proof.
  destruct (positive_definite_error_is_trace A22R 1 0%R) as (st&Hst&Hall);
    [by apply (bool_decide_unpack _)|lia|simpl; lia|].
  assert (st_m st < 2) as Hm.
  { rewrite pivoted_cholesky_state_total in Hst;
      [|by apply (bool_decide_unpack _)|lia|simpl; lia].
    injection Hst as <-.
    pose proof (swf_m _ _ _ (final_t_wf A22R 1 0%R
      ltac:(by apply (bool_decide_unpack _)))) as Hle.
    change (mi_of A22R 1) with 1 in Hle. lia. }
  exists st. split_and!; [done..|]. intros e He.
  exact (Hall 0 e He A22R_symmetric A22R_pos_def Hm).
Defined.
