(* ===== verification/PivotedCholeskyPsd.v ===== *)
(** * PivotedCholeskyPsd: symmetric positive semi-definite matrices

    The input the module is written for.  With the rows computed so far,
    the residual [A - L' L] of a semi-definite matrix is semi-definite
    ([residual_perm_psd], by the argument of [QuadraticForms] in the order
    of the pivots).  Hence:

    - the diagonal still to be factored is not negative, and every entry
      of the residual is bounded by its trace, which the stopping rule of
      line 42 bounds by [error_tol] ([stopped_entries_le]);
    - for a matrix that is factored alone and a tolerance that is not
      negative, the loop only continues while the error is positive, so
      the next pivot, the largest remaining diagonal entry, is positive:
      no square root is taken of a negative number and no division is by
      zero ([final_psd_inv]);
    - with a tolerance of zero and [max_iter >= n] the factor is exact,
      also for a singular matrix, where the loop stops before [n]
      iterations.

    In a batch the loop continues while the largest error exceeds the
    tolerance: an element whose own error has reached zero is then given a
    pivot of zero.  [PivotedCholeskyEdge] has such a run. *)

From Stdlib Require Import Ring Field Reals Lra.
From S2P Require Import Prelude Scalar ScalarInstances Tensor TensorOrder.
From S2P Require Import MatrixAccess Examples PivotedCholesky PivotedCholeskySpec.
From S2P Require Import PivotedCholeskyProofs PivotedCholeskyInvariants.
From S2P Require Import PivotedCholeskyOrder Matrix MatrixAlgebra.
From S2P Require Import DenseSolver DenseSolverProofs QuadraticForms CholeskyTotal.
From S2P Require Import PivotedCholeskyGram PivotedCholeskyPositive.
From S2P Require Import PivotedCholeskyResidual.

(** ** The residual of a semi-definite matrix *)

Section residual.
Context {F : Type} `{ExactField F} {M : Type} `{MatrixAccessLaws F M}.
Implicit Types (matrix : M) (e : elem F) (st : state F) (m n mi f : nat).

Add Field psd_field : ef_field.

(** The matrix of batch element [f] is positive semi-definite. *)
Definition psd_at matrix f : Prop := psd_fun (ma_n matrix) (entry matrix f).

(** The entry of [A - L' L] at row [r] and column [c], for the first [m]
    rows of [L]. *)
Definition residual_entry matrix f m e (r c : nat) : F :=
  entry matrix f r c ⊖ ssum m (λ j, Lat e j r ⊗ Lat e j c).

Lemma pos_def_psd matrix f : pos_def_at matrix f → psd_at matrix f.
Proof. apply pd_fun_psd. Qed.

(** The residual in the order of the pivots. *)
Definition residual_perm matrix f m e (p q : nat) : F :=
  residual_entry matrix f m e (permutation e !!! p) (permutation e !!! q).

Lemma symmetric_perm matrix mi f m e :
  gram_inv matrix mi f m e → symmetric matrix f →
  sym_fun (ma_n matrix)
    (λ p q, entry matrix f (permutation e !!! p) (permutation e !!! q)).
Proof.
  intros Hinv Hsym p q Hp Hq.
  apply Hsym; apply perm_lookup_total_lt; (done || apply Hinv).
Qed.

Lemma residual_perm_sym matrix mi f m e :
  gram_inv matrix mi f m e → symmetric matrix f →
  sym_fun (ma_n matrix) (residual_perm matrix f m e).
Proof.
  intros Hinv Hsym.
  apply (res_fun_sym (ma_n matrix) m _ (λ t q, Lat e t (permutation e !!! q))).
  by eapply symmetric_perm.
Qed.

(** The residual of a semi-definite matrix is semi-definite. *)
Lemma residual_perm_psd matrix mi f m e :
  gram_inv matrix mi f m e → pivots_exact m e →
  symmetric matrix f → psd_at matrix f → m ≤ ma_n matrix →
  psd_fun (ma_n matrix) (residual_perm matrix f m e).
Proof.
  intros Hinv Hpp Hsym Hpsd Hm. pose proof (gi_wf _ _ _ _ _ Hinv) as Hwf.
  apply (residual_psd (ma_n matrix) m
    (λ p q, entry matrix f (permutation e !!! p) (permutation e !!! q))
    (λ t q, Lat e t (permutation e !!! q))); [done|by eapply symmetric_perm|..].
  - intros p q Hp Hq. apply (gram_pivot_rows matrix mi); [done..|].
    apply perm_lookup_total_lt; [apply Hwf|done].
  - intros p t Hpt Ht. by apply (gi_tri _ _ _ _ _ Hinv).
  - intros p Hp. by eapply pivot_entry_sqr; [apply Hinv|..].
  - apply psd_fun_perm; [apply Hwf|done].
Qed.

(** Every entry of the residual is bounded by its trace. *)
Lemma residual_entry_le_trace matrix mi f m e r c :
  gram_inv matrix mi f m e → pivots_exact m e →
  symmetric matrix f → psd_at matrix f → m ≤ ma_n matrix →
  r < ma_n matrix → c < ma_n matrix →
  sabs (residual_entry matrix f m e r c) ≼ residual_trace matrix f m e.
Proof.
  intros Hinv Hpp Hsym Hpsd Hm Hr Hc. pose proof (gi_wf _ _ _ _ _ Hinv) as Hwf.
  destruct (perm_position _ _ r (wf_perm _ _ _ Hwf) Hr) as (i&Hi&<-).
  destruct (perm_position _ _ c (wf_perm _ _ _ Hwf) Hc) as (j&Hj&<-).
  unfold residual_trace.
  rewrite <-(ssum_reindex _ (permutation e) (residual_diag matrix f m e))
    by apply Hwf.
  apply (psd_entry_le_trace (ma_n matrix) (residual_perm matrix f m e) i j);
    [by eapply residual_perm_psd|by eapply residual_perm_sym|done..].
Qed.

(** The diagonal still to be factored is not negative. *)
Lemma psd_remaining_nonneg matrix mi f m e :
  gram_inv matrix mi f m e → pivots_exact m e →
  symmetric matrix f → psd_at matrix f → m ≤ ma_n matrix →
  Forall (λ v, szero ≼ v) (remaining m e).
Proof.
  intros Hinv Hpp Hsym Hpsd Hm. pose proof (gi_wf _ _ _ _ _ Hinv) as Hwf.
  apply Forall_lookup. intros u v Hu.
  pose proof (lookup_lt_Some _ _ _ Hu) as Hlt.
  rewrite (remaining_length _ _ _ _ Hwf) in Hlt.
  apply list_lookup_total_correct in Hu as <-.
  rewrite (remaining_lookup_total _ mi) by (done || lia).
  rewrite <-(residual_diag_remaining matrix mi f m e) by (done || lia).
  apply (psd_diag_nonneg (ma_n matrix) (residual_perm matrix f m e));
    [by eapply residual_perm_psd|lia].
Qed.

(** When the loop has stopped before its bound, every entry of the
    residual is within the tolerance. *)
Lemma stopped_entries_le matrix max_iter error_tol f e r c :
  ma_wf matrix →
  st_m (final_t matrix max_iter error_tol) < mi_of matrix max_iter →
  st_elems (final_t matrix max_iter error_tol) !! f = Some e →
  symmetric matrix f → psd_at matrix f →
  pivots_exact (st_m (final_t matrix max_iter error_tol)) e →
  r < ma_n matrix → c < ma_n matrix →
  sabs (residual_entry matrix f (st_m (final_t matrix max_iter error_tol)) e
                       r c) ≼ error_tol.
Proof.
  intros Hwf Hm He Hsym Hpsd Hpp Hr Hc.
  destruct (final_residual_inv matrix max_iter error_tol f e Hwf He)
    as [Hinv Herr].
  pose proof (mi_of_le matrix max_iter) as [Hmi _].
  eapply ef_le_trans; [eapply residual_entry_le_trace; (done || lia)|].
  eapply ef_le_trans; [|by eapply stopped_errors_le].
  apply (residual_trace_le_errors matrix (mi_of matrix max_iter));
    (done || lia).
Qed.
End residual.

(** ** The pivots of a semi-definite matrix *)

Section pivots.
Context {F : Type} `{ExactSqrt F} {M : Type} `{MatrixAccessLaws F M}.
Implicit Types (matrix : M) (e : elem F) (st : state F) (m n mi f : nat).

(** While its error is positive, the next pivot of a semi-definite element
    is positive. *)
Lemma elem_step_pivots_positive_psd matrix mi f m e :
  m < mi → mi ≤ ma_n matrix → gram_inv matrix mi f m e →
  errors_inv (ma_n matrix) m e → symmetric matrix f → psd_at matrix f →
  szero ≺ errors e →
  pivots_positive m e → pivots_positive (m + 1) (elem_step matrix m f e).
Proof.
  intros Hm Hmi Hinv Herr Hsym Hpsd He Hpos j Hj.
  pose proof (gi_wf _ _ _ _ _ Hinv) as Hwf.
  destruct (decide (j = m)) as [->|Hne].
  - rewrite (elem_step_diag_at_pivot matrix mi) by done.
    rewrite Herr in He by lia.
    change ((pivot_of m e).1) with ((argmax (remaining m e)).1).
    apply argmax_pos; [|done].
    eapply psd_remaining_nonneg;
      [done|by apply pivots_positive_exact|done..|lia].
  - rewrite (elem_step_diag_at_earlier matrix mi) by (done || lia).
    apply Hpos. lia.
Qed.

(** What the loop maintains for a matrix that is factored alone. *)
Record psd_inv matrix mi m e : Prop := {
  qi_gram : gram_inv matrix mi 0 m e;
  qi_errors : errors_inv (ma_n matrix) m e;
  qi_pos : pivots_positive m e;
}.

(** The test of the loop for a batch of one matrix. *)
Lemma continue_single mi (error_tol : F) st e :
  length (st_elems st) = 1 → st_elems st !! 0 = Some e →
  continue_t mi error_tol st = true → error_tol ≺ errors e.
Proof.
  unfold continue_t. destruct (st_elems st) as [|e' [|]]; intros; simplify_eq/=.
  by destruct (bool_decide _).
Qed.

Lemma final_psd_inv matrix max_iter error_tol e :
  ma_wf matrix → numel (ma_batch_shape matrix) = 1 → szero ≼ error_tol →
  symmetric matrix 0 → psd_at matrix 0 →
  st_elems (final_t matrix max_iter error_tol) !! 0 = Some e →
  psd_inv matrix (mi_of matrix max_iter)
          (st_m (final_t matrix max_iter error_tol)) e.
Proof.
  intros Hwf Hone Htol Hsym Hpsd. revert e.
  pose proof (mi_of_le matrix max_iter) as [Hmi _].
  apply (loop_t_ind (λ st, ∀ e, st_elems st !! 0 = Some e →
           psd_inv matrix (mi_of matrix max_iter) (st_m st) e));
    [done|by apply init_t_wf|..].
  - intros e (d&Hd&Hlen&->)%init_t_lookup; [|done].
    split; [|by apply init_elem_errors|intros j ?; simpl in *; lia].
    apply init_elem_gram_inv; (done || lia).
  - intros st Hst Hm Hc IH e. rewrite step_t_elems, list_lookup_imap.
    destruct (st_elems st !! 0) as [e0|] eqn:He0; [|done]. intros [= <-].
    destruct (IH e0 eq_refl) as [Hg He Hp].
    split; [by apply elem_step_gram_inv|apply elem_step_errors|].
    apply (elem_step_pivots_positive_psd matrix (mi_of matrix max_iter));
      try done.
    eapply ef_le_lt_trans; [exact Htol|]. eapply continue_single; [|done..].
    by rewrite (swf_batch _ _ _ Hst).
Qed.
End pivots.

(** ** The factor of a semi-definite matrix *)

Section factor.
Context {F : Type} `{ExactSqrt F} {M : Type} `{MatrixAccessLaws F M}.
Implicit Types (matrix : M) (e : elem F) (st : state F) (m n mi f : nat).

Add Field psd_factor_field : ef_field.

(** C4.  The contract for the input the module is written for: a symmetric
    positive semi-definite matrix, factored alone, with a tolerance that is
    not negative.  Every pivot chosen is positive, so no square root of
    line 56 is taken of a negative number and no division of line 72 is by
    zero; and when the loop stops on its tolerance, every entry of
    [A - L' L] is at most [error_tol] in absolute value. *)
Theorem psd_approximation matrix max_iter error_tol :
  ma_wf matrix → (0 ≤ max_iter)%Z → numel (ma_batch_shape matrix) = 1 →
  szero ≼ error_tol → symmetric matrix 0 → psd_at matrix 0 →
  ∃ st, pivoted_cholesky_state matrix max_iter error_tol = Val st ∧
    ∀ e, st_elems st !! 0 = Some e →
      pivots_positive (st_m st) e
      ∧ (st_m st < mi_of matrix max_iter →
         ∀ r c, r < ma_n matrix → c < ma_n matrix →
           sabs (residual_entry matrix 0 (st_m st) e r c) ≼ error_tol).
Proof.
  intros Hwf Hmax Hone Htol Hsym Hpsd. eexists.
  split; [apply pivoted_cholesky_state_total; (done || lia)|]. intros e He.
  destruct (final_psd_inv matrix max_iter error_tol e) as [_ _ Hpos];
    [done..|].
  split; [done|]. intros Hm r c Hr Hc.
  by apply stopped_entries_le; [..|apply pivots_positive_exact|done|done].
Qed.

(** C14.  For a symmetric positive definite matrix in a batch of any size:
    when the loop stops on its tolerance, every entry of [A - L' L] is at
    most [error_tol] in absolute value. *)
Theorem positive_definite_approximation matrix max_iter error_tol :
  ma_wf matrix → (0 ≤ max_iter)%Z → 0 < numel (ma_batch_shape matrix) →
  ∃ st, pivoted_cholesky_state matrix max_iter error_tol = Val st ∧
    (st_m st < mi_of matrix max_iter →
     ∀ f e, st_elems st !! f = Some e →
       symmetric matrix f → pos_def_at matrix f →
       ∀ r c, r < ma_n matrix → c < ma_n matrix →
         sabs (residual_entry matrix f (st_m st) e r c) ≼ error_tol).
Proof.
  intros Hwf Hmax Hbatch. eexists.
  split; [by apply pivoted_cholesky_state_total|].
  intros Hm f e He Hsym Hpd r c Hr Hc.
  pose proof (final_pd_inv matrix max_iter error_tol f e Hwf He) as Hinv.
  apply stopped_entries_le; [done..|by apply pos_def_psd| |done|done].
  by apply pivots_positive_exact, (pi_pos _ _ _ _ _ Hinv).
Qed.

(** With [max_iter >= n] and a tolerance of zero the final rows reproduce
    every entry of a positive semi-definite matrix factored alone. *)
Lemma final_psd_exact matrix max_iter e r c :
  ma_wf matrix → (Z.of_nat (ma_n matrix) ≤ max_iter)%Z →
  numel (ma_batch_shape matrix) = 1 →
  symmetric matrix 0 → psd_at matrix 0 →
  st_elems (final_t matrix max_iter szero) !! 0 = Some e →
  r < ma_n matrix → c < ma_n matrix →
  ssum (st_m (final_t matrix max_iter szero)) (λ j, Lat e j r ⊗ Lat e j c)
  = entry matrix 0 r c.
Proof.
  intros Hwf Hmax Hone Hsym Hpsd He Hr Hc.
  destruct (final_psd_inv matrix max_iter szero e) as [Hg _ Hpos];
    [done|done|apply ef_le_refl|done..|].
  pose proof (pivots_positive_exact _ _ Hpos) as Hpp.
  assert (mi_of matrix max_iter = ma_n matrix) as Hmi by (unfold mi_of; lia).
  destruct (decide (st_m (final_t matrix max_iter szero) = ma_n matrix))
    as [Heq|Hne].
  - rewrite Heq in *. rewrite Hmi in Hg. by eapply gram_all_rows.
  - pose proof (swf_m _ _ _ (final_t_wf matrix max_iter szero Hwf)) as Hle.
    pose proof (stopped_entries_le matrix max_iter szero 0 e r c Hwf
      ltac:(lia) He Hsym Hpsd Hpp Hr Hc) as Hz%ef_abs_le_zero.
    unfold residual_entry in Hz. set (S := ssum _ _) in *.
    replace (entry matrix 0 r c) with ((entry matrix 0 r c ⊖ S) ⊕ S) by ring.
    rewrite Hz. ring.
Qed.

(** C5.  Exact recovery: with [max_iter >= n] and a tolerance of zero, the
    rows computed for a symmetric positive semi-definite matrix, factored
    alone, satisfy [L' L = A] entry by entry, also when the matrix is
    singular and the loop stops before [n] iterations. *)
Theorem psd_exact_recovery matrix max_iter :
  ma_wf matrix → (Z.of_nat (ma_n matrix) ≤ max_iter)%Z →
  numel (ma_batch_shape matrix) = 1 →
  symmetric matrix 0 → psd_at matrix 0 →
  ∃ st, pivoted_cholesky_state matrix max_iter szero = Val st ∧
    ∀ e, st_elems st !! 0 = Some e →
      ∀ r c, r < ma_n matrix → c < ma_n matrix →
        ssum (st_m st) (λ j, Lat e j r ⊗ Lat e j c) = entry matrix 0 r c.
Proof.
  intros Hwf Hmax Hone Hsym Hpsd. eexists.
  split; [apply pivoted_cholesky_state_total; (done || lia)|].
  intros e He r c Hr Hc. by apply final_psd_exact.
Qed.
(** The factor has no redundant row: the rows computed for a
    symmetric positive semi-definite matrix, factored alone with a
    tolerance that is not negative, are linearly independent.  With exact
    recovery their number is the rank of the matrix. *)
Theorem psd_rows_independent matrix max_iter error_tol :
  ma_wf matrix → (0 ≤ max_iter)%Z → numel (ma_batch_shape matrix) = 1 →
  szero ≼ error_tol → symmetric matrix 0 → psd_at matrix 0 →
  ∃ st, pivoted_cholesky_state matrix max_iter error_tol = Val st ∧
    ∀ e, st_elems st !! 0 = Some e →
      rows_independent (ma_n matrix) (st_m st) e.
Proof.
  intros Hwf Hmax Hone Htol Hsym Hpsd. eexists.
  split; [apply pivoted_cholesky_state_total; (done || lia)|]. intros e He.
  destruct (final_psd_inv matrix max_iter error_tol e) as [Hg _ Hpos];
    [done..|].
  pose proof (swf_m _ _ _ (final_t_wf matrix max_iter error_tol Hwf)).
  pose proof (mi_of_le matrix max_iter) as [Hmi _].
  eapply gram_rows_independent;
    [done|by apply pivots_positive_exact|lia].
Qed.
End factor.

(** ** A singular semi-definite matrix over the real numbers *)

(** [[1 1] [1 1]]: of rank one. *)
Definition A22S : dense R := Dense [] 2 2 [[[1; 1]; [1; 1]]]%R.

Lemma A22S_wf : dense_wf A22S.
Proof. by apply (bool_decide_unpack _). Qed.

Lemma A22S_symmetric : symmetric A22S 0.
Proof.
  intros [|[|r]] [|[|c]] Hr Hc; try (exfalso; simpl in *; lia); reflexivity.
Qed.

(** [z' A z = (z0 + z1)^2]. *)
Lemma A22S_psd : psd_at A22S 0.
Proof.
  intros z. apply R_leb_le. unfold bform.
  change (ma_n A22S) with 2. rewrite !ssum_S, !ssum_0. cbn.
  pose proof (Rle_0_sqr (z 0%nat + z 1%nat)) as Hs. unfold Rsqr in Hs. lra.
Qed.

Lemma psd_approximation_witness :
  ∃ st, pivoted_cholesky_state A22S 2 0%R = Val st ∧
    ∀ e, st_elems st !! 0 = Some e →
      pivots_positive (st_m st) e
      ∧ (st_m st < mi_of A22S 2 →
         ∀ r c, r < 2 → c < 2 →
           sabs (residual_entry A22S 0 (st_m st) e r c) ≼ 0%R).
Proof.
  exact (psd_approximation A22S 2 0%R A22S_wf ltac:(lia) eq_refl
           ltac:(apply R_leb_le, Rle_refl) A22S_symmetric A22S_psd).
Defined.

(** The run of [A22R] with room for two iterations and a tolerance of 1:
    the first pivot is 4, the row written is [(2, 1)], the diagonal left
    is [2 - 1 = 1], and the loop stops on its tolerance after one
    iteration. *)
Lemma A22R_stops_on_tolerance : st_m (final_t A22R 2 1%R) = 1.
Proof.
  unfold final_t. change (mi_of A22R 2) with 2. cbn [loop_t].
  assert (continue_t 2 1%R (init_t A22R 2) = true) as ->.
  { unfold continue_t. cbn -[Rplus Rminus Rmult Rdiv sqrt Rabs R_leb R_ltb].
    apply R_ltb_lt. rewrite !Rabs_pos_eq by lra. lra. }
  assert (continue_t 2 1%R (step_t A22R (init_t A22R 2)) = false) as ->; [|done].
  unfold continue_t. cbn -[Rplus Rminus Rmult Rdiv sqrt Rabs R_leb R_ltb].
  rewrite (ef_not_nan 4%R), (proj2 (R_leb_le 2 4)) by lra.
  change (mi_of A22R 2) with 2. unfold post_t. rewrite decide_True by lia.
  cbn -[Rplus Rminus Rmult Rdiv sqrt Rabs R_leb R_ltb new_entries_t].
  unfold new_entries_t, orthogonalize_t. rewrite ?decide_False by lia.
  cbn -[Rplus Rminus Rmult Rdiv sqrt Rabs R_leb R_ltb].
  replace 4%R with (2 * 2)%R by lra. rewrite sqrt_square by lra.
  replace (2 - 2 / 2 * (2 / 2))%R with 1%R by lra.
  rewrite Rabs_pos_eq by lra.
  destruct (R_ltb 1 (0 + 1)) eqn:E; [apply R_ltb_lt in E; lra|done].
Qed.

Lemma positive_definite_approximation_witness :
  ∃ st, pivoted_cholesky_state A22R 2 1%R = Val st ∧
    st_m st < mi_of A22R 2 ∧
    ∀ e, st_elems st !! 0 = Some e →
      ∀ r c, r < 2 → c < 2 →
        sabs (residual_entry A22R 0 (st_m st) e r c) ≼ 1%R.
Proof.
  destruct (positive_definite_approximation A22R 2 1%R) as (st&Hst&Hall);
    [by apply (bool_decide_unpack _)|lia|simpl; lia|].
  assert (st_m st < mi_of A22R 2) as Hm.
  { rewrite pivoted_cholesky_state_total in Hst;
      [|by apply (bool_decide_unpack _)|lia|simpl; lia].
    injection Hst as <-. rewrite A22R_stops_on_tolerance.
    change (mi_of A22R 2) with 2. lia. }
  exists st. split_and!; [done..|]. intros e He.
  exact (Hall Hm 0 e He A22R_symmetric A22R_pos_def).
Defined.

Lemma psd_exact_recovery_witness :
  ∃ st, pivoted_cholesky_state A22S 2 0%R = Val st ∧
    ∀ e, st_elems st !! 0 = Some e →
      ∀ r c, r < 2 → c < 2 →
        ssum (st_m st) (λ j, Lat e j r ⊗ Lat e j c) = entry A22S 0 r c.
Proof.
  exact (psd_exact_recovery A22S 2 A22S_wf ltac:(vm_compute; discriminate)
           eq_refl A22S_symmetric A22S_psd).
Defined.

Lemma psd_rows_independent_witness :
  ∃ st, pivoted_cholesky_state A22S 2 0%R = Val st ∧
    ∀ e, st_elems st !! 0 = Some e → rows_independent 2 (st_m st) e.
Proof.
  exact (psd_rows_independent A22S 2 0%R A22S_wf ltac:(lia) eq_refl
           ltac:(apply R_leb_le, Rle_refl) A22S_symmetric A22S_psd).
Defined.
