(* ===== verification/PivotedCholeskyRefinement.v ===== *)
(** * PivotedCholeskyRefinement: the loop is the greedy deflation

    [GreedyDeflation] describes the factorisation as a machine on the
    residual of the matrix.  This file shows that the loop of
    [pivoted_cholesky] (lines 41-82) is that machine: a batch element
    after [m] iterations stands for the abstract state whose residual is
    [A - L[:m]' L[:m]] and whose pivots are the first [m] entries of the
    permutation ([abstraction]), and one iteration of the code is one
    step of the machine between the states the element stands for before
    and after it ([elem_step_astep]), provided the pivot the iteration
    chose is positive.

    The iterations of an element therefore are a run of the machine from
    the matrix itself ([final_run_inv], [final_refines]), for every
    element of a positive definite batch and for a positive semi-definite
    matrix factored alone; with [max_iter >= n] and a tolerance of zero
    the run is complete: it ends where the machine cannot step
    ([final_stuck]).  What is proved of
    the machine holds of the code through this: the residual stays
    symmetric and positive semi-definite and its rows at the pivots are
    zero ([refines_invariant], [refines_ainv], [refines_psd]).

    Exact arithmetic with exact square roots ([ExactSqrt]) throughout:
    in floating point the rows written are rounded and the state an
    element stands for is not reached by exact deflations. *)

From Stdlib Require Import Ring Field Reals.
From stdpp Require Import relations.
From S2P Require Import Prelude Scalar ScalarInstances Tensor TensorOrder MatrixAccess.
From S2P Require Import Examples PivotedCholesky PivotedCholeskySpec.
From S2P Require Import PivotedCholeskyProofs PivotedCholeskyInvariants.
From S2P Require Import PivotedCholeskyOrder Matrix MatrixAlgebra.
From S2P Require Import QuadraticForms GreedyDeflation.
From S2P Require Import PivotedCholeskyGram PivotedCholeskyPositive.
From S2P Require Import PivotedCholeskyResidual PivotedCholeskyPsd.

(** ** Positions of a permutation *)

Section positions.
Implicit Types (p : list nat) (n m q : nat).

(** The entry at position [m] is not among the first [m]. *)
Lemma lookup_not_in_take p n m :
  p ≡ₚ seq 0 n → m < n → p !!! m ∉ take m p.
Proof.
  intros Hp Hm [i Hi]%list_elem_of_lookup.
  pose proof (lookup_lt_Some _ _ _ Hi) as Hlt. rewrite length_take in Hlt.
  rewrite lookup_take_lt in Hi by lia.
  assert (p !! m = Some (p !!! m)) as Hpm.
  { apply list_lookup_lookup_total_lt. rewrite (perm_seq_length _ _ Hp). lia. }
  pose proof (NoDup_lookup _ _ _ _ (perm_seq_NoDup _ _ Hp) Hi Hpm). lia.
Qed.

(** What is not among the first [m] entries is at a later position. *)
Lemma not_in_take_position p n m q :
  p ≡ₚ seq 0 n → q < n → q ∉ take m p → ∃ i, m ≤ i < n ∧ p !!! i = q.
Proof.
  intros Hp Hq Hnot. destruct (perm_position p n q Hp Hq) as (i & Hi & <-).
  exists i. split; [|done]. split; [|done].
  destruct (decide (m ≤ i)); [done|]. destruct Hnot.
  apply list_elem_of_lookup. exists i. rewrite lookup_take_lt by lia.
  apply list_lookup_lookup_total_lt. rewrite (perm_seq_length _ _ Hp). lia.
Qed.
End positions.

(** ** The state an element stands for *)

Section abstraction.
Context {F : Type} `{ExactField F} {M : Type} `{MatrixAccessLaws F M}.
Implicit Types (matrix : M) (e : elem F) (m n mi f : nat) (s : astate F).

Add Field refinement_field : ef_field.

(** After [m] iterations: the residual [A - L[:m]' L[:m]] and the pivots
    chosen. *)
Definition abstraction matrix f m e : astate F :=
  AState (residual_entry matrix f m e) (take m (permutation e)).

(** An abstract state matches an element when it is the state the element
    stands for, on the coordinates of the matrix. *)
Definition matches matrix f m e s : Prop :=
  aequiv (ma_n matrix) s (abstraction matrix f m e).

(** The machine starts from the matrix. *)
Definition astart matrix f : astate F := AState (entry matrix f) [].

Lemma matches_start matrix f e : matches matrix f 0 e (astart matrix f).
Proof.
  split; [done|]. intros i j _ _. simpl.
  unfold residual_entry. rewrite ssum_0. ring.
Qed.

(** The rows before [m] are not touched by iteration [m]. *)
Lemma residual_entry_step matrix m f e r c :
  residual_entry matrix f m (elem_step matrix m f e) r c
  = residual_entry matrix f m e r c.
Proof.
  unfold residual_entry. f_equal. apply ssum_ext. intros k Hk.
  by rewrite !(elem_step_Lat_other matrix m f e k) by lia.
Qed.

(** The residual after one more row. *)
Lemma residual_entry_S matrix m f e r c :
  residual_entry matrix f (m + 1) (elem_step matrix m f e) r c
  = residual_entry matrix f m e r c
    ⊖ Lat (elem_step matrix m f e) m r ⊗ Lat (elem_step matrix m f e) m c.
Proof.
  rewrite <-(residual_entry_step matrix m f e). unfold residual_entry.
  rewrite Nat.add_1_r, ssum_S. ring.
Qed.

Lemma residual_entry_sym matrix f m e :
  symmetric matrix f → sym_fun (ma_n matrix) (residual_entry matrix f m e).
Proof.
  intros Hsym r c Hr Hc. unfold residual_entry. rewrite (Hsym r c) by done.
  f_equal. apply ssum_ext. intros; ring.
Qed.

(** On the diagonal the residual is the diagonal the function holds: at
    position [i], after the [min i k] rows that were subtracted from it
    in [k] iterations. *)
Lemma residual_entry_diag matrix mi f m k e i :
  gram_inv matrix mi f k e → i < ma_n matrix → m = i `min` k →
  residual_entry matrix f m e (permutation e !!! i) (permutation e !!! i)
  = diag_at e i.
Proof. intros Hinv Hi ->. by rewrite (gi_diag _ _ _ _ _ Hinv i Hi). Qed.

(** The rows of the residual at the pivots are zero. *)
Lemma residual_entry_pivot matrix mi f m e i c :
  gram_inv matrix mi f m e → pivots_exact m e → symmetric matrix f →
  m ≤ ma_n matrix → i < m → c < ma_n matrix →
  residual_entry matrix f m e (permutation e !!! i) c = szero.
Proof.
  intros. unfold residual_entry.
  rewrite (gram_pivot_rows matrix mi f m e i c) by done. ring.
Qed.
End abstraction.

(** ** One iteration is one step *)

Section simulation.
Context {F : Type} `{ExactSqrt F} {M : Type} `{MatrixAccessLaws F M}.
Implicit Types (matrix : M) (e : elem F) (m n mi f k : nat) (s : astate F).

Add Field simulation_field : ef_field.

(** The pivots chosen before iteration [m] are those of the element
    before it. *)
Lemma pivots_positive_before matrix mi m f e :
  elem_wf (ma_n matrix) mi e → m < mi → mi ≤ ma_n matrix →
  pivots_positive (m + 1) (elem_step matrix m f e) → pivots_positive m e.
Proof.
  intros Hwf Hm Hmi Hpos j Hj.
  rewrite <-(elem_step_diag_at_earlier matrix mi m f e j) by done.
  apply Hpos. lia.
Qed.

(** The pivot of iteration [m] is the diagonal of the residual at the
    coordinate chosen. *)
Lemma pivot_residual matrix mi m f e :
  m < mi → mi ≤ ma_n matrix → gram_inv matrix mi f m e →
  let e' := elem_step matrix m f e in
  residual_entry matrix f m e (permutation e' !!! m) (permutation e' !!! m)
  = diag_at e' m.
Proof.
  intros Hm Hmi Hinv e'. rewrite <-(residual_entry_step matrix m f e).
  apply (residual_entry_diag matrix mi f m (m + 1)); [|lia..].
  by apply elem_step_gram_inv.
Qed.

(** The row written by iteration [m]: the row of the residual at the
    pivot, divided by the square root of the pivot (lines 51, 64-76). *)
Lemma new_row_entry matrix mi m f e c :
  m < mi → mi ≤ ma_n matrix → gram_inv matrix mi f m e →
  symmetric matrix f → c < ma_n matrix →
  let e' := elem_step matrix m f e in
  pivots_positive (m + 1) e' →
  Lat e' m c
  = residual_entry matrix f m e (permutation e' !!! m) c ⊘ ssqrt (diag_at e' m).
Proof.
  intros Hm Hmi Hinv Hsym Hc e' Hpos.
  pose proof (elem_step_gram_inv matrix mi m f e Hm Hmi Hinv) as Hinv'.
  pose proof (gi_wf _ _ _ _ _ Hinv) as Hwf.
  pose proof (gi_wf _ _ _ _ _ Hinv') as Hwf'. fold e' in Hinv', Hwf'.
  destruct (pivots_positive_exact _ _ Hpos m) as [Hnz Hsq]; [lia|].
  assert (permutation e' !!! m < ma_n matrix) as Hp
    by (apply perm_lookup_total_lt; [apply Hwf'|lia]).
  destruct (perm_position _ _ c (wf_perm _ _ _ Hwf') Hc) as (t & Ht & <-).
  destruct (Nat.lt_trichotomy t m) as [Hlt|[->|Hgt]].
  - unfold Lat at 1. rewrite (gi_tri _ _ _ _ _ Hinv' m t) by lia.
    rewrite (residual_entry_sym matrix f m e Hsym _ _ Hp)
      by (apply perm_lookup_total_lt; [apply Hwf'|lia]).
    unfold e'. rewrite (elem_step_perm_lookup matrix mi m f e t) by done.
    rewrite (residual_entry_pivot matrix mi f m e t); try done; [by field|..|lia].
    eapply pivots_positive_exact, pivots_positive_before; eauto.
  - rewrite (pivot_residual matrix mi) by done. fold e'. unfold Lat.
    rewrite (gi_piv _ _ _ _ _ Hinv' m) by lia. fold (diag_at e' m).
    rewrite <-Hsq at 2. by field.
  - unfold e'. rewrite (elem_step_Lat_later matrix mi m f e t) by done.
    by rewrite <-(elem_step_diag_at_pivot matrix mi m f e).
Qed.

(** The coordinate chosen by iteration [m] had not been chosen. *)
Lemma new_pivot_unpivoted matrix mi m f e :
  elem_wf (ma_n matrix) mi e → m < mi → mi ≤ ma_n matrix →
  unpivoted (ma_n matrix) (abstraction matrix f m e)
            (permutation (elem_step matrix m f e) !!! m).
Proof.
  intros Hwf Hm Hmi.
  pose proof (wf_perm _ _ _ (elem_step_wf matrix mi m f e Hwf Hm Hmi)) as Hp.
  split; [apply perm_lookup_total_lt; [done|lia]|]. simpl.
  rewrite <-(elem_step_prefix matrix mi m f e m) by done.
  apply (lookup_not_in_take _ (ma_n matrix)); [done|lia].
Qed.

(** The pivots after iteration [m]. *)
Lemma new_pivot_appended matrix mi m f e :
  elem_wf (ma_n matrix) mi e → m < mi → mi ≤ ma_n matrix →
  let e' := elem_step matrix m f e in
  take (m + 1) (permutation e')
  = take m (permutation e) ++ [permutation e' !!! m].
Proof.
  intros Hwf Hm Hmi e'.
  pose proof (wf_perm_length _ _ _ (elem_step_wf matrix mi m f e Hwf Hm Hmi))
    as Hlen. fold e' in Hlen.
  rewrite Nat.add_1_r, (take_S_r _ _ (permutation e' !!! m))
    by (apply list_lookup_lookup_total_lt; lia).
  unfold e'. by rewrite (elem_step_prefix matrix mi m f e m).
Qed.

(** The simulation: an iteration that chose a positive pivot is a step of
    the machine, from the state the element stood for to the state it
    stands for. *)
Lemma elem_step_astep matrix mi m f e :
  m < mi → mi ≤ ma_n matrix → gram_inv matrix mi f m e →
  symmetric matrix f →
  pivots_positive (m + 1) (elem_step matrix m f e) →
  astep (ma_n matrix) (abstraction matrix f m e)
        (abstraction matrix f (m + 1) (elem_step matrix m f e)).
Proof.
  intros Hm Hmi Hinv Hsym Hpos. pose proof (gi_wf _ _ _ _ _ Hinv) as Hwf.
  set (e' := elem_step matrix m f e) in *.
  pose proof (new_pivot_unpivoted matrix mi m f e Hwf Hm Hmi) as Hun.
  destruct (pivots_positive_exact _ _ Hpos m) as [Hnz Hsq]; [lia|].
  apply (astep_pivot _ _ _ (permutation e' !!! m)); simpl;
    rewrite ?(pivot_residual matrix mi) by done; fold e'.
  - done.
  - intros q [Hq Hnot].
    destruct (not_in_take_position _ _ m q (wf_perm _ _ _ Hwf) Hq Hnot)
      as (i & Hi & <-).
    rewrite (residual_entry_diag matrix mi f m m) by (done || lia).
    unfold e'. rewrite (elem_step_diag_at_pivot matrix mi) by done.
    apply (pivot_maximal (ma_n matrix) mi); (done || lia).
  - apply Hpos. lia.
  - by apply (new_pivot_appended matrix mi).
  - intros i j Hi Hj. unfold e'.
    rewrite residual_entry_S, !(new_row_entry matrix mi) by done. fold e'.
    rewrite (residual_entry_sym matrix f m e Hsym i (permutation e' !!! m))
      by (done || apply Hun).
    rewrite <-Hsq at 3. by field.
Qed.

(** The simulation as a diagram: whatever state matches the element
    before the iteration steps to a state that matches it after. *)
Lemma elem_step_simulates matrix mi m f e s :
  m < mi → mi ≤ ma_n matrix → gram_inv matrix mi f m e →
  symmetric matrix f →
  pivots_positive (m + 1) (elem_step matrix m f e) →
  matches matrix f m e s →
  ∃ s', astep (ma_n matrix) s s'
        ∧ matches matrix f (m + 1) (elem_step matrix m f e) s'.
Proof.
  intros Hm Hmi Hinv Hsym Hpos Hs. unfold matches in *.
  eexists. split; [|reflexivity].
  rewrite Hs. by apply (elem_step_astep matrix mi).
Qed.

(** ** The loop is a run of the machine *)

(** The element after [m] iterations is reached by [m] steps of the
    machine from the matrix, when its pivots are positive. *)
Definition refines matrix f m e : Prop :=
  ∃ s, nsteps (astep (ma_n matrix)) m (astart matrix f) s
       ∧ matches matrix f m e s.

(** What the loop maintains: the invariants of the factor, and the run of
    the machine for the elements whose pivots are positive. *)
Record run_inv matrix mi f m e : Prop := {
  ri_m : m ≤ mi ≤ ma_n matrix;
  ri_gram : gram_inv matrix mi f m e;
  ri_run : symmetric matrix f → pivots_positive m e → refines matrix f m e;
}.

Lemma elem_step_run_inv matrix mi m f e :
  m < mi → run_inv matrix mi f m e →
  run_inv matrix mi f (m + 1) (elem_step matrix m f e).
Proof.
  intros Hm [Hle Hinv Hrun]. split; [lia|by apply elem_step_gram_inv; [|lia|]|].
  intros Hsym Hpos. destruct Hrun as (s & Hs & Hmatch); [done|..].
  { apply (pivots_positive_before matrix mi m f); [apply Hinv|lia..|done]. }
  destruct (elem_step_simulates matrix mi m f e s) as (s' & Hstep & Hmatch');
    [lia|lia|done..|].
  exists s'. rewrite Nat.add_1_r. split; [by eapply nsteps_r|].
  by rewrite <-Nat.add_1_r.
Qed.

Lemma final_run_inv matrix max_iter error_tol f e :
  ma_wf matrix →
  st_elems (final_t matrix max_iter error_tol) !! f = Some e →
  run_inv matrix (mi_of matrix max_iter) f
          (st_m (final_t matrix max_iter error_tol)) e.
Proof.
  intros Hwf. revert f e.
  apply (final_t_invariant
    (λ m f e, run_inv matrix (mi_of matrix max_iter) f m e)); [done|..].
  - intros m f e _ Hm _ _. by apply elem_step_run_inv.
  - intros f d Hd Hlen. pose proof (mi_of_le matrix max_iter). split; [lia| |].
    + apply init_elem_gram_inv; [done| |done..].
      rewrite <-(proj1 (proj2 (diag_t_spec matrix Hwf))).
      by eapply lookup_lt_Some.
    + intros _ _. exists (astart matrix f). split; [constructor|].
      apply matches_start.
Qed.

(** Refinement, for the elements whose pivots were positive. *)
Lemma final_refines matrix max_iter error_tol f e :
  ma_wf matrix →
  st_elems (final_t matrix max_iter error_tol) !! f = Some e →
  symmetric matrix f →
  pivots_positive (st_m (final_t matrix max_iter error_tol)) e →
  refines matrix f (st_m (final_t matrix max_iter error_tol)) e.
Proof. intros Hwf He. by apply (final_run_inv matrix max_iter error_tol f e). Qed.

(** ** What the machine tells of the code *)

(** A property of abstract states that the machine preserves, that does
    not depend on the residual outside the coordinates and that holds of
    the matrix holds of the state a refined element stands for. *)
Lemma refines_invariant (Q : astate F → Prop) matrix f m e :
  Proper (aequiv (ma_n matrix) ==> iff) Q →
  (∀ s s', Q s → astep (ma_n matrix) s s' → Q s') →
  Q (astart matrix f) → refines matrix f m e →
  Q (abstraction matrix f m e).
Proof.
  intros HQ Hstep Hstart (s & Hrun & Hs). unfold matches in Hs. rewrite <-Hs.
  clear Hs. induction Hrun as [|k s0 s1 s2 Hs _ IH]; [done|].
  apply IH. by eapply Hstep.
Qed.

(** The state a refined element stands for satisfies the invariant of the
    machine: distinct pivots, a symmetric residual whose rows at the
    pivots are zero. *)
Lemma refines_ainv matrix f m e :
  symmetric matrix f → refines matrix f m e →
  ainv (ma_n matrix) (abstraction matrix f m e).
Proof.
  intros Hsym. apply (refines_invariant (ainv (ma_n matrix)));
    [apply _|by intros; eapply astep_ainv|by apply ainv_init].
Qed.

(** Its residual is positive semi-definite when the matrix is. *)
Lemma refines_psd matrix f m e :
  symmetric matrix f → psd_at matrix f → refines matrix f m e →
  psd_fun (ma_n matrix) (residual_entry matrix f m e).
Proof.
  intros Hsym Hpsd Href.
  apply (refines_invariant
           (λ s, ainv (ma_n matrix) s ∧ apsd (ma_n matrix) s) matrix f m e);
    [|by intros s s' [??] ?; split; [eapply astep_ainv|eapply astep_psd]|
      by split; [apply ainv_init|]|done].
  intros s1 s2 Hs. by rewrite Hs.
Qed.
(** ** The function *)

(** C6.  Refinement of the abstract factorisation, for batches: for every
    symmetric positive definite matrix of the batch, the [m] iterations
    the function made are [m] steps of the greedy deflation from the
    matrix itself, each choosing an unchosen coordinate whose residual
    diagonal is positive and largest, and the state reached holds the
    residual [A - L[:m]' L[:m]] of the rows returned and, as its pivots,
    the first [m] entries of the permutation. *)
Theorem positive_definite_refinement matrix max_iter error_tol :
  ma_wf matrix → (0 ≤ max_iter)%Z → 0 < numel (ma_batch_shape matrix) →
  ∃ st, pivoted_cholesky_state matrix max_iter error_tol = Val st ∧
    ∀ f e, st_elems st !! f = Some e →
      symmetric matrix f → pos_def_at matrix f →
      ∃ s, nsteps (astep (ma_n matrix)) (st_m st) (astart matrix f) s
           ∧ matches matrix f (st_m st) e s.
Proof.
  intros Hwf Hmax Hbatch. eexists.
  split; [by apply pivoted_cholesky_state_total|]. intros f e He Hsym Hpd.
  apply (final_refines matrix max_iter error_tol f e); try done.
  by apply (pi_pos _ _ _ _ _ (final_pd_inv matrix max_iter error_tol f e Hwf He)).
Qed.

(** The residual of the final state is zero when the function ran with
    [max_iter >= n] and a tolerance of zero. *)
Lemma final_residual_zero matrix max_iter e r c :
  ma_wf matrix → (Z.of_nat (ma_n matrix) ≤ max_iter)%Z →
  numel (ma_batch_shape matrix) = 1 →
  symmetric matrix 0 → psd_at matrix 0 →
  st_elems (final_t matrix max_iter szero) !! 0 = Some e →
  r < ma_n matrix → c < ma_n matrix →
  residual_entry matrix 0 (st_m (final_t matrix max_iter szero)) e r c = szero.
Proof.
  intros. unfold residual_entry.
  rewrite (final_psd_exact matrix max_iter e r c) by done. ring.
Qed.

(** With [max_iter >= n] and a tolerance of zero, the state the final
    element stands for is one where the machine cannot step. *)
Lemma final_stuck matrix max_iter e :
  ma_wf matrix → (Z.of_nat (ma_n matrix) ≤ max_iter)%Z →
  numel (ma_batch_shape matrix) = 1 →
  symmetric matrix 0 → psd_at matrix 0 →
  st_elems (final_t matrix max_iter szero) !! 0 = Some e →
  stuck (ma_n matrix)
    (abstraction matrix 0 (st_m (final_t matrix max_iter szero)) e).
Proof.
  intros Hwf Hmax Hone Hsym Hpsd He q [Hq _]. simpl.
  rewrite (final_residual_zero matrix max_iter e q q) by done.
  apply ef_le_refl.
Qed.

(** C3.  Refinement of the abstract factorisation, for the input the
    module is written for: a symmetric positive semi-definite matrix,
    factored alone with a tolerance that is not negative.  The iterations
    of the function are a run of the greedy deflation from the matrix, to
    the state that holds the residual of the rows returned and the pivots
    chosen.  With [max_iter >= n] and a tolerance of zero the run is
    complete: it ends in a state where the machine cannot step, where no
    unchosen coordinate has a positive residual diagonal. *)
Theorem psd_refinement matrix max_iter error_tol :
  ma_wf matrix → (0 ≤ max_iter)%Z → numel (ma_batch_shape matrix) = 1 →
  szero ≼ error_tol → symmetric matrix 0 → psd_at matrix 0 →
  ∃ st, pivoted_cholesky_state matrix max_iter error_tol = Val st ∧
    ∀ e, st_elems st !! 0 = Some e →
      ∃ s, nsteps (astep (ma_n matrix)) (st_m st) (astart matrix 0) s
           ∧ matches matrix 0 (st_m st) e s
           ∧ ((Z.of_nat (ma_n matrix) ≤ max_iter)%Z → error_tol = szero →
              stuck (ma_n matrix) s).
Proof.
  intros Hwf Hmax Hone Htol Hsym Hpsd. eexists.
  split; [apply pivoted_cholesky_state_total; (done || lia)|]. intros e He.
  destruct (final_refines matrix max_iter error_tol 0 e) as (s & Hrun & Hs);
    [done..|by destruct (final_psd_inv matrix max_iter error_tol e)|].
  exists s. split_and!; [done..|]. intros Hn ->. unfold matches in Hs.
  rewrite Hs. by apply final_stuck.
Qed.
End simulation.

(** ** Witnesses *)

Lemma positive_definite_refinement_witness :
  ∃ st, pivoted_cholesky_state A22R 2 0%R = Val st ∧
    ∀ e, st_elems st !! 0 = Some e →
      ∃ s, nsteps (astep 2) (st_m st) (astart A22R 0) s
           ∧ matches A22R 0 (st_m st) e s.
Proof.
  destruct (positive_definite_refinement A22R 2 0%R) as (st&Hst&Hall);
    [by apply (bool_decide_unpack _)|lia|simpl; lia|].
  exists st. split; [done|]. intros e He.
  exact (Hall 0 e He A22R_symmetric A22R_pos_def).
Defined.

Lemma psd_refinement_witness :
  ∃ st, pivoted_cholesky_state A22S 2 0%R = Val st ∧
    ∀ e, st_elems st !! 0 = Some e →
      ∃ s, nsteps (astep 2) (st_m st) (astart A22S 0) s
           ∧ matches A22S 0 (st_m st) e s
           ∧ ((2 ≤ 2)%Z → 0%R = 0%R → stuck 2 s).
Proof.
  exact (psd_refinement A22S 2 0%R A22S_wf ltac:(lia) eq_refl
           ltac:(apply R_leb_le, Rle_refl) A22S_symmetric A22S_psd).
Defined.
