(* ===== verification/Pipeline.v ===== *)
(** * Pipeline: the factor of [pivoted_cholesky] used by [woodbury_solve]

    The two halves of the module are written to be used together: the rows
    [L[..., :m, :]] that [pivoted_cholesky] returns for a matrix [A] are
    the low-rank matrix [V] handed to [woodbury_factor] and
    [woodbury_solve], which solve [(diag(shift) + V'V) x = b].

    This file composes the theorems of the two halves, in exact arithmetic
    with an exact square root: for positive shifts the composition never
    raises, and when the factorisation ran to full rank on a symmetric
    matrix with positive pivots the vector returned solves
    [(A + diag(shift)) x = b].  For a symmetric positive definite matrix,
    [max_iter >= n] and a tolerance that is not positive all of that holds
    by itself ([PivotedCholeskyPositive]). *)

From Stdlib Require Import Ring Field Reals Lra.
From S2P Require Import Prelude Scalar ScalarInstances Tensor TensorOrder.
From S2P Require Import MatrixAccess Examples PivotedCholesky PivotedCholeskySpec.
From S2P Require Import PivotedCholeskyProofs PivotedCholeskyInvariants.
From S2P Require Import PivotedCholeskyOrder PivotedCholeskyGram.
From S2P Require Import PivotedCholeskyPositive.
From S2P Require Import Matrix MatrixAlgebra DenseSolver DenseSolverProofs.
From S2P Require Import CholeskyTotal Woodbury WoodburyProofs WoodburyFactorProofs.

Section pipeline.
Context {F : Type} `{ExactSqrt F} {M : Type} `{MatrixAccessLaws F M}.
Implicit Types (matrix : M) (e : elem F) (shift b x : list F) (m n f : nat).

(** Line 82 for one batch element: the [m] rows computed, as the [m x n]
    matrix that the Woodbury functions take. *)
Definition low_rank_of n m e : mat F := Mat m n (slice_to m (L e)).

(** [A + diag(shift)] for the matrix [A] of batch element [f]. *)
Definition regularized matrix f shift : mat F :=
  mat_tab (ma_n matrix) (ma_n matrix)
    (λ i j, (if decide (i = j) then shift !!! i else szero)
            ⊕ entry matrix f i j).

Lemma low_rank_of_wf n mi m e :
  elem_wf n mi e → m ≤ mi → mat_wf (low_rank_of n m e).
Proof.
  intros [Hr Hc _ _] Hm. split; simpl; unfold slice_to.
  - rewrite length_take. lia.
  - by apply Forall_take.
Qed.

Lemma mget_low_rank_of n m e j c :
  j < m → mget (low_rank_of n m e) j c = Lat e j c.
Proof.
  intros Hj. unfold mget, low_rank_of, Lat, slice_to. simpl.
  by rewrite lookup_total_take_lt.
Qed.

(** At full rank the system of [woodbury_solve] is [A + diag(shift)]. *)
Lemma shifted_system_full matrix mi f e shift :
  gram_inv matrix mi f (ma_n matrix) e → pivots_exact (ma_n matrix) e →
  symmetric matrix f →
  shifted_system (low_rank_of (ma_n matrix) (ma_n matrix) e) shift
  = regularized matrix f shift.
Proof.
  intros Hinv Hpp Hsym. apply mat_tab_ext. intros i j Hi Hj. f_equal.
  simpl in Hi, Hj. simpl.
  rewrite <-(gram_all_rows matrix mi f e i j) by done.
  apply ssum_ext. intros l Hl. by rewrite !mget_low_rank_of.
Qed.

(** The composition on the state the factorisation ends in. *)
Lemma pipeline_elem matrix mi f e m shift b :
  m ≤ mi ≤ ma_n matrix → gram_inv matrix mi f m e →
  0 < ma_n matrix → length shift = ma_n matrix → length b = ma_n matrix →
  Forall (λ s, szero ≺ s) shift →
  ∃ R x,
    woodbury_factor (low_rank_of (ma_n matrix) m e) shift = Val R ∧
    woodbury_solve (T1 b) (low_rank_of (ma_n matrix) m e) R shift
    = Val (T1 x) ∧
    (symmetric matrix f → pivots_positive m e → m = ma_n matrix →
     matvec (regularized matrix f shift) x = Val b).
Proof.
  intros Hm Hinv Hn Hs Hb Hpos.
  destruct (factor_then_solve_vec (low_rank_of (ma_n matrix) m e) shift b)
    as (R&HR&Hx&Hsys); [|done..|].
  { eapply low_rank_of_wf; [apply Hinv|lia]. }
  exists R, (solve_t (low_rank_of (ma_n matrix) m e) R shift b).
  split; [done|]. split; [done|].
  intros Hsym Hpp%pivots_positive_exact ->.
  by rewrite <-(shifted_system_full matrix mi f e shift).
Qed.

(** The module end to end, in exact arithmetic: the rows that
    [pivoted_cholesky] computed for any batch element are accepted by
    [woodbury_factor] and [woodbury_solve] with positive shifts, neither
    raises, and when the factorisation ran to full rank on a symmetric
    matrix [A] with positive pivots, the vector returned solves
    [(A + diag(shift)) x = b]. *)
Theorem cholesky_woodbury_pipeline matrix max_iter error_tol shift b :
  ma_wf matrix → (0 ≤ max_iter)%Z → 0 < numel (ma_batch_shape matrix) →
  0 < ma_n matrix → length shift = ma_n matrix → length b = ma_n matrix →
  Forall (λ s, szero ≺ s) shift →
  ∃ st, pivoted_cholesky_state matrix max_iter error_tol = Val st ∧
    ∀ f e, st_elems st !! f = Some e →
      ∃ R x,
        woodbury_factor (low_rank_of (ma_n matrix) (st_m st) e) shift
        = Val R ∧
        woodbury_solve (T1 b) (low_rank_of (ma_n matrix) (st_m st) e) R shift
        = Val (T1 x) ∧
        (symmetric matrix f → pivots_positive (st_m st) e →
         st_m st = ma_n matrix →
         matvec (regularized matrix f shift) x = Val b).
Proof.
  intros Hwf Hmax Hbatch Hn Hs Hb Hpos.
  destruct (final_gram_inv matrix max_iter error_tol) as (st&Hst&Hall);
    [done..|].
  exists st. split; [done|]. intros f e He.
  destruct (Hall f e He) as [Hm Hinv]. by eapply pipeline_elem.
Qed.

(** C7.  The module end to end on a symmetric positive definite matrix
    [A]: with [max_iter >= n], a tolerance that is not positive and
    positive shifts, [pivoted_cholesky] returns a complete factor,
    [woodbury_factor] and [woodbury_solve] accept it without raising, and
    the vector returned solves [(A + diag(shift)) x = b]. *)
Theorem positive_definite_pipeline matrix max_iter error_tol shift b :
  ma_wf matrix → (Z.of_nat (ma_n matrix) ≤ max_iter)%Z →
  0 < numel (ma_batch_shape matrix) → 0 < ma_n matrix →
  error_tol ≼ szero →
  length shift = ma_n matrix → length b = ma_n matrix →
  Forall (λ s, szero ≺ s) shift →
  ∃ st, pivoted_cholesky_state matrix max_iter error_tol = Val st ∧
    ∀ f e, st_elems st !! f = Some e →
      symmetric matrix f → pos_def_at matrix f →
      ∃ R x,
        woodbury_factor (low_rank_of (ma_n matrix) (st_m st) e) shift
        = Val R ∧
        woodbury_solve (T1 b) (low_rank_of (ma_n matrix) (st_m st) e) R shift
        = Val (T1 x) ∧
        matvec (regularized matrix f shift) x = Val b.
Proof.
  intros Hwf Hmax Hbatch Hn Htol Hs Hb Hpos. eexists.
  split; [apply pivoted_cholesky_state_total; (done || lia)|].
  intros f e He Hsym Hpd.
  destruct (final_pd_inv matrix max_iter error_tol f e Hwf He)
    as [Hm Hinv _ Hpp].
  destruct (pipeline_elem matrix _ f e _ shift b Hm Hinv Hn Hs Hb Hpos)
    as (R&x&HR&Hx&Hsys).
  exists R, x. split; [done|]. split; [done|].
  apply Hsys; [done|by apply Hpp|].
  rewrite (pd_runs_to_max_iter matrix max_iter error_tol f e) by done.
  unfold mi_of. lia.
Qed.
End pipeline.

Lemma cholesky_woodbury_pipeline_witness :
  ∃ st, pivoted_cholesky_state A22R 2 (1 / 1000)%R = Val st ∧
    ∀ f e, st_elems st !! f = Some e →
      ∃ R x,
        woodbury_factor (low_rank_of (ma_n A22R) (st_m st) e) [1; 1]%R
        = Val R ∧
        woodbury_solve (T1 [1; 2]%R) (low_rank_of (ma_n A22R) (st_m st) e) R
          [1; 1]%R = Val (T1 x) ∧
        (symmetric A22R f → pivots_positive (st_m st) e →
         st_m st = ma_n A22R →
         matvec (regularized A22R f [1; 1]%R) x = Val [1; 2]%R).
Proof.
  apply (cholesky_woodbury_pipeline A22R 2 (1 / 1000)%R [1; 1]%R [1; 2]%R);
    [by apply (bool_decide_unpack _)|lia|vm_compute; lia|vm_compute; lia
    |done|done|].
  repeat (apply Forall_cons; split; [simpl; apply R_ltb_lt; lra|]).
  by apply Forall_nil.
Defined.

Lemma positive_definite_pipeline_witness :
  ∃ st, pivoted_cholesky_state A22R 2 0%R = Val st ∧
    ∀ e, st_elems st !! 0 = Some e →
      ∃ R x,
        woodbury_factor (low_rank_of 2 (st_m st) e) [1; 1]%R = Val R ∧
        woodbury_solve (T1 [1; 2]%R) (low_rank_of 2 (st_m st) e) R [1; 1]%R
        = Val (T1 x) ∧
        matvec (regularized A22R 0 [1; 1]%R) x = Val [1; 2]%R.
Proof.
  destruct (positive_definite_pipeline A22R 2 0%R [1; 1]%R [1; 2]%R)
    as (st&Hst&Hall);
    [by apply (bool_decide_unpack _)|vm_compute; discriminate|vm_compute; lia
    |vm_compute; lia|apply R_leb_le, Rle_refl|done|done| |].
  - repeat (apply Forall_cons; split; [simpl; apply R_ltb_lt; lra|]).
    by apply Forall_nil.
  - exists st. split; [done|]. intros e He.
    exact (Hall 0 e He A22R_symmetric A22R_pos_def).
Defined.
