(* ===== verification/Preconditioner.v ===== *)
(** * Preconditioner: the factor against the matrix, as quadratic forms

    The rows [L] that [pivoted_cholesky] returns are used in place of the
    matrix [A]: [woodbury_solve] solves [(L'L + diag(shift)) x = b] where
    the caller wants [(A + diag(shift)) x = b].  This file states how far
    the two systems are apart, in exact arithmetic, for a symmetric
    positive semi-definite [A] factored alone with a tolerance that is not
    negative:

    - [z' L'L z <= z' A z] for every vector [z], however the loop ended;
    - when the loop stopped on its tolerance,
      [z' A z <= z' L'L z + error_tol * z'z]: the residual [A - L'L] is
      positive semi-definite and none of its eigenvalues exceeds its
      trace, which the stopping rule of line 42 bounds;
    - the same two bounds hold between the system solved and the system
      meant, and with a tolerance of zero and [max_iter >= n] the two
      systems are the same, also for a singular [A]. *)

From Stdlib Require Import Ring Field Reals Lra.
From S2P Require Import Prelude Scalar ScalarInstances Tensor TensorOrder.
From S2P Require Import MatrixAccess Examples PivotedCholesky PivotedCholeskySpec.
From S2P Require Import PivotedCholeskyProofs PivotedCholeskyInvariants.
From S2P Require Import PivotedCholeskyOrder Matrix MatrixAlgebra.
From S2P Require Import DenseSolver DenseSolverProofs QuadraticForms CholeskyTotal.
From S2P Require Import Woodbury WoodburyProofs WoodburyFactorProofs.
From S2P Require Import PivotedCholeskyGram PivotedCholeskyPositive.
From S2P Require Import PivotedCholeskyResidual PivotedCholeskyPsd Pipeline.

Section forms.
Context {F : Type} `{ExactField F} {M : Type} `{MatrixAccessLaws F M}.
Implicit Types (matrix : M) (e : elem F) (st : state F) (m n mi f : nat).
Implicit Types (z : nat → F).

Add Field precond_field : ef_field.

(** [z' A z] for the matrix of batch element [f]. *)
Definition matrix_form matrix f z : F :=
  bform (ma_n matrix) (entry matrix f) z z.

(** [|L z|^2 = z' L' L z] for the first [m] rows of the factor. *)
Definition factor_form n m e z : F :=
  ssum m (λ j, ssqr (ssum n (λ c, Lat e j c ⊗ z c))).

Lemma residual_form_split matrix f m e z :
  bform (ma_n matrix) (residual_entry matrix f m e) z z
  = matrix_form matrix f z ⊖ factor_form (ma_n matrix) m e z.
Proof.
  exact (bform_res (ma_n matrix) m (entry matrix f) (λ t c, Lat e t c) z z).
Qed.

Lemma residual_sym_at matrix f m e :
  symmetric matrix f → sym_fun (ma_n matrix) (residual_entry matrix f m e).
Proof.
  intros Hsym.
  by apply (res_fun_sym (ma_n matrix) m (entry matrix f) (λ t c, Lat e t c)).
Qed.

Lemma residual_psd_at matrix mi f m e :
  gram_inv matrix mi f m e → pivots_exact m e →
  symmetric matrix f → psd_at matrix f → m ≤ ma_n matrix →
  psd_fun (ma_n matrix) (residual_entry matrix f m e).
Proof.
  intros Hinv Hpp Hsym Hpsd Hm.
  apply (psd_fun_unperm _ _ (permutation e));
    [apply (wf_perm _ _ _ (gi_wf _ _ _ _ _ Hinv))|].
  by eapply residual_perm_psd.
Qed.

Lemma norm2sq_nonneg n z : szero ≼ norm2sq n z.
Proof. apply ssum_nonneg. intros q _. apply (ef_sqr_nonneg (z q)). Qed.

(** The factor never exceeds the matrix, and the matrix exceeds it by at
    most the trace of the residual. *)
Lemma elem_spectral matrix mi f m e z :
  gram_inv matrix mi f m e → pivots_exact m e →
  symmetric matrix f → psd_at matrix f → m ≤ ma_n matrix →
  factor_form (ma_n matrix) m e z ≼ matrix_form matrix f z
  ∧ matrix_form matrix f z
    ≼ factor_form (ma_n matrix) m e z
      ⊕ residual_trace matrix f m e ⊗ norm2sq (ma_n matrix) z.
Proof.
  intros Hinv Hpp Hsym Hpsd Hm.
  pose proof (residual_psd_at matrix mi f m e Hinv Hpp Hsym Hpsd Hm) as Hres.
  pose proof (Hres z) as Hlo.
  pose proof (psd_form_le_trace _ _ z Hres (residual_sym_at matrix f m e Hsym))
    as Hhi.
  rewrite residual_form_split in Hlo. rewrite residual_form_split in Hhi.
  split; [by apply ef_le_of_sub_nonneg|].
  apply (ef_add_le _ _ (factor_form (ma_n matrix) m e z)) in Hhi.
  replace (matrix_form matrix f z ⊖ factor_form (ma_n matrix) m e z
           ⊕ factor_form (ma_n matrix) m e z)
    with (matrix_form matrix f z) in Hhi by ring.
  change (trace_fun (ma_n matrix) (residual_entry matrix f m e))
    with (residual_trace matrix f m e) in Hhi.
  by replace (factor_form (ma_n matrix) m e z
              ⊕ residual_trace matrix f m e ⊗ norm2sq (ma_n matrix) z)
    with (residual_trace matrix f m e ⊗ norm2sq (ma_n matrix) z
          ⊕ factor_form (ma_n matrix) m e z) by ring.
Qed.

(** When the loop has stopped before its bound, the trace of the residual
    is within the tolerance. *)
Lemma stopped_trace_le matrix max_iter error_tol f e :
  ma_wf matrix →
  st_m (final_t matrix max_iter error_tol) < mi_of matrix max_iter →
  st_elems (final_t matrix max_iter error_tol) !! f = Some e →
  symmetric matrix f →
  pivots_exact (st_m (final_t matrix max_iter error_tol)) e →
  residual_trace matrix f (st_m (final_t matrix max_iter error_tol)) e
  ≼ error_tol.
Proof.
  intros Hwf Hm He Hsym Hpp.
  destruct (final_residual_inv matrix max_iter error_tol f e Hwf He)
    as [Hinv Herr].
  pose proof (mi_of_le matrix max_iter) as [Hmi _].
  eapply ef_le_trans; [|by eapply stopped_errors_le].
  apply (residual_trace_le_errors matrix (mi_of matrix max_iter));
    (done || lia).
Qed.

(** The two bounds in the state the loop ends in. *)
Lemma final_spectral matrix max_iter error_tol f e z :
  ma_wf matrix →
  st_elems (final_t matrix max_iter error_tol) !! f = Some e →
  symmetric matrix f → psd_at matrix f →
  pivots_exact (st_m (final_t matrix max_iter error_tol)) e →
  factor_form (ma_n matrix) (st_m (final_t matrix max_iter error_tol)) e z
  ≼ matrix_form matrix f z
  ∧ (st_m (final_t matrix max_iter error_tol) < mi_of matrix max_iter →
     matrix_form matrix f z
     ≼ factor_form (ma_n matrix) (st_m (final_t matrix max_iter error_tol)) e z
       ⊕ error_tol ⊗ norm2sq (ma_n matrix) z).
Proof.
  intros Hwf He Hsym Hpsd Hpp.
  destruct (final_residual_inv matrix max_iter error_tol f e Hwf He)
    as [Hinv _].
  pose proof (mi_of_le matrix max_iter) as [Hmi _].
  pose proof (swf_m _ _ _ (final_t_wf matrix max_iter error_tol Hwf)) as Hle.
  destruct (elem_spectral matrix _ f _ e z Hinv Hpp Hsym Hpsd ltac:(lia))
    as [Hlo Hhi].
  split; [done|]. intros Hm. eapply ef_le_trans; [exact Hhi|].
  apply ef_add_le_l.
  apply ef_mul_le_r; [apply norm2sq_nonneg|by apply stopped_trace_le].
Qed.
End forms.

(** ** The factor as a preconditioner *)

Section precondition.
Context {F : Type} `{ExactSqrt F} {M : Type} `{MatrixAccessLaws F M}.
Implicit Types (matrix : M) (e : elem F) (st : state F) (m n mi f : nat).
Implicit Types (z : nat → F) (shift b x : list F) (V : mat F).

Add Field precond_sqrt_field : ef_field.

(** [z' A z] for a matrix given by its entries. *)
Definition mat_form (A : mat F) z : F := bform (mrows A) (mget A) z z.

(** [z' diag(shift) z]. *)
Definition shift_form n shift z : F := ssum n (λ i, z i ⊗ (shift !!! i ⊗ z i)).

Lemma regularized_form matrix f shift z :
  mat_form (regularized matrix f shift) z
  = shift_form (ma_n matrix) shift z ⊕ matrix_form matrix f z.
Proof.
  unfold mat_form, regularized, matrix_form, shift_form. simpl.
  rewrite (bform_ext _ _
    (λ i j, unit_vec i (shift !!! i) j ⊕ entry matrix f i j) z z z z);
    [|intros; by rewrite mget_mat_tab|done..].
  by rewrite bform_add_fun, bform_diag.
Qed.

Lemma shifted_system_form V shift z :
  mat_form (shifted_system V shift) z
  = shift_form (mcols V) shift z
    ⊕ ssum (mrows V) (λ l, ssqr (ssum (mcols V) (λ c, mget V l c ⊗ z c))).
Proof.
  unfold mat_form, shifted_system, shift_form. simpl.
  rewrite (bform_ext _ _
    (λ i j, unit_vec i (shift !!! i) j
            ⊕ ssum (mrows V) (λ l, mget V l i ⊗ mget V l j)) z z z z);
    [|intros; by rewrite mget_mat_tab|done..].
  by rewrite bform_add_fun, bform_diag, bform_gram.
Qed.

Lemma low_rank_form n m e shift z :
  mat_form (shifted_system (low_rank_of n m e) shift) z
  = shift_form n shift z ⊕ factor_form n m e z.
Proof.
  rewrite shifted_system_form. simpl. f_equal. apply ssum_ext. intros l Hl.
  f_equal. apply ssum_ext. intros c _. by rewrite mget_low_rank_of.
Qed.

(** The factor of a symmetric positive semi-definite matrix,
    factored alone with a tolerance that is not negative, bounds the matrix
    from below as a quadratic form, [|L z|^2 <= z' A z]; and when the loop
    stopped on its tolerance it bounds it from above up to the tolerance,
    [z' A z <= |L z|^2 + error_tol * z'z]. *)
Theorem psd_spectral_bounds matrix max_iter error_tol :
  ma_wf matrix → (0 ≤ max_iter)%Z → numel (ma_batch_shape matrix) = 1 →
  szero ≼ error_tol → symmetric matrix 0 → psd_at matrix 0 →
  ∃ st, pivoted_cholesky_state matrix max_iter error_tol = Val st ∧
    ∀ e z, st_elems st !! 0 = Some e →
      factor_form (ma_n matrix) (st_m st) e z ≼ matrix_form matrix 0 z
      ∧ (st_m st < mi_of matrix max_iter →
         matrix_form matrix 0 z
         ≼ factor_form (ma_n matrix) (st_m st) e z
           ⊕ error_tol ⊗ norm2sq (ma_n matrix) z).
Proof.
  intros Hwf Hmax Hone Htol Hsym Hpsd. eexists.
  split; [apply pivoted_cholesky_state_total; (done || lia)|]. intros e z He.
  destruct (final_psd_inv matrix max_iter error_tol e) as [_ _ Hpos];
    [done..|].
  by apply final_spectral; [..|apply pivots_positive_exact].
Qed.

(** The system solved with the factor of a semi-definite matrix. *)
Lemma psd_pipeline_elem matrix max_iter error_tol e shift b :
  ma_wf matrix → numel (ma_batch_shape matrix) = 1 → 0 < ma_n matrix →
  szero ≼ error_tol → symmetric matrix 0 → psd_at matrix 0 →
  length shift = ma_n matrix → length b = ma_n matrix →
  Forall (λ s, szero ≺ s) shift →
  st_elems (final_t matrix max_iter error_tol) !! 0 = Some e →
  ∃ R x,
    woodbury_factor (low_rank_of (ma_n matrix)
      (st_m (final_t matrix max_iter error_tol)) e) shift = Val R ∧
    woodbury_solve (T1 b) (low_rank_of (ma_n matrix)
      (st_m (final_t matrix max_iter error_tol)) e) R shift = Val (T1 x) ∧
    matvec (shifted_system (low_rank_of (ma_n matrix)
      (st_m (final_t matrix max_iter error_tol)) e) shift) x = Val b.
Proof.
  intros Hwf Hone Hn Htol Hsym Hpsd Hs Hb Hpos He.
  destruct (final_psd_inv matrix max_iter error_tol e) as [Hg _ _]; [done..|].
  pose proof (swf_m _ _ _ (final_t_wf matrix max_iter error_tol Hwf)) as Hle.
  destruct (factor_then_solve_vec (low_rank_of (ma_n matrix)
      (st_m (final_t matrix max_iter error_tol)) e) shift b)
    as (R&HR&Hx&Hsys); [|done..|by eauto].
  eapply low_rank_of_wf; [apply Hg|done].
Qed.

(** C1.  The module end to end on a symmetric positive semi-definite
    matrix [A] factored alone, with a tolerance that is not negative and
    positive shifts: nothing raises, the vector returned solves
    [(L'L + diag(shift)) x = b], and the matrix of that system lies, as a
    quadratic form, between [A + diag(shift) - error_tol * I] and
    [A + diag(shift)] when the loop stopped on its tolerance. *)
Theorem psd_preconditioner matrix max_iter error_tol shift b :
  ma_wf matrix → (0 ≤ max_iter)%Z → numel (ma_batch_shape matrix) = 1 →
  0 < ma_n matrix → szero ≼ error_tol →
  symmetric matrix 0 → psd_at matrix 0 →
  length shift = ma_n matrix → length b = ma_n matrix →
  Forall (λ s, szero ≺ s) shift →
  ∃ st, pivoted_cholesky_state matrix max_iter error_tol = Val st ∧
    ∀ e, st_elems st !! 0 = Some e →
      ∃ R x,
        woodbury_factor (low_rank_of (ma_n matrix) (st_m st) e) shift
        = Val R ∧
        woodbury_solve (T1 b) (low_rank_of (ma_n matrix) (st_m st) e) R shift
        = Val (T1 x) ∧
        matvec (shifted_system (low_rank_of (ma_n matrix) (st_m st) e) shift)
               x = Val b ∧
        ∀ z,
          mat_form (shifted_system (low_rank_of (ma_n matrix) (st_m st) e)
                                   shift) z
          ≼ mat_form (regularized matrix 0 shift) z
          ∧ (st_m st < mi_of matrix max_iter →
             mat_form (regularized matrix 0 shift) z
             ≼ mat_form (shifted_system
                           (low_rank_of (ma_n matrix) (st_m st) e) shift) z
               ⊕ error_tol ⊗ norm2sq (ma_n matrix) z).
Proof.
  intros Hwf Hmax Hone Hn Htol Hsym Hpsd Hs Hb Hpos. eexists.
  split; [apply pivoted_cholesky_state_total; (done || lia)|]. intros e He.
  destruct (psd_pipeline_elem matrix max_iter error_tol e shift b)
    as (R&x&HR&Hx&Hsys); [done..|].
  exists R, x. split; [done|]. split; [done|]. split; [done|]. intros z.
  destruct (final_psd_inv matrix max_iter error_tol e) as [_ _ Hpp];
    [done..|].
  destruct (final_spectral matrix max_iter error_tol 0 e z)
    as [Hlo Hhi]; [done..|by apply pivots_positive_exact|].
  rewrite low_rank_form, regularized_form. split.
  - by apply ef_add_le_l.
  - intros Hm. rewrite <-(ef_field.(F_R).(Radd_assoc)).
    apply ef_add_le_l. by apply Hhi.
Qed.

(** With [max_iter >= n] and a tolerance of zero the vector returned
    for a symmetric positive semi-definite matrix [A] factored alone solves
    [(A + diag(shift)) x = b], also when [A] is singular and the factor
    has fewer than [n] rows. *)
Theorem psd_pipeline matrix max_iter shift b :
  ma_wf matrix → (Z.of_nat (ma_n matrix) ≤ max_iter)%Z →
  numel (ma_batch_shape matrix) = 1 → 0 < ma_n matrix →
  symmetric matrix 0 → psd_at matrix 0 →
  length shift = ma_n matrix → length b = ma_n matrix →
  Forall (λ s, szero ≺ s) shift →
  ∃ st, pivoted_cholesky_state matrix max_iter szero = Val st ∧
    ∀ e, st_elems st !! 0 = Some e →
      ∃ R x,
        woodbury_factor (low_rank_of (ma_n matrix) (st_m st) e) shift
        = Val R ∧
        woodbury_solve (T1 b) (low_rank_of (ma_n matrix) (st_m st) e) R shift
        = Val (T1 x) ∧
        matvec (regularized matrix 0 shift) x = Val b.
Proof.
  intros Hwf Hmax Hone Hn Hsym Hpsd Hs Hb Hpos. eexists.
  split; [apply pivoted_cholesky_state_total; (done || lia)|]. intros e He.
  destruct (psd_pipeline_elem matrix max_iter szero e shift b)
    as (R&x&HR&Hx&Hsys); [done|done|done|apply ef_le_refl|done..|].
  exists R, x. split; [done|]. split; [done|]. rewrite <-Hsys. f_equal.
  apply mat_tab_ext. intros i j Hi Hj. f_equal. symmetry. simpl.
  rewrite <-(final_psd_exact matrix max_iter e i j) by done.
  apply ssum_ext. intros l Hl. by rewrite !mget_low_rank_of.
Qed.
End precondition.

(** ** On the matrix of ones, which is singular *)

Lemma shift2r_pos : Forall (λ s : R, szero ≺ s) [1; 1]%R.
Proof.
  repeat (apply Forall_cons; split; [simpl; apply R_ltb_lt; lra|]).
  by apply Forall_nil.
Qed.

Lemma psd_spectral_bounds_witness :
  ∃ st, pivoted_cholesky_state A22S 2 0%R = Val st ∧
    ∀ e z, st_elems st !! 0 = Some e →
      factor_form 2 (st_m st) e z ≼ matrix_form A22S 0 z
      ∧ (st_m st < mi_of A22S 2 →
         matrix_form A22S 0 z
         ≼ factor_form 2 (st_m st) e z ⊕ 0%R ⊗ norm2sq 2 z).
Proof.
  exact (psd_spectral_bounds A22S 2 0%R A22S_wf ltac:(lia) eq_refl
           ltac:(apply R_leb_le, Rle_refl) A22S_symmetric A22S_psd).
Defined.

Lemma psd_preconditioner_witness :
  ∃ st, pivoted_cholesky_state A22S 2 0%R = Val st ∧
    ∀ e, st_elems st !! 0 = Some e →
      ∃ R x,
        woodbury_factor (low_rank_of 2 (st_m st) e) [1; 1]%R = Val R ∧
        woodbury_solve (T1 [1; 2]%R) (low_rank_of 2 (st_m st) e) R [1; 1]%R
        = Val (T1 x) ∧
        matvec (shifted_system (low_rank_of 2 (st_m st) e) [1; 1]%R) x
        = Val [1; 2]%R ∧
        ∀ z,
          mat_form (shifted_system (low_rank_of 2 (st_m st) e) [1; 1]%R) z
          ≼ mat_form (regularized A22S 0 [1; 1]%R) z
          ∧ (st_m st < mi_of A22S 2 →
             mat_form (regularized A22S 0 [1; 1]%R) z
             ≼ mat_form (shifted_system (low_rank_of 2 (st_m st) e)
                                        [1; 1]%R) z
               ⊕ 0%R ⊗ norm2sq 2 z).
Proof.
  exact (psd_preconditioner A22S 2 0%R [1; 1]%R [1; 2]%R A22S_wf ltac:(lia)
           eq_refl ltac:(vm_compute; lia) ltac:(apply R_leb_le, Rle_refl)
           A22S_symmetric A22S_psd eq_refl eq_refl shift2r_pos).
Defined.

Lemma psd_pipeline_witness :
  ∃ st, pivoted_cholesky_state A22S 2 0%R = Val st ∧
    ∀ e, st_elems st !! 0 = Some e →
      ∃ R x,
        woodbury_factor (low_rank_of 2 (st_m st) e) [1; 1]%R = Val R ∧
        woodbury_solve (T1 [1; 2]%R) (low_rank_of 2 (st_m st) e) R [1; 1]%R
        = Val (T1 x) ∧
        matvec (regularized A22S 0 [1; 1]%R) x = Val [1; 2]%R.
Proof.
  exact (psd_pipeline A22S 2 [1; 1]%R [1; 2]%R A22S_wf
           ltac:(vm_compute; discriminate) eq_refl ltac:(vm_compute; lia)
           A22S_symmetric A22S_psd eq_refl eq_refl shift2r_pos).
Defined.
