(* ===== verification/LazyAccess.v ===== *)
(** * LazyAccess: the [LazyTensor] branch, and matrices that answer alike

    [pivoted_cholesky] accepts a [LazyTensor] (lines 15-17): it calls
    [evaluate_kernel()], takes [_approx_diag()] for the diagonal, and
    [evaluate()]s every row it fetches (lines 59-60).  The class
    [LazyTensor] is outside the sources; [lazy] is the least such object: a
    batch shape, a side length, a function that computes an entry on
    demand, and a function for the diagonal, which [_approx_diag] allows
    to differ from the entries.

    - [lazy_access] is the [MatrixAccess] instance; [lazy_laws] proves the
      laws for a lazy matrix whose diagonal function is exact ([lazy_wf]),
      so every theorem of the factorisation holds of it.
    - [access_eq] relates two matrices, of the same or of different kinds,
      that answer the four queries of the interface alike.  The
      factorisation cannot tell them apart ([pivoted_cholesky_access_eq]);
      on one kind the relation is an equivalence and [pivoted_cholesky] is
      [Proper] for it.
    - [lazy_of_dense] is a dense tensor seen as a lazy one: it answers the
      interface as the tensor does, by construction.

    What is said of the [LazyTensor] branch here is said of this
    stand-in; the class of the package may behave otherwise. *)

From Stdlib Require Import QArith Qcanon.
From S2P Require Import Prelude Scalar ScalarInstances Tensor MatrixAccess.
From S2P Require Import Examples PivotedCholesky Matrix.

(** ** Lazy matrices *)

Record lazy (F : Type) : Type := Lazy {
  l_batch_shape : list nat;
  l_n : nat;
  (** the entry of flat batch element [f] at row [r], column [c] *)
  l_kernel : nat → nat → nat → F;
  (** [_approx_diag()]: the diagonal of flat batch element [f] at [i] *)
  l_approx_diag : nat → nat → F;
}.
Arguments Lazy {F} _ _ _ _.
Arguments l_batch_shape {F} _.
Arguments l_n {F} _.
Arguments l_kernel {F} _ _ _ _.
Arguments l_approx_diag {F} _ _ _.

Section lazy.
Context {F : Type}.
Implicit Types (t : lazy F) (f r c i : nat).

(** Lines 16-17: [matrix.evaluate_kernel()._approx_diag()]. *)
Definition lazy_diag t : res (list (list F)) :=
  Val ((λ f, l_approx_diag t f <$> seq 0 (l_n t))
       <$> seq 0 (numel (l_batch_shape t))).

(** Lines 58-60: the row at a multi-index of the batch, [evaluate()]d. *)
Definition lazy_row t (idx : list nat) r : res (list F) :=
  f ← ravel (l_batch_shape t) idx;
  if decide (r < l_n t) then Val (l_kernel t f r <$> seq 0 (l_n t))
  else Raise IndexError.

Definition lazy_entry t f r c : option F :=
  if decide (f < numel (l_batch_shape t) ∧ r < l_n t ∧ c < l_n t)
  then Some (l_kernel t f r c) else None.

#[export] Instance lazy_access : MatrixAccess F (lazy F) := {|
  ma_batch_shape := l_batch_shape;
  ma_matrix_shape t := (l_n t, l_n t);
  ma_diag := lazy_diag;
  ma_row := lazy_row;
  ma_entry := lazy_entry;
|}.

(** The diagonal function is exact. *)
Definition lazy_wf t : Prop :=
  ∀ f i, f < numel (l_batch_shape t) → i < l_n t →
         l_approx_diag t f i = l_kernel t f i i.

#[export] Program Instance lazy_laws : MatrixAccessLaws F (lazy F) := {|
  ma_wf := lazy_wf;
|}.
Next Obligation. done. Qed.
Next Obligation.
  intros t Hwf. eexists. split; [done|]. unfold ma_n. simpl.
  split; [by rewrite length_fmap, length_seq|]. split.
  - apply Forall_fmap, Forall_forall. intros f _. simpl.
    by rewrite length_fmap, length_seq.
  - intros f v i x Hv Hx.
    apply list_lookup_fmap_Some in Hv as (f'&->&[-> Hf]%lookup_seq).
    apply list_lookup_fmap_Some in Hx as (i'&->&[-> Hi]%lookup_seq).
    unfold lazy_entry. rewrite decide_True by done. by rewrite Hwf.
Qed.
Next Obligation.
  intros t idx f r Hwf Hf Hr. unfold ma_n in *. simpl in *.
  pose proof (ravel_lt _ _ _ Hf) as Hlt.
  eexists. unfold lazy_row. rewrite Hf. res_simpl.
  rewrite decide_True by done. split; [done|].
  split; [by rewrite length_fmap, length_seq|].
  intros c x (c'&->&[-> Hc]%lookup_seq)%list_lookup_fmap_Some.
  unfold lazy_entry. by rewrite decide_True.
Qed.
End lazy.

(** ** Matrices that answer alike *)

Section access_eq.
Context {F : Type} `{Scalar F}.

(** The four queries the factorisation makes have the same answers. *)
Record access_eq {M1 M2 : Type} `{MatrixAccess F M1} `{MatrixAccess F M2}
    (a : M1) (b : M2) : Prop := {
  ae_batch : ma_batch_shape a = ma_batch_shape b;
  ae_shape : ma_matrix_shape a = ma_matrix_shape b;
  ae_diag : ma_diag a = ma_diag b;
  ae_row idx r : ma_row a idx r = ma_row b idx r;
}.

Section two_kinds.
Context {M1 M2 : Type} `{MatrixAccess F M1} `{MatrixAccess F M2}.
Implicit Types (a : M1) (b : M2) (st : state F).

Lemma access_eq_sym a b : access_eq a b → access_eq b a.
Proof. intros [????]. by split. Qed.

Lemma fetch_rows_access_eq a b iters pi_m :
  access_eq a b → fetch_rows a iters pi_m = fetch_rows b iters pi_m.
Proof.
  intros Hab. unfold fetch_rows. apply mapM_res_ext, Forall_forall.
  intros f _. destruct (iters_at iters f); res_simpl; [|done].
  destruct (index pi_m f); res_simpl; [|done]. apply Hab.
Qed.

Lemma step_access_eq a b batch_shape n iters st :
  access_eq a b →
  step a batch_shape n iters st = step b batch_shape n iters st.
Proof.
  intros Hab. unfold step. destruct (mapM _ _); res_simpl; [|done].
  by rewrite (fetch_rows_access_eq a b).
Qed.

Lemma loop_access_eq fuel a b batch_shape n iters max_iter error_tol st :
  access_eq a b →
  loop fuel a batch_shape n iters max_iter error_tol st
  = loop fuel b batch_shape n iters max_iter error_tol st.
Proof.
  intros Hab. revert st. induction fuel as [|fuel IH]; intros st; simpl; [done|].
  destruct (loop_test _ _ _) as [[]|]; res_simpl; [|done..].
  rewrite (step_access_eq a b) by done.
  destruct (step b _ _ _ _); res_simpl; [apply IH|done].
Qed.

Lemma pivoted_cholesky_state_access_eq a b max_iter error_tol :
  access_eq a b →
  pivoted_cholesky_state a max_iter error_tol
  = pivoted_cholesky_state b max_iter error_tol.
Proof.
  intros Hab. unfold pivoted_cholesky_state, ma_n.
  rewrite (ae_batch a b), (ae_shape a b), (ae_diag a b) by done.
  destruct (ma_diag b); res_simpl; [|done].
  destruct (init_state _ _ _ _); res_simpl; [|done].
  by apply loop_access_eq.
Qed.

(** The factorisation cannot tell apart two matrices that answer alike. *)
Lemma pivoted_cholesky_access_eq a b max_iter error_tol :
  access_eq a b →
  pivoted_cholesky a max_iter error_tol = pivoted_cholesky b max_iter error_tol.
Proof.
  intros Hab. unfold pivoted_cholesky.
  by rewrite (pivoted_cholesky_state_access_eq a b).
Qed.
End two_kinds.

(** On one kind of matrix the relation is an equivalence, coarser than
    equality: it does not look at the entries the interface cannot reach. *)
Section one_kind.
Context {M : Type} `{MatrixAccess F M}.

#[export] Instance access_eq_equivalence : Equivalence (access_eq (M1 := M) (M2 := M)).
Proof.
  split.
  - by intros a.
  - intros a b. apply access_eq_sym.
  - intros a b c [????] [????]. split; intros; etrans; eauto.
Qed.

#[export] Instance pivoted_cholesky_proper :
  Proper (access_eq ==> (=) ==> (=) ==> (=)) (pivoted_cholesky (M := M)).
Proof. intros a b Hab ?? -> ?? ->. by apply pivoted_cholesky_access_eq. Qed.

#[export] Instance pivoted_cholesky_state_proper :
  Proper (access_eq ==> (=) ==> (=) ==> (=)) (pivoted_cholesky_state (M := M)).
Proof.
  intros a b Hab ?? -> ?? ->. by apply pivoted_cholesky_state_access_eq.
Qed.
End one_kind.

(** ** A dense tensor as a lazy one *)

(** The lazy matrix that computes its entries by reading [t]. *)
Definition lazy_of_dense (t : dense F) : lazy F :=
  Lazy (d_batch_shape t) (d_cols t)
       (λ f r c, ((d_data t !!! f) !!! r) !!! c)
       (λ f i, ((d_data t !!! f) !!! i) !!! i).

Lemma lazy_of_dense_wf t : lazy_wf (lazy_of_dense t).
Proof. by intros f i _ _. Qed.

Lemma dense_entry_total (t : dense F) f r c x :
  dense_entry t f r c = Some x → ((d_data t !!! f) !!! r) !!! c = x.
Proof.
  unfold dense_entry. intros HA.
  destruct (d_data t !! f) as [A|] eqn:EA; [|done]. simpl in HA.
  destruct (A !! r) as [row|] eqn:Er; [|done]. simpl in HA.
  by rewrite (list_lookup_total_correct _ _ _ EA),
    (list_lookup_total_correct _ _ _ Er), (list_lookup_total_correct _ _ _ HA).
Qed.

Lemma dense_diag_lazy t : dense_wf t → dense_diag t = lazy_diag (lazy_of_dense t).
Proof.
  intros Hwf.
  destruct (@ma_diag_wf F (dense F) _ dense_laws t Hwf)
    as (d&Hd&Hlen&Hrows&Hent).
  unfold ma_n in *. simpl in *. rewrite Hd.
  unfold lazy_diag. f_equal. simpl. rewrite (list_tab d _ Hlen).
  apply tab_ext. intros f Hf.
  destruct (lookup_lt_is_Some_2 d f) as [v Hv]; [lia|].
  rewrite (list_lookup_total_correct _ _ _ Hv).
  pose proof (Forall_lookup_1 _ _ _ _ Hrows Hv) as Hlv. simpl in Hlv.
  rewrite (list_tab v _ Hlv). apply tab_ext. intros i Hi.
  destruct (lookup_lt_is_Some_2 v i) as [x Hx]; [lia|].
  rewrite (list_lookup_total_correct _ _ _ Hx). symmetry.
  by apply dense_entry_total, (Hent f v i x).
Qed.

Lemma dense_row_lazy t idx r :
  dense_wf t → dense_row t idx r = lazy_row (lazy_of_dense t) idx r.
Proof.
  intros Hwf. unfold dense_row, lazy_row. simpl.
  destruct (ravel (d_batch_shape t) idx) as [f|] eqn:Hf; res_simpl; [|done].
  pose proof (ravel_lt _ _ _ Hf) as Hlt.
  destruct (lookup_lt_is_Some_2 (d_data t) f) as [A HA];
    [by rewrite (dwf_batch _ Hwf)|].
  rewrite index_total by by rewrite (dwf_batch _ Hwf). res_simpl.
  rewrite (list_lookup_total_correct _ _ _ HA).
  pose proof (Forall_lookup_1 _ _ _ _ (dwf_rows _ Hwf) HA) as HlA.
  simpl in HlA. rewrite (dwf_square _ Hwf) in HlA.
  case_decide as Hr; [|apply index_Raise; lia].
  rewrite index_total by lia. f_equal. apply list_tab.
  destruct (lookup_lt_is_Some_2 A r) as [row Hrow]; [lia|].
  rewrite (list_lookup_total_correct _ _ _ Hrow).
  by destruct (dense_wf_lookup _ _ _ _ _ Hwf HA Hrow).
Qed.

Lemma lazy_of_dense_access_eq t : dense_wf t → access_eq t (lazy_of_dense t).
Proof.
  intros Hwf. split; simpl.
  - done.
  - by rewrite (dwf_square _ Hwf).
  - by apply dense_diag_lazy.
  - intros idx r. by apply dense_row_lazy.
Qed.

(** A check of the stand-in, not of the loop: [lazy_of_dense] answers the
    interface as the dense tensor does, so the two instances get the same
    factor, or the same exception, whatever the loop computes. *)
Theorem lazy_dense_agree (t : dense F) max_iter error_tol :
  dense_wf t →
  pivoted_cholesky (lazy_of_dense t) max_iter error_tol
  = pivoted_cholesky t max_iter error_tol.
Proof.
  intros Hwf. symmetry.
  by apply pivoted_cholesky_access_eq, lazy_of_dense_access_eq.
Qed.
End access_eq.

(** ** Runs *)

Lemma lazy_dense_agree_witness :
  pivoted_cholesky (lazy_of_dense B233) 3 (qc 1 1000)
  = pivoted_cholesky B233 3 (qc 1 1000).
Proof. apply lazy_dense_agree, B233_wf. Defined.

(** A kernel given by its formula, [K[r, c] = (min(r, c) + 1)^2]: no matrix
    is stored. *)
Definition walk3 : lazy Qc :=
  Lazy [] 3 (λ _ r c, qc (Z.of_nat (r `min` c + 1) ^ 2) 1)
            (λ _ i, qc (Z.of_nat (i + 1) ^ 2) 1).

(** Its first pivot is [K[2, 2] = 9], and the first row of the factor is
    row 2 of [K] divided by 3. *)
Example run_walk3 :
  pivoted_cholesky walk3 1 (qc 0 1) = Val [[[qc 1 3; qc 4 3; qc 3 1]]].
Proof. qc_decide. Qed.

(** [_approx_diag] may differ from the entries.  The pivot of line 56 is
    taken from it, not from the matrix: for the [1 x 1] matrix [(4)] with
    the diagonal reported as 9 the factor is [(3)], and [L' L = 9]. *)
Definition approx1 : lazy Qc := Lazy [] 1 (λ _ _ _, qc 4 1) (λ _ _, qc 9 1).

Example approx_diag_factor :
  pivoted_cholesky approx1 1 (qc 0 1) = Val [[[qc 3 1]]]
  ∧ ¬ lazy_wf approx1.
Proof.
  split; [qc_decide|]. intros Hwf.
  by specialize (Hwf 0 0 ltac:(simpl; lia) ltac:(simpl; lia)).
Qed.
