(* ===== verification/PivotedCholeskyBatch.v ===== *)
(** * PivotedCholeskyBatch: what the batch elements share

    Every tensor operation of the loop body acts on one batch element at a
    time; the elements meet in the loop test only (line 42), which decides
    for all of them together whether another iteration runs.  So the state
    of an element after [k] iterations depends on its own matrix alone
    ([final_elem_run]), and the batch decides nothing but [k]:

    - [elem_run]: [k] iterations on one element, without the batch;
    - [same_element]: two matrices, of any two kinds, that hold the same
      matrix at two batch positions;
    - [batch_rows_independent]: the factor of an element computed in a
      batch is the factor computed for it alone ([dense_select]), whenever
      the two runs made the same number of iterations.

    That the two runs may differ in that number is shown in
    [PivotedCholeskyEdge]. *)

From Stdlib Require Import QArith Qcanon Reals.
From S2P Require Import Prelude Scalar ScalarInstances Tensor MatrixAccess.
From S2P Require Import Examples PivotedCholesky PivotedCholeskySpec.
From S2P Require Import PivotedCholeskyProofs PivotedCholeskyInvariants.
From S2P Require Import PivotedCholeskyOrder Matrix MatrixAlgebra LazyAccess.
From S2P Require Import CholeskyTotal PivotedCholeskyGram PivotedCholeskyPositive.

(** ** One element, without the batch *)

Section elem_run.
Context {F : Type} `{Scalar F} {M : Type} `{MatrixAccessLaws F M}.
Implicit Types (matrix : M) (e : elem F) (f k m : nat).

(** The first [k] iterations of the loop body on batch element [f]. *)
Fixpoint elem_run matrix f (k : nat) (e0 : elem F) : elem F :=
  match k with
  | 0 => e0
  | S k' => elem_step matrix k' f (elem_run matrix f k' e0)
  end.

(** Lines 25-30 for batch element [f]. *)
Definition elem_init matrix (max_iter : Z) f : elem F :=
  init_elem (replicate (mi_of matrix max_iter) (zeros (ma_n matrix)))
            (ma_n matrix) (diag_t matrix !!! f).

(** In the final state every element is the result of its own run. *)
Lemma final_elem_run matrix max_iter error_tol f e :
  ma_wf matrix →
  st_elems (final_t matrix max_iter error_tol) !! f = Some e →
  e = elem_run matrix f (st_m (final_t matrix max_iter error_tol))
               (elem_init matrix max_iter f).
Proof.
  intros Hwf. revert f e.
  apply (final_t_invariant (λ m f e,
    e = elem_run matrix f m (elem_init matrix max_iter f))); [done|..].
  - intros m f e _ _ _ _ ->. by rewrite Nat.add_1_r.
  - intros f d Hd _. unfold elem_init.
    by rewrite (list_lookup_total_correct _ _ _ Hd).
Qed.
End elem_run.

(** ** The same matrix at two batch positions *)

(** Element [f] of [a] and element [g] of [b] have the same size, the same
    diagonal and the same rows. *)
Record same_element {F : Type} `{Scalar F}
    {M1 M2 : Type} `{MatrixAccess F M1} `{MatrixAccess F M2}
    (a : M1) (f : nat) (b : M2) (g : nat) : Prop := {
  se_n : ma_n a = ma_n b;
  se_diag : diag_t a !!! f = diag_t b !!! g;
  se_row r : row_t a f r = row_t b g r;
}.

Section same_element.
Context {F : Type} `{Scalar F}.
Context {M1 M2 : Type} `{MatrixAccessLaws F M1} `{MatrixAccessLaws F M2}.
Implicit Types (a : M1) (b : M2) (e : elem F) (f g k m : nat).

Lemma same_element_sym a f b g : same_element a f b g → same_element b g a f.
Proof. intros [???]. by split. Qed.

Lemma elem_step_same a f b g m e :
  same_element a f b g → elem_step a m f e = elem_step b m g e.
Proof. intros [Hn _ Hrow]. unfold elem_step. by rewrite Hn, Hrow. Qed.

Lemma elem_run_same a f b g k e :
  same_element a f b g → elem_run a f k e = elem_run b g k e.
Proof.
  intros Hab. induction k as [|k IH]; simpl; [done|].
  by rewrite IH, (elem_step_same a f b g).
Qed.

Lemma elem_init_same a f b g max_iter :
  same_element a f b g → elem_init a max_iter f = elem_init b max_iter g.
Proof.
  intros [Hn Hd _]. unfold elem_init, mi_of. by rewrite Hn, Hd.
Qed.

(** Two runs that made the same number of iterations left the element in
    the same state. *)
Lemma final_elem_same a f b g max_iter tol tol' e e' :
  ma_wf a → ma_wf b → same_element a f b g →
  st_elems (final_t a max_iter tol) !! f = Some e →
  st_elems (final_t b max_iter tol') !! g = Some e' →
  st_m (final_t a max_iter tol) = st_m (final_t b max_iter tol') →
  e = e'.
Proof.
  intros Ha Hb Hab He He' Hm.
  rewrite (final_elem_run a max_iter tol f e Ha He),
    (final_elem_run b max_iter tol' g e' Hb He'), Hm.
  by rewrite (elem_run_same a f b g), (elem_init_same a f b g).
Qed.
End same_element.

(** ** A batch element of a dense tensor, alone *)

Section dense_select.
Context {F : Type} `{Scalar F}.
Implicit Types (t : dense F) (f : nat).

Lemma dense_select_data t f :
  f < length (d_data t) → d_data (dense_select t f) = [d_data t !!! f].
Proof.
  intros Hf. unfold dense_select; simpl.
  destruct (lookup_lt_is_Some_2 (d_data t) f Hf) as [A HA].
  rewrite (list_lookup_total_correct _ _ _ HA).
  by rewrite (drop_S _ _ _ HA), firstn_cons, take_0.
Qed.

Lemma dense_select_wf t f :
  dense_wf t → f < numel (d_batch_shape t) → dense_wf (dense_select t f).
Proof.
  intros Hwf Hf. pose proof (dwf_batch _ Hwf) as Hlen.
  destruct (lookup_lt_is_Some_2 (d_data t) f ltac:(lia)) as [A HA].
  split; rewrite ?dense_select_data by lia; simpl; [apply Hwf|done|..];
    rewrite (list_lookup_total_correct _ _ _ HA); apply Forall_singleton.
  - apply (Forall_lookup_1 _ _ _ _ (dwf_rows _ Hwf) HA).
  - apply (Forall_lookup_1 _ _ _ _ (dwf_cols _ Hwf) HA).
Qed.

(** The diagonal of a batch element, entry by entry. *)
Lemma dense_diag_t_lookup t f :
  dense_wf t → f < numel (d_batch_shape t) →
  diag_t t !!! f
  = (λ i, ((d_data t !!! f) !!! i) !!! i) <$> seq 0 (d_cols t).
Proof.
  intros Hwf Hf. unfold diag_t.
  change (ma_diag t) with (dense_diag t). rewrite dense_diag_lazy by done.
  simpl. by rewrite lookup_total_tab.
Qed.

(** A row of a batch element. *)
Lemma dense_row_t t f r :
  dense_wf t → f < numel (d_batch_shape t) →
  row_t t f r = res_default [] (index (d_data t !!! f) r).
Proof.
  intros Hwf Hf. unfold row_t. simpl. unfold dense_row.
  rewrite ravel_unravel by done. res_simpl.
  rewrite index_total by by rewrite (dwf_batch _ Hwf).
  by res_simpl.
Qed.

Lemma dense_select_same t f :
  dense_wf t → f < numel (d_batch_shape t) →
  same_element (dense_select t f) 0 t f.
Proof.
  intros Hwf Hf. pose proof (dense_select_wf t f Hwf Hf) as Hwf'.
  pose proof (dwf_batch _ Hwf) as Hlen.
  split.
  - done.
  - rewrite !dense_diag_t_lookup by (done || simpl; lia).
    by rewrite dense_select_data by lia.
  - intros r. rewrite !dense_row_t by (done || simpl; lia).
    by rewrite dense_select_data by lia.
Qed.

(** The rows returned for an element, and their number. *)
Lemma result_of_lookup (st : state F) f Lf :
  result_of st !! f = Some Lf →
  ∃ e, st_elems st !! f = Some e ∧ Lf = slice_to (st_m st) (L e).
Proof.
  unfold result_of. rewrite list_lookup_fmap.
  destruct (st_elems st !! f) as [e|]; [|done]. intros [= <-]. by exists e.
Qed.

Lemma result_rows (matrix : dense F) mi (st : state F) f e :
  state_wf matrix mi st → st_elems st !! f = Some e →
  length (slice_to (st_m st) (L e)) = st_m st.
Proof.
  intros Hst He. unfold slice_to. rewrite length_take.
  pose proof (Forall_lookup_1 _ _ _ _ (swf_elems _ _ _ Hst) He) as Hwf.
  simpl in Hwf. rewrite (wf_L_rows _ _ _ Hwf).
  pose proof (swf_m _ _ _ Hst). lia.
Qed.

(** C21.  Batch invariance, as far as it holds: the factor computed for
    batch element [f] in the batch is the factor computed for its matrix
    alone, whatever the two tolerances, provided the two runs returned the
    same number of rows. *)
Theorem batch_rows_independent t max_iter tol tol' f Ls Ls' Lf L1 :
  dense_wf t → (0 ≤ max_iter)%Z → f < numel (d_batch_shape t) →
  pivoted_cholesky t max_iter tol = Val Ls →
  pivoted_cholesky (dense_select t f) max_iter tol' = Val Ls' →
  Ls !! f = Some Lf → Ls' !! 0 = Some L1 →
  length Lf = length L1 → Lf = L1.
Proof.
  intros Hwf Hmax Hf. pose proof (dense_select_wf t f Hwf Hf) as Hwf'.
  unfold pivoted_cholesky.
  rewrite !pivoted_cholesky_state_total by (done || simpl; lia).
  intros [= <-] [= <-] (e&He&->)%result_of_lookup (e'&He'&->)%result_of_lookup.
  assert (ma_wf t) as Hw by done.
  assert (ma_wf (dense_select t f)) as Hw' by done.
  rewrite (result_rows t _ _ f e (final_t_wf t max_iter tol Hw) He),
    (result_rows _ _ _ 0 e' (final_t_wf _ max_iter tol' Hw') He').
  intros Hm. rewrite Hm. f_equal. f_equal. symmetry.
  apply (final_elem_same (dense_select t f) 0 t f max_iter tol' tol e' e
           Hw' Hw); [by apply dense_select_same|done|done|by symmetry].
Qed.
End dense_select.

Lemma batch_rows_independent_witness :
  ∃ Ls Ls' Lf L1,
    pivoted_cholesky B233 3 (qc 1 1000) = Val Ls ∧
    pivoted_cholesky (dense_select B233 1) 3 (qc 1 1000) = Val Ls' ∧
    Ls !! 1 = Some Lf ∧ Ls' !! 0 = Some L1 ∧ Lf = L1.
Proof.
  eexists _, _, _, _.
  split_and!; [vm_compute; reflexivity|vm_compute; reflexivity
              |reflexivity|reflexivity|].
  eapply (batch_rows_independent B233 3 (qc 1 1000) (qc 1 1000) 1);
    [exact B233_wf|lia|simpl; lia|vm_compute; reflexivity
    |vm_compute; reflexivity|reflexivity|reflexivity|reflexivity].
Defined.

(** ** Positive definite matrices: the batch changes nothing *)

Section positive_batch.
Context {F : Type} `{ExactSqrt F}.
Context {M1 M2 : Type} `{MatrixAccessLaws F M1} `{MatrixAccessLaws F M2}.
Implicit Types (a : M1) (b : M2) (f g : nat).

Lemma entry_same a f b g r c :
  same_element a f b g → entry a f r c = entry b g r c.
Proof. intros Hab. unfold entry. by rewrite (se_row a f b g Hab). Qed.

Lemma symmetric_same a f b g :
  same_element a f b g → symmetric a f → symmetric b g.
Proof.
  intros Hab Hsym r c Hr Hc. rewrite <-!(entry_same a f b g) by done.
  apply Hsym; by rewrite (se_n a f b g Hab).
Qed.

Lemma pos_def_at_same a f b g :
  same_element a f b g → pos_def_at a f → pos_def_at b g.
Proof.
  intros Hab Hpd z Hz. unfold pos_def_at in Hpd.
  rewrite (se_n a f b g Hab) in Hpd.
  rewrite (ssum_ext _ _ (λ p, z p ⊗ ssum (ma_n b) (λ q, entry a f p q ⊗ z q)));
    [by apply Hpd|].
  intros p _. f_equal. apply ssum_ext. intros q _.
  by rewrite (entry_same a f b g).
Qed.

(** Both runs go to [min(max_iter, n)] iterations and leave the element in
    the same state. *)
Lemma pd_final_elem_same a f b g max_iter tol tol' e e' :
  ma_wf a → ma_wf b → same_element a f b g →
  symmetric a f → pos_def_at a f → tol ≼ szero → tol' ≼ szero →
  st_elems (final_t a max_iter tol) !! f = Some e →
  st_elems (final_t b max_iter tol') !! g = Some e' →
  st_m (final_t a max_iter tol) = st_m (final_t b max_iter tol') ∧ e = e'.
Proof.
  intros Ha Hb Hab Hsym Hpd Htol Htol' He He'.
  assert (st_m (final_t a max_iter tol) = st_m (final_t b max_iter tol'))
    as Hm;
    [|split; [done|by apply (final_elem_same a f b g max_iter tol tol')]].
  rewrite (pd_runs_to_max_iter a max_iter tol f e) by done.
  rewrite (pd_runs_to_max_iter b max_iter tol' g e');
    [|done|done|by apply (symmetric_same a f)
     |by apply (pos_def_at_same a f)|done].
  unfold mi_of. by rewrite (se_n a f b g Hab).
Qed.
End positive_batch.

Section positive_dense.
Context {F : Type} `{ExactSqrt F}.
Implicit Types (t : dense F) (f : nat).

(** C20.  Batch invariance for positive definite matrices: with tolerances
    that are not positive, the factor returned for a symmetric positive
    definite element of a batch is the factor returned for its matrix
    alone. *)
Theorem positive_definite_batch_invariance t max_iter tol tol' f :
  dense_wf t → (0 ≤ max_iter)%Z → f < numel (d_batch_shape t) →
  symmetric t f → pos_def_at t f → tol ≼ szero → tol' ≼ szero →
  ∃ Ls Ls' Lf, pivoted_cholesky t max_iter tol = Val Ls ∧
    pivoted_cholesky (dense_select t f) max_iter tol' = Val Ls' ∧
    Ls !! f = Some Lf ∧ Ls' !! 0 = Some Lf.
Proof.
  intros Hwf Hmax Hf Hsym Hpd Htol Htol'.
  pose proof (dense_select_wf t f Hwf Hf) as Hwf'.
  pose proof (dense_select_same t f Hwf Hf) as Hsame.
  assert (ma_wf t) as Hw by done.
  assert (ma_wf (dense_select t f)) as Hw' by done.
  unfold pivoted_cholesky.
  rewrite !pivoted_cholesky_state_total by (done || simpl; lia).
  destruct (lookup_lt_is_Some_2 (st_elems (final_t t max_iter tol)) f)
    as [e He]; [by rewrite (swf_batch _ _ _ (final_t_wf t _ _ Hw))|].
  destruct (lookup_lt_is_Some_2
    (st_elems (final_t (dense_select t f) max_iter tol')) 0) as [e' He'];
    [rewrite (swf_batch _ _ _ (final_t_wf _ _ _ Hw')); simpl; lia|].
  destruct (pd_final_elem_same t f (dense_select t f) 0 max_iter tol tol' e e')
    as [Hm <-]; [by try apply same_element_sym..|].
  eexists _, _, _. split; [done|]. split; [done|]. unfold result_of.
  by rewrite !list_lookup_fmap, He, He', Hm.
Qed.
End positive_dense.

(** A batch of two real matrices; the first is [A22R]. *)
Definition B22R : dense R :=
  Dense [2] 2 2 [[[4; 2]; [2; 2]]; [[9; 0]; [0; 1]]]%R.

Lemma B22R_wf : dense_wf B22R.
Proof. by apply (bool_decide_unpack _). Qed.

Lemma B22R_first : same_element A22R 0 B22R 0.
Proof.
  change A22R with (dense_select B22R 0).
  apply dense_select_same; [exact B22R_wf|simpl; lia].
Qed.

Lemma positive_definite_batch_invariance_witness :
  ∃ Ls Ls' Lf, pivoted_cholesky B22R 2 0%R = Val Ls ∧
    pivoted_cholesky (dense_select B22R 0) 2 0%R = Val Ls' ∧
    Ls !! 0 = Some Lf ∧ Ls' !! 0 = Some Lf.
Proof.
  apply (positive_definite_batch_invariance B22R 2 0%R 0%R 0);
    [exact B22R_wf|lia|simpl; lia
    |exact (symmetric_same A22R 0 B22R 0 B22R_first A22R_symmetric)
    |exact (pos_def_at_same A22R 0 B22R 0 B22R_first A22R_pos_def)
    |apply R_leb_le, Rle_refl..].
Defined.
