(* ===== verification/PipelineBatch.v ===== *)
(** * PipelineBatch: the module on a batch, end to end

    The control flow the specification describes (section 2): the caller
    obtains [L] from [pivoted_cholesky], passes it as the low-rank matrix
    to [woodbury_factor] with a shift, and reuses the factor [R] in
    [woodbury_solve].  [preconditioned_solve] is that sequence of calls on
    operands with batch dimensions: the value of line 82 keeps the batch
    shape of the matrix, and the two Woodbury functions act on batches
    ([WoodburyBatch]).

    For a batch of symmetric positive definite matrices, [max_iter >= n], a
    tolerance that is not positive and positive shifts, nothing raises and
    the element [f] of the result solves [(A_f + diag(shift_f)) X = B_f],
    in exact arithmetic. *)

From Stdlib Require Import Ring Field QArith Qcanon Reals Lra.
From S2P Require Import Prelude Scalar ScalarInstances Tensor TensorOrder.
From S2P Require Import MatrixAccess Examples PivotedCholesky PivotedCholeskySpec.
From S2P Require Import PivotedCholeskyProofs PivotedCholeskyInvariants.
From S2P Require Import PivotedCholeskyOrder Matrix MatrixAlgebra.
From S2P Require Import DenseSolver DenseSolverProofs QuadraticForms CholeskyTotal.
From S2P Require Import Batch Woodbury WoodburyProofs WoodburyFactorProofs WoodburyBatch.
From S2P Require Import PivotedCholeskyGram PivotedCholeskyPositive Pipeline.
From S2P Require Import PivotedCholeskyBatch.

Section program.
Context {F : Type} `{Scalar F} `{!DenseSolver F} {M : Type} `{!MatrixAccess F M}.

(** The tensor [L[..., :m, :]] of line 82 as a batch of matrices: its
    batch shape is that of the matrix, each element has the rows computed
    and [n] columns. *)
Definition as_batch (matrix : M) (Ls : list (list (list F))) : batch (mat F) :=
  Batch (ma_batch_shape matrix)
        ((λ rows, Mat (length rows) (ma_n matrix) rows) <$> Ls).

(** The three calls in the order of the specification. *)
Definition preconditioned_solve (matrix : M) (max_iter : Z) (error_tol : F)
    (shift : batch (list F)) (vector : batch (mat F)) : res (batch (mat F)) :=
  L ← pivoted_cholesky matrix max_iter error_tol;
  R ← woodbury_factor_batch (as_batch matrix L) shift;
  woodbury_solve_batch vector (as_batch matrix L) R shift.
End program.

Section tabulate.
Context {A B : Type}.

(** A list mapped, as the table of its positions. *)
Lemma fmap_tab (g : A → B) (d : B) (l : list A) :
  g <$> l = (λ f, from_option g d (l !! f)) <$> seq 0 (length l).
Proof.
  apply list_eq. intros i. rewrite !list_lookup_fmap.
  destruct (l !! i) as [x|] eqn:Hi; simpl.
  - rewrite lookup_seq_lt by (by eapply lookup_lt_Some). simpl.
    by rewrite Hi.
  - by rewrite lookup_seq_ge by (by apply lookup_ge_None).
Qed.
End tabulate.

Section batch_pipeline.
Context {F : Type} `{ExactSqrt F} {M : Type} `{MatrixAccessLaws F M}.
Implicit Types (matrix : M) (e : elem F) (st : state F) (m n mi f : nat).
Implicit Types (s : nat → list F) (B : nat → mat F).

(** The factor of batch element [f] in a state. *)
Definition factor_at n st f : mat F :=
  from_option (low_rank_of n (st_m st)) (Mat 0 0 []) (st_elems st !! f).

Lemma as_batch_result matrix mi st :
  state_wf matrix mi st →
  as_batch matrix (result_of st)
  = batch_tab (ma_batch_shape matrix) (numel (ma_batch_shape matrix))
              (factor_at (ma_n matrix) st).
Proof.
  intros [Hel Hb Hm _]. unfold as_batch, batch_tab, result_of. f_equal.
  rewrite <-list_fmap_compose, (fmap_tab _ (Mat 0 0 [])), Hb.
  apply list_fmap_ext. intros i ? [-> Hi]%lookup_seq. unfold factor_at.
  simpl. destruct (st_elems st !! i) as [e|] eqn:He; [|done]. simpl.
  unfold low_rank_of, slice_to. f_equal. rewrite length_take.
  pose proof (wf_L_rows _ _ _ (Forall_lookup_1 _ _ _ _ Hel He)). lia.
Qed.

(** The factor of a positive definite element, run to full rank: an
    [n x n] matrix whose system is [A + diag(shift)]. *)
Lemma pd_factor_at matrix max_iter error_tol f :
  ma_wf matrix → (Z.of_nat (ma_n matrix) ≤ max_iter)%Z → error_tol ≼ szero →
  f < numel (ma_batch_shape matrix) →
  symmetric matrix f → pos_def_at matrix f →
  mat_wf (factor_at (ma_n matrix) (final_t matrix max_iter error_tol) f)
  ∧ mrows (factor_at (ma_n matrix) (final_t matrix max_iter error_tol) f)
    = ma_n matrix
  ∧ mcols (factor_at (ma_n matrix) (final_t matrix max_iter error_tol) f)
    = ma_n matrix
  ∧ ∀ shift,
      shifted_system
        (factor_at (ma_n matrix) (final_t matrix max_iter error_tol) f) shift
      = regularized matrix f shift.
Proof.
  intros Hwf Hmax Htol Hf Hsym Hpd.
  pose proof (final_t_wf matrix max_iter error_tol Hwf) as Hst.
  destruct (lookup_lt_is_Some_2 (st_elems (final_t matrix max_iter error_tol))
    f) as [e He]; [by rewrite (swf_batch _ _ _ Hst)|].
  destruct (final_pd_inv matrix max_iter error_tol f e Hwf He)
    as [Hm Hinv _ Hpp].
  pose proof (pd_runs_to_max_iter matrix max_iter error_tol f e Hwf He Hsym
    Hpd Htol) as Hrun.
  assert (mi_of matrix max_iter = ma_n matrix) as Hmi by (unfold mi_of; lia).
  unfold factor_at. rewrite He. simpl. rewrite Hrun, Hmi in *.
  split; [eapply low_rank_of_wf; [apply Hinv|done]|].
  split; [done|]. split; [done|]. intros shift.
  eapply shifted_system_full; [done| |done].
  by apply pivots_positive_exact, Hpp.
Qed.

(** C2.  The module end to end on a batch: for symmetric positive
    definite matrices, [max_iter >= n], a tolerance that is not positive,
    positive shifts and right-hand sides of shape [n x t], the three calls
    raise nothing, the result has the batch shape of the matrix, and its
    element [f] solves [(A_f + diag(shift_f)) X = B_f]. *)
Theorem positive_definite_batch_pipeline matrix max_iter error_tol s B t :
  ma_wf matrix → (Z.of_nat (ma_n matrix) ≤ max_iter)%Z →
  0 < numel (ma_batch_shape matrix) → 0 < ma_n matrix → error_tol ≼ szero →
  (∀ f, f < numel (ma_batch_shape matrix) →
        symmetric matrix f ∧ pos_def_at matrix f) →
  (∀ f, f < numel (ma_batch_shape matrix) →
        length (s f) = ma_n matrix ∧ Forall (λ z, szero ≺ z) (s f)) →
  (∀ f, f < numel (ma_batch_shape matrix) →
        mat_wf (B f) ∧ mrows (B f) = ma_n matrix ∧ mcols (B f) = t) →
  ∃ Xb,
    preconditioned_solve matrix max_iter error_tol
      (batch_tab (ma_batch_shape matrix) (numel (ma_batch_shape matrix)) s)
      (batch_tab (ma_batch_shape matrix) (numel (ma_batch_shape matrix)) B)
    = Val Xb
    ∧ b_shape Xb = ma_batch_shape matrix
    ∧ length (b_elems Xb) = numel (ma_batch_shape matrix)
    ∧ ∀ f X, b_elems Xb !! f = Some X →
        matmul (regularized matrix f (s f)) X = Val (B f).
Proof.
  intros Hwf Hmax Hb Hn Htol Hpd Hs HB.
  pose proof (λ f Hf, pd_factor_at matrix max_iter error_tol f Hwf Hmax Htol
    Hf (proj1 (Hpd f Hf)) (proj2 (Hpd f Hf))) as HV.
  destruct (batch_factor_solve_total (ma_batch_shape matrix)
    (numel (ma_batch_shape matrix)) (ma_n matrix) (ma_n matrix) t
    (factor_at (ma_n matrix) (final_t matrix max_iter error_tol)) B s
    (batch_tab (ma_batch_shape matrix) (numel (ma_batch_shape matrix)) s))
    as (HR&HX&Ha); [done|done|done| |done|done|apply broadcasts_as_tab|].
  { intros f Hf. destruct (HV f Hf) as (?&?&?&_). done. }
  unfold preconditioned_solve, pivoted_cholesky.
  rewrite pivoted_cholesky_state_total by (done || lia). res_simpl.
  rewrite (as_batch_result matrix (mi_of matrix max_iter))
    by (by apply final_t_wf).
  rewrite HR. res_simpl. rewrite HX. eexists. split; [done|].
  split; [done|]. split; [simpl; by rewrite length_fmap, length_seq|].
  intros f X [Hf ->]%batch_tab_lookup.
  destruct (HV f Hf) as (?&?&?&<-), (Hs f Hf) as [??], (HB f Hf) as (?&?&?).
  apply solve_factor_b_correct; (done || congruence).
Qed.
End batch_pipeline.

(** ** Two real matrices with two shifts each *)

Lemma B22R_symmetric f : f < 2 → symmetric B22R f.
Proof.
  intros Hf. destruct f as [|[|f]]; [| |lia];
    intros [|[|r]] [|[|c]] Hr Hc; try (exfalso; simpl in *; lia); reflexivity.
Qed.

Lemma B22R_pos_def f : f < 2 → pos_def_at B22R f.
Proof.
  intros Hf. destruct f as [|[|f]]; [| |lia].
  { exact (pos_def_at_same A22R 0 B22R 0 B22R_first A22R_pos_def). }
  intros z (p&Hp&Hz). apply R_ltb_lt.
  change (ma_n B22R) with 2 in *. rewrite !ssum_S, !ssum_0. cbn.
  change (entry B22R 1 0 0) with 9%R. change (entry B22R 1 0 1) with 0%R.
  change (entry B22R 1 1 0) with 0%R. change (entry B22R 1 1 1) with 1%R.
  assert (z 0%nat ≠ 0%R ∨ z 1%nat ≠ 0%R) as Hnz
    by (destruct p as [|[|p]]; [by left|by right|lia]).
  clear Hz Hp. generalize dependent (z 1%nat). generalize dependent (z 0%nat).
  intros a c [Hz|Hz]; apply Rsqr_pos_lt in Hz; unfold Rsqr in Hz.
  - pose proof (Rle_0_sqr c) as Hs. unfold Rsqr in Hs. lra.
  - pose proof (Rle_0_sqr a) as Hs. unfold Rsqr in Hs. lra.
Qed.

Definition s2 (f : nat) : list R := if decide (f = 0) then [1; 1]%R else [2; 3]%R.
Definition B21r : mat R := Mat 2 1 [[1]; [2]]%R.

Lemma B21r_wf : mat_wf B21r.
Proof. by apply (bool_decide_unpack _). Qed.

Lemma s2_pos f : length (s2 f) = 2 ∧ Forall (λ z : R, szero ≺ z) (s2 f).
Proof.
  unfold s2. case_decide; (split; [done|]);
    repeat (apply Forall_cons; split; [simpl; apply R_ltb_lt; lra|]);
    by apply Forall_nil.
Qed.

Lemma positive_definite_batch_pipeline_witness :
  ∃ Xb,
    preconditioned_solve B22R 2 0%R (batch_tab [2] 2 s2)
                         (batch_tab [2] 2 (λ _, B21r)) = Val Xb
    ∧ b_shape Xb = [2] ∧ length (b_elems Xb) = 2
    ∧ ∀ f X, b_elems Xb !! f = Some X →
        matmul (regularized B22R f (s2 f)) X = Val B21r.
Proof.
  exact (positive_definite_batch_pipeline B22R 2 0%R s2 (λ _, B21r) 1
           B22R_wf ltac:(vm_compute; discriminate) ltac:(vm_compute; lia)
           ltac:(vm_compute; lia) ltac:(apply R_leb_le, Rle_refl)
           (λ f Hf, conj (B22R_symmetric f Hf) (B22R_pos_def f Hf))
           (λ f _, s2_pos f)
           (λ f _, conj B21r_wf (conj eq_refl eq_refl))).
Defined.

(** ** A run over the rationals

    With a tolerance of 6 the loop stops after one iteration on [B233]:
    the factors are the rows [(1, 2, 3)] and [(0, 2, 0)], and the systems
    solved are [(L'L + diag(shift)) X = B] for these rows, not for the
    matrices.  The shifts are chosen so that the square roots taken by the
    dense solver are rational. *)
Example run_preconditioned_solve :
  preconditioned_solve B233 3 (qc 6 1)
    (Batch [2] [[qc 2 1; qc 2 1; qc 2 1]; [qc 2 1; qc 4 1; qc 2 1]])
    (Batch [2] [Mat 3 1 [[qc 1 1]; [qc 0 1]; [qc 0 1]];
                Mat 3 1 [[qc 5 1]; [qc 6 1]; [qc 4 1]]])
  = Val (Batch [2] [Mat 3 1 [[qc 15 32]; [qc (-1) 16]; [qc (-3) 32]];
                    Mat 3 1 [[qc 5 2]; [qc 3 4]; [qc 2 1]]]).
Proof. qc_decide. Qed.
